(** * CarrierOps dataset generator (tools/generate-dataset.js)

    A shallow embedding of the deterministic generator and of its three
    projections (normalized documents, optimized documents, Postgres CSV),
    with the properties of the specification proved over it.

    Conventions of the embedding:
    - JS numbers that hold integers are [Z]; the 32-bit operations of
      [mulberry32] are written out with their wrap-around, and the one
      place where a double can lose precision ([t += 0x6D2B79F5] past 2^53,
      [rng() * span] for a wide span) goes through [round53].
    - A draw [rng()] is the double [u / 2^32] for a 32-bit [u]; the model
      carries the numerator [u].
    - The closure state of [rng] and the counter object [ids] are threaded
      explicitly through a state monad [M].
    - Instants ([Date] values) are epoch milliseconds; [iso] renders them. *)

From Stdlib Require Import ZArith Lia Ascii.
From stdpp Require Import base tactics option list numbers strings pretty gmap sorting.

Local Open Scope Z_scope.

(** ** Numbers *)

Definition two32 : Z := 4294967296.
Definition two53 : Z := 9007199254740992.

(** ToUint32 of an integer-valued number, the bit pattern every 32-bit
    operator of JS works on. *)
Definition u32 (x : Z) : Z := x mod two32.

(** [Math.imul]: the low 32 bits of the product. *)
Definition imul (a b : Z) : Z := u32 (a * b).

(** Rounding of a non-negative integer to the nearest double (53 bits of
    significand, ties to even): what [+] and [*] on doubles do to an exact
    integer result. *)
Definition round53_pos (x : Z) : Z :=
  let e := Z.max 0 (Z.log2 x - 52) in
  let q := Z.shiftr x e in
  let r := x - Z.shiftl q e in
  let half := Z.shiftl 1 (e - 1) in
  if (0 <? e) && ((half <? r) || ((half =? r) && Z.odd q))
  then Z.shiftl (q + 1) e else Z.shiftl q e.

Definition round53 (x : Z) : Z :=
  if x <? 0 then - round53_pos (- x) else round53_pos x.

(** [Math.floor(rng() * n)] for the draw [u / 2^32]: the product is rounded
    to a double before the floor. *)
Definition mulfloor (u n : Z) : Z := round53 (u * n) / two32.

(** [rng() < num/den] for a decimal literal, compared as rationals.  The
    source compares the draw with the double nearest to the literal;
    [draw_lt_double] shows that both comparisons agree on every draw, for
    each literal of the source. *)
Definition draw_lt (u num den : Z) : bool := u * den <? num * two32.

(** The same comparison against the double [m / 2^e]. *)
Definition double_lt (u m e : Z) : bool := u * 2 ^ e <? m * two32.

(** ** The random source *)

(** One call of the closure returned by [mulberry32]: the new value of
    its variable [t] and the numerator of the draw. *)
Definition mulberry32_step (t : Z) : Z * Z :=
  let t := round53 (t + 1831565813) in
  let t32 := u32 t in
  let r := imul (Z.lxor t32 (Z.shiftr t32 15)) (Z.lor 1 t32) in
  let r := Z.lxor r (u32 (r + imul (Z.lxor r (Z.shiftr r 7)) (Z.lor 61 r))) in
  (t, u32 (Z.lxor r (Z.shiftr r 14))).

(** [mulberry32(seed)]: the initial closure state, [seed >>> 0]. *)
Definition mulberry32 (seed : Z) : Z := u32 seed.

(** ** State: the closure variable of [rng] and the [ids] counters *)

Inductive IdField :=
  | accountId | subscriberId | deviceId | orderId | orderItemId
  | subscriberFeatureStateId | ticketId | noteId | orgUnitId | planId
  | regionId | deviceClassId | deviceEventId | usageRecordId.

Global Instance IdField_eq_dec : EqDecision IdField.
Proof. solve_decision. Defined.

Definition idRanges (f : IdField) : Z :=
  match f with
  | accountId => 1001
  | subscriberId => 2001
  | deviceId => 3001
  | orderId => 4001
  | orderItemId => 4101
  | subscriberFeatureStateId => 6001
  | ticketId => 7001
  | noteId => 8001
  | orgUnitId => 9001
  | planId => 10001
  | regionId => 11001
  | deviceClassId => 12001
  | deviceEventId => 13001
  | usageRecordId => 14001
  end.

Record St := mkSt { rng_t : Z; ids : IdField → Z }.

Definition M (A : Type) : Type := St → A * St.

Definition ret {A} (x : A) : M A := λ s, (x, s).
Definition bind {A B} (m : M A) (k : A → M B) : M B :=
  λ s, let '(x, s') := m s in k x s'.

Notation "'let*' x := m 'in' k" := (bind m (λ x, k))
  (at level 10, x name, m at level 100, k at level 200).
Notation "'let*' ' pat := m 'in' k" := (bind m (λ x, match x with pat => k end))
  (at level 10, pat pattern, m at level 100, k at level 200).

(** [rng()] *)
Definition rng : M Z :=
  λ s, let '(t, u) := mulberry32_step (rng_t s) in (u, mkSt t (ids s)).

(** The object literal with the given value for each counter. *)
Definition tabulate (h : IdField → Z) : IdField → Z :=
  let v1 := h accountId in let v2 := h subscriberId in
  let v3 := h deviceId in let v4 := h orderId in
  let v5 := h orderItemId in let v6 := h subscriberFeatureStateId in
  let v7 := h ticketId in let v8 := h noteId in
  let v9 := h orgUnitId in let v10 := h planId in
  let v11 := h regionId in let v12 := h deviceClassId in
  let v13 := h deviceEventId in let v14 := h usageRecordId in
  λ g, match g with
       | accountId => v1 | subscriberId => v2 | deviceId => v3
       | orderId => v4 | orderItemId => v5
       | subscriberFeatureStateId => v6 | ticketId => v7 | noteId => v8
       | orgUnitId => v9 | planId => v10 | regionId => v11
       | deviceClassId => v12 | deviceEventId => v13 | usageRecordId => v14
       end.

(** [ids.f++] *)
Definition next_id (f : IdField) : M Z :=
  λ s, (ids s f,
        mkSt (rng_t s)
             (tabulate (λ g, if decide (g = f) then ids s g + 1 else ids s g))).

(** [for (const x of xs) out.push(f(x))] *)
Fixpoint mapM {A B} (f : A → M B) (xs : list A) : M (list B) :=
  match xs with
  | [] => ret []
  | x :: xs' => let* y := f x in let* ys := mapM f xs' in ret (y :: ys)
  end.

(** [for (let i = 0; i < n; i++) out.push(f(i))] *)
Definition forM {B} (n : Z) (f : Z → M B) : M (list B) :=
  mapM f (seqZ 0 n).

(** ** Helpers built on the draw *)

Definition choice `{Inhabited A} (arr : list A) : M A :=
  let* u := rng in ret (arr !!! Z.to_nat (mulfloor u (Z.of_nat (length arr)))).

Definition intBetween (min maxInclusive : Z) : M Z :=
  let span := maxInclusive - min + 1 in
  let* u := rng in ret (min + mulfloor u span).

(** The destructuring swap [[a[i], a[j]] = [a[j], a[i]]]. *)
Definition swap {A} (a : list A) (i j : nat) : list A :=
  match a !! i, a !! j with
  | Some x, Some y => <[j:=x]> (<[i:=y]> a)
  | _, _ => a
  end.

Fixpoint shuffle_loop {A} (i : nat) (a : list A) : M (list A) :=
  match i with
  | O => ret a
  | S i' =>
      let* u := rng in
      let j := Z.to_nat (mulfloor u (Z.of_nat i + 1)) in
      shuffle_loop i' (swap a i j)
  end.

Definition shuffle {A} (arr : list A) : M (list A) :=
  shuffle_loop (length arr - 1)%nat arr.


(** [arr.slice(0, n)]: a negative [n] counts from the end. *)
Definition slice0 {A} (n : Z) (arr : list A) : list A :=
  if n <? 0 then take (Z.to_nat (Z.of_nat (length arr) + n)) arr
  else take (Z.to_nat n) arr.

(** [arr.sort(cmp)]: the sort of JS is stable, so for a consistent
    comparator its result is the one of insertion sort. *)
Fixpoint sort_insert {A} (cmp : A → A → Z) (x : A) (l : list A) : list A :=
  match l with
  | [] => [x]
  | y :: l' => if cmp x y <=? 0 then x :: l else y :: sort_insert cmp x l'
  end.

Definition jsSort {A} (cmp : A → A → Z) (l : list A) : list A :=
  foldr (sort_insert cmp) [] l.

(** The default comparator of [sort()] on strings: code-unit order. *)
Definition string_cmp (a b : string) : Z :=
  match String.compare a b with Lt => -1 | Eq => 0 | Gt => 1 end.

(** ** Strings *)

(** [String(n)] for an integer. *)
Definition String_ (n : Z) : string := pretty n.

Fixpoint repeat_char (n : nat) (c : ascii) : string :=
  match n with O => EmptyString | S n' => String c (repeat_char n' c) end.

Definition padStart (s : string) (width : nat) (c : ascii) : string :=
  repeat_char (width - String.length s) c +:+ s.

Definition padNum (n : Z) (width : nat) : string :=
  padStart (String_ n) width "0"%char.

Definition lower_char (c : ascii) : ascii :=
  let n := Ascii.nat_of_ascii c in
  if ((65 <=? n) && (n <=? 90))%nat then Ascii.ascii_of_nat (n + 32) else c.

Fixpoint toLowerCase (s : string) : string :=
  match s with
  | EmptyString => EmptyString
  | String c s' => String (lower_char c) (toLowerCase s')
  end.

(** ** Instants *)

Definition dayMs : Z := 24 * 60 * 60 * 1000.

(** [new Date('2026-01-18T00:00:00Z').getTime()] *)
Definition base : Z := 1768694400000.

Definition pad2 (n : Z) : string := padNum n 2.

(** Civil date of a day number counted from 1970-01-01 (proleptic
    Gregorian calendar, as [Date] uses). *)
Definition civil_from_days (z : Z) : Z * Z * Z :=
  let z := z + 719468 in
  let era := z / 146097 in
  let doe := z - era * 146097 in
  let yoe := (doe - doe / 1460 + doe / 36524 - doe / 146096) / 365 in
  let y := yoe + era * 400 in
  let doy := doe - (365 * yoe + yoe / 4 - yoe / 100) in
  let mp := (5 * doy + 2) / 153 in
  let d := doy - (153 * mp + 2) / 5 + 1 in
  let m := if mp <? 10 then mp + 3 else mp - 9 in
  (if m <=? 2 then y + 1 else y, m, d).

(** [toISOString()] for an instant with a four-digit year. *)
Definition toISOString (ms : Z) : string :=
  let '(y, m, d) := civil_from_days (ms / dayMs) in
  let r := ms mod dayMs in
  padNum y 4 +:+ "-" +:+ pad2 m +:+ "-" +:+ pad2 d +:+ "T" +:+
  pad2 (r / 3600000) +:+ ":" +:+ pad2 (r / 60000 mod 60) +:+ ":" +:+
  pad2 (r / 1000 mod 60) +:+ "." +:+ padNum (r mod 1000) 3 +:+ "Z".

(** [iso(dt)]: [toISOString().replace('.000Z', 'Z')]. The only place
    where ['.000Z'] can occur in the rendering is its end. *)
Definition iso (ms : Z) : string :=
  if ms mod 1000 =? 0
  then String.substring 0 19 (toISOString ms) +:+ "Z"
  else toISOString ms.

(** ** Size presets *)

Module Cfg.
Record t := mk {
    accounts : Z;
    subsPerAccountMin : Z; subsPerAccountMax : Z;
    ordersPerAccountMin : Z; ordersPerAccountMax : Z;
    itemsPerOrderMin : Z; itemsPerOrderMax : Z;
    ticketsPerSubscriberMin : Z; ticketsPerSubscriberMax : Z;
    deviceEventsPerDeviceMin : Z; deviceEventsPerDeviceMax : Z;
    usageRecordsPerSubscriber : Z;
    days : Z;
    embedFeatureCodes : bool;
  }.
End Cfg.

Definition presets (size : string) : Cfg.t :=
  if String.eqb size "S" then
    Cfg.mk 3 2 2 1 2 2 3 0 1 3 6 10 2 true
  else if String.eqb size "M" then
    Cfg.mk 25 2 5 1 4 2 5 0 2 20 60 250 7 true
  else (* L *)
    Cfg.mk 200 2 6 1 5 2 6 0 2 200 600 2500 30 true.

(** ** Vocabulary *)

Definition REGION_CODES : list string := ["TX-NORTH"; "TX-SOUTH"].

Definition ACCOUNT_NAMES : list string :=
  ["Oak Hill Coffee Co"; "Red River Hardware"; "Pecan Street Apartments";
   "Bluebonnet Clinic"; "Cedar Ridge Auto"; "Trinity Bookshop"].

Definition DEVICE_MODELS : list string :=
  ["Pixel 8"; "Pixel 7a"; "iPhone 15"; "iPhone 14"; "Galaxy S24"; "Galaxy A54"].

Module Sku.
Record t := mk { sku : string; priceCents : Z }.
End Sku.

Definition ORDER_SKUS : list Sku.t :=
  [Sku.mk "SIM-ESIM" 0; Sku.mk "SIM-PHYSICAL" 500;
   Sku.mk "PLAN-UNL-5G" 6500; Sku.mk "PLAN-5G-STARTER" 4500;
   Sku.mk "ADDON-HOTSPOT" 1000; Sku.mk "ADDON-INTL_ROAM" 1500;
   Sku.mk "ADDON-DEVICE_PROTECT" 1700; Sku.mk "DEVICE-PHONE" 79900].

Module Feature.
Record t := mk { featureId : Z; code : string; name : string }.
End Feature.

Definition FEATURE_DEFS : list Feature.t :=
  [Feature.mk 5001 "HOTSPOT" "Mobile Hotspot";
   Feature.mk 5002 "INTL_ROAM" "International Roaming Pack";
   Feature.mk 5003 "DEVICE_PROTECT" "Device Protection";
   Feature.mk 5004 "VISUAL_VM" "Visual Voicemail"].

Module TicketStatusCode.
Record t := mk { code : string; description : string }.
End TicketStatusCode.

Definition TICKET_STATUS : list TicketStatusCode.t :=
  [TicketStatusCode.mk "OPEN" "Open / Investigating";
   TicketStatusCode.mk "WIP" "Work in Progress";
   TicketStatusCode.mk "RESOLVED" "Resolved"].

Definition TICKET_SUMMARIES : list string :=
  ["Intermittent data connectivity in downtown area";
   "Unable to activate device after SIM swap";
   "Voicemail not syncing";
   "Roaming add-on stuck in provisioning";
   "High latency during evening hours";
   "Dropped calls reported near highway corridor"].

Definition NOTE_AUTHORS : list string :=
  ["opsAgent7"; "netOps2"; "care1"; "care2"; "fulfill3"; "netOps4"].

(** ** Canonical entities *)

Module Plan.
Record t := mk { planId : Z; code : string; name : string }.
End Plan.

Module Region.
Record t := mk { regionId : Z; code : string }.
End Region.

Module DeviceClass.
Record t := mk { deviceClassId : Z; code : string }.
End DeviceClass.

Module OrgUnit.
Record t := mk { orgUnitId : Z; name : string; parentOrgUnitId : option Z }.
End OrgUnit.

Module Rate.
Record t := mk { planId : Z; regionId : Z; deviceClassId : Z; rateCents : Z }.
End Rate.

Module Account.
Record t := mk {
    accountId : Z; accountNumber : string; name : string;
    billingRegionCode : string; status : string; createdAt : Z }.
End Account.

Module Subscriber.
Record t := mk {
    subscriberId : Z; accountId : Z; msisdn : string; status : string;
    createdAt : Z }.
End Subscriber.

Module Preferences.
Record t := mk { marketingOptIn : bool; paperlessBilling : bool }.
End Preferences.

Module SubscriberProfile.
Record t := mk {
    subscriberId : Z; firstName : string; lastName : string; email : string;
    dob : string; piiLast4Ssn : string; preferences : Preferences.t;
    updatedAt : Z }.
End SubscriberProfile.

Module Device.
Record t := mk {
    deviceId : Z; subscriberId : Z; imei : string; model : string;
    createdAt : Z }.
End Device.

Module Order.
Record t := mk { orderId : Z; accountId : Z; status : string; createdAt : Z }.
End Order.

Module OrderItem.
Record t := mk {
    orderItemId : Z; orderId : Z; sku : string; qty : Z; priceCents : Z }.
End OrderItem.

Module SubscriberFeature.
Record t := mk { subscriberId : Z; featureId : Z }.
End SubscriberFeature.

Module SubscriberFeatureState.
Record t := mk {
    subscriberFeatureStateId : Z; subscriberId : Z; featureId : Z;
    effectiveFrom : Z; effectiveTo : option Z; provisioningState : string;
    source : string }.
End SubscriberFeatureState.

Module Ticket.
Record t := mk {
    ticketId : Z; subscriberId : Z; statusCode : string; openedAt : Z;
    closedAt : option Z; summary : string }.
End Ticket.

Module Note.
Record t := mk {
    noteId : Z; refType : string; refId : Z; author : string; body : string;
    createdAt : Z }.
End Note.

(** The payload of a device event: one field set per event type. *)
Inductive Payload :=
  | RadioAttach (cellId : string) (rssi : Z)
  | Handover (fromCellId toCellId : string)
  | DataSessionStart (apn ip : string)
  | DataSessionEnd (bytesUp bytesDown : Z)
  | LatencyProbe (p50Ms p95Ms : Z)
  | AttachFail (cause : string)
  | EmptyPayload.

Module DeviceEvent.
Record t := mk {
    deviceEventId : Z; deviceId : Z; eventType : string; ts : Z;
    payload : Payload }.
End DeviceEvent.

Module UsageRecord.
Record t := mk {
    usageRecordId : Z; subscriberId : Z; ts : Z; usageType : string;
    units : Z; ratedCents : Z }.
End UsageRecord.

Module Canonical.
Record t := mk {
    accounts : list Account.t;
    subscribers : list Subscriber.t;
    subscriber_profiles : list SubscriberProfile.t;
    devices : list Device.t;
    device_events : list DeviceEvent.t;
    orders : list Order.t;
    order_items : list OrderItem.t;
    features : list Feature.t;
    subscriber_features : list SubscriberFeature.t;
    subscriber_feature_state : list SubscriberFeatureState.t;
    ticket_status_codes : list TicketStatusCode.t;
    tickets : list Ticket.t;
    notes : list Note.t;
    org_units : list OrgUnit.t;
    plans : list Plan.t;
    regions : list Region.t;
    device_classes : list DeviceClass.t;
    rates : list Rate.t;
    usage_records : list UsageRecord.t;
  }.
End Canonical.

Global Instance Sku_inhabited : Inhabited Sku.t := populate (Sku.mk EmptyString 0).
Global Instance Feature_inhabited : Inhabited Feature.t :=
  populate (Feature.mk 0 EmptyString EmptyString).
Global Instance TicketStatusCode_inhabited : Inhabited TicketStatusCode.t :=
  populate (TicketStatusCode.mk EmptyString EmptyString).

(** ** Generation *)

Definition hourMs : Z := 60 * 60 * 1000.
Definition minuteMs : Z := 60 * 1000.

Definition genPlans : M (list Plan.t) :=
  let* p1 := next_id planId in
  let* p2 := next_id planId in
  ret [Plan.mk p1 "PLAN-UNL-5G" "Unlimited 5G";
       Plan.mk p2 "PLAN-5G-STARTER" "5G Starter"].

Definition genRegions : M (list Region.t) :=
  mapM (λ code, let* r := next_id regionId in ret (Region.mk r code))
       REGION_CODES.

Definition genDeviceClasses : M (list DeviceClass.t) :=
  let* c1 := next_id deviceClassId in
  let* c2 := next_id deviceClassId in
  ret [DeviceClass.mk c1 "PHONE"; DeviceClass.mk c2 "TABLET"].

Definition orgUnits : list OrgUnit.t :=
  [OrgUnit.mk 9001 "Network Ops" None;
   OrgUnit.mk 9002 "Core Network" (Some 9001);
   OrgUnit.mk 9003 "Radio Access Network" (Some 9001);
   OrgUnit.mk 9004 "Customer Care" None;
   OrgUnit.mk 9005 "Field Ops" (Some 9004)].

Definition genRates (plans : list Plan.t) (regions : list Region.t)
    (deviceClasses : list DeviceClass.t) : list Rate.t :=
  p ← plans; r ← regions; dc ← deviceClasses;
  let base := if String.eqb (Plan.code p) "PLAN-UNL-5G" then 6500 else 4500 in
  let regionDelta := if String.eqb (Region.code r) "TX-NORTH" then 0 else -200 in
  let classDelta := if String.eqb (DeviceClass.code dc) "PHONE" then 0 else -1000 in
  [Rate.mk (Plan.planId p) (Region.regionId r) (DeviceClass.deviceClassId dc)
           (base + regionDelta + classDelta)].

Definition genAccounts (cfg : Cfg.t) : M (list Account.t) :=
  forM (Cfg.accounts cfg) (λ i,
    let* aid := next_id accountId in
    let name := ACCOUNT_NAMES !!! Z.to_nat (Z.rem i (Z.of_nat (length ACCOUNT_NAMES))) in
    let* billingRegionCode := choice REGION_CODES in
    let createdAt := base - (Cfg.days cfg + 5) * dayMs + i * 2 * hourMs in
    ret (Account.mk aid ("A-" +:+ String_ aid) name billingRegionCode
                    "active" createdAt)).

Definition firstNames : list string :=
  ["Alex"; "Jordan"; "Casey"; "Taylor"; "Morgan"; "Riley"; "Sam"; "Drew"].
Definition lastNames : list string :=
  ["Bennett"; "Kim"; "Nguyen"; "Reed"; "Patel"; "Santos"; "Carter"; "Lopez"].

Definition genSubscriber (cfg : Cfg.t) (acct : Account.t)
    : M (Subscriber.t * SubscriberProfile.t) :=
  let* sid := next_id subscriberId in
  let msisdn := "+1214555" +:+ padNum (Z.rem sid 10000) 4 in
  let createdAt :=
    base - (Cfg.days cfg + 3) * dayMs + Z.rem sid 20 * 15 * minuteMs in
  let* u := rng in
  let sub := Subscriber.mk sid (Account.accountId acct) msisdn
               (if draw_lt u 1 10 then "suspended" else "active") createdAt in
  let* fn := choice firstNames in
  let* ln := choice lastNames in
  let* dobYear := intBetween 1980 1998 in
  let* dobMonth := intBetween 1 12 in
  let* dobDay := intBetween 1 28 in
  let* h := intBetween 1 12 in
  let updatedAt := base - Cfg.days cfg * dayMs + h * hourMs in
  let* ssn := intBetween 0 9999 in
  let* u1 := rng in
  let* u2 := rng in
  ret (sub,
       SubscriberProfile.mk sid fn ln
         (toLowerCase fn +:+ "." +:+ toLowerCase ln +:+ "@example.com")
         (String_ dobYear +:+ "-" +:+ padNum dobMonth 2 +:+ "-" +:+ padNum dobDay 2)
         (padNum ssn 4)
         (Preferences.mk (draw_lt u1 5 10) (draw_lt u2 7 10))
         updatedAt).

Definition genSubscribers (cfg : Cfg.t) (accounts : list Account.t)
    : M (list (Subscriber.t * SubscriberProfile.t)) :=
  let* groups := mapM (λ acct,
      let* subsCount :=
        intBetween (Cfg.subsPerAccountMin cfg) (Cfg.subsPerAccountMax cfg) in
      forM subsCount (λ _, genSubscriber cfg acct)) accounts in
  ret (concat groups).

Definition genDevices (subscribers : list Subscriber.t) : M (list Device.t) :=
  mapM (λ s,
    let* did := next_id deviceId in
    let imei := "356789012" +:+ padNum did 6 in
    let* model := choice DEVICE_MODELS in
    ret (Device.mk did (Subscriber.subscriberId s) imei model
                   (Subscriber.createdAt s + 30 * minuteMs))) subscribers.

Definition genOrder (cfg : Cfg.t) (acct : Account.t)
    : M (Order.t * list OrderItem.t) :=
  let* oid := next_id orderId in
  let* status := choice ["submitted"; "fulfilled"; "canceled"] in
  let* h := intBetween 1 36 in
  let createdAt := base - Cfg.days cfg * dayMs + h * hourMs in
  let order := Order.mk oid (Account.accountId acct) status createdAt in
  let* itemsCount :=
    intBetween (Cfg.itemsPerOrderMin cfg) (Cfg.itemsPerOrderMax cfg) in
  let* shuffled := shuffle ORDER_SKUS in
  let skus := slice0 itemsCount shuffled in
  let* items := mapM (λ s,
      let* iid := next_id orderItemId in
      ret (OrderItem.mk iid oid (Sku.sku s) 1 (Sku.priceCents s))) skus in
  ret (order, items).

Definition genOrders (cfg : Cfg.t) (accounts : list Account.t)
    : M (list (Order.t * list OrderItem.t)) :=
  let* groups := mapM (λ acct,
      let* oCount :=
        intBetween (Cfg.ordersPerAccountMin cfg) (Cfg.ordersPerAccountMax cfg) in
      forM oCount (λ _, genOrder cfg acct)) accounts in
  ret (concat groups).

Definition genSubscriberFeatures (features : list Feature.t)
    (subscribers : list Subscriber.t) : M (list SubscriberFeature.t) :=
  let* groups := mapM (λ s,
      let* count := intBetween 1 2 in
      let* shuffled := shuffle features in
      let chosen := slice0 count shuffled in
      ret (map (λ f, SubscriberFeature.mk (Subscriber.subscriberId s)
                                          (Feature.featureId f)) chosen))
    subscribers in
  ret (concat groups).

Definition genSubscriberFeatureState (cfg : Cfg.t)
    (subscriberFeatures : list SubscriberFeature.t)
    : M (list SubscriberFeatureState.t) :=
  let* groups := mapM (λ sf,
      let* u := rng in
      if draw_lt u 55 100 then ret [] else
      let* h := intBetween 1 48 in
      let effectiveFrom := base - (Cfg.days cfg + 1) * dayMs + h * hourMs in
      let* u1 := rng in
      let* provisioningState :=
        if draw_lt u1 75 100 then ret "active"
        else choice ["pending"; "active"; "failed"] in
      let* source := choice ["self-serve"; "call-center"; "system"] in
      let* u2 := rng in
      let effectiveTo :=
        if draw_lt u2 15 100 then Some (effectiveFrom + 3 * dayMs) else None in
      let* fid := next_id subscriberFeatureStateId in
      ret [SubscriberFeatureState.mk fid
             (SubscriberFeature.subscriberId sf) (SubscriberFeature.featureId sf)
             effectiveFrom effectiveTo provisioningState source])
    subscriberFeatures in
  ret (concat groups).

Definition genTicket (cfg : Cfg.t) (ticketStatusCodes : list TicketStatusCode.t)
    (s : Subscriber.t) : M Ticket.t :=
  let* tid := next_id ticketId in
  let* st := choice ticketStatusCodes in
  let statusCode := TicketStatusCode.code st in
  let* h := intBetween 1 48 in
  let openedAt := base - Cfg.days cfg * dayMs + h * hourMs in
  let isResolved := String.eqb statusCode "RESOLVED" in
  let* closedAt :=
    if isResolved
    then let* m := intBetween 15 180 in ret (Some (openedAt + m * minuteMs))
    else ret None in
  let* summary := choice TICKET_SUMMARIES in
  ret (Ticket.mk tid (Subscriber.subscriberId s) statusCode openedAt closedAt
                 summary).

Definition genTickets (cfg : Cfg.t) (ticketStatusCodes : list TicketStatusCode.t)
    (subscribers : list Subscriber.t) : M (list Ticket.t) :=
  let* groups := mapM (λ s,
      let* tCount :=
        intBetween (Cfg.ticketsPerSubscriberMin cfg)
                   (Cfg.ticketsPerSubscriberMax cfg) in
      forM tCount (λ _, genTicket cfg ticketStatusCodes s)) subscribers in
  ret (concat groups).

Module NoteRef.
Record t := mk { refType : string; refId : Z }.
End NoteRef.

Definition NOTE_BODIES : list string :=
  ["Investigating."; "Collecting logs."; "Escalated to ops.";
   "Customer contacted."; "Retrying provisioning."; "Monitoring impact."].

Definition genNotes (cfg : Cfg.t) (subscribers : list Subscriber.t)
    (orders : list Order.t) (tickets : list Ticket.t) : M (list Note.t) :=
  let* sh1 := shuffle subscribers in
  let someSubscribers := slice0 (Z.min 4 (Z.of_nat (length subscribers))) sh1 in
  let* sh2 := shuffle orders in
  let someOrders := slice0 (Z.min 3 (Z.of_nat (length orders))) sh2 in
  let* sh3 := shuffle tickets in
  let someTickets := slice0 (Z.min 4 (Z.of_nat (length tickets))) sh3 in
  let noteRefs :=
    map (λ s, NoteRef.mk "subscriber" (Subscriber.subscriberId s)) someSubscribers
    ++ map (λ o, NoteRef.mk "order" (Order.orderId o)) someOrders
    ++ map (λ t, NoteRef.mk "ticket" (Ticket.ticketId t)) someTickets in
  mapM (λ r,
    let* h := intBetween 1 48 in
    let createdAt := base - Cfg.days cfg * dayMs + h * hourMs in
    let* nid := next_id noteId in
    let* author := choice NOTE_AUTHORS in
    let* what := choice NOTE_BODIES in
    ret (Note.mk nid (NoteRef.refType r) (NoteRef.refId r) author
           ("Note on " +:+ NoteRef.refType r +:+ " " +:+ String_ (NoteRef.refId r)
            +:+ ": " +:+ what)
           createdAt)) noteRefs.

Definition eventTypes : list string :=
  ["radio_attach"; "handover"; "data_session_start"; "data_session_end";
   "latency_probe"; "attach_fail"].

Definition genPayload (eventType : string) : M Payload :=
  if String.eqb eventType "radio_attach" then
    let* c := intBetween 100 399 in
    let* r := intBetween 70 100 in
    ret (RadioAttach ("DFW-" +:+ String_ c) (- r))
  else if String.eqb eventType "handover" then
    let* a := intBetween 100 399 in
    let* b := intBetween 100 399 in
    ret (Handover ("DFW-" +:+ String_ a) ("DFW-" +:+ String_ b))
  else if String.eqb eventType "data_session_start" then
    let* a := intBetween 0 255 in
    let* b := intBetween 0 255 in
    let* c := intBetween 1 254 in
    ret (DataSessionStart "carrierops"
           ("10." +:+ String_ a +:+ "." +:+ String_ b +:+ "." +:+ String_ c))
  else if String.eqb eventType "data_session_end" then
    let* up := intBetween 1000000 8000000 in
    let* down := intBetween 3000000 30000000 in
    ret (DataSessionEnd up down)
  else if String.eqb eventType "latency_probe" then
    let* a := intBetween 20 80 in
    let* b := intBetween 100 350 in
    ret (LatencyProbe a b)
  else if String.eqb eventType "attach_fail" then
    let* c := choice ["network_congestion"; "auth_reject"; "radio_no_service"] in
    ret (AttachFail c)
  else ret EmptyPayload.

Definition genDeviceEvent (cfg : Cfg.t) (d : Device.t) : M DeviceEvent.t :=
  let* m := intBetween 1 (Cfg.days cfg * 24 * 60) in
  let ts := base - Cfg.days cfg * dayMs + m * minuteMs in
  let* eventType := choice eventTypes in
  let* payload := genPayload eventType in
  let* eid := next_id deviceEventId in
  ret (DeviceEvent.mk eid (Device.deviceId d) eventType ts payload).

Definition genDeviceEvents (cfg : Cfg.t) (devices : list Device.t)
    : M (list DeviceEvent.t) :=
  let* groups := mapM (λ d,
      let* eCount :=
        intBetween (Cfg.deviceEventsPerDeviceMin cfg)
                   (Cfg.deviceEventsPerDeviceMax cfg) in
      forM eCount (λ _, genDeviceEvent cfg d)) devices in
  ret (concat groups).

(** [Math.ceil(a / b)] for integers [a] and [b > 0]: the quotient of two
    integers below 2^53 is never rounded across an integer. *)
Definition ceil_div (a b : Z) : Z := - ((- a) / b).

Definition ratedCents (usageType : string) (units : Z) : Z :=
  if String.eqb usageType "sms" then 0
  else if String.eqb usageType "voice" then ceil_div units 60 * 4
  else ceil_div units 1024 * 2.

Definition usageTypes : list string := ["voice"; "sms"; "data"].

Definition genUsageRecord (cfg : Cfg.t) (s : Subscriber.t) : M UsageRecord.t :=
  let* m := intBetween 1 (Cfg.days cfg * 24 * 60) in
  let ts := base - Cfg.days cfg * dayMs + m * minuteMs in
  let* usageType := choice usageTypes in
  let* units :=
    if String.eqb usageType "voice" then intBetween 30 600
    else if String.eqb usageType "sms" then intBetween 1 5
    else intBetween 256 10240 in
  let* uid := next_id usageRecordId in
  ret (UsageRecord.mk uid (Subscriber.subscriberId s) ts usageType units
                      (ratedCents usageType units)).

Definition genUsageRecords (cfg : Cfg.t) (subscribers : list Subscriber.t)
    : M (list UsageRecord.t) :=
  let* groups := mapM (λ s,
      forM (Cfg.usageRecordsPerSubscriber cfg) (λ _, genUsageRecord cfg s))
    subscribers in
  ret (concat groups).

(** Comparators of the final sorts. *)
Definition by_key {A} (key : A → Z) (a b : A) : Z := key a - key b.

Definition cmp_subscriberFeature (a b : SubscriberFeature.t) : Z :=
  let d := SubscriberFeature.subscriberId a - SubscriberFeature.subscriberId b in
  if d =? 0 then SubscriberFeature.featureId a - SubscriberFeature.featureId b
  else d.

(** The final sorts and the object that [generateCanonical] returns. *)
Definition assemble (plans : list Plan.t) (regions : list Region.t)
    (deviceClasses : list DeviceClass.t) (rates : list Rate.t)
    (accounts : list Account.t) (subscribers : list Subscriber.t)
    (subscriberProfiles : list SubscriberProfile.t) (devices : list Device.t)
    (orders : list Order.t) (orderItems : list OrderItem.t)
    (features : list Feature.t) (subscriberFeatures : list SubscriberFeature.t)
    (subscriberFeatureState : list SubscriberFeatureState.t)
    (ticketStatusCodes : list TicketStatusCode.t) (tickets : list Ticket.t)
    (notes : list Note.t) (deviceEvents : list DeviceEvent.t)
    (usageRecords : list UsageRecord.t) : Canonical.t :=
  {|
    Canonical.accounts := jsSort (by_key Account.accountId) accounts;
    Canonical.subscribers := jsSort (by_key Subscriber.subscriberId) subscribers;
    Canonical.subscriber_profiles :=
      jsSort (by_key SubscriberProfile.subscriberId) subscriberProfiles;
    Canonical.devices := jsSort (by_key Device.deviceId) devices;
    Canonical.device_events :=
      jsSort (by_key DeviceEvent.deviceEventId) deviceEvents;
    Canonical.orders := jsSort (by_key Order.orderId) orders;
    Canonical.order_items := jsSort (by_key OrderItem.orderItemId) orderItems;
    Canonical.features := features;
    Canonical.subscriber_features :=
      jsSort cmp_subscriberFeature subscriberFeatures;
    Canonical.subscriber_feature_state :=
      jsSort (by_key SubscriberFeatureState.subscriberFeatureStateId)
             subscriberFeatureState;
    Canonical.ticket_status_codes := ticketStatusCodes;
    Canonical.tickets := jsSort (by_key Ticket.ticketId) tickets;
    Canonical.notes := jsSort (by_key Note.noteId) notes;
    Canonical.org_units := orgUnits;
    Canonical.plans := plans;
    Canonical.regions := regions;
    Canonical.device_classes := deviceClasses;
    Canonical.rates := rates;
    Canonical.usage_records :=
      jsSort (by_key UsageRecord.usageRecordId) usageRecords;
  |}.

(** The body of [generateCanonical], run on the state made of the closure
    variable of [rng] and of a fresh [ids] object. *)
Definition generateCanonical_body (cfg : Cfg.t) : M Canonical.t :=
  let* plans := genPlans in
  let* regions := genRegions in
  let* deviceClasses := genDeviceClasses in
  let rates := genRates plans regions deviceClasses in
  let* accounts := genAccounts cfg in
  let* subs := genSubscribers cfg accounts in
  let subscribers := subs.*1 in
  let subscriberProfiles := subs.*2 in
  let* devices := genDevices subscribers in
  let* ords := genOrders cfg accounts in
  let orders := ords.*1 in
  let orderItems := concat (ords.*2) in
  let features := FEATURE_DEFS in
  let* subscriberFeatures := genSubscriberFeatures features subscribers in
  let* subscriberFeatureState :=
    genSubscriberFeatureState cfg subscriberFeatures in
  let ticketStatusCodes := TICKET_STATUS in
  let* tickets := genTickets cfg ticketStatusCodes subscribers in
  let* notes := genNotes cfg subscribers orders tickets in
  let* deviceEvents := genDeviceEvents cfg devices in
  let* usageRecords := genUsageRecords cfg subscribers in
  ret (assemble plans regions deviceClasses rates accounts subscribers
         subscriberProfiles devices orders orderItems features
         subscriberFeatures subscriberFeatureState ticketStatusCodes tickets
         notes deviceEvents usageRecords).

(** [generateCanonical(rng, cfg)] for a closure whose variable holds [t]:
    the graph and the value the variable is left with. *)
Definition generateCanonical (t : Z) (cfg : Cfg.t) : Canonical.t * Z :=
  let '(c, s) := generateCanonical_body cfg (mkSt t idRanges) in (c, rng_t s).

(** The graph of a run: [generateCanonical(mulberry32(seed), presets(size))]. *)
Definition dataset (seed : Z) (size : string) : Canonical.t :=
  fst (generateCanonical (mulberry32 seed) (presets size)).

(** ** Document projections *)

(** A document [{ _id: k, ...r }]. *)
Record WithId (K R : Type) := mkWithId { _id : K; doc : R }.
Arguments mkWithId {K R} _ _.
Arguments _id {K R} _.
Arguments doc {K R} _.

(** A profile without its [subscriberId]: the [rest] of
    [const { subscriberId, ...rest } = prof]. *)
Module ProfileRest.
Record t := mk {
    firstName : string; lastName : string; email : string; dob : string;
    piiLast4Ssn : string; preferences : Preferences.t; updatedAt : Z }.
End ProfileRest.

Module EmbeddedItem.
Record t := mk { orderItemId : Z; sku : string; qty : Z; priceCents : Z }.
End EmbeddedItem.

(** [{ ...s, profile?, featureCodes? }]: an absent property is [None]. *)
Module OptSubscriber.
Record t := mk {
    base : WithId Z Subscriber.t;
    profile : option ProfileRest.t;
    featureCodes : option (list string) }.
End OptSubscriber.

Module OptOrder.
Record t := mk { base : WithId Z Order.t; items : list EmbeddedItem.t }.
End OptOrder.

(** The value of one property of a projection object. *)
Inductive Collection :=
  | CAccounts (l : list (WithId Z Account.t))
  | CSubscribers (l : list (WithId Z Subscriber.t))
  | CSubscriberProfiles (l : list (WithId Z SubscriberProfile.t))
  | CDevices (l : list (WithId Z Device.t))
  | CDeviceEvents (l : list (WithId Z DeviceEvent.t))
  | COrders (l : list (WithId Z Order.t))
  | COrderItems (l : list (WithId Z OrderItem.t))
  | CFeatures (l : list (WithId Z Feature.t))
  | CSubscriberFeatures (l : list (WithId Z SubscriberFeature.t))
  | CSubscriberFeatureState (l : list (WithId Z SubscriberFeatureState.t))
  | CTicketStatusCodes (l : list (WithId string TicketStatusCode.t))
  | CTickets (l : list (WithId Z Ticket.t))
  | CNotes (l : list (WithId Z Note.t))
  | COrgUnits (l : list (WithId Z OrgUnit.t))
  | CPlans (l : list (WithId Z Plan.t))
  | CRegions (l : list (WithId Z Region.t))
  | CDeviceClasses (l : list (WithId Z DeviceClass.t))
  | CRates (l : list (WithId Z Rate.t))
  | CUsageRecords (l : list (WithId Z UsageRecord.t))
  | COptSubscribers (l : list OptSubscriber.t)
  | COptOrders (l : list OptOrder.t).

(** A projection object: its properties in insertion order. *)
Abbreviation Obj := (list (string * Collection)).

Fixpoint obj_get (k : string) (o : Obj) : option Collection :=
  match o with
  | [] => None
  | (k', v) :: o' => if String.eqb k k' then Some v else obj_get k o'
  end.

(** [o.k = v]: an existing property keeps its place. *)
Fixpoint obj_set (k : string) (v : Collection) (o : Obj) : Obj :=
  match o with
  | [] => [(k, v)]
  | (k', v') :: o' =>
      if String.eqb k k' then (k, v) :: o' else (k', v') :: obj_set k v o'
  end.

(** [delete o.k] *)
Definition obj_delete (k : string) (o : Obj) : Obj :=
  filter (λ kv, negb (String.eqb k kv.1) = true) o.

Definition obj_keys (o : Obj) : list string := o.*1.

Definition withId {R} (idField : R → Z) (rows : list R) : list (WithId Z R) :=
  map (λ r, mkWithId (idField r) r) rows.

(** [rows.map(r => ({ _id: seq++, ...r }))]: the documents and the value
    [seq] is left with. *)
Definition withSeq {R} (seq : Z) (rows : list R) : list (WithId Z R) * Z :=
  (imap (λ i r, mkWithId (seq + Z.of_nat i) r) rows,
   seq + Z.of_nat (length rows)).

Definition toMongoNormalized (canonical : Canonical.t) : Obj :=
  let out : Obj := [] in
  let seq := 1 in
  let out := obj_set "accounts"
    (CAccounts (withId Account.accountId (Canonical.accounts canonical))) out in
  let out := obj_set "subscribers"
    (CSubscribers (withId Subscriber.subscriberId
                          (Canonical.subscribers canonical))) out in
  let out := obj_set "subscriber_profiles"
    (CSubscriberProfiles (withId SubscriberProfile.subscriberId
                                 (Canonical.subscriber_profiles canonical))) out in
  let out := obj_set "devices"
    (CDevices (withId Device.deviceId (Canonical.devices canonical))) out in
  let out := obj_set "device_events"
    (CDeviceEvents (withId DeviceEvent.deviceEventId
                           (Canonical.device_events canonical))) out in
  let out := obj_set "orders"
    (COrders (withId Order.orderId (Canonical.orders canonical))) out in
  let out := obj_set "order_items"
    (COrderItems (withId OrderItem.orderItemId
                         (Canonical.order_items canonical))) out in
  let out := obj_set "features"
    (CFeatures (withId Feature.featureId (Canonical.features canonical))) out in
  let '(sfs, seq) := withSeq seq (Canonical.subscriber_features canonical) in
  let out := obj_set "subscriber_features" (CSubscriberFeatures sfs) out in
  let out := obj_set "subscriber_feature_state"
    (CSubscriberFeatureState
       (withId SubscriberFeatureState.subscriberFeatureStateId
               (Canonical.subscriber_feature_state canonical))) out in
  let out := obj_set "ticket_status_codes"
    (CTicketStatusCodes
       (map (λ r, mkWithId (TicketStatusCode.code r) r)
            (Canonical.ticket_status_codes canonical))) out in
  let out := obj_set "tickets"
    (CTickets (withId Ticket.ticketId (Canonical.tickets canonical))) out in
  let out := obj_set "notes"
    (CNotes (withId Note.noteId (Canonical.notes canonical))) out in
  let out := obj_set "org_units"
    (COrgUnits (withId OrgUnit.orgUnitId (Canonical.org_units canonical))) out in
  let out := obj_set "plans"
    (CPlans (withId Plan.planId (Canonical.plans canonical))) out in
  let out := obj_set "regions"
    (CRegions (withId Region.regionId (Canonical.regions canonical))) out in
  let out := obj_set "device_classes"
    (CDeviceClasses (withId DeviceClass.deviceClassId
                            (Canonical.device_classes canonical))) out in
  let '(rates, seq) := withSeq seq (Canonical.rates canonical) in
  let out := obj_set "rates" (CRates rates) out in
  let out := obj_set "usage_records"
    (CUsageRecords (withId UsageRecord.usageRecordId
                           (Canonical.usage_records canonical))) out in
  out.

(** [new Map(rows.map(r => [key(r), r]))]: a later row replaces an earlier
    one with the same key. *)
Definition map_of_rows {V} (key : V → Z) (rows : list V) : gmap Z V :=
  foldl (λ m v, <[key v := v]> m) ∅ rows.

(** [if (!m.has(k)) m.set(k, []); m.get(k).push(v)] *)
Definition map_push {V} (k : Z) (v : V) (m : gmap Z (list V)) : gmap Z (list V) :=
  <[k := default [] (m !! k) ++ [v]]> m.

(** [Array.from(new Set(codes))]: first occurrences, in order. *)
Definition set_of_array (codes : list string) : list string :=
  foldl (λ acc x, if decide (x ∈ acc) then acc else acc ++ [x]) [] codes.

Definition get_subscribers (o : Obj) : option (list (WithId Z Subscriber.t)) :=
  match obj_get "subscribers" o with Some (CSubscribers l) => Some l | _ => None end.
Definition get_order_items (o : Obj) : option (list (WithId Z OrderItem.t)) :=
  match obj_get "order_items" o with Some (COrderItems l) => Some l | _ => None end.
Definition get_orders (o : Obj) : option (list (WithId Z Order.t)) :=
  match obj_get "orders" o with Some (COrders l) => Some l | _ => None end.

Definition profile_rest (p : SubscriberProfile.t) : ProfileRest.t :=
  ProfileRest.mk (SubscriberProfile.firstName p) (SubscriberProfile.lastName p)
    (SubscriberProfile.email p) (SubscriberProfile.dob p)
    (SubscriberProfile.piiLast4Ssn p) (SubscriberProfile.preferences p)
    (SubscriberProfile.updatedAt p).

Definition embed_item (it : OrderItem.t) : EmbeddedItem.t :=
  EmbeddedItem.mk (OrderItem.orderItemId it) (OrderItem.sku it)
                  (OrderItem.qty it) (OrderItem.priceCents it).

Definition featureCodesBySub (canonical : Canonical.t) : gmap Z (list string) :=
  let featureById := map_of_rows Feature.featureId (Canonical.features canonical) in
  foldl (λ m sf,
      match featureById !! SubscriberFeature.featureId sf with
      | None => m
      | Some f => map_push (SubscriberFeature.subscriberId sf) (Feature.code f) m
      end) ∅ (Canonical.subscriber_features canonical).

Definition itemsByOrderId (items : list (WithId Z OrderItem.t))
    : gmap Z (list EmbeddedItem.t) :=
  foldl (λ m it, map_push (OrderItem.orderId (doc it)) (embed_item (doc it)) m)
        ∅ items.

(** [toMongoOptimized(canonical, mongoNormalized, cfg)]; [None] stands for
    the TypeError of reading a collection that [mongoNormalized] lacks. *)
Definition toMongoOptimized (canonical : Canonical.t) (mongoNormalized : Obj)
    (cfg : Cfg.t) : option Obj :=
  let out := mongoNormalized in
  let profileBySubId :=
    map_of_rows SubscriberProfile.subscriberId
                (Canonical.subscriber_profiles canonical) in
  let codesBySub := featureCodesBySub canonical in
  subs ← get_subscribers mongoNormalized;
  let out := obj_set "subscribers" (COptSubscribers (map (λ s,
      let sid := Subscriber.subscriberId (doc s) in
      OptSubscriber.mk s
        (profile_rest <$> profileBySubId !! sid)
        (if Cfg.embedFeatureCodes cfg
         then Some (jsSort string_cmp
                      (set_of_array (default [] (codesBySub !! sid))))
         else None)) subs)) out in
  its ← get_order_items mongoNormalized;
  let byOrder := itemsByOrderId its in
  ords ← get_orders mongoNormalized;
  let out := obj_set "orders" (COptOrders (map (λ o,
      OptOrder.mk o
        (jsSort (by_key EmbeddedItem.orderItemId)
                (default [] (byOrder !! Order.orderId (doc o))))) ords)) out in
  let out := obj_delete "order_items" out in
  let out := obj_delete "subscriber_profiles" out in
  Some out.

(** ** Relational projection *)

Definition CR : ascii := "013"%char.
Definition LF : ascii := "010"%char.
Definition DQ : ascii := "034"%char.
Definition COMMA : ascii := ","%char.

(** A value handed to [csvEscape]: [null], a number or a string. *)
Inductive Cell := CellNull | CellNum (n : Z) | CellStr (s : string).

(** [s.replace(/\r\n/g, '\n')] *)
Fixpoint replace_crlf (s : string) : string :=
  match s with
  | EmptyString => EmptyString
  | String c s' =>
      match s' with
      | String c' s'' =>
          if Ascii.eqb c CR && Ascii.eqb c' LF
          then String LF (replace_crlf s'')
          else String c (replace_crlf s')
      | EmptyString => String c EmptyString
      end
  end.

(** [s.replace(/\r/g, '\n')] *)
Fixpoint replace_cr (s : string) : string :=
  match s with
  | EmptyString => EmptyString
  | String c s' => String (if Ascii.eqb c CR then LF else c) (replace_cr s')
  end.

(** [s.replace] of every quote character by two of them. *)
Fixpoint double_quotes (s : string) : string :=
  match s with
  | EmptyString => EmptyString
  | String c s' =>
      if Ascii.eqb c DQ then String DQ (String DQ (double_quotes s'))
      else String c (double_quotes s')
  end.

(** [s.includes(c)] for a one-character [c]. *)
Fixpoint includes (c : ascii) (s : string) : bool :=
  match s with
  | EmptyString => false
  | String c' s' => Ascii.eqb c' c || includes c s'
  end.

Definition csvEscape_string (val : string) : string :=
  let s := replace_cr (replace_crlf val) in
  let needsQuotes := includes COMMA s || includes DQ s || includes LF s in
  let s := if includes DQ s then double_quotes s else s in
  if needsQuotes then String DQ (s +:+ String DQ EmptyString) else s.

Definition csvEscape (val : Cell) : string :=
  match val with
  | CellNull => EmptyString
  | CellNum n => csvEscape_string (String_ n)
  | CellStr s => csvEscape_string s
  end.

(** [arr.join(sep)] *)
Fixpoint join (sep : string) (l : list string) : string :=
  match l with
  | [] => EmptyString
  | [x] => x
  | x :: l' => x +:+ sep +:+ join sep l'
  end.

(** A row handed to [toCsv]: an object literal, as its properties. *)
Definition Row : Type := list (string * Cell).

Fixpoint row_get (h : string) (r : Row) : Cell :=
  match r with
  | [] => CellNull
  | (k, v) :: r' => if String.eqb h k then v else row_get h r'
  end.

Definition NL : string := String LF EmptyString.

Definition toCsv (headers : list string) (rows : list Row) : string :=
  let lines :=
    join "," headers
    :: map (λ r, join "," (map (λ h, csvEscape (row_get h r)) headers)) rows in
  join NL lines +:+ NL.

(** *** [JSON.stringify] on the two structured columns *)

Definition hex_digit (n : nat) : ascii :=
  Ascii.ascii_of_nat (if (n <? 10)%nat then 48 + n else 87 + n).

(** The escape of one character inside a JSON string. *)
Definition json_escape_char (c : ascii) : string :=
  let n := Ascii.nat_of_ascii c in
  if Ascii.eqb c DQ then String "\"%char (String DQ EmptyString)
  else if Ascii.eqb c "\"%char then "\\"
  else if (n =? 8)%nat then "\b"
  else if (n =? 9)%nat then "\t"
  else if (n =? 10)%nat then "\n"
  else if (n =? 12)%nat then "\f"
  else if (n =? 13)%nat then "\r"
  else if (n <? 32)%nat then
    "\u00" +:+ String (hex_digit (n / 16)) (String (hex_digit (n mod 16)) EmptyString)
  else String c EmptyString.

Fixpoint json_escape (s : string) : string :=
  match s with
  | EmptyString => EmptyString
  | String c s' => json_escape_char c +:+ json_escape s'
  end.

Definition json_str (s : string) : string :=
  String DQ (json_escape s +:+ String DQ EmptyString).

Definition json_bool (b : bool) : string := if b then "true" else "false".

Definition json_obj (fields : list (string * string)) : string :=
  "{" +:+ join "," (map (λ kv, json_str kv.1 +:+ ":" +:+ kv.2) fields) +:+ "}".

Definition json_of_preferences (p : Preferences.t) : string :=
  json_obj [("marketingOptIn", json_bool (Preferences.marketingOptIn p));
            ("paperlessBilling", json_bool (Preferences.paperlessBilling p))].

Definition json_of_payload (p : Payload) : string :=
  match p with
  | RadioAttach cellId rssi =>
      json_obj [("cellId", json_str cellId); ("rssi", String_ rssi)]
  | Handover a b =>
      json_obj [("fromCellId", json_str a); ("toCellId", json_str b)]
  | DataSessionStart apn ip =>
      json_obj [("apn", json_str apn); ("ip", json_str ip)]
  | DataSessionEnd up down =>
      json_obj [("bytesUp", String_ up); ("bytesDown", String_ down)]
  | LatencyProbe a b =>
      json_obj [("p50Ms", String_ a); ("p95Ms", String_ b)]
  | AttachFail cause => json_obj [("cause", json_str cause)]
  | EmptyPayload => json_obj []
  end.

(** [jsonString(v)] for a value that is never [null] here: its JSON text. *)
Definition jsonString {A} (stringify : A → string) (v : A) : Cell :=
  CellStr (stringify v).

Definition cell_opt_time (t : option Z) : Cell :=
  match t with Some ms => CellStr (iso ms) | None => CellNull end.

Definition cell_opt_num (n : option Z) : Cell :=
  match n with Some k => CellNum k | None => CellNull end.

Module Bundle.
Record t := mk { filename : string; headers : list string; rows : list Row }.
End Bundle.

(** A bundle whose rows carry, under each header, the given column. *)
Definition bundle {R} (filename : string) (cols : list (string * (R → Cell)))
    (rows : list R) : Bundle.t :=
  Bundle.mk filename cols.*1
            (map (λ r, map (λ hc, (hc.1, hc.2 r)) cols) rows).

Definition toPostgresCsvBundles (canonical : Canonical.t) : list Bundle.t :=
  [ bundle "accounts.csv"
      [("account_id", λ r, CellNum (Account.accountId r));
       ("account_number", λ r, CellStr (Account.accountNumber r));
       ("name", λ r, CellStr (Account.name r));
       ("billing_region_code", λ r, CellStr (Account.billingRegionCode r));
       ("status", λ r, CellStr (Account.status r));
       ("created_at", λ r, CellStr (iso (Account.createdAt r)))]
      (Canonical.accounts canonical);
    bundle "subscribers.csv"
      [("subscriber_id", λ r, CellNum (Subscriber.subscriberId r));
       ("account_id", λ r, CellNum (Subscriber.accountId r));
       ("msisdn", λ r, CellStr (Subscriber.msisdn r));
       ("status", λ r, CellStr (Subscriber.status r));
       ("created_at", λ r, CellStr (iso (Subscriber.createdAt r)))]
      (Canonical.subscribers canonical);
    bundle "subscriber_profiles.csv"
      [("subscriber_id", λ r, CellNum (SubscriberProfile.subscriberId r));
       ("first_name", λ r, CellStr (SubscriberProfile.firstName r));
       ("last_name", λ r, CellStr (SubscriberProfile.lastName r));
       ("email", λ r, CellStr (SubscriberProfile.email r));
       ("dob", λ r, CellStr (SubscriberProfile.dob r));
       ("pii_last4_ssn", λ r, CellStr (SubscriberProfile.piiLast4Ssn r));
       ("preferences",
        λ r, jsonString json_of_preferences (SubscriberProfile.preferences r));
       ("updated_at", λ r, CellStr (iso (SubscriberProfile.updatedAt r)))]
      (Canonical.subscriber_profiles canonical);
    bundle "devices.csv"
      [("device_id", λ r, CellNum (Device.deviceId r));
       ("subscriber_id", λ r, CellNum (Device.subscriberId r));
       ("imei", λ r, CellStr (Device.imei r));
       ("model", λ r, CellStr (Device.model r));
       ("created_at", λ r, CellStr (iso (Device.createdAt r)))]
      (Canonical.devices canonical);
    bundle "device_events.csv"
      [("device_event_id", λ r, CellNum (DeviceEvent.deviceEventId r));
       ("device_id", λ r, CellNum (DeviceEvent.deviceId r));
       ("event_type", λ r, CellStr (DeviceEvent.eventType r));
       ("ts", λ r, CellStr (iso (DeviceEvent.ts r)));
       ("payload", λ r, jsonString json_of_payload (DeviceEvent.payload r))]
      (Canonical.device_events canonical);
    bundle "orders.csv"
      [("order_id", λ r, CellNum (Order.orderId r));
       ("account_id", λ r, CellNum (Order.accountId r));
       ("status", λ r, CellStr (Order.status r));
       ("created_at", λ r, CellStr (iso (Order.createdAt r)))]
      (Canonical.orders canonical);
    bundle "order_items.csv"
      [("order_item_id", λ r, CellNum (OrderItem.orderItemId r));
       ("order_id", λ r, CellNum (OrderItem.orderId r));
       ("sku", λ r, CellStr (OrderItem.sku r));
       ("qty", λ r, CellNum (OrderItem.qty r));
       ("price_cents", λ r, CellNum (OrderItem.priceCents r))]
      (Canonical.order_items canonical);
    bundle "features.csv"
      [("feature_id", λ r, CellNum (Feature.featureId r));
       ("code", λ r, CellStr (Feature.code r));
       ("name", λ r, CellStr (Feature.name r))]
      (Canonical.features canonical);
    bundle "subscriber_features.csv"
      [("subscriber_id", λ r, CellNum (SubscriberFeature.subscriberId r));
       ("feature_id", λ r, CellNum (SubscriberFeature.featureId r))]
      (Canonical.subscriber_features canonical);
    bundle "subscriber_feature_state.csv"
      [("subscriber_feature_state_id",
        λ r, CellNum (SubscriberFeatureState.subscriberFeatureStateId r));
       ("subscriber_id", λ r, CellNum (SubscriberFeatureState.subscriberId r));
       ("feature_id", λ r, CellNum (SubscriberFeatureState.featureId r));
       ("effective_from",
        λ r, CellStr (iso (SubscriberFeatureState.effectiveFrom r)));
       ("effective_to",
        λ r, cell_opt_time (SubscriberFeatureState.effectiveTo r));
       ("provisioning_state",
        λ r, CellStr (SubscriberFeatureState.provisioningState r));
       ("source", λ r, CellStr (SubscriberFeatureState.source r))]
      (Canonical.subscriber_feature_state canonical);
    bundle "ticket_status_codes.csv"
      [("code", λ r, CellStr (TicketStatusCode.code r));
       ("description", λ r, CellStr (TicketStatusCode.description r))]
      (Canonical.ticket_status_codes canonical);
    bundle "tickets.csv"
      [("ticket_id", λ r, CellNum (Ticket.ticketId r));
       ("subscriber_id", λ r, CellNum (Ticket.subscriberId r));
       ("status_code", λ r, CellStr (Ticket.statusCode r));
       ("opened_at", λ r, CellStr (iso (Ticket.openedAt r)));
       ("closed_at", λ r, cell_opt_time (Ticket.closedAt r));
       ("summary", λ r, CellStr (Ticket.summary r))]
      (Canonical.tickets canonical);
    bundle "notes.csv"
      [("note_id", λ r, CellNum (Note.noteId r));
       ("ref_type", λ r, CellStr (Note.refType r));
       ("ref_id", λ r, CellNum (Note.refId r));
       ("author", λ r, CellStr (Note.author r));
       ("body", λ r, CellStr (Note.body r));
       ("created_at", λ r, CellStr (iso (Note.createdAt r)))]
      (Canonical.notes canonical);
    bundle "org_units.csv"
      [("org_unit_id", λ r, CellNum (OrgUnit.orgUnitId r));
       ("name", λ r, CellStr (OrgUnit.name r));
       ("parent_org_unit_id", λ r, cell_opt_num (OrgUnit.parentOrgUnitId r))]
      (Canonical.org_units canonical);
    bundle "plans.csv"
      [("plan_id", λ r, CellNum (Plan.planId r));
       ("code", λ r, CellStr (Plan.code r));
       ("name", λ r, CellStr (Plan.name r))]
      (Canonical.plans canonical);
    bundle "regions.csv"
      [("region_id", λ r, CellNum (Region.regionId r));
       ("code", λ r, CellStr (Region.code r))]
      (Canonical.regions canonical);
    bundle "device_classes.csv"
      [("device_class_id", λ r, CellNum (DeviceClass.deviceClassId r));
       ("code", λ r, CellStr (DeviceClass.code r))]
      (Canonical.device_classes canonical);
    bundle "rates.csv"
      [("plan_id", λ r, CellNum (Rate.planId r));
       ("region_id", λ r, CellNum (Rate.regionId r));
       ("device_class_id", λ r, CellNum (Rate.deviceClassId r));
       ("rate_cents", λ r, CellNum (Rate.rateCents r))]
      (Canonical.rates canonical);
    bundle "usage_records.csv"
      [("usage_record_id", λ r, CellNum (UsageRecord.usageRecordId r));
       ("subscriber_id", λ r, CellNum (UsageRecord.subscriberId r));
       ("ts", λ r, CellStr (iso (UsageRecord.ts r)));
       ("usage_type", λ r, CellStr (UsageRecord.usageType r));
       ("units", λ r, CellNum (UsageRecord.units r));
       ("rated_cents", λ r, CellNum (UsageRecord.ratedCents r))]
      (Canonical.usage_records canonical) ].

(** A decoder of one CSV record in the standard format (RFC 4180, the
    format Postgres COPY reads): fields separated by commas, a field that
    starts with a quote runs to its closing quote, and two quotes inside it
    stand for one. [None] is a malformed record. The repository has no
    decoder; this one is the reference the escaping is checked against. *)
Fixpoint csv_quoted (s : string) : option (string * string) :=
  match s with
  | EmptyString => None
  | String c s' =>
      if Ascii.eqb c DQ then
        match s' with
        | String c' s'' =>
            if Ascii.eqb c' DQ
            then '(f, rest) ← csv_quoted s''; Some (String DQ f, rest)
            else Some (EmptyString, s')
        | EmptyString => Some (EmptyString, EmptyString)
        end
      else '(f, rest) ← csv_quoted s'; Some (String c f, rest)
  end.

Fixpoint csv_bare (s : string) : string * string :=
  match s with
  | EmptyString => (EmptyString, EmptyString)
  | String c s' =>
      if Ascii.eqb c COMMA || Ascii.eqb c LF then (EmptyString, s)
      else let '(f, rest) := csv_bare s' in (String c f, rest)
  end.

(** One field at the head of [s], and the rest of the input after it. *)
Definition csv_field (s : string) : option (string * string) :=
  match s with
  | String c s' => if Ascii.eqb c DQ then csv_quoted s' else Some (csv_bare s)
  | EmptyString => Some (EmptyString, EmptyString)
  end.

(** The fields of the record at the head of the input, up to its line end
    (or the end of the input), and what follows the record. *)
Fixpoint csv_record (fuel : nat) (s : string) : option (list string * string) :=
  match fuel with
  | O => None
  | S fuel' =>
      '(f, rest) ← csv_field s;
      match rest with
      | EmptyString => Some ([f], EmptyString)
      | String c rest' =>
          if Ascii.eqb c COMMA then
            '(fs, rest'') ← csv_record fuel' rest';
            Some (f :: fs, rest'')
          else if Ascii.eqb c LF then Some ([f], rest')
          else None
      end
  end.

Definition csv_decode_record (s : string) : option (list string * string) :=
  csv_record (S (String.length s)) s.

(** ** Command line, outputs and manifest *)

(** How a call ends: a value, a thrown [Error], or [process.exit]. *)
Inductive Outcome (A : Type) :=
  | Ok (a : A)
  | Throw (message : string)
  | Exit (code : Z).
Arguments Ok {A} _.
Arguments Throw {A} _.
Arguments Exit {A} _.

(** The [args] object while the command line is read: [size] and [only]
    may be [undefined] (a flag given last, without its value), and [seed]
    is whatever [Number] made of its text. *)
Module RawArgs.
Record t := mk {
    size : option string;
    seed : Z + string;
    out : string;
    only : option string;
    overwrite : bool }.
End RawArgs.

(** The [args] object once [parseArgs] has checked it. *)
Module Args.
Record t := mk {
    size : string; seed : Z; out : string; only : string; overwrite : bool }.
End Args.

(** [String(v)] inside a template, for a value that may be [undefined]. *)
Definition show_opt (v : option string) : string := default "undefined" v.

Definition SIZES : list string := ["S"; "M"; "L"].
Definition ONLY_VALUES : list string :=
  ["canonical"; "mongo_normalized"; "mongo_optimized"; "postgres"; "all"].

(** [arr.includes(v)] *)
Definition includes_opt (arr : list string) (v : option string) : bool :=
  match v with
  | Some s => existsb (String.eqb s) arr
  | None => false
  end.

Section cli.
(** The built-ins the parser calls. [Number_ v] is [Number(v)]: the
    integer it denotes, or the text of a value that is not finite
    ([NaN], [Infinity]). [path_resolve v] is [path.resolve(v)], which
    throws on [undefined]. [default_out] is
    [path.resolve(process.cwd(), 'seed')]. *)
Variable Number_ : option string → Z + string.
Variable path_resolve : option string → Outcome string.
Variable default_out : string.

Fixpoint parseArgs_loop (args : RawArgs.t) (rest : list string)
    : Outcome RawArgs.t :=
  match rest with
  | [] => Ok args
  | a :: rest' =>
      if String.eqb a "--size" then
        let args' v := RawArgs.mk v (RawArgs.seed args) (RawArgs.out args)
                         (RawArgs.only args) (RawArgs.overwrite args) in
        match rest' with
        | [] => Ok (args' None)
        | v :: rest'' => parseArgs_loop (args' (Some v)) rest''
        end
      else if String.eqb a "--seed" then
        let args' v := RawArgs.mk (RawArgs.size args) (Number_ v)
                         (RawArgs.out args) (RawArgs.only args)
                         (RawArgs.overwrite args) in
        match rest' with
        | [] => Ok (args' None)
        | v :: rest'' => parseArgs_loop (args' (Some v)) rest''
        end
      else if String.eqb a "--out" then
        let args' p := RawArgs.mk (RawArgs.size args) (RawArgs.seed args) p
                         (RawArgs.only args) (RawArgs.overwrite args) in
        match rest' with
        | [] =>
            match path_resolve None with
            | Ok p => Ok (args' p)
            | Throw m => Throw m
            | Exit c => Exit c
            end
        | v :: rest'' =>
            match path_resolve (Some v) with
            | Ok p => parseArgs_loop (args' p) rest''
            | Throw m => Throw m
            | Exit c => Exit c
            end
        end
      else if String.eqb a "--only" then
        let args' v := RawArgs.mk (RawArgs.size args) (RawArgs.seed args)
                         (RawArgs.out args) v (RawArgs.overwrite args) in
        match rest' with
        | [] => Ok (args' None)
        | v :: rest'' => parseArgs_loop (args' (Some v)) rest''
        end
      else if String.eqb a "--overwrite" then
        parseArgs_loop (RawArgs.mk (RawArgs.size args) (RawArgs.seed args)
                          (RawArgs.out args) (RawArgs.only args) true) rest'
      else if String.eqb a "-h" || String.eqb a "--help" then Exit 0
      else Throw ("Unknown arg: " +:+ a)
  end.

(** The checks that follow the loop. *)
Definition validate (args : RawArgs.t) : Outcome Args.t :=
  if negb (includes_opt SIZES (RawArgs.size args)) then
    Throw ("Invalid --size " +:+ show_opt (RawArgs.size args))
  else if negb (includes_opt ONLY_VALUES (RawArgs.only args)) then
    Throw ("Invalid --only " +:+ show_opt (RawArgs.only args))
  else
    match RawArgs.seed args with
    | inr shown => Throw ("Invalid --seed " +:+ shown)
    | inl seed =>
        Ok (Args.mk (show_opt (RawArgs.size args)) seed (RawArgs.out args)
                    (show_opt (RawArgs.only args)) (RawArgs.overwrite args))
    end.

(** The [args] object before the loop. *)
Definition default_args : RawArgs.t :=
  RawArgs.mk (Some "S") (inl 42) default_out (Some "all") false.

Definition parseArgs (argv : list string) : Outcome Args.t :=
  match parseArgs_loop default_args (drop 2 argv) with
  | Ok args => validate args
  | Throw m => Throw m
  | Exit c => Exit c
  end.
End cli.

Definition DATASET_VERSION : string := "1.1.0".

Definition entityOrder : list string :=
  ["accounts"; "subscribers"; "subscriber_profiles"; "devices";
   "device_events"; "orders"; "order_items"; "features";
   "subscriber_features"; "subscriber_feature_state"; "ticket_status_codes";
   "tickets"; "notes"; "org_units"; "plans"; "regions"; "device_classes";
   "rates"; "usage_records"].

(** The value of one property of the canonical object. *)
Inductive Rows :=
  | RAccounts (l : list Account.t)
  | RSubscribers (l : list Subscriber.t)
  | RSubscriberProfiles (l : list SubscriberProfile.t)
  | RDevices (l : list Device.t)
  | RDeviceEvents (l : list DeviceEvent.t)
  | ROrders (l : list Order.t)
  | ROrderItems (l : list OrderItem.t)
  | RFeatures (l : list Feature.t)
  | RSubscriberFeatures (l : list SubscriberFeature.t)
  | RSubscriberFeatureState (l : list SubscriberFeatureState.t)
  | RTicketStatusCodes (l : list TicketStatusCode.t)
  | RTickets (l : list Ticket.t)
  | RNotes (l : list Note.t)
  | ROrgUnits (l : list OrgUnit.t)
  | RPlans (l : list Plan.t)
  | RRegions (l : list Region.t)
  | RDeviceClasses (l : list DeviceClass.t)
  | RRates (l : list Rate.t)
  | RUsageRecords (l : list UsageRecord.t).

(** The properties of the object [generateCanonical] returns, in the order
    of its literal. *)
Definition canonical_props (c : Canonical.t) : list (string * Rows) :=
  [("accounts", RAccounts (Canonical.accounts c));
   ("subscribers", RSubscribers (Canonical.subscribers c));
   ("subscriber_profiles", RSubscriberProfiles (Canonical.subscriber_profiles c));
   ("devices", RDevices (Canonical.devices c));
   ("device_events", RDeviceEvents (Canonical.device_events c));
   ("orders", ROrders (Canonical.orders c));
   ("order_items", ROrderItems (Canonical.order_items c));
   ("features", RFeatures (Canonical.features c));
   ("subscriber_features", RSubscriberFeatures (Canonical.subscriber_features c));
   ("subscriber_feature_state",
    RSubscriberFeatureState (Canonical.subscriber_feature_state c));
   ("ticket_status_codes", RTicketStatusCodes (Canonical.ticket_status_codes c));
   ("tickets", RTickets (Canonical.tickets c));
   ("notes", RNotes (Canonical.notes c));
   ("org_units", ROrgUnits (Canonical.org_units c));
   ("plans", RPlans (Canonical.plans c));
   ("regions", RRegions (Canonical.regions c));
   ("device_classes", RDeviceClasses (Canonical.device_classes c));
   ("rates", RRates (Canonical.rates c));
   ("usage_records", RUsageRecords (Canonical.usage_records c))].

(** [canonical[name]] *)
Fixpoint props_get {V} (name : string) (props : list (string * V)) : option V :=
  match props with
  | [] => None
  | (k, v) :: props' => if String.eqb name k then Some v else props_get name props'
  end.

Definition rows_length (r : Rows) : Z :=
  Z.of_nat match r with
  | RAccounts l => length l | RSubscribers l => length l
  | RSubscriberProfiles l => length l | RDevices l => length l
  | RDeviceEvents l => length l | ROrders l => length l
  | ROrderItems l => length l | RFeatures l => length l
  | RSubscriberFeatures l => length l | RSubscriberFeatureState l => length l
  | RTicketStatusCodes l => length l | RTickets l => length l
  | RNotes l => length l | ROrgUnits l => length l | RPlans l => length l
  | RRegions l => length l | RDeviceClasses l => length l
  | RRates l => length l | RUsageRecords l => length l
  end.

Module EquivalenceRules.
Record t := mk {
    idStrategy : string;
    canonicalIsTruth : bool;
    mongoNormalizedMirrorsCanonical : bool;
    mongoOptimizedEmbeds_subscribers : list string;
    mongoOptimizedEmbeds_orders : list string;
    usageUnits : string;
    postgresCsv_format : string;
    postgresCsv_jsonbColumns : list string }.
End EquivalenceRules.

Module Manifest.
Record t := mk {
    datasetVersion : string;
    generatedAt : string;
    seed : Z;
    size : string;
    presets : Cfg.t;
    equivalenceRules : EquivalenceRules.t;
    counts : list (string * Z) }.
End Manifest.

(** What a file is written with: the rows or documents handed to
    [writeNdjson], the text of a CSV file, or the manifest; [file_data]
    below gives the string that is written. *)
Inductive Content :=
  | NdjsonRows (rows : Rows)
  | NdjsonDocs (docs : Collection)
  | NdjsonEmpty
  | Text (text : string)
  | ManifestJson (m : Manifest.t).

(** ** JSON text and the data of the files *)

(** The values the generator hands to [JSON.stringify]: objects keep
    their properties in insertion order. *)
Local Unset Elimination Schemes.
Inductive Json :=
  | JNull
  | JBool (b : bool)
  | JNum (n : Z)
  | JStr (s : string)
  | JArr (xs : list Json)
  | JObj (fields : list (string * Json)).
Local Set Elimination Schemes.

(** [JSON.stringify(v)], without indentation. *)
Fixpoint stringify (v : Json) : string :=
  match v with
  | JNull => "null"
  | JBool b => json_bool b
  | JNum n => String_ n
  | JStr s => json_str s
  | JArr xs => "[" +:+ join "," (map stringify xs) +:+ "]"
  | JObj fields =>
      json_obj (map (λ kv, match kv with (k, x) => (k, stringify x) end) fields)
  end.

(** The data [writeNdjson(filePath, rows)] writes to [filePath]. *)
Definition writeNdjson (rows : list Json) : string :=
  join NL (map stringify rows)
  +:+ (match rows with [] => EmptyString | _ => NL end).

Definition json_opt_time (t : option Z) : Json :=
  match t with Some ms => JStr (iso ms) | None => JNull end.

Definition json_opt_num (n : option Z) : Json :=
  match n with Some k => JNum k | None => JNull end.

Definition json_preferences (p : Preferences.t) : Json :=
  JObj [("marketingOptIn", JBool (Preferences.marketingOptIn p));
        ("paperlessBilling", JBool (Preferences.paperlessBilling p))].

Definition json_payload (p : Payload) : Json :=
  match p with
  | RadioAttach cellId rssi => JObj [("cellId", JStr cellId); ("rssi", JNum rssi)]
  | Handover a b => JObj [("fromCellId", JStr a); ("toCellId", JStr b)]
  | DataSessionStart apn ip => JObj [("apn", JStr apn); ("ip", JStr ip)]
  | DataSessionEnd up down => JObj [("bytesUp", JNum up); ("bytesDown", JNum down)]
  | LatencyProbe a b => JObj [("p50Ms", JNum a); ("p95Ms", JNum b)]
  | AttachFail cause => JObj [("cause", JStr cause)]
  | EmptyPayload => JObj []
  end.

(** The properties of each kind of row, in the order of the object
    literal that makes it. *)
Definition fields_account (r : Account.t) : list (string * Json) :=
  [("accountId", JNum (Account.accountId r));
   ("accountNumber", JStr (Account.accountNumber r));
   ("name", JStr (Account.name r));
   ("billingRegionCode", JStr (Account.billingRegionCode r));
   ("status", JStr (Account.status r));
   ("createdAt", JStr (iso (Account.createdAt r)))].

Definition fields_subscriber (r : Subscriber.t) : list (string * Json) :=
  [("subscriberId", JNum (Subscriber.subscriberId r));
   ("accountId", JNum (Subscriber.accountId r));
   ("msisdn", JStr (Subscriber.msisdn r));
   ("status", JStr (Subscriber.status r));
   ("createdAt", JStr (iso (Subscriber.createdAt r)))].

Definition fields_profile_rest (r : ProfileRest.t) : list (string * Json) :=
  [("firstName", JStr (ProfileRest.firstName r));
   ("lastName", JStr (ProfileRest.lastName r));
   ("email", JStr (ProfileRest.email r));
   ("dob", JStr (ProfileRest.dob r));
   ("piiLast4Ssn", JStr (ProfileRest.piiLast4Ssn r));
   ("preferences", json_preferences (ProfileRest.preferences r));
   ("updatedAt", JStr (iso (ProfileRest.updatedAt r)))].

Definition fields_profile (r : SubscriberProfile.t) : list (string * Json) :=
  ("subscriberId", JNum (SubscriberProfile.subscriberId r))
  :: fields_profile_rest (profile_rest r).

Definition fields_device (r : Device.t) : list (string * Json) :=
  [("deviceId", JNum (Device.deviceId r));
   ("subscriberId", JNum (Device.subscriberId r));
   ("imei", JStr (Device.imei r));
   ("model", JStr (Device.model r));
   ("createdAt", JStr (iso (Device.createdAt r)))].

Definition fields_device_event (r : DeviceEvent.t) : list (string * Json) :=
  [("deviceEventId", JNum (DeviceEvent.deviceEventId r));
   ("deviceId", JNum (DeviceEvent.deviceId r));
   ("eventType", JStr (DeviceEvent.eventType r));
   ("ts", JStr (iso (DeviceEvent.ts r)));
   ("payload", json_payload (DeviceEvent.payload r))].

Definition fields_order (r : Order.t) : list (string * Json) :=
  [("orderId", JNum (Order.orderId r));
   ("accountId", JNum (Order.accountId r));
   ("status", JStr (Order.status r));
   ("createdAt", JStr (iso (Order.createdAt r)))].

Definition fields_order_item (r : OrderItem.t) : list (string * Json) :=
  [("orderItemId", JNum (OrderItem.orderItemId r));
   ("orderId", JNum (OrderItem.orderId r));
   ("sku", JStr (OrderItem.sku r));
   ("qty", JNum (OrderItem.qty r));
   ("priceCents", JNum (OrderItem.priceCents r))].

Definition fields_feature (r : Feature.t) : list (string * Json) :=
  [("featureId", JNum (Feature.featureId r));
   ("code", JStr (Feature.code r));
   ("name", JStr (Feature.name r))].

Definition fields_subscriber_feature (r : SubscriberFeature.t)
    : list (string * Json) :=
  [("subscriberId", JNum (SubscriberFeature.subscriberId r));
   ("featureId", JNum (SubscriberFeature.featureId r))].

Definition fields_feature_state (r : SubscriberFeatureState.t)
    : list (string * Json) :=
  [("subscriberFeatureStateId",
    JNum (SubscriberFeatureState.subscriberFeatureStateId r));
   ("subscriberId", JNum (SubscriberFeatureState.subscriberId r));
   ("featureId", JNum (SubscriberFeatureState.featureId r));
   ("effectiveFrom", JStr (iso (SubscriberFeatureState.effectiveFrom r)));
   ("effectiveTo", json_opt_time (SubscriberFeatureState.effectiveTo r));
   ("provisioningState", JStr (SubscriberFeatureState.provisioningState r));
   ("source", JStr (SubscriberFeatureState.source r))].

Definition fields_status_code (r : TicketStatusCode.t) : list (string * Json) :=
  [("code", JStr (TicketStatusCode.code r));
   ("description", JStr (TicketStatusCode.description r))].

Definition fields_ticket (r : Ticket.t) : list (string * Json) :=
  [("ticketId", JNum (Ticket.ticketId r));
   ("subscriberId", JNum (Ticket.subscriberId r));
   ("statusCode", JStr (Ticket.statusCode r));
   ("openedAt", JStr (iso (Ticket.openedAt r)));
   ("closedAt", json_opt_time (Ticket.closedAt r));
   ("summary", JStr (Ticket.summary r))].

Definition fields_note (r : Note.t) : list (string * Json) :=
  [("noteId", JNum (Note.noteId r));
   ("refType", JStr (Note.refType r));
   ("refId", JNum (Note.refId r));
   ("author", JStr (Note.author r));
   ("body", JStr (Note.body r));
   ("createdAt", JStr (iso (Note.createdAt r)))].

Definition fields_org_unit (r : OrgUnit.t) : list (string * Json) :=
  [("orgUnitId", JNum (OrgUnit.orgUnitId r));
   ("name", JStr (OrgUnit.name r));
   ("parentOrgUnitId", json_opt_num (OrgUnit.parentOrgUnitId r))].

Definition fields_plan (r : Plan.t) : list (string * Json) :=
  [("planId", JNum (Plan.planId r));
   ("code", JStr (Plan.code r));
   ("name", JStr (Plan.name r))].

Definition fields_region (r : Region.t) : list (string * Json) :=
  [("regionId", JNum (Region.regionId r)); ("code", JStr (Region.code r))].

Definition fields_device_class (r : DeviceClass.t) : list (string * Json) :=
  [("deviceClassId", JNum (DeviceClass.deviceClassId r));
   ("code", JStr (DeviceClass.code r))].

Definition fields_rate (r : Rate.t) : list (string * Json) :=
  [("planId", JNum (Rate.planId r));
   ("regionId", JNum (Rate.regionId r));
   ("deviceClassId", JNum (Rate.deviceClassId r));
   ("rateCents", JNum (Rate.rateCents r))].

Definition fields_usage_record (r : UsageRecord.t) : list (string * Json) :=
  [("usageRecordId", JNum (UsageRecord.usageRecordId r));
   ("subscriberId", JNum (UsageRecord.subscriberId r));
   ("ts", JStr (iso (UsageRecord.ts r)));
   ("usageType", JStr (UsageRecord.usageType r));
   ("units", JNum (UsageRecord.units r));
   ("ratedCents", JNum (UsageRecord.ratedCents r))].

(** The rows of a canonical collection, as [writeNdjson] gets them. *)
Definition rows_json (rows : Rows) : list Json :=
  match rows with
  | RAccounts l => map (λ r, JObj (fields_account r)) l
  | RSubscribers l => map (λ r, JObj (fields_subscriber r)) l
  | RSubscriberProfiles l => map (λ r, JObj (fields_profile r)) l
  | RDevices l => map (λ r, JObj (fields_device r)) l
  | RDeviceEvents l => map (λ r, JObj (fields_device_event r)) l
  | ROrders l => map (λ r, JObj (fields_order r)) l
  | ROrderItems l => map (λ r, JObj (fields_order_item r)) l
  | RFeatures l => map (λ r, JObj (fields_feature r)) l
  | RSubscriberFeatures l => map (λ r, JObj (fields_subscriber_feature r)) l
  | RSubscriberFeatureState l => map (λ r, JObj (fields_feature_state r)) l
  | RTicketStatusCodes l => map (λ r, JObj (fields_status_code r)) l
  | RTickets l => map (λ r, JObj (fields_ticket r)) l
  | RNotes l => map (λ r, JObj (fields_note r)) l
  | ROrgUnits l => map (λ r, JObj (fields_org_unit r)) l
  | RPlans l => map (λ r, JObj (fields_plan r)) l
  | RRegions l => map (λ r, JObj (fields_region r)) l
  | RDeviceClasses l => map (λ r, JObj (fields_device_class r)) l
  | RRates l => map (λ r, JObj (fields_rate r)) l
  | RUsageRecords l => map (λ r, JObj (fields_usage_record r)) l
  end.

(** A document [{ _id: k, ...r }]. *)
Definition json_with_id {R} (fields : R → list (string * Json))
    (d : WithId Z R) : Json :=
  JObj (("_id", JNum (_id d)) :: fields (doc d)).

Definition json_embedded_item (e : EmbeddedItem.t) : Json :=
  JObj [("orderItemId", JNum (EmbeddedItem.orderItemId e));
        ("sku", JStr (EmbeddedItem.sku e));
        ("qty", JNum (EmbeddedItem.qty e));
        ("priceCents", JNum (EmbeddedItem.priceCents e))].

(** An optimized subscriber: the normalized document, then [profile]
    and [featureCodes] when they were set. *)
Definition json_opt_subscriber (s : OptSubscriber.t) : Json :=
  JObj (("_id", JNum (_id (OptSubscriber.base s)))
        :: fields_subscriber (doc (OptSubscriber.base s))
        ++ match OptSubscriber.profile s with
           | Some p => [("profile", JObj (fields_profile_rest p))]
           | None => []
           end
        ++ match OptSubscriber.featureCodes s with
           | Some codes => [("featureCodes", JArr (map JStr codes))]
           | None => []
           end).

Definition json_opt_order (o : OptOrder.t) : Json :=
  JObj (("_id", JNum (_id (OptOrder.base o)))
        :: fields_order (doc (OptOrder.base o))
        ++ [("items", JArr (map json_embedded_item (OptOrder.items o)))]).

(** The documents of a projection collection, as [writeNdjson] gets
    them. *)
Definition collection_json (c : Collection) : list Json :=
  match c with
  | CAccounts l => map (json_with_id fields_account) l
  | CSubscribers l => map (json_with_id fields_subscriber) l
  | CSubscriberProfiles l => map (json_with_id fields_profile) l
  | CDevices l => map (json_with_id fields_device) l
  | CDeviceEvents l => map (json_with_id fields_device_event) l
  | COrders l => map (json_with_id fields_order) l
  | COrderItems l => map (json_with_id fields_order_item) l
  | CFeatures l => map (json_with_id fields_feature) l
  | CSubscriberFeatures l => map (json_with_id fields_subscriber_feature) l
  | CSubscriberFeatureState l => map (json_with_id fields_feature_state) l
  | CTicketStatusCodes l =>
      map (λ d, JObj (("_id", JStr (_id d)) :: fields_status_code (doc d))) l
  | CTickets l => map (json_with_id fields_ticket) l
  | CNotes l => map (json_with_id fields_note) l
  | COrgUnits l => map (json_with_id fields_org_unit) l
  | CPlans l => map (json_with_id fields_plan) l
  | CRegions l => map (json_with_id fields_region) l
  | CDeviceClasses l => map (json_with_id fields_device_class) l
  | CRates l => map (json_with_id fields_rate) l
  | CUsageRecords l => map (json_with_id fields_usage_record) l
  | COptSubscribers l => map json_opt_subscriber l
  | COptOrders l => map json_opt_order l
  end.

(** [JSON.stringify(v, null, 2)]; [indent] is the indentation of the line
    the value starts on. An empty array or object has no line of its
    own. *)
Fixpoint stringify_pretty (indent : string) (v : Json) : string :=
  match v with
  | JArr [] => "[]"
  | JArr xs =>
      "[" +:+ NL
      +:+ join ("," +:+ NL)
            (map (λ x, indent +:+ "  " +:+ stringify_pretty (indent +:+ "  ") x)
                 xs)
      +:+ NL +:+ indent +:+ "]"
  | JObj [] => "{}"
  | JObj fields =>
      "{" +:+ NL
      +:+ join ("," +:+ NL)
            (map (λ kv, match kv with
                        | (k, x) =>
                            indent +:+ "  " +:+ json_str k +:+ ": "
                            +:+ stringify_pretty (indent +:+ "  ") x
                        end) fields)
      +:+ NL +:+ indent +:+ "}"
  | _ => stringify v
  end.

(** The preset, with the properties of its object literal in order. *)
Definition json_cfg (cfg : Cfg.t) : Json :=
  JObj [("accounts", JNum (Cfg.accounts cfg));
        ("subsPerAccountMin", JNum (Cfg.subsPerAccountMin cfg));
        ("subsPerAccountMax", JNum (Cfg.subsPerAccountMax cfg));
        ("ordersPerAccountMin", JNum (Cfg.ordersPerAccountMin cfg));
        ("ordersPerAccountMax", JNum (Cfg.ordersPerAccountMax cfg));
        ("itemsPerOrderMin", JNum (Cfg.itemsPerOrderMin cfg));
        ("itemsPerOrderMax", JNum (Cfg.itemsPerOrderMax cfg));
        ("ticketsPerSubscriberMin", JNum (Cfg.ticketsPerSubscriberMin cfg));
        ("ticketsPerSubscriberMax", JNum (Cfg.ticketsPerSubscriberMax cfg));
        ("deviceEventsPerDeviceMin", JNum (Cfg.deviceEventsPerDeviceMin cfg));
        ("deviceEventsPerDeviceMax", JNum (Cfg.deviceEventsPerDeviceMax cfg));
        ("usageRecordsPerSubscriber", JNum (Cfg.usageRecordsPerSubscriber cfg));
        ("days", JNum (Cfg.days cfg));
        ("embedFeatureCodes", JBool (Cfg.embedFeatureCodes cfg))].

(** The [manifest] object, with its properties in order. *)
Definition json_manifest (m : Manifest.t) : Json :=
  let rules := Manifest.equivalenceRules m in
  JObj [("datasetVersion", JStr (Manifest.datasetVersion m));
        ("generatedAt", JStr (Manifest.generatedAt m));
        ("seed", JNum (Manifest.seed m));
        ("size", JStr (Manifest.size m));
        ("presets", json_cfg (Manifest.presets m));
        ("equivalenceRules",
         JObj [("idStrategy", JStr (EquivalenceRules.idStrategy rules));
               ("canonicalIsTruth",
                JBool (EquivalenceRules.canonicalIsTruth rules));
               ("mongoNormalizedMirrorsCanonical",
                JBool (EquivalenceRules.mongoNormalizedMirrorsCanonical rules));
               ("mongoOptimizedEmbeds",
                JObj [("subscribers",
                       JArr (map JStr
                         (EquivalenceRules.mongoOptimizedEmbeds_subscribers rules)));
                      ("orders",
                       JArr (map JStr
                         (EquivalenceRules.mongoOptimizedEmbeds_orders rules)))]);
               ("usageUnits", JStr (EquivalenceRules.usageUnits rules));
               ("postgresCsv",
                JObj [("format", JStr (EquivalenceRules.postgresCsv_format rules));
                      ("jsonbColumns",
                       JArr (map JStr
                         (EquivalenceRules.postgresCsv_jsonbColumns rules)))])]);
        ("counts",
         JObj (map (λ kv, match kv with (k, n) => (k, JNum n) end)
                   (Manifest.counts m)))].

(** The data of a file: the string handed to [fs.writeFileSync]. The
    manifest is written as [JSON.stringify(manifest, null, 2) + '\n']. *)
Definition file_data (c : Content) : string :=
  match c with
  | NdjsonRows rows => writeNdjson (rows_json rows)
  | NdjsonDocs docs => writeNdjson (collection_json docs)
  | NdjsonEmpty => writeNdjson []
  | Text text => text
  | ManifestJson m => stringify_pretty EmptyString (json_manifest m) +:+ NL
  end.


(** [path.join] on segments that are already normal: a directory as
    [path.resolve] returns it, without a separator at its end, and plain
    names. *)
Definition path_join (parts : list string) : string := join "/" parts.

(** What a run finds around it: the wall clock, whether [manifest.json]
    is already in the output directory, and what the file system answers
    to the calls that make a directory or write a file, counted from 0
    in the order the run makes them: [None] when the call succeeds, the
    message of the error it throws otherwise. *)
Module Env.
Record t := mk {
    now : Z;
    manifest_exists : bool;
    fs_error : nat → option string }.
End Env.

(** A file system on which no call fails. *)
Definition no_error : nat → option string := λ _, None.

(** A call to the file system: [ensureDir(dir)], that is
    [fs.mkdirSync(dir, { recursive: true })], or
    [fs.writeFileSync(file, data, 'utf8')]. *)
Inductive FsCall :=
  | MkdirSync (dir : string)
  | WriteFileSync (file : string) (data : Content).

(** The calls are made one after the other until one throws, the call
    at position [k] when [errors k] is an error: the files written, and
    the message of the error if there was one. A file counts as written
    when its call has returned. *)
Fixpoint perform (errors : nat → option string) (calls : list FsCall)
    : list (string * Content) * option string :=
  match calls with
  | [] => ([], None)
  | call :: calls' =>
      match errors 0%nat with
      | Some e => ([], Some e)
      | None =>
          let '(written, e) := perform (λ k, errors (S k)) calls' in
          match call with
          | MkdirSync _ => (written, e)
          | WriteFileSync file data => ((file, data) :: written, e)
          end
      end
  end.

Definition only_is (args : Args.t) (shape : string) : bool :=
  String.eqb (Args.only args) shape || String.eqb (Args.only args) "all".

(** The per-entity counts of the manifest. *)
Definition manifest_counts (canonical : Canonical.t) : list (string * Z) :=
  map (λ name,
    (name,
     match props_get name (canonical_props canonical) with
     | Some rows => rows_length rows
     | None => 0
     end)) entityOrder.

(** The [manifest] object literal; [generatedAt] is
    [new Date().toISOString()]. *)
Definition build_manifest (args : Args.t) (cfg : Cfg.t)
    (canonical : Canonical.t) (generatedAt : string) : Manifest.t := {|
  Manifest.datasetVersion := DATASET_VERSION;
  Manifest.generatedAt := generatedAt;
  Manifest.seed := Args.seed args;
  Manifest.size := Args.size args;
  Manifest.presets := cfg;
  Manifest.equivalenceRules := {|
    EquivalenceRules.idStrategy := "integers";
    EquivalenceRules.canonicalIsTruth := true;
    EquivalenceRules.mongoNormalizedMirrorsCanonical := true;
    EquivalenceRules.mongoOptimizedEmbeds_subscribers :=
      "profile" :: (if Cfg.embedFeatureCodes cfg then ["featureCodes"] else []);
    EquivalenceRules.mongoOptimizedEmbeds_orders := ["items"];
    EquivalenceRules.usageUnits := "voice=seconds, sms=messages, data=KB";
    EquivalenceRules.postgresCsv_format :=
      "CSV header, Postgres COPY-compatible";
    EquivalenceRules.postgresCsv_jsonbColumns :=
      ["subscriber_profiles.preferences"; "device_events.payload"];
  |};
  Manifest.counts := manifest_counts canonical;
|}.

(** The files of each output shape, in the order they are written;
    none when [--only] leaves the shape out. *)
Definition canonical_files (args : Args.t) (canonical : Canonical.t)
    : list (string * Content) :=
  let outCanonical := path_join [Args.out args; "canonical"] in
  if only_is args "canonical" then
    map (λ name,
      (path_join [outCanonical; name +:+ ".ndjson"],
       match props_get name (canonical_props canonical) with
       | Some rows => NdjsonRows rows
       | None => NdjsonEmpty
       end)) entityOrder
  else [].

Definition normalized_files (args : Args.t) (mongoNormalized : Obj)
    : list (string * Content) :=
  let outMongoNorm := path_join [Args.out args; "mongo_normalized"] in
  if only_is args "mongo_normalized" then
    map (λ name,
      (path_join [outMongoNorm; name +:+ ".ndjson"],
       match obj_get name mongoNormalized with
       | Some docs => NdjsonDocs docs
       | None => NdjsonEmpty
       end)) entityOrder
  else [].

Definition optimized_files (args : Args.t) (mongoOptimized : Obj)
    : list (string * Content) :=
  let outMongoOpt := path_join [Args.out args; "mongo_optimized"] in
  if only_is args "mongo_optimized" then
    omap (λ name,
      match obj_get name mongoOptimized with
      | Some docs =>
          Some (path_join [outMongoOpt; name +:+ ".ndjson"], NdjsonDocs docs)
      | None => None
      end) entityOrder
  else [].

Definition postgres_files (args : Args.t) (canonical : Canonical.t)
    : list (string * Content) :=
  let outPgData := path_join [Args.out args; "postgres"; "data"] in
  if only_is args "postgres" then
    map (λ b,
      (path_join [outPgData; Bundle.filename b],
       Text (toCsv (Bundle.headers b) (Bundle.rows b))))
      (toPostgresCsvBundles canonical)
  else [].

(** The files of the four output shapes, in the order they are written. *)
Definition shape_files (args : Args.t) (canonical : Canonical.t)
    (mongoNormalized mongoOptimized : Obj) : list (string * Content) :=
  canonical_files args canonical ++ normalized_files args mongoNormalized
  ++ optimized_files args mongoOptimized ++ postgres_files args canonical.

(** The calls that write one shape: its directory is made first, then
    each file is written, if the shape has files at all. *)
Definition shape_calls (selected : bool) (dir : string)
    (files : list (string * Content)) : list FsCall :=
  if selected
  then MkdirSync dir :: map (λ f, WriteFileSync f.1 f.2) files
  else [].

(** [safeWrite(filePath, contents, true)] for a file of the directory
    [dir]: with [overwrite] set nothing is tested; the directory of the
    file is made, then the file is written. *)
Definition safeWrite (dir : string) (f : string * Content) : list FsCall :=
  [MkdirSync dir; WriteFileSync f.1 f.2].

(** The calls of a run after its graph is built, in order. *)
Definition write_calls (args : Args.t) (canonical : Canonical.t)
    (mongoNormalized mongoOptimized : Obj) (manifest : Manifest.t)
    : list FsCall :=
  let out := Args.out args in
  let outPgData := path_join [out; "postgres"; "data"] in
  shape_calls (only_is args "canonical") (path_join [out; "canonical"])
              (canonical_files args canonical)
  ++ shape_calls (only_is args "mongo_normalized")
                 (path_join [out; "mongo_normalized"])
                 (normalized_files args mongoNormalized)
  ++ shape_calls (only_is args "mongo_optimized")
                 (path_join [out; "mongo_optimized"])
                 (optimized_files args mongoOptimized)
  ++ (if only_is args "postgres"
      then MkdirSync outPgData
           :: concat (map (safeWrite outPgData) (postgres_files args canonical))
      else [])
  ++ safeWrite out (path_join [out; "manifest.json"], ManifestJson manifest).

(** [generateAll(args)]: what it returns or throws, and the files it has
    written by then, in order. [ensureDir(args.out)] is the call 0 of
    the run to the file system; it comes before the test on the
    manifest, and the calls that write the shapes come after. *)
Definition generateAll (args : Args.t) (env : Env.t)
    : Outcome Manifest.t * list (string * Content) :=
  let cfg := presets (Args.size args) in
  let rng := mulberry32 (Args.seed args) in
  match Env.fs_error env 0%nat with
  | Some e => (Throw e, [])
  | None =>
  let manifestPath := path_join [Args.out args; "manifest.json"] in
  if Env.manifest_exists env && negb (Args.overwrite args) then
    (Throw ("Refusing to overwrite existing dataset (manifest exists): "
            +:+ manifestPath +:+ " (use --overwrite)"), [])
  else
  let canonical := (generateCanonical rng cfg).1 in
  let mongoNormalized := toMongoNormalized canonical in
  match toMongoOptimized canonical mongoNormalized cfg with
  | None => (Throw "TypeError", [])
  | Some mongoOptimized =>
      let manifest :=
        build_manifest args cfg canonical (toISOString (Env.now env)) in
      match perform (λ k, Env.fs_error env (S k))
                    (write_calls args canonical mongoNormalized
                                 mongoOptimized manifest) with
      | (written, Some e) => (Throw e, written)
      | (written, None) => (Ok manifest, written)
      end
  end
  end.

(** What [main] leaves behind: the exit code of the process, the line
    on the error stream and the files written. *)
Module Run.
Record t := mk {
    exit_code : Z;
    error : option string;
    written : list (string * Content) }.
End Run.

Definition main_with (parsed : Outcome Args.t) (env : Env.t) : Run.t :=
  match parsed with
  | Ok args =>
      match generateAll args env with
      | (Ok _, files) => Run.mk 0 None files
      | (Throw m, files) => Run.mk 1 (Some ("ERROR: " +:+ m)) files
      | (Exit c, files) => Run.mk c None files
      end
  | Throw m => Run.mk 1 (Some ("ERROR: " +:+ m)) []
  | Exit c => Run.mk c None []
  end.

(** [main]: [parseArgs(process.argv)], then [generateAll]. *)
Definition main (Number_ : option string → Z + string)
    (path_resolve : option string → Outcome string) (default_out : string)
    (argv : list string) (env : Env.t) : Run.t :=
  main_with (parseArgs Number_ path_resolve default_out argv) env.

(** ** Vocabulary of the statements *)

(** Below this span the product [rng() * span] is exact in a double. *)
Definition two21 : Z := 2097152.

(** [post m Q]: the result of [m] satisfies [Q] whatever the state. *)
Definition post {A} (m : M A) (Q : A → Prop) : Prop := ∀ s, Q (m s).1.

(** [untouched c m]: [m] leaves the counter [c] as it found it. *)
Definition untouched {A} (c : IdField) (m : M A) : Prop :=
  ∀ s, ids (m s).2 c = ids s c.

(** [allocs c proj m]: the identifiers [proj r] that the result [r] of [m]
    carries are the values the counter [c] went through during [m], in
    order. *)
Definition allocs {R} (c : IdField) (proj : R → list Z) (m : M R) : Prop :=
  ∀ s, proj (m s).1 = seqZ (ids s c) (Z.of_nat (length (proj (m s).1)))
       ∧ ids (m s).2 c = ids s c + Z.of_nat (length (proj (m s).1)).

(** The loop nest that fills subscribers, orders, tickets, device events
    and usage records: for each [x], a drawn number of bodies, all pushed
    to one array. *)
Definition nested {A B} (count : A → M Z) (body : A → M B) (xs : list A)
    : M (list B) :=
  let* groups := mapM (λ x, let* n := count x in forM n (λ _, body x)) xs in
  ret (concat groups).

(** [cmp_le cmp a b]: the comparator [cmp] puts [a] no later than [b]. *)
Definition cmp_le {A} (cmp : A → A → Z) (a b : A) : Prop := cmp a b ≤ 0.

(** The catalog entry an order item was made from. *)
Definition item_sku (it : OrderItem.t) : Sku.t :=
  Sku.mk (OrderItem.sku it) (OrderItem.priceCents it).

(** An item of the order [o]: it points to [o], has quantity 1 and the
    sku and price of a catalog entry. *)
Definition item_ok (o : Order.t) (it : OrderItem.t) : Prop :=
  OrderItem.orderId it = Order.orderId o ∧ OrderItem.qty it = 1 ∧
  item_sku it ∈ ORDER_SKUS.

(** The loop of [shuffle] on given indices: [js] lists the index [j]
    chosen at i = [i], then at [i - 1], ..., then at 1. *)
Fixpoint shuffle_by {A} (i : nat) (js : list nat) (a : list A) : list A :=
  match i, js with
  | S i', j :: js' => shuffle_by i' js' (swap a i j)
  | _, _ => a
  end.

(** Indices the loop can choose: one for each i from [i] down to 1, each
    between 0 and its i. *)
Fixpoint indices_ok (i : nat) (js : list nat) : Prop :=
  match i, js with
  | O, [] => True
  | S i', j :: js' => (j ≤ i)%nat ∧ indices_ok i' js'
  | _, _ => False
  end.

(** The indices the loop draws when the variable of the closure [rng]
    holds [t] at its start: [Math.floor(rng() * (i + 1))] for i = [i],
    ..., 1. *)
Fixpoint shuffle_draws (i : nat) (t : Z) : list nat :=
  match i with
  | O => []
  | S i' =>
      let '(t', u) := mulberry32_step t in
      Z.to_nat (mulfloor u (Z.of_nat i + 1)) :: shuffle_draws i' t'
  end.

(** What one pass of the order loop pushes for the account [acct]: an
    order of that account and its items, as [genOrder] makes them from
    the state it is run in. *)
Definition order_ok (cfg : Cfg.t) (acct : Account.t)
    (r : Order.t * list OrderItem.t) : Prop :=
  Order.accountId r.1 = Account.accountId acct ∧
  Forall (item_ok r.1) r.2 ∧
  NoDup (map OrderItem.sku r.2) ∧
  (∃ s, r = (genOrder cfg acct s).1) ∧
  (0 ≤ Cfg.itemsPerOrderMin cfg ≤ Cfg.itemsPerOrderMax cfg →
   Cfg.itemsPerOrderMax cfg ≤ 8 →
   Cfg.itemsPerOrderMin cfg ≤ Z.of_nat (length r.2) ≤ Cfg.itemsPerOrderMax cfg).

(** The loop that fills subscriber features and their states: for each
    [x], the rows [f x] pushed to one array. *)
Definition flatMapM {A B} (f : A → M (list B)) (xs : list A) : M (list B) :=
  let* groups := mapM f xs in ret (concat groups).

(** The target of a note, by its discriminant, among the rows generated
    before the notes. *)
Definition note_ok (subscribers : list Subscriber.t) (orders : list Order.t)
    (tickets : list Ticket.t) (refType : string) (refId : Z) : Prop :=
  (refType = "subscriber" ∧
     ∃ s, s ∈ subscribers ∧ refId = Subscriber.subscriberId s) ∨
  (refType = "order" ∧ ∃ o, o ∈ orders ∧ refId = Order.orderId o) ∨
  (refType = "ticket" ∧ ∃ t, t ∈ tickets ∧ refId = Ticket.ticketId t).

(** What the arrays of a run satisfy, before the final sorts; [ids0] is the
    [ids] object at the start. *)
Record RunFacts (cfg : Cfg.t) (ids0 : IdField → Z)
    (plans : list Plan.t) (regions : list Region.t)
    (deviceClasses : list DeviceClass.t) (accounts : list Account.t)
    (subs : list (Subscriber.t * SubscriberProfile.t)) (devices : list Device.t)
    (ords : list (Order.t * list OrderItem.t))
    (sfeat : list SubscriberFeature.t) (sfstate : list SubscriberFeatureState.t)
    (tickets : list Ticket.t) (notes : list Note.t)
    (events : list DeviceEvent.t) (usage : list UsageRecord.t) : Prop := {
  rf_plans : map Plan.planId plans = seqZ (ids0 planId) 2;
  rf_regions : map Region.regionId regions = seqZ (ids0 regionId) 2;
  rf_classes :
    map DeviceClass.deviceClassId deviceClasses = seqZ (ids0 deviceClassId) 2;
  rf_accounts_len : length accounts = Z.to_nat (Cfg.accounts cfg);
  rf_accounts_ids :
    map Account.accountId accounts =
    seqZ (ids0 accountId) (Z.of_nat (length accounts));
  rf_subs_ids :
    map Subscriber.subscriberId subs.*1 =
    seqZ (ids0 subscriberId) (Z.of_nat (length subs));
  rf_subs :
    Forall (λ r, ∃ a, a ∈ accounts ∧
       Subscriber.accountId r.1 = Account.accountId a ∧
       SubscriberProfile.subscriberId r.2 = Subscriber.subscriberId r.1) subs;
  rf_devices_ids :
    map Device.deviceId devices =
    seqZ (ids0 deviceId) (Z.of_nat (length devices));
  rf_devices :
    Forall2 (λ s d, Device.subscriberId d = Subscriber.subscriberId s)
            subs.*1 devices;
  rf_ords_ids :
    map Order.orderId ords.*1 =
    seqZ (ids0 orderId) (Z.of_nat (length ords));
  rf_items_ids :
    map OrderItem.orderItemId (concat ords.*2) =
    seqZ (ids0 orderItemId) (Z.of_nat (length (concat ords.*2)));
  rf_ords : Forall (λ r, ∃ a, a ∈ accounts ∧ order_ok cfg a r) ords;
  rf_ords_len :
    0 ≤ Cfg.ordersPerAccountMin cfg ≤ Cfg.ordersPerAccountMax cfg →
    Cfg.ordersPerAccountMax cfg - Cfg.ordersPerAccountMin cfg + 1 ≤ two21 →
    Cfg.ordersPerAccountMin cfg * Z.of_nat (length accounts)
      ≤ Z.of_nat (length ords)
      ≤ Cfg.ordersPerAccountMax cfg * Z.of_nat (length accounts);
  rf_sfeat :
    Forall (λ sf, ∃ s, s ∈ subs.*1 ∧
       SubscriberFeature.subscriberId sf = Subscriber.subscriberId s ∧
       ∃ f, f ∈ FEATURE_DEFS ∧
            SubscriberFeature.featureId sf = Feature.featureId f) sfeat;
  rf_sfstate_ids :
    map SubscriberFeatureState.subscriberFeatureStateId sfstate =
    seqZ (ids0 subscriberFeatureStateId) (Z.of_nat (length sfstate));
  rf_sfstate :
    Forall (λ st, ∃ sf, sf ∈ sfeat ∧
       SubscriberFeatureState.subscriberId st = SubscriberFeature.subscriberId sf ∧
       SubscriberFeatureState.featureId st = SubscriberFeature.featureId sf)
      sfstate;
  rf_tickets_ids :
    map Ticket.ticketId tickets =
    seqZ (ids0 ticketId) (Z.of_nat (length tickets));
  rf_tickets :
    Forall (λ t, ∃ s, s ∈ subs.*1 ∧
       Ticket.subscriberId t = Subscriber.subscriberId s ∧
       ∃ c, c ∈ TICKET_STATUS ∧ Ticket.statusCode t = TicketStatusCode.code c)
      tickets;
  rf_notes_ids :
    map Note.noteId notes = seqZ (ids0 noteId) (Z.of_nat (length notes));
  rf_notes :
    Forall (λ n, note_ok subs.*1 ords.*1 tickets
                         (Note.refType n) (Note.refId n)) notes;
  rf_events_ids :
    map DeviceEvent.deviceEventId events =
    seqZ (ids0 deviceEventId) (Z.of_nat (length events));
  rf_events :
    Forall (λ e, ∃ d, d ∈ devices ∧
                      DeviceEvent.deviceId e = Device.deviceId d) events;
  rf_usage_ids :
    map UsageRecord.usageRecordId usage =
    seqZ (ids0 usageRecordId) (Z.of_nat (length usage));
  rf_usage :
    Forall (λ r, ∃ s, s ∈ subs.*1 ∧
       UsageRecord.subscriberId r = Subscriber.subscriberId s ∧
       UsageRecord.usageType r ∈ usageTypes ∧
       UsageRecord.ratedCents r =
         ratedCents (UsageRecord.usageType r) (UsageRecord.units r)) usage;
}.

(** Every foreign key [fk x] of a child row is the key [pk y] of a parent
    row. *)
Definition resolves {A B K} (fk : A → K) (pk : B → K)
    (children : list A) (parents : list B) : Prop :=
  ∀ x, x ∈ children → ∃ y, y ∈ parents ∧ fk x = pk y.

(** A self reference resolves to a row placed earlier in the same list. *)
Definition resolves_earlier {A K} (fk : A → option K) (pk : A → K)
    (rows : list A) : Prop :=
  ∀ i x k, rows !! i = Some x → fk x = Some k →
    ∃ j y, (j < i)%nat ∧ rows !! j = Some y ∧ pk y = k.

Definition note_resolves (c : Canonical.t) (n : Note.t) : Prop :=
  (Note.refType n = "subscriber" ∧
     ∃ s, s ∈ Canonical.subscribers c ∧ Note.refId n = Subscriber.subscriberId s) ∨
  (Note.refType n = "order" ∧
     ∃ o, o ∈ Canonical.orders c ∧ Note.refId n = Order.orderId o) ∨
  (Note.refType n = "ticket" ∧
     ∃ t, t ∈ Canonical.tickets c ∧ Note.refId n = Ticket.ticketId t).

Record referential_integrity (c : Canonical.t) : Prop := {
  fk_subscriber_account :
    resolves Subscriber.accountId Account.accountId
             (Canonical.subscribers c) (Canonical.accounts c);
  fk_profile_subscriber :
    resolves SubscriberProfile.subscriberId Subscriber.subscriberId
             (Canonical.subscriber_profiles c) (Canonical.subscribers c);
  fk_device_subscriber :
    resolves Device.subscriberId Subscriber.subscriberId
             (Canonical.devices c) (Canonical.subscribers c);
  fk_event_device :
    resolves DeviceEvent.deviceId Device.deviceId
             (Canonical.device_events c) (Canonical.devices c);
  fk_order_account :
    resolves Order.accountId Account.accountId
             (Canonical.orders c) (Canonical.accounts c);
  fk_item_order :
    resolves OrderItem.orderId Order.orderId
             (Canonical.order_items c) (Canonical.orders c);
  fk_feature_subscriber :
    resolves SubscriberFeature.subscriberId Subscriber.subscriberId
             (Canonical.subscriber_features c) (Canonical.subscribers c);
  fk_feature_feature :
    resolves SubscriberFeature.featureId Feature.featureId
             (Canonical.subscriber_features c) (Canonical.features c);
  fk_state_bridge :
    resolves (λ st, (SubscriberFeatureState.subscriberId st,
                     SubscriberFeatureState.featureId st))
             (λ sf, (SubscriberFeature.subscriberId sf,
                     SubscriberFeature.featureId sf))
             (Canonical.subscriber_feature_state c)
             (Canonical.subscriber_features c);
  fk_ticket_subscriber :
    resolves Ticket.subscriberId Subscriber.subscriberId
             (Canonical.tickets c) (Canonical.subscribers c);
  fk_ticket_status :
    resolves Ticket.statusCode TicketStatusCode.code
             (Canonical.tickets c) (Canonical.ticket_status_codes c);
  fk_note_target : Forall (note_resolves c) (Canonical.notes c);
  fk_org_parent :
    resolves_earlier OrgUnit.parentOrgUnitId OrgUnit.orgUnitId
                     (Canonical.org_units c);
  fk_rate_plan :
    resolves Rate.planId Plan.planId (Canonical.rates c) (Canonical.plans c);
  fk_rate_region :
    resolves Rate.regionId Region.regionId
             (Canonical.rates c) (Canonical.regions c);
  fk_rate_class :
    resolves Rate.deviceClassId DeviceClass.deviceClassId
             (Canonical.rates c) (Canonical.device_classes c);
  fk_usage_subscriber :
    resolves UsageRecord.subscriberId Subscriber.subscriberId
             (Canonical.usage_records c) (Canonical.subscribers c);
}.

(** The items of the order [o] in a canonical graph. *)
Definition items_of (c : Canonical.t) (o : Order.t) : list OrderItem.t :=
  filter (λ it, OrderItem.orderId it = Order.orderId o) (Canonical.order_items c).

(** What [csvEscape] does to line ends before it quotes. *)
Definition normalize_newlines (s : string) : string :=
  replace_cr (replace_crlf s).

(** [String(val)] for a cell; [null] is written as nothing. *)
Definition cell_text (c : Cell) : string :=
  match c with
  | CellNull => EmptyString
  | CellNum n => String_ n
  | CellStr s => s
  end.

(** The rest of the input after a field: nothing, or a separator first. *)
Definition at_field_end (rest : string) : Prop :=
  match rest with
  | EmptyString => True
  | String c _ => c = COMMA ∨ c = LF
  end.

(** The value of the counterexample below: [a], a comma, a quote, [b],
    CR LF, [c]; and what comes back, with LF for CR LF. *)
Definition crlf_value : string :=
  String "a" (String COMMA (String DQ (String "b"
    (String CR (String LF (String "c" EmptyString)))))).
Definition lf_value : string :=
  String "a" (String COMMA (String DQ (String "b"
    (String LF (String "c" EmptyString))))).

Definition preset_S : Cfg.t := Cfg.mk 3 2 2 1 2 2 3 0 1 3 6 10 2 true.
Definition preset_M : Cfg.t := Cfg.mk 25 2 5 1 4 2 5 0 2 20 60 250 7 true.
Definition preset_L : Cfg.t := Cfg.mk 200 2 6 1 5 2 6 0 2 200 600 2500 30 true.

(** The manifest without its wall-clock stamp. *)
Definition without_stamp (m : Manifest.t) : Manifest.t :=
  Manifest.mk (Manifest.datasetVersion m) EmptyString (Manifest.seed m)
              (Manifest.size m) (Manifest.presets m)
              (Manifest.equivalenceRules m) (Manifest.counts m).

Definition file_without_stamp (f : string * Content) : string * Content :=
  match f with
  | (path, ManifestJson m) => (path, ManifestJson (without_stamp m))
  | _ => f
  end.

(** The files a sequence of calls writes when none of them fails. *)
Definition files_of (calls : list FsCall) : list (string * Content) :=
  omap (λ c, match c with
             | WriteFileSync file data => Some (file, data)
             | MkdirSync _ => None
             end) calls.

(** The subscribers of the account [a] in a canonical graph. *)
Definition subscribers_of (c : Canonical.t) (a : Account.t) : list Subscriber.t :=
  filter (λ s, Subscriber.accountId s = Account.accountId a)
         (Canonical.subscribers c).

(** The values a grouping loop has pushed under the key [k]. *)
Definition pushed {X V} (g : X → option (Z * V)) (k : Z) (l : list X) : list V :=
  omap (λ x, match g x with
             | Some (k', v) => if decide (k' = k) then Some v else None
             | None => None
             end) l.

(** The subscriber [sid] holds the feature code [code] in [c]: a bridge
    row of [sid] names a feature, and the feature with that identifier
    (the last one, should several share it) has this code. *)
Definition holds_code (c : Canonical.t) (sid : Z) (code : string) : Prop :=
  ∃ sf f,
    sf ∈ Canonical.subscriber_features c ∧
    SubscriberFeature.subscriberId sf = sid ∧
    last (filter (λ f, Feature.featureId f = SubscriberFeature.featureId sf)
                 (Canonical.features c)) = Some f ∧
    Feature.code f = code.

(** [r] holds the fields of the profile [p] other than its key
    [subscriberId], each with the value it has in [p]. *)
Definition profile_fields (p : SubscriberProfile.t) (r : ProfileRest.t)
    : Prop :=
  ProfileRest.firstName r = SubscriberProfile.firstName p ∧
  ProfileRest.lastName r = SubscriberProfile.lastName p ∧
  ProfileRest.email r = SubscriberProfile.email p ∧
  ProfileRest.dob r = SubscriberProfile.dob p ∧
  ProfileRest.piiLast4Ssn r = SubscriberProfile.piiLast4Ssn p ∧
  ProfileRest.preferences r = SubscriberProfile.preferences p ∧
  ProfileRest.updatedAt r = SubscriberProfile.updatedAt p.

(** [e] holds the identifier, the sku, the quantity and the price of the
    order item [it]. *)
Definition item_fields (it : OrderItem.t) (e : EmbeddedItem.t) : Prop :=
  EmbeddedItem.orderItemId e = OrderItem.orderItemId it ∧
  EmbeddedItem.sku e = OrderItem.sku it ∧
  EmbeddedItem.qty e = OrderItem.qty it ∧
  EmbeddedItem.priceCents e = OrderItem.priceCents it.

(** What the optimized document [os] is to the normalized subscriber [s]:
    the same document, with the fields of its profile other than the key
    under [profile] (the last profile of that subscriber, should there be
    several; no [profile] when it has none), and, when the preset asks for
    them, its feature codes without repetitions and in lexicographic
    order. *)
Definition embedded_subscriber (c : Canonical.t) (cfg : Cfg.t)
    (s : WithId Z Subscriber.t) (os : OptSubscriber.t) : Prop :=
  let sid := Subscriber.subscriberId (doc s) in
  OptSubscriber.base os = s ∧
  match last (filter (λ p, SubscriberProfile.subscriberId p = sid)
                     (Canonical.subscriber_profiles c)) with
  | Some p => ∃ r, OptSubscriber.profile os = Some r ∧ profile_fields p r
  | None => OptSubscriber.profile os = None
  end ∧
  if Cfg.embedFeatureCodes cfg then
    ∃ codes, OptSubscriber.featureCodes os = Some codes ∧
             NoDup codes ∧ Sorted String.le codes ∧
             ∀ code, code ∈ codes ↔ holds_code c sid code
  else OptSubscriber.featureCodes os = None.

(** What the optimized document [oo] is to the normalized order [o]: the
    same document, with one embedded item for each item of the order,
    holding its identifier, sku, quantity and price, in the order of the
    identifiers. *)
Definition embedded_order (c : Canonical.t)
    (o : WithId Z Order.t) (oo : OptOrder.t) : Prop :=
  OptOrder.base oo = o ∧
  Sorted (λ a b, EmbeddedItem.orderItemId a ≤ EmbeddedItem.orderItemId b)
         (OptOrder.items oo) ∧
  ∃ its, its ≡ₚ items_of c (doc o) ∧
         Forall2 item_fields its (OptOrder.items oo).

(** An embedded item put back as a row of the order [oid]. *)
Definition flatten_item (oid : Z) (e : EmbeddedItem.t) : OrderItem.t :=
  OrderItem.mk (EmbeddedItem.orderItemId e) oid (EmbeddedItem.sku e)
               (EmbeddedItem.qty e) (EmbeddedItem.priceCents e).

(** ** Vocabulary of the further properties *)

(** The value the closure variable of [rng] holds after [n] calls. *)
Definition rng_after (n : nat) (t : Z) : Z :=
  Nat.iter n (λ t, (mulberry32_step t).1) t.

(** One option of the command line. *)
Inductive CliOption :=
  | OptSize (v : string)
  | OptSeed (v : string)
  | OptOut (v : string)
  | OptOnly (v : string)
  | OptOverwrite.

(** The words an option is written with. *)
Definition option_words (o : CliOption) : list string :=
  match o with
  | OptSize v => ["--size"; v]
  | OptSeed v => ["--seed"; v]
  | OptOut v => ["--out"; v]
  | OptOnly v => ["--only"; v]
  | OptOverwrite => ["--overwrite"]
  end.

(** What an option does to the [args] object; [resolved v] is the path
    [path.resolve(v)] returns. *)
Definition set_option (Number_ : option string → Z + string)
    (resolved : string → string) (args : RawArgs.t) (o : CliOption)
    : RawArgs.t :=
  match o with
  | OptSize v => RawArgs.mk (Some v) (RawArgs.seed args) (RawArgs.out args)
                   (RawArgs.only args) (RawArgs.overwrite args)
  | OptSeed v => RawArgs.mk (RawArgs.size args) (Number_ (Some v))
                   (RawArgs.out args) (RawArgs.only args)
                   (RawArgs.overwrite args)
  | OptOut v => RawArgs.mk (RawArgs.size args) (RawArgs.seed args) (resolved v)
                  (RawArgs.only args) (RawArgs.overwrite args)
  | OptOnly v => RawArgs.mk (RawArgs.size args) (RawArgs.seed args)
                   (RawArgs.out args) (Some v) (RawArgs.overwrite args)
  | OptOverwrite => RawArgs.mk (RawArgs.size args) (RawArgs.seed args)
                      (RawArgs.out args) (RawArgs.only args) true
  end.

(** The words of a sequence of options, in order. *)
Definition options_words (opts : list CliOption) : list string :=
  concat (map option_words opts).

(** The words the parser knows. *)
Definition known_words : list string :=
  ["--size"; "--seed"; "--out"; "--only"; "--overwrite"; "-h"; "--help"].

(** The value holds a character that [csvEscape] treats: a comma, a
    quote or a line end of either kind. *)
Definition csv_special (s : string) : bool :=
  includes COMMA s || includes DQ s || includes LF s || includes CR s.

(** The reference reader on a whole file: its records, one after the
    other, until the input is used up. *)
Fixpoint csv_records (fuel : nat) (s : string) : option (list (list string)) :=
  match fuel with
  | O => None
  | S fuel' =>
      match s with
      | EmptyString => Some []
      | _ =>
          '(fs, rest) ← csv_decode_record s;
          rs ← csv_records fuel' rest;
          Some (fs :: rs)
      end
  end.

Definition csv_decode (s : string) : option (list (list string)) :=
  csv_records (S (String.length s)) s.

(** The text of a file made of the given lines, each closed by a line
    end. *)
Definition file_of_lines (ls : list string) : string :=
  match ls with [] => EmptyString | _ => join NL ls +:+ NL end.

(** What a reader gets back for a cell: its text, line ends normalized. *)
Definition cell_read (c : Cell) : string := normalize_newlines (cell_text c).

(** ** Reading an NDJSON file *)

(** The lines of a text: what stands before each line end. A reader of
    NDJSON takes one document from each. *)
Fixpoint lines_go (cur : string) (s : string) : list string :=
  match s with
  | EmptyString => match cur with EmptyString => [] | _ => [cur] end
  | String c s' =>
      if Ascii.eqb c LF then cur :: lines_go EmptyString s'
      else lines_go (cur +:+ String c EmptyString) s'
  end.

Definition lines (s : string) : list string := lines_go EmptyString s.

(** ** The phases of a run *)

(** The arrays of a run as its phases leave them, before the final sorts,
    each with the state its phase started from. *)
Record Phases (cfg : Cfg.t) (plans : list Plan.t) (regions : list Region.t)
    (deviceClasses : list DeviceClass.t) (accounts : list Account.t)
    (subs : list (Subscriber.t * SubscriberProfile.t)) (devices : list Device.t)
    (ords : list (Order.t * list OrderItem.t))
    (sfeat : list SubscriberFeature.t) (sfstate : list SubscriberFeatureState.t)
    (tickets : list Ticket.t) (notes : list Note.t)
    (events : list DeviceEvent.t) (usage : list UsageRecord.t) : Prop := {
  ph_plans : ∃ s, (genPlans s).1 = plans;
  ph_regions : ∃ s, (genRegions s).1 = regions;
  ph_classes : ∃ s, (genDeviceClasses s).1 = deviceClasses;
  ph_accounts : ∃ s, (genAccounts cfg s).1 = accounts;
  ph_subs : ∃ s, (genSubscribers cfg accounts s).1 = subs;
  ph_devices : ∃ s, (genDevices subs.*1 s).1 = devices;
  ph_ords : ∃ s, (genOrders cfg accounts s).1 = ords;
  ph_sfeat : ∃ s, (genSubscriberFeatures FEATURE_DEFS subs.*1 s).1 = sfeat;
  ph_sfstate : ∃ s, (genSubscriberFeatureState cfg sfeat s).1 = sfstate;
  ph_tickets : ∃ s, (genTickets cfg TICKET_STATUS subs.*1 s).1 = tickets;
  ph_notes : ∃ s, (genNotes cfg subs.*1 ords.*1 tickets s).1 = notes;
  ph_events : ∃ s, (genDeviceEvents cfg devices s).1 = events;
  ph_usage : ∃ s, (genUsageRecords cfg subs.*1 s).1 = usage;
}.

(** The rows of [rows] whose key [fk] is [k]: the children of the parent
    row with that key. *)
Definition children_of {A} (fk : A → Z) (k : Z) (rows : list A) : list A :=
  filter (λ r, fk r = k) rows.

(** The window of a run: the [days] days that end at the base instant,
    in whole minutes. *)
Definition in_window (cfg : Cfg.t) (ts : Z) : Prop :=
  base - Cfg.days cfg * dayMs < ts ≤ base ∧ ts mod minuteMs = 0.

(** A ticket as the ticket loop makes it: a status code of the lookup
    table, opened between 1 and 48 hours after the start of the window,
    closed if and only if it is resolved, and then between 15 and 180
    minutes after it was opened. *)
Definition ticket_ok (cfg : Cfg.t) (t : Ticket.t) : Prop :=
  let start := base - Cfg.days cfg * dayMs in
  (∃ c, c ∈ TICKET_STATUS ∧ Ticket.statusCode t = TicketStatusCode.code c) ∧
  start + 1 * hourMs ≤ Ticket.openedAt t ≤ start + 48 * hourMs ∧
  (Ticket.closedAt t = None ↔ Ticket.statusCode t ≠ "RESOLVED") ∧
  (∀ closed, Ticket.closedAt t = Some closed →
     Ticket.openedAt t + 15 * minuteMs ≤ closed
       ≤ Ticket.openedAt t + 180 * minuteMs) ∧
  Ticket.summary t ∈ TICKET_SUMMARIES.

(** A usage record as the usage loop makes it: inside the window, with
    units in the range of its type. *)
Definition usage_ok (cfg : Cfg.t) (r : UsageRecord.t) : Prop :=
  in_window cfg (UsageRecord.ts r) ∧
  ((UsageRecord.usageType r = "voice" ∧ 30 ≤ UsageRecord.units r ≤ 600) ∨
   (UsageRecord.usageType r = "sms" ∧ 1 ≤ UsageRecord.units r ≤ 5) ∨
   (UsageRecord.usageType r = "data" ∧ 256 ≤ UsageRecord.units r ≤ 10240)).

(** The payload that goes with an event type, field by field. *)
Definition payload_matches (eventType : string) (p : Payload) : Prop :=
  match p with
  | RadioAttach cellId rssi =>
      eventType = "radio_attach" ∧
      (∃ n, 100 ≤ n ≤ 399 ∧ cellId = "DFW-" +:+ String_ n) ∧
      -100 ≤ rssi ≤ -70
  | Handover a b =>
      eventType = "handover" ∧
      (∃ n, 100 ≤ n ≤ 399 ∧ a = "DFW-" +:+ String_ n) ∧
      (∃ n, 100 ≤ n ≤ 399 ∧ b = "DFW-" +:+ String_ n)
  | DataSessionStart apn ip =>
      eventType = "data_session_start" ∧ apn = "carrierops" ∧
      ∃ a b c, 0 ≤ a ≤ 255 ∧ 0 ≤ b ≤ 255 ∧ 1 ≤ c ≤ 254 ∧
        ip = "10." +:+ String_ a +:+ "." +:+ String_ b +:+ "." +:+ String_ c
  | DataSessionEnd up down =>
      eventType = "data_session_end" ∧
      1000000 ≤ up ≤ 8000000 ∧ 3000000 ≤ down ≤ 30000000
  | LatencyProbe p50 p95 =>
      eventType = "latency_probe" ∧ 20 ≤ p50 ≤ 80 ∧ 100 ≤ p95 ≤ 350
  | AttachFail cause =>
      eventType = "attach_fail" ∧
      cause ∈ ["network_congestion"; "auth_reject"; "radio_no_service"]
  | EmptyPayload => False
  end.

Definition event_ok (cfg : Cfg.t) (e : DeviceEvent.t) : Prop :=
  in_window cfg (DeviceEvent.ts e) ∧
  payload_matches (DeviceEvent.eventType e) (DeviceEvent.payload e).

(** A feature state row as its loop makes it. *)
Definition state_ok (cfg : Cfg.t) (st : SubscriberFeatureState.t) : Prop :=
  let start := base - (Cfg.days cfg + 1) * dayMs in
  start + 1 * hourMs ≤ SubscriberFeatureState.effectiveFrom st
    ≤ start + 48 * hourMs ∧
  (∀ t, SubscriberFeatureState.effectiveTo st = Some t →
        t = SubscriberFeatureState.effectiveFrom st + 3 * dayMs) ∧
  SubscriberFeatureState.provisioningState st ∈ ["pending"; "active"; "failed"] ∧
  SubscriberFeatureState.source st ∈ ["self-serve"; "call-center"; "system"].

(** A note as the note loop fills it: written between 1 and 48 hours
    after the start of the window, by one of the authors, with a body
    that names its target. *)
Definition note_filled (cfg : Cfg.t) (n : Note.t) : Prop :=
  let start := base - Cfg.days cfg * dayMs in
  start + 1 * hourMs ≤ Note.createdAt n ≤ start + 48 * hourMs ∧
  Note.author n ∈ NOTE_AUTHORS ∧
  ∃ what, what ∈ NOTE_BODIES ∧
    Note.body n = "Note on " +:+ Note.refType n +:+ " "
                  +:+ String_ (Note.refId n) +:+ ": " +:+ what.

(** The count the manifest gives for an entity (0 for a name it does
    not list). *)
Definition manifest_count (m : Manifest.t) (name : string) : Z :=
  default 0 (props_get name (Manifest.counts m)).

(** The identifiers a dataset hands out, entity type by entity type, in
    the order of the ranges of [idRanges] (the feature identifiers of the
    vocabulary come between order items and feature states). *)
Definition identifiers (c : Canonical.t) : list (list Z) :=
  [map Account.accountId (Canonical.accounts c);
   map Subscriber.subscriberId (Canonical.subscribers c);
   map Device.deviceId (Canonical.devices c);
   map Order.orderId (Canonical.orders c);
   map OrderItem.orderItemId (Canonical.order_items c);
   map Feature.featureId (Canonical.features c);
   map SubscriberFeatureState.subscriberFeatureStateId
       (Canonical.subscriber_feature_state c);
   map Ticket.ticketId (Canonical.tickets c);
   map Note.noteId (Canonical.notes c);
   map OrgUnit.orgUnitId (Canonical.org_units c);
   map Plan.planId (Canonical.plans c);
   map Region.regionId (Canonical.regions c);
   map DeviceClass.deviceClassId (Canonical.device_classes c);
   map DeviceEvent.deviceEventId (Canonical.device_events c);
   map UsageRecord.usageRecordId (Canonical.usage_records c)].

(** ** The constraints of the schema (seed/postgres/tables.sql) and of
    the unique indexes (mongo/indexes.normalized.js,
    mongo/indexes.optimized.js) *)

(** The keys: a primary key or a UNIQUE column holds no value twice. *)
Record schema_keys (c : Canonical.t) : Prop := {
  pk_accounts : NoDup (map Account.accountId (Canonical.accounts c));
  uq_account_number : NoDup (map Account.accountNumber (Canonical.accounts c));
  pk_subscribers :
    NoDup (map Subscriber.subscriberId (Canonical.subscribers c));
  uq_msisdn : NoDup (map Subscriber.msisdn (Canonical.subscribers c));
  pk_subscriber_profiles :
    NoDup (map SubscriberProfile.subscriberId (Canonical.subscriber_profiles c));
  pk_devices : NoDup (map Device.deviceId (Canonical.devices c));
  uq_imei : NoDup (map Device.imei (Canonical.devices c));
  pk_device_events :
    NoDup (map DeviceEvent.deviceEventId (Canonical.device_events c));
  pk_orders : NoDup (map Order.orderId (Canonical.orders c));
  pk_order_items : NoDup (map OrderItem.orderItemId (Canonical.order_items c));
  pk_features : NoDup (map Feature.featureId (Canonical.features c));
  uq_feature_code : NoDup (map Feature.code (Canonical.features c));
  pk_subscriber_features :
    NoDup (map (λ sf, (SubscriberFeature.subscriberId sf,
                       SubscriberFeature.featureId sf))
               (Canonical.subscriber_features c));
  pk_subscriber_feature_state :
    NoDup (map SubscriberFeatureState.subscriberFeatureStateId
               (Canonical.subscriber_feature_state c));
  pk_ticket_status_codes :
    NoDup (map TicketStatusCode.code (Canonical.ticket_status_codes c));
  pk_tickets : NoDup (map Ticket.ticketId (Canonical.tickets c));
  pk_notes : NoDup (map Note.noteId (Canonical.notes c));
  pk_org_units : NoDup (map OrgUnit.orgUnitId (Canonical.org_units c));
  pk_plans : NoDup (map Plan.planId (Canonical.plans c));
  uq_plan_code : NoDup (map Plan.code (Canonical.plans c));
  pk_regions : NoDup (map Region.regionId (Canonical.regions c));
  uq_region_code : NoDup (map Region.code (Canonical.regions c));
  pk_device_classes :
    NoDup (map DeviceClass.deviceClassId (Canonical.device_classes c));
  uq_device_class_code :
    NoDup (map DeviceClass.code (Canonical.device_classes c));
  pk_rates :
    NoDup (map (λ r, (Rate.planId r, Rate.regionId r, Rate.deviceClassId r))
               (Canonical.rates c));
  pk_usage_records :
    NoDup (map UsageRecord.usageRecordId (Canonical.usage_records c));
}.

(** The largest value of an INT column. *)
Definition int_max : Z := 2147483647.

(** The CHECK constraints, on columns of type INT. *)
Record schema_checks (c : Canonical.t) : Prop := {
  ck_qty :
    Forall (λ it, 0 < OrderItem.qty it ≤ int_max) (Canonical.order_items c);
  ck_price_cents :
    Forall (λ it, 0 ≤ OrderItem.priceCents it ≤ int_max)
           (Canonical.order_items c);
  ck_rate_cents :
    Forall (λ r, 0 ≤ Rate.rateCents r ≤ int_max) (Canonical.rates c);
  ck_units :
    Forall (λ r, 0 ≤ UsageRecord.units r ≤ int_max) (Canonical.usage_records c);
  ck_rated_cents :
    Forall (λ r, 0 ≤ UsageRecord.ratedCents r ≤ int_max)
           (Canonical.usage_records c);
}.

(** ** The relational schema and its loader *)

Module Table.
Record t := mk {
    name : string; columns : list string; references : list string }.
End Table.

(** The tables of seed/postgres/tables.sql, in the order they are
    created: the name, the columns in order, and the tables the foreign
    keys point to. *)
Definition tables_sql : list Table.t :=
  [Table.mk "accounts"
     ["account_id"; "account_number"; "name"; "billing_region_code";
      "status"; "created_at"] [];
   Table.mk "subscribers"
     ["subscriber_id"; "account_id"; "msisdn"; "status"; "created_at"]
     ["accounts"];
   Table.mk "subscriber_profiles"
     ["subscriber_id"; "first_name"; "last_name"; "email"; "dob";
      "pii_last4_ssn"; "preferences"; "updated_at"]
     ["subscribers"];
   Table.mk "devices"
     ["device_id"; "subscriber_id"; "imei"; "model"; "created_at"]
     ["subscribers"];
   Table.mk "device_events"
     ["device_event_id"; "device_id"; "event_type"; "ts"; "payload"]
     ["devices"];
   Table.mk "orders"
     ["order_id"; "account_id"; "status"; "created_at"] ["accounts"];
   Table.mk "order_items"
     ["order_item_id"; "order_id"; "sku"; "qty"; "price_cents"] ["orders"];
   Table.mk "features" ["feature_id"; "code"; "name"] [];
   Table.mk "subscriber_features" ["subscriber_id"; "feature_id"]
     ["subscribers"; "features"];
   Table.mk "subscriber_feature_state"
     ["subscriber_feature_state_id"; "subscriber_id"; "feature_id";
      "effective_from"; "effective_to"; "provisioning_state"; "source"]
     ["subscribers"; "features"];
   Table.mk "ticket_status_codes" ["code"; "description"] [];
   Table.mk "tickets"
     ["ticket_id"; "subscriber_id"; "status_code"; "opened_at"; "closed_at";
      "summary"]
     ["subscribers"; "ticket_status_codes"];
   Table.mk "notes"
     ["note_id"; "ref_type"; "ref_id"; "author"; "body"; "created_at"] [];
   Table.mk "org_units" ["org_unit_id"; "name"; "parent_org_unit_id"]
     ["org_units"];
   Table.mk "plans" ["plan_id"; "code"; "name"] [];
   Table.mk "regions" ["region_id"; "code"] [];
   Table.mk "device_classes" ["device_class_id"; "code"] [];
   Table.mk "rates"
     ["plan_id"; "region_id"; "device_class_id"; "rate_cents"]
     ["plans"; "regions"; "device_classes"];
   Table.mk "usage_records"
     ["usage_record_id"; "subscriber_id"; "ts"; "usage_type"; "units";
      "rated_cents"]
     ["subscribers"]].

(** The COPY statements of seed/postgres/load.sql, in order: the table
    and the column list; the file of a table is its name with [.csv]. *)
Definition load_sql : list (string * list string) :=
  [("ticket_status_codes", ["code"; "description"]);
   ("plans", ["plan_id"; "code"; "name"]);
   ("regions", ["region_id"; "code"]);
   ("device_classes", ["device_class_id"; "code"]);
   ("features", ["feature_id"; "code"; "name"]);
   ("org_units", ["org_unit_id"; "name"; "parent_org_unit_id"]);
   ("accounts",
    ["account_id"; "account_number"; "name"; "billing_region_code"; "status";
     "created_at"]);
   ("subscribers",
    ["subscriber_id"; "account_id"; "msisdn"; "status"; "created_at"]);
   ("subscriber_profiles",
    ["subscriber_id"; "first_name"; "last_name"; "email"; "dob";
     "pii_last4_ssn"; "preferences"; "updated_at"]);
   ("devices", ["device_id"; "subscriber_id"; "imei"; "model"; "created_at"]);
   ("orders", ["order_id"; "account_id"; "status"; "created_at"]);
   ("order_items", ["order_item_id"; "order_id"; "sku"; "qty"; "price_cents"]);
   ("subscriber_features", ["subscriber_id"; "feature_id"]);
   ("subscriber_feature_state",
    ["subscriber_feature_state_id"; "subscriber_id"; "feature_id";
     "effective_from"; "effective_to"; "provisioning_state"; "source"]);
   ("tickets",
    ["ticket_id"; "subscriber_id"; "status_code"; "opened_at"; "closed_at";
     "summary"]);
   ("notes", ["note_id"; "ref_type"; "ref_id"; "author"; "body"; "created_at"]);
   ("rates", ["plan_id"; "region_id"; "device_class_id"; "rate_cents"]);
   ("device_events",
    ["device_event_id"; "device_id"; "event_type"; "ts"; "payload"]);
   ("usage_records",
    ["usage_record_id"; "subscriber_id"; "ts"; "usage_type"; "units";
     "rated_cents"])].

(** The place of a table in the order of the COPY statements. *)
Definition load_position (t : string) : option nat :=
  fst <$> list_find (λ c, c.1 = t) load_sql.

(** The table [p] is loaded before the table [t]. *)
Definition loaded_before (p t : string) : Prop :=
  ∃ i j, load_position p = Some i ∧ load_position t = Some j ∧ (i < j)%nat.

(** ** Document identifiers *)

(** The [_id] of each document of a collection: an integer, or the code
    for the ticket status codes. *)
Definition collection_ids (c : Collection) : list (Z + string) :=
  match c with
  | CAccounts l => map (λ d, inl (_id d)) l
  | CSubscribers l => map (λ d, inl (_id d)) l
  | CSubscriberProfiles l => map (λ d, inl (_id d)) l
  | CDevices l => map (λ d, inl (_id d)) l
  | CDeviceEvents l => map (λ d, inl (_id d)) l
  | COrders l => map (λ d, inl (_id d)) l
  | COrderItems l => map (λ d, inl (_id d)) l
  | CFeatures l => map (λ d, inl (_id d)) l
  | CSubscriberFeatures l => map (λ d, inl (_id d)) l
  | CSubscriberFeatureState l => map (λ d, inl (_id d)) l
  | CTicketStatusCodes l => map (λ d, inr (_id d)) l
  | CTickets l => map (λ d, inl (_id d)) l
  | CNotes l => map (λ d, inl (_id d)) l
  | COrgUnits l => map (λ d, inl (_id d)) l
  | CPlans l => map (λ d, inl (_id d)) l
  | CRegions l => map (λ d, inl (_id d)) l
  | CDeviceClasses l => map (λ d, inl (_id d)) l
  | CRates l => map (λ d, inl (_id d)) l
  | CUsageRecords l => map (λ d, inl (_id d)) l
  | COptSubscribers l => map (λ s, inl (_id (OptSubscriber.base s))) l
  | COptOrders l => map (λ o, inl (_id (OptOrder.base o))) l
  end.

(** ** What a run writes below its output directory *)

(** [shape_content c opt rel d]: the file at the path [rel] below the
    output directory belongs to one of the four shapes and is written
    with [d], for the canonical graph [c] and its optimized projection
    [opt]. *)
Definition shape_content (c : Canonical.t) (opt : Obj)
    (rel : string) (d : Content) : Prop :=
  (∃ name, rel = "/canonical/" +:+ name +:+ ".ndjson" ∧
     d = match props_get name (canonical_props c) with
         | Some rows => NdjsonRows rows
         | None => NdjsonEmpty
         end) ∨
  (∃ name, rel = "/mongo_normalized/" +:+ name +:+ ".ndjson" ∧
     d = match obj_get name (toMongoNormalized c) with
         | Some docs => NdjsonDocs docs
         | None => NdjsonEmpty
         end) ∨
  (∃ name docs, rel = "/mongo_optimized/" +:+ name +:+ ".ndjson" ∧
     obj_get name opt = Some docs ∧ d = NdjsonDocs docs) ∨
  (∃ b, b ∈ toPostgresCsvBundles c ∧
     rel = "/postgres/data/" +:+ Bundle.filename b ∧
     d = Text (toCsv (Bundle.headers b) (Bundle.rows b))).

(** The manifest with another stamp. *)
Definition with_stamp (stamp : string) (m : Manifest.t) : Manifest.t :=
  Manifest.mk (Manifest.datasetVersion m) stamp (Manifest.seed m)
              (Manifest.size m) (Manifest.presets m)
              (Manifest.equivalenceRules m) (Manifest.counts m).

(* ===================================================================== *)
(** * Properties *)
(* ===================================================================== *)

(** ** Arithmetic of the draw *)

Lemma round53_small x : 0 ≤ x < two53 → round53 x = x.
Proof.
  intros [H0 H1]. unfold round53.
  destruct (Z.ltb_spec x 0) as [?|_]; [lia|].
  unfold round53_pos.
  assert (Z.log2 x - 52 ≤ 0) as Hl.
  { destruct (decide (x = 0)) as [->|]; [simpl; lia|].
    assert (Z.log2 x < 53); [|lia].
    apply Z.log2_lt_pow2; [lia|]. exact H1. }
  rewrite Z.max_l by lia. simpl. rewrite Z.shiftr_0_r, Z.shiftl_0_r. done.
Qed.

Lemma mulfloor_bound u n :
  0 ≤ u < two32 → 0 < n ≤ two21 → 0 ≤ mulfloor u n < n.
Proof.
  intros Hu Hn. unfold mulfloor, two32, two21 in *.
  rewrite round53_small by (unfold two53; nia).
  split.
  - apply Z.div_pos; nia.
  - apply Z.div_lt_upper_bound; nia.
Qed.

Lemma u32_range x : 0 ≤ u32 x < two32.
Proof. unfold u32, two32. apply Z.mod_pos_bound. lia. Qed.

Lemma ltb_threshold a b k u :
  0 < a → k * a < b ≤ (k + 1) * a → (u * a <? b) = (u <=? k).
Proof.
  intros Ha Hk.
  destruct (Z.ltb_spec (u * a) b), (Z.leb_spec u k); try reflexivity; exfalso.
  - assert ((k + 1) * a ≤ u * a) by (apply Z.mul_le_mono_nonneg_r; lia). lia.
  - assert (u * a ≤ k * a) by (apply Z.mul_le_mono_nonneg_r; lia). lia.
Qed.

(** The thresholds of the source are 0.1, 0.5, 0.7, 0.55, 0.75 and 0.15.
    Their doubles are 3602879701896397 / 2^55, 1 / 2, 3152519739159347 /
    2^52, 2476979795053773 / 2^52, 3 / 4 and 5404319552844595 / 2^55; no
    draw falls between a literal and its double. *)
Lemma draw_lt_double u :
  draw_lt u 1 10 = double_lt u 3602879701896397 55 ∧
  draw_lt u 5 10 = double_lt u 1 1 ∧
  draw_lt u 7 10 = double_lt u 3152519739159347 52 ∧
  draw_lt u 55 100 = double_lt u 2476979795053773 52 ∧
  draw_lt u 75 100 = double_lt u 3 2 ∧
  draw_lt u 15 100 = double_lt u 5404319552844595 55.
Proof.
  unfold draw_lt, double_lt, two32.
  split_and!.
  - rewrite (ltb_threshold 10 _ 429496729),
      (ltb_threshold (2 ^ 55) _ 429496729);
      [reflexivity|vm_compute; intuition congruence..].
  - rewrite (ltb_threshold 10 _ 2147483647),
      (ltb_threshold (2 ^ 1) _ 2147483647);
      [reflexivity|vm_compute; intuition congruence..].
  - rewrite (ltb_threshold 10 _ 3006477107),
      (ltb_threshold (2 ^ 52) _ 3006477107);
      [reflexivity|vm_compute; intuition congruence..].
  - rewrite (ltb_threshold 100 _ 2362232012),
      (ltb_threshold (2 ^ 52) _ 2362232012);
      [reflexivity|vm_compute; intuition congruence..].
  - rewrite (ltb_threshold 100 _ 3221225471),
      (ltb_threshold (2 ^ 2) _ 3221225471);
      [reflexivity|vm_compute; intuition congruence..].
  - rewrite (ltb_threshold 100 _ 644245094),
      (ltb_threshold (2 ^ 55) _ 644245094);
      [reflexivity|vm_compute; intuition congruence..].
Qed.

(** ** Reasoning on the state monad *)

Lemma post_ret {A} (x : A) (Q : A → Prop) : Q x → post (ret x) Q.
Proof. intros H s. exact H. Qed.

Lemma post_bind {A B} (m : M A) (k : A → M B) (P : A → Prop) (Q : B → Prop) :
  post m P → (∀ x, P x → post (k x) Q) → post (bind m k) Q.
Proof.
  intros Hm Hk s. unfold bind. specialize (Hm s).
  destruct (m s) as [x s']. apply Hk, Hm.
Qed.

Lemma post_weaken {A} (m : M A) (P Q : A → Prop) :
  post m P → (∀ x, P x → Q x) → post m Q.
Proof. intros H HPQ s. apply HPQ, H. Qed.

Lemma post_true {A} (m : M A) : post m (λ _, True).
Proof. intros s. exact I. Qed.

Lemma post_mapM {A B} (f : A → M B) (R : A → B → Prop) (xs : list A) :
  (∀ x, x ∈ xs → post (f x) (R x)) → post (mapM f xs) (Forall2 R xs).
Proof.
  induction xs as [|x xs IH]; intros Hf.
  - apply post_ret. constructor.
  - simpl. eapply post_bind; [apply Hf; left|].
    intros y Hy. eapply post_bind.
    + apply IH. intros x' Hx'. apply Hf. by right.
    + intros ys Hys. apply post_ret. by constructor.
Qed.

Lemma post_forM {B} (f : Z → M B) (Q : B → Prop) (n : Z) :
  (∀ i, post (f i) Q) →
  post (forM n f) (λ ys, Forall Q ys ∧ length ys = Z.to_nat n).
Proof.
  intros Hf. unfold forM.
  eapply post_weaken.
  { apply (post_mapM f (λ _ y, Q y)). intros i _. apply Hf. }
  intros ys Hys. split.
  - induction Hys; constructor; done.
  - apply Forall2_length in Hys. rewrite <- Hys. apply length_seqZ.
Qed.

Lemma post_rng : post rng (λ u, 0 ≤ u < two32).
Proof.
  intros s. unfold rng, mulberry32_step. simpl. apply u32_range.
Qed.

Lemma post_choice `{Inhabited A} (arr : list A) :
  (0 < length arr)%nat → Z.of_nat (length arr) ≤ two21 →
  post (choice arr) (λ x, x ∈ arr).
Proof.
  intros Hne Hlen. unfold choice.
  eapply post_bind; [apply post_rng|].
  intros u Hu. apply post_ret.
  pose proof (mulfloor_bound u (Z.of_nat (length arr)) Hu ltac:(lia)) as Hb.
  apply list_elem_of_lookup_total_2. lia.
Qed.

Lemma post_intBetween lo hi :
  lo ≤ hi → hi - lo + 1 ≤ two21 →
  post (intBetween lo hi) (λ n, lo ≤ n ≤ hi).
Proof.
  intros Hle Hspan. unfold intBetween.
  eapply post_bind; [apply post_rng|].
  intros u Hu. apply post_ret.
  pose proof (mulfloor_bound u (hi - lo + 1) Hu ltac:(lia)). lia.
Qed.

Lemma swap_Permutation {A} (a : list A) i j : swap a i j ≡ₚ a.
Proof.
  unfold swap. destruct (a !! i) as [x|] eqn:Hi; [|done].
  destruct (a !! j) as [y|] eqn:Hj; [|done].
  by apply Permutation_insert_swap.
Qed.

Lemma post_shuffle_loop {A} i (a : list A) :
  post (shuffle_loop i a) (λ l, l ≡ₚ a).
Proof.
  revert a. induction i as [|i IH]; intros a.
  - by apply post_ret.
  - simpl. eapply post_bind; [apply post_true|].
    intros u _. eapply post_weaken; [apply IH|].
    intros l Hl. simpl in Hl. rewrite Hl. apply swap_Permutation.
Qed.

Lemma post_shuffle {A} (arr : list A) : post (shuffle arr) (λ l, l ≡ₚ arr).
Proof. apply post_shuffle_loop. Qed.

(** ** The shuffle, index by index *)

Lemma length_swap {A} (a : list A) i j : length (swap a i j) = length a.
Proof.
  unfold swap. destruct (a !! i); [|done]. destruct (a !! j); [|done].
  by rewrite !length_insert.
Qed.

Lemma swap_lookup_first {A} (a : list A) (i j : nat) :
  (i < length a)%nat → (j < length a)%nat → swap a i j !! i = a !! j.
Proof.
  intros Hi Hj. unfold swap.
  destruct (lookup_lt_is_Some_2 a i Hi) as [x Hx].
  destruct (lookup_lt_is_Some_2 a j Hj) as [y Hy]. rewrite Hx, Hy.
  destruct (decide (i = j)) as [->|Hne].
  - rewrite list_lookup_insert_eq by (by rewrite length_insert). congruence.
  - rewrite list_lookup_insert_ne by done.
    by rewrite list_lookup_insert_eq.
Qed.

Lemma swap_lookup_other {A} (a : list A) (i j k : nat) :
  k ≠ i → k ≠ j → swap a i j !! k = a !! k.
Proof.
  intros Hi Hj. unfold swap. destruct (a !! i); [|done].
  destruct (a !! j); [|done]. by rewrite !list_lookup_insert_ne.
Qed.

Lemma indices_ok_cases i js :
  indices_ok i js →
  match i with
  | O => js = []
  | S i' => ∃ j js', js = j :: js' ∧ (j ≤ i)%nat ∧ indices_ok i' js'
  end.
Proof. destruct i, js; simpl; try done. intros [? ?]. eauto. Qed.

Lemma length_shuffle_by {A} i js (a : list A) :
  length (shuffle_by i js a) = length a.
Proof.
  revert js a. induction i as [|i IH]; intros [|j js] a; simpl; try done.
  by rewrite IH, length_swap.
Qed.

Lemma shuffle_by_Permutation {A} i js (a : list A) : shuffle_by i js a ≡ₚ a.
Proof.
  revert js a. induction i as [|i IH]; intros [|j js] a; simpl; try done.
  by rewrite IH, swap_Permutation.
Qed.

(** The loop leaves alone what lies above its largest index. *)
Lemma shuffle_by_above {A} i js (a : list A) (k : nat) :
  indices_ok i js → (i < k)%nat → shuffle_by i js a !! k = a !! k.
Proof.
  revert js a. induction i as [|i IH]; intros js a Hjs Hk.
  - by destruct js.
  - apply indices_ok_cases in Hjs as (j & js' & -> & Hj & Hjs). simpl.
    rewrite IH by (done || lia). apply swap_lookup_other; lia.
Qed.

(** Two choices of indices give two arrangements. *)
Lemma shuffle_by_inj {A} i (a : list A) js js' :
  NoDup a → (i < length a)%nat → indices_ok i js → indices_ok i js' →
  shuffle_by i js a = shuffle_by i js' a → js = js'.
Proof.
  revert a js js'. induction i as [|i IH]; intros a js js' Hnd Hi Hjs Hjs' E.
  - apply indices_ok_cases in Hjs, Hjs'. by subst.
  - apply indices_ok_cases in Hjs as (j & t & -> & Hj & Hjs).
    apply indices_ok_cases in Hjs' as (j' & t' & -> & Hj' & Hjs').
    simpl in E.
    assert (j = j') as <-.
    { assert (shuffle_by i t (swap a (S i) j) !! S i
              = shuffle_by i t' (swap a (S i) j') !! S i) as E'
        by (by rewrite E).
      rewrite !shuffle_by_above in E' by (done || lia).
      rewrite !swap_lookup_first in E' by lia.
      destruct (lookup_lt_is_Some_2 a j ltac:(lia)) as [x Hx].
      rewrite Hx in E'. by apply (NoDup_lookup a j j' x). }
    f_equal. apply (IH (swap a (S i) j)); try done.
    + by rewrite swap_Permutation.
    + rewrite length_swap. lia.
Qed.

(** Every arrangement that agrees with [a] above [i] comes from a choice
    of indices. *)
Lemma shuffle_by_surj {A} i (a p : list A) :
  NoDup a → (i < length a)%nat → p ≡ₚ a → drop (S i) p = drop (S i) a →
  ∃ js, indices_ok i js ∧ shuffle_by i js a = p.
Proof.
  revert a p. induction i as [|i IH]; intros a p Hnd Hi Hp Hdrop.
  - exists []. split; [done|]. simpl.
    assert (NoDup p) as Hndp by (by rewrite Hp).
    destruct p as [|x p];
      [apply Permutation_nil_l in Hp; subst a; simpl in Hi; lia|].
    destruct a as [|y a]; [simpl in Hi; lia|].
    change (p = a) in Hdrop. subst p.
    f_equal. assert (x ∈ y :: a) as Hx by (rewrite <- Hp; left).
    apply elem_of_cons in Hx as [->|Hx]; [done|].
    by apply NoDup_cons in Hndp as [? _].
  - assert (NoDup p) as Hndp by (by rewrite Hp).
    assert (length p = length a) as Hlen by (by rewrite Hp).
    destruct (lookup_lt_is_Some_2 p (S i) ltac:(lia)) as [x Hx].
    assert (x ∈ a) as Hxa.
    { rewrite <- Hp. by eapply list_elem_of_lookup_2. }
    apply list_elem_of_lookup_1 in Hxa as [j Hj].
    assert (∀ k, (S i < k)%nat → p !! k = a !! k) as Habove.
    { intros k Hk.
      assert (drop (S (S i)) p !! (k - S (S i))%nat
              = drop (S (S i)) a !! (k - S (S i))%nat) as E
        by (by rewrite Hdrop).
      rewrite !lookup_drop in E.
      by replace (S (S i) + (k - S (S i)))%nat with k in E by lia. }
    assert (j ≤ S i)%nat as Hji.
    { destruct (decide (j ≤ S i)%nat) as [|Hgt]; [done|]. exfalso.
      assert (p !! j = Some x) as Hpj by (rewrite Habove by lia; done).
      pose proof (NoDup_lookup p (S i) j x Hndp Hx Hpj). lia. }
    destruct (IH (swap a (S i) j) p) as (js & Hjs & E).
    + by rewrite swap_Permutation.
    + rewrite length_swap. lia.
    + by rewrite swap_Permutation.
    + apply list_eq. intros k. rewrite !lookup_drop.
      destruct k as [|k].
      * replace (S i + 0)%nat with (S i) by lia.
        rewrite swap_lookup_first by lia. congruence.
      * rewrite swap_lookup_other by lia. apply Habove. lia.
    + exists (j :: js). split; [done|]. exact E.
Qed.

(** The loop of [shuffle] is the loop on the indices it draws. *)
Lemma shuffle_loop_by {A} i (a : list A) s :
  (shuffle_loop i a s).1 = shuffle_by i (shuffle_draws i (rng_t s)) a.
Proof.
  revert a s. induction i as [|i IH]; intros a s; [done|].
  cbn [shuffle_loop shuffle_draws]. unfold bind, rng.
  destruct (mulberry32_step (rng_t s)) as [t' u]. cbn [shuffle_by].
  apply (IH _ (mkSt t' (ids s))).
Qed.

Lemma shuffle_draws_ok i t :
  Z.of_nat i + 1 ≤ two21 → indices_ok i (shuffle_draws i t).
Proof.
  revert t. induction i as [|i IH]; intros t Hi; [done|].
  cbn [shuffle_draws]. pose proof (post_rng (mkSt t idRanges)) as Hu.
  unfold rng in Hu. cbn [rng_t] in Hu.
  destruct (mulberry32_step t) as [t' u]. cbn [fst] in Hu. split.
  - pose proof (mulfloor_bound u (Z.of_nat (S i) + 1) Hu ltac:(lia)). lia.
  - apply IH. lia.
Qed.

Lemma div_iff a b j : 0 < b → a / b = j ↔ j * b ≤ a < (j + 1) * b.
Proof.
  intros Hb. split.
  - intros <-. pose proof (Z.div_mod a b ltac:(lia)) as E.
    pose proof (Z.mod_pos_bound a b Hb). nia.
  - intros H. symmetry. apply (Z.div_unique a b j (a - j * b)); lia.
Qed.

(** The index drawn for a range of [n] values: the draws are cut into
    [n] intervals of the same width, one for each index. *)
Lemma mulfloor_index u n j :
  0 ≤ u < two32 → 0 < n ≤ two21 →
  mulfloor u n = j ↔ j * two32 ≤ u * n < (j + 1) * two32.
Proof.
  intros Hu Hn. unfold mulfloor.
  rewrite round53_small by (unfold two53, two32, two21 in *; nia).
  apply div_iff. done.
Qed.

Lemma tabulate_eq h g : tabulate h g = h g.
Proof. by destruct g. Qed.

Lemma untouched_ret {A} c (x : A) : untouched c (ret x).
Proof. by intros s. Qed.

Lemma untouched_bind {A B} c (m : M A) (k : A → M B) :
  untouched c m → (∀ x, untouched c (k x)) → untouched c (bind m k).
Proof.
  intros Hm Hk s. unfold bind. specialize (Hm s).
  destruct (m s) as [x s']. rewrite Hk. exact Hm.
Qed.

Lemma untouched_rng c : untouched c rng.
Proof. intros s. unfold rng. by destruct (mulberry32_step _). Qed.

Lemma untouched_next c f : c ≠ f → untouched c (next_id f).
Proof.
  intros Hne s. unfold next_id. simpl. rewrite tabulate_eq.
  by destruct (decide (c = f)).
Qed.

Lemma untouched_mapM {A B} c (f : A → M B) xs :
  (∀ x, untouched c (f x)) → untouched c (mapM f xs).
Proof.
  intros Hf. induction xs as [|x xs IH]; simpl.
  - apply untouched_ret.
  - apply untouched_bind; [apply Hf|]. intros y.
    apply untouched_bind; [apply IH|]. intros ys. apply untouched_ret.
Qed.

Lemma untouched_forM {B} c (f : Z → M B) n :
  (∀ i, untouched c (f i)) → untouched c (forM n f).
Proof. apply untouched_mapM. Qed.

Lemma untouched_choice `{Inhabited A} c (arr : list A) : untouched c (choice arr).
Proof.
  apply untouched_bind; [apply untouched_rng|]. intros. apply untouched_ret.
Qed.

Lemma untouched_intBetween c lo hi : untouched c (intBetween lo hi).
Proof.
  apply untouched_bind; [apply untouched_rng|]. intros. apply untouched_ret.
Qed.

Lemma untouched_shuffle {A} c (arr : list A) : untouched c (shuffle arr).
Proof.
  unfold shuffle. generalize (length arr - 1)%nat as i. intros i. revert arr.
  induction i as [|i IH]; intros a; simpl.
  - apply untouched_ret.
  - apply untouched_bind; [apply untouched_rng|]. intros u. apply IH.
Qed.

Lemma untouched_if {A} c (b : bool) (m1 m2 : M A) :
  untouched c m1 → untouched c m2 → untouched c (if b then m1 else m2).
Proof. by destruct b. Qed.

Ltac untouched_step :=
  first
    [ apply untouched_ret
    | apply untouched_rng
    | apply untouched_choice
    | apply untouched_intBetween
    | apply untouched_shuffle
    | apply untouched_next; discriminate
    | apply untouched_if
    | apply untouched_forM; intros
    | apply untouched_mapM; intros
    | apply untouched_bind; [|intros] ].

Ltac solve_untouched := solve [repeat untouched_step].

Lemma allocs_untouched {R} c (m : M R) :
  untouched c m → allocs c (λ _, []) m.
Proof. intros Hm s. simpl. rewrite Hm. split; [done|lia]. Qed.

Lemma allocs_nil_untouched {R} c (m : M R) :
  allocs c (λ _, []) m → untouched c m.
Proof. intros Hm s. destruct (Hm s) as [_ ->]. simpl. lia. Qed.

Lemma allocs_bind {A B} c (m : M A) (k : A → M B)
    (p1 : A → list Z) (p2 : A → B → list Z) (proj : B → list Z) :
  allocs c p1 m →
  (∀ x, allocs c (p2 x) (k x)) →
  (∀ x, post (k x) (λ r, proj r = p1 x ++ p2 x r)) →
  allocs c proj (bind m k).
Proof.
  intros Hm Hk Hproj s. unfold bind.
  destruct (Hm s) as [Hm1 Hm2]. destruct (m s) as [x s1]. simpl in *.
  destruct (Hk x s1) as [Hk1 Hk2]. specialize (Hproj x s1).
  destruct (k x s1) as [y s2]. simpl in *.
  rewrite Hproj, length_app, Nat2Z.inj_add.
  rewrite seqZ_app by lia. rewrite <- Hm1. rewrite <- Hm2, <- Hk1.
  split; [done|lia].
Qed.

Lemma allocs_next c : allocs c (λ x, [x]) (next_id c).
Proof.
  intros s. unfold next_id. simpl. rewrite tabulate_eq.
  destruct (decide (c = c)); [|done]. split; [|lia].
  rewrite seqZ_cons by lia. by rewrite seqZ_nil by lia.
Qed.

(** A body that takes one identifier and then only draws. *)
Lemma allocs_next_then {R} c (key : R → Z) (k : Z → M R) :
  (∀ x, untouched c (k x)) →
  (∀ x, post (k x) (λ r, key r = x)) →
  allocs c (λ r, [key r]) (bind (next_id c) k).
Proof.
  intros Hu Hkey.
  eapply (allocs_bind c _ _ (λ x, [x]) (λ _ _, [])).
  - apply allocs_next.
  - intros x. apply allocs_untouched, Hu.
  - intros x s. simpl. by rewrite Hkey.
Qed.

(** A body that draws first and allocates afterwards. *)
Lemma allocs_after {A R} c (proj : R → list Z) (m : M A) (k : A → M R) :
  untouched c m → (∀ x, allocs c proj (k x)) → allocs c proj (bind m k).
Proof.
  intros Hm Hk.
  eapply (allocs_bind c _ _ (λ _, []) (λ _, proj)).
  - by apply allocs_untouched.
  - exact Hk.
  - intros x s. done.
Qed.

Lemma allocs_mapM {A R} c (p : R → list Z) (f : A → M R) xs :
  (∀ x, allocs c p (f x)) →
  allocs c (λ rs, concat (map p rs)) (mapM f xs).
Proof.
  intros Hf. induction xs as [|x xs IH]; simpl.
  - apply allocs_untouched, untouched_ret.
  - eapply (allocs_bind c _ _ p (λ _ rs, concat (map p (tail rs)))).
    + apply Hf.
    + intros y.
      eapply (allocs_bind c _ _ (λ rs, concat (map p rs)) (λ _ _, [])).
      * apply IH.
      * intros ys. apply allocs_untouched, untouched_ret.
      * intros ys s. simpl. by rewrite app_nil_r.
    + intros y. eapply post_bind; [apply post_true|].
      intros ys _. by apply post_ret.
Qed.

Lemma allocs_ext {R} c (p p' : R → list Z) (m : M R) :
  (∀ r, p r = p' r) → allocs c p m → allocs c p' m.
Proof. intros He Hm s. rewrite <- !He. apply Hm. Qed.

Lemma allocs_fmap {A R} c (p : R → list Z) (g : A → R) (m : M A) :
  allocs c (λ x, p (g x)) m → allocs c p (bind m (λ x, ret (g x))).
Proof.
  intros Hm s. unfold bind, ret. specialize (Hm s).
  by destruct (m s) as [x s'].
Qed.

Lemma post_nested {A B} (count : A → M Z) (body : A → M B)
    (Pc : A → Z → Prop) (Q : A → B → Prop) xs :
  (∀ x, post (count x) (Pc x)) →
  (∀ x, post (body x) (Q x)) →
  post (nested count body xs)
       (λ ys, ∃ groups, ys = concat groups ∧
          Forall2 (λ x g, Forall (Q x) g ∧
                          ∃ n, Pc x n ∧ length g = Z.to_nat n) xs groups).
Proof.
  intros Hc Hb. unfold nested.
  eapply post_bind.
  - apply (post_mapM _ (λ x g, Forall (Q x) g ∧
                               ∃ n, Pc x n ∧ length g = Z.to_nat n)).
    intros x _. eapply post_bind; [apply Hc|].
    intros n Hn. eapply post_weaken; [apply post_forM; intros; apply Hb|].
    intros g [Hg Hlen]. split; [done|]. by exists n.
  - intros groups Hgroups. apply post_ret. by exists groups.
Qed.

Lemma post_nested_elem {A B} (count : A → M Z) (body : A → M B)
    (Q : A → B → Prop) xs :
  (∀ x, post (body x) (Q x)) →
  post (nested count body xs) (Forall (λ y, ∃ x, x ∈ xs ∧ Q x y)).
Proof.
  intros Hb.
  eapply post_weaken.
  { apply (post_nested count body (λ _ _, True) Q); [intros; apply post_true|done]. }
  intros ys (groups & -> & Hg).
  induction Hg as [|x g xs gs [Hq _] _ IH]; simpl; [constructor|].
  apply Forall_app. split.
  - eapply Forall_impl; [exact Hq|]. intros y Hy. exists x. split; [left|done].
  - eapply Forall_impl; [exact IH|]. intros y (x' & Hx' & Hy).
    exists x'. split; [by right|done].
Qed.

Lemma post_nested_length {A B} (count : A → M Z) (body : A → M B) lo hi xs :
  0 ≤ lo →
  (∀ x, post (count x) (λ n, lo ≤ n ≤ hi)) →
  post (nested count body xs)
       (λ ys, lo * Z.of_nat (length xs) ≤ Z.of_nat (length ys)
              ≤ hi * Z.of_nat (length xs)).
Proof.
  intros Hlo Hc.
  eapply post_weaken.
  { apply (post_nested count body (λ _ n, lo ≤ n ≤ hi) (λ _ _, True));
      [done|intros; apply post_true]. }
  intros ys (groups & -> & Hg).
  induction Hg as [|x g xs gs [_ (n & Hn & Hlen)] _ IH]; simpl; [lia|].
  rewrite length_app. lia.
Qed.

Lemma concat_map_concat {A B} (p : A → list B) (gs : list (list A)) :
  concat (map p (concat gs)) = concat (map (λ g, concat (map p g)) gs).
Proof.
  induction gs as [|g gs IH]; simpl; [done|].
  by rewrite map_app, concat_app, IH.
Qed.

Lemma allocs_nested {A B} c (p : B → list Z) (count : A → M Z)
    (body : A → M B) xs :
  (∀ x, untouched c (count x)) →
  (∀ x, allocs c p (body x)) →
  allocs c (λ ys, concat (map p ys)) (nested count body xs).
Proof.
  intros Hc Hb. unfold nested.
  apply (allocs_fmap c (λ ys, concat (map p ys)) (λ gs, concat gs)).
  eapply allocs_ext; [intros gs; symmetry; apply concat_map_concat|].
  apply (allocs_mapM c (λ g, concat (map p g))).
  intros x. apply allocs_after; [apply Hc|].
  intros n. apply allocs_mapM. intros _. apply Hb.
Qed.

Lemma untouched_nested {A B} c (count : A → M Z) (body : A → M B) xs :
  (∀ x, untouched c (count x)) →
  (∀ x, untouched c (body x)) →
  untouched c (nested count body xs).
Proof. intros Hc Hb. unfold nested. repeat untouched_step; auto. Qed.

Lemma concat_map_singleton {A B} (f : A → B) (l : list A) :
  concat (map (λ x, [f x]) l) = map f l.
Proof. induction l as [|x l IH]; simpl; [done|]. by rewrite IH. Qed.

(** ** Sorting *)

Section sorting.
Context {A : Type} (cmp : A → A → Z).

Lemma sort_insert_Permutation x l : sort_insert cmp x l ≡ₚ x :: l.
  Proof.
    induction l as [|y l IH]; simpl; [done|].
    destruct (cmp x y <=? 0); [done|].
    rewrite IH. apply Permutation_swap.
  Qed.

Lemma jsSort_Permutation l : jsSort cmp l ≡ₚ l.
  Proof.
    induction l as [|x l IH]; simpl; [done|].
    fold (jsSort cmp l). by rewrite sort_insert_Permutation, IH.
  Qed.

Lemma elem_of_jsSort x l : x ∈ jsSort cmp l ↔ x ∈ l.
  Proof. by rewrite jsSort_Permutation. Qed.

Lemma length_jsSort l : length (jsSort cmp l) = length l.
  Proof. by rewrite jsSort_Permutation. Qed.

  (** A list already in order is left as it is. *)
Lemma jsSort_sorted l : Sorted (cmp_le cmp) l → jsSort cmp l = l.
  Proof.
    induction 1 as [|x l Hs IH Hhd]; simpl; [done|].
    fold (jsSort cmp l). rewrite IH.
    destruct Hhd as [|y l' Hxy]; simpl; [done|].
    unfold cmp_le in Hxy. by destruct (Z.leb_spec (cmp x y) 0); [|lia].
  Qed.

  (** For a total comparator the result is in order. *)
Hypothesis cmp_total : ∀ a b, 0 < cmp a b → cmp b a ≤ 0.

Lemma sort_insert_Sorted x l :
    Sorted (cmp_le cmp) l → Sorted (cmp_le cmp) (sort_insert cmp x l).
  Proof.
    induction 1 as [|y l Hs IH Hhd]; simpl.
    - repeat constructor.
    - destruct (Z.leb_spec (cmp x y) 0) as [Hle|Hgt].
      + constructor; [by constructor|]. by constructor.
      + constructor; [exact IH|].
        destruct Hhd as [|z l' Hyz]; simpl.
        * constructor. by apply cmp_total.
        * destruct (cmp x z <=? 0); constructor; [by apply cmp_total|done].
  Qed.

Lemma jsSort_Sorted l : Sorted (cmp_le cmp) (jsSort cmp l).
  Proof.
    induction l as [|x l IH]; simpl; [constructor|].
    by apply sort_insert_Sorted.
  Qed.
End sorting.

Lemma by_key_total {A} (key : A → Z) a b :
  0 < by_key key a b → by_key key b a ≤ 0.
Proof. unfold by_key. lia. Qed.

Lemma string_cmp_total a b : 0 < string_cmp a b → string_cmp b a ≤ 0.
Proof.
  unfold string_cmp. rewrite (String.compare_antisym a b).
  destruct (String.compare b a); simpl; lia.
Qed.

(** A list whose keys are consecutive integers is in key order. *)
Lemma seqZ_keys_Sorted {A} (key : A → Z) (l : list A) a :
  map key l = seqZ a (Z.of_nat (length l)) →
  Sorted (cmp_le (by_key key)) l.
Proof.
  revert a. induction l as [|x l IH]; intros a Hl; [constructor|].
  simpl length in Hl. rewrite seqZ_cons in Hl by lia. simpl in Hl.
  injection Hl as Hx Hl.
  replace (Z.pred (Z.of_nat (S (length l)))) with (Z.of_nat (length l)) in Hl by lia.
  constructor; [by eapply IH|].
  destruct l as [|y l]; [constructor|]. constructor.
  simpl length in Hl. rewrite seqZ_cons in Hl by lia. simpl in Hl.
  injection Hl as Hy _. unfold cmp_le, by_key. lia.
Qed.

Lemma jsSort_seqZ_keys {A} (key : A → Z) (l : list A) a :
  map key l = seqZ a (Z.of_nat (length l)) → jsSort (by_key key) l = l.
Proof. intros H. eapply jsSort_sorted, seqZ_keys_Sorted, H. Qed.

Lemma seqZ_keys_NoDup {A} (key : A → Z) (l : list A) a :
  map key l = seqZ a (Z.of_nat (length l)) → NoDup (map key l).
Proof. intros ->. apply NoDup_seqZ. Qed.

(** ** The generation phases *)

Ltac post_triv :=
  repeat (eapply post_bind; [apply post_true | intros ? _]);
  repeat match goal with |- post (if ?b then _ else _) _ => destruct b end;
  try (apply post_ret; done).

Lemma slice0_sublist {A} n (l : list A) : slice0 n l `sublist_of` l.
Proof. unfold slice0. destruct (n <? 0); apply sublist_take. Qed.

Lemma length_slice0 {A} n (l : list A) :
  0 ≤ n ≤ Z.of_nat (length l) → length (slice0 n l) = Z.to_nat n.
Proof.
  intros Hn. unfold slice0. destruct (Z.ltb_spec n 0); [lia|].
  rewrite length_take. lia.
Qed.

(** *** Orders and their items *)

Lemma genOrders_nested cfg accounts :
  genOrders cfg accounts =
  nested (λ _, intBetween (Cfg.ordersPerAccountMin cfg)
                          (Cfg.ordersPerAccountMax cfg))
         (genOrder cfg) accounts.
Proof. reflexivity. Qed.

Lemma allocs_genOrder_orderId cfg acct :
  allocs orderId (λ r, [Order.orderId r.1]) (genOrder cfg acct).
Proof.
  unfold genOrder.
  apply (allocs_next_then orderId (λ r, Order.orderId r.1)).
  - intros oid. solve_untouched.
  - intros oid. post_triv.
Qed.

Lemma allocs_genOrder_orderItemId cfg acct :
  allocs orderItemId (λ r, map OrderItem.orderItemId r.2) (genOrder cfg acct).
Proof.
  unfold genOrder.
  repeat (apply allocs_after; [solve_untouched|intros ?]).
  match goal with
  | |- allocs _ _ (bind _ (λ items, ret (?o, items))) =>
      apply (allocs_fmap orderItemId (λ r, map OrderItem.orderItemId r.2)
                         (λ items, (o, items)))
  end.
  simpl. eapply allocs_ext; [intros r; apply concat_map_singleton|].
  apply allocs_mapM. intros s.
  apply (allocs_next_then orderItemId OrderItem.orderItemId).
  - intros iid. solve_untouched.
  - intros iid. post_triv.
Qed.

Lemma untouched_genOrder c cfg acct :
  c ≠ orderId → c ≠ orderItemId → untouched c (genOrder cfg acct).
Proof.
  intros H1 H2. unfold genOrder.
  repeat first [apply untouched_next; assumption | untouched_step].
Qed.

Lemma allocs_genOrders_orderId cfg accounts :
  allocs orderId (λ ords, map Order.orderId ords.*1) (genOrders cfg accounts).
Proof.
  rewrite genOrders_nested.
  eapply allocs_ext; [|apply allocs_nested].
  - intros ords. simpl. rewrite concat_map_singleton.
    by rewrite <- list_fmap_compose.
  - intros. solve_untouched.
  - intros. apply allocs_genOrder_orderId.
Qed.

Lemma allocs_genOrders_orderItemId cfg accounts :
  allocs orderItemId (λ ords, map OrderItem.orderItemId (concat ords.*2))
         (genOrders cfg accounts).
Proof.
  rewrite genOrders_nested.
  apply (allocs_ext _
    (λ ords, concat (map (λ r, map OrderItem.orderItemId r.2) ords)));
    [|apply allocs_nested].
  - intros ords.
    induction ords as [|[o its] ords IH]; simpl; [done|].
    rewrite map_app. f_equal. exact IH.
  - intros. solve_untouched.
  - intros. apply allocs_genOrder_orderItemId.
Qed.

Lemma untouched_genOrders c cfg accounts :
  c ≠ orderId → c ≠ orderItemId → untouched c (genOrders cfg accounts).
Proof.
  intros. rewrite genOrders_nested. apply untouched_nested.
  - intros. solve_untouched.
  - intros. by apply untouched_genOrder.
Qed.

Lemma post_intBetween_if lo hi :
  post (intBetween lo hi)
       (λ n, lo ≤ hi → hi - lo + 1 ≤ two21 → lo ≤ n ≤ hi).
Proof. intros s Hle Hspan. by apply post_intBetween. Qed.

Lemma NoDup_ORDER_SKUS : NoDup (map Sku.sku ORDER_SKUS).
Proof. apply (bool_decide_unpack _). by vm_compute. Qed.

Lemma prefix_slice0 {A} n (l : list A) : slice0 n l `prefix_of` l.
Proof. unfold slice0. destruct (n <? 0); apply prefix_take. Qed.

Lemma post_genOrder_rows cfg acct :
  post (genOrder cfg acct) (λ r,
    Order.accountId r.1 = Account.accountId acct ∧
    Forall (item_ok r.1) r.2 ∧
    NoDup (map OrderItem.sku r.2) ∧
    (0 ≤ Cfg.itemsPerOrderMin cfg ≤ Cfg.itemsPerOrderMax cfg →
     Cfg.itemsPerOrderMax cfg ≤ 8 →
     Cfg.itemsPerOrderMin cfg ≤ Z.of_nat (length r.2)
       ≤ Cfg.itemsPerOrderMax cfg)).
Proof.
  unfold genOrder.
  eapply post_bind; [apply post_true|intros oid _].
  eapply post_bind; [apply post_true|intros status _].
  eapply post_bind; [apply post_true|intros h _].
  eapply post_bind; [apply post_intBetween_if|intros itemsCount Hcount].
  eapply post_bind; [apply post_shuffle|intros sh Hsh].
  eapply post_bind.
  { apply (post_mapM _ (λ s it, OrderItem.orderId it = oid ∧
                                OrderItem.qty it = 1 ∧ item_sku it = s)).
    intros s _. eapply post_bind; [apply post_true|intros iid _].
    apply post_ret. by destruct s. }
  intros items Hitems. apply post_ret. simpl in Hcount, Hsh.
  assert (map item_sku items = slice0 itemsCount sh) as Hskus.
  { induction Hitems as [|s it ss its (_ & _ & Hs) _ IH]; simpl; [done|].
    by rewrite Hs, IH. }
  assert (map OrderItem.sku items = map Sku.sku (slice0 itemsCount sh)) as Hnames.
  { rewrite <- Hskus, <- list_fmap_compose. done. }
  split_and!; cbn [fst snd].
  - done.
  - apply Forall_forall. intros it Hit. split_and!.
    + apply (Forall2_Forall_r _ (λ it, OrderItem.orderId it = oid)) in Hitems.
      * by eapply Forall_forall in Hitems.
      * apply Forall_forall. tauto.
    + apply (Forall2_Forall_r _ (λ it, OrderItem.qty it = 1)) in Hitems.
      * by eapply Forall_forall in Hitems.
      * apply Forall_forall. tauto.
    + rewrite <- Hsh. eapply elem_of_sublist; [|apply slice0_sublist].
      rewrite <- Hskus. by apply list_elem_of_fmap_2.
  - rewrite Hnames. apply (sublist_NoDup _ (map Sku.sku sh)).
    + rewrite Hsh. apply NoDup_ORDER_SKUS.
    + apply fmap_sublist, slice0_sublist.
  - intros Hmm Hmax.
    assert (length items = length (slice0 itemsCount sh)) as ->.
    { rewrite <- Hskus. by rewrite length_map. }
    assert (length sh = 8%nat) as Hlen by (by rewrite Hsh).
    specialize (Hcount ltac:(lia) ltac:(unfold two21; lia)).
    rewrite length_slice0 by lia. lia.
Qed.

Lemma post_genOrder cfg acct : post (genOrder cfg acct) (order_ok cfg acct).
Proof.
  intros s. destruct (post_genOrder_rows cfg acct s) as (H1 & H2 & H3 & H4).
  split; [exact H1|]. split; [exact H2|]. split; [exact H3|].
  split; [by exists s|exact H4].
Qed.

(** *** Identifier allocation, phase by phase *)

Ltac allocs_body c key :=
  repeat (apply allocs_after; [solve_untouched|intros ?]);
  apply (allocs_next_then c key);
  [intros ?; solve_untouched | intros ?; post_triv].

Ltac untouched_phase :=
  repeat first [apply untouched_next; (assumption || discriminate)
               | untouched_step].

Lemma allocs_mapM_key {A R} c (key : R → Z) (f : A → M R) xs :
  (∀ x, allocs c (λ r, [key r]) (f x)) →
  allocs c (map key) (mapM f xs).
Proof.
  intros Hf. eapply allocs_ext; [intros r; apply concat_map_singleton|].
  by apply allocs_mapM.
Qed.

Lemma allocs_nested_key {A R} c (key : R → Z) (count : A → M Z)
    (body : A → M R) xs :
  (∀ x, untouched c (count x)) →
  (∀ x, allocs c (λ r, [key r]) (body x)) →
  allocs c (map key) (nested count body xs).
Proof.
  intros Hc Hb. eapply allocs_ext; [intros r; apply concat_map_singleton|].
  by apply allocs_nested.
Qed.

Lemma allocs_genAccounts cfg :
  allocs accountId (map Account.accountId) (genAccounts cfg).
Proof.
  unfold genAccounts, forM. apply allocs_mapM_key. intros i.
  allocs_body accountId Account.accountId.
Qed.

Lemma untouched_genAccounts c cfg :
  c ≠ accountId → untouched c (genAccounts cfg).
Proof. intros. unfold genAccounts. untouched_phase. Qed.

Lemma genSubscribers_nested cfg accounts :
  genSubscribers cfg accounts =
  nested (λ _, intBetween (Cfg.subsPerAccountMin cfg)
                          (Cfg.subsPerAccountMax cfg))
         (genSubscriber cfg) accounts.
Proof. reflexivity. Qed.

Lemma allocs_genSubscribers cfg accounts :
  allocs subscriberId (map (λ r, Subscriber.subscriberId r.1))
         (genSubscribers cfg accounts).
Proof.
  rewrite genSubscribers_nested. apply allocs_nested_key.
  - intros. solve_untouched.
  - intros acct. unfold genSubscriber.
    allocs_body subscriberId (λ r : Subscriber.t * SubscriberProfile.t,
                                Subscriber.subscriberId r.1).
Qed.

Lemma untouched_genSubscribers c cfg accounts :
  c ≠ subscriberId → untouched c (genSubscribers cfg accounts).
Proof.
  intros. rewrite genSubscribers_nested. apply untouched_nested; intros.
  - solve_untouched.
  - unfold genSubscriber. untouched_phase.
Qed.

Lemma allocs_genDevices subscribers :
  allocs deviceId (map Device.deviceId) (genDevices subscribers).
Proof.
  unfold genDevices. apply allocs_mapM_key. intros s.
  allocs_body deviceId Device.deviceId.
Qed.

Lemma untouched_genDevices c subscribers :
  c ≠ deviceId → untouched c (genDevices subscribers).
Proof. intros. unfold genDevices. untouched_phase. Qed.

Lemma untouched_genPlans c : c ≠ planId → untouched c genPlans.
Proof. intros. unfold genPlans. untouched_phase. Qed.

Lemma untouched_genRegions c : c ≠ regionId → untouched c genRegions.
Proof. intros. unfold genRegions. untouched_phase. Qed.

Lemma untouched_genDeviceClasses c :
  c ≠ deviceClassId → untouched c genDeviceClasses.
Proof. intros. unfold genDeviceClasses. untouched_phase. Qed.

Lemma genTickets_nested cfg codes subscribers :
  genTickets cfg codes subscribers =
  nested (λ _, intBetween (Cfg.ticketsPerSubscriberMin cfg)
                          (Cfg.ticketsPerSubscriberMax cfg))
         (genTicket cfg codes) subscribers.
Proof. reflexivity. Qed.

Lemma allocs_genTickets cfg codes subscribers :
  allocs ticketId (map Ticket.ticketId) (genTickets cfg codes subscribers).
Proof.
  rewrite genTickets_nested. apply allocs_nested_key.
  - intros. solve_untouched.
  - intros s. unfold genTicket. allocs_body ticketId Ticket.ticketId.
Qed.

Lemma allocs_genNotes cfg subscribers orders tickets :
  allocs noteId (map Note.noteId) (genNotes cfg subscribers orders tickets).
Proof.
  unfold genNotes.
  repeat (apply allocs_after; [solve_untouched|intros ?]).
  apply allocs_mapM_key. intros r. allocs_body noteId Note.noteId.
Qed.

Lemma genDeviceEvents_nested cfg devices :
  genDeviceEvents cfg devices =
  nested (λ _, intBetween (Cfg.deviceEventsPerDeviceMin cfg)
                          (Cfg.deviceEventsPerDeviceMax cfg))
         (genDeviceEvent cfg) devices.
Proof. reflexivity. Qed.

Lemma untouched_genPayload c eventType : untouched c (genPayload eventType).
Proof. unfold genPayload. solve_untouched. Qed.

Lemma allocs_genDeviceEvents cfg devices :
  allocs deviceEventId (map DeviceEvent.deviceEventId)
         (genDeviceEvents cfg devices).
Proof.
  rewrite genDeviceEvents_nested. apply allocs_nested_key.
  - intros. solve_untouched.
  - intros d. unfold genDeviceEvent.
    repeat (apply allocs_after;
            [first [apply untouched_genPayload|solve_untouched]|intros ?]).
    allocs_body deviceEventId DeviceEvent.deviceEventId.
Qed.

Lemma genUsageRecords_nested cfg subscribers :
  genUsageRecords cfg subscribers =
  nested (λ _, ret (Cfg.usageRecordsPerSubscriber cfg))
         (genUsageRecord cfg) subscribers.
Proof. reflexivity. Qed.

Lemma allocs_genUsageRecords cfg subscribers :
  allocs usageRecordId (map UsageRecord.usageRecordId)
         (genUsageRecords cfg subscribers).
Proof.
  rewrite genUsageRecords_nested. apply allocs_nested_key.
  - intros. solve_untouched.
  - intros s. unfold genUsageRecord.
    allocs_body usageRecordId UsageRecord.usageRecordId.
Qed.

Lemma allocs_ret {R} c (proj : R → list Z) (x : R) :
  proj x = [] → allocs c proj (ret x).
Proof. intros Hx s. simpl. rewrite Hx. simpl. split; [done|lia]. Qed.

Lemma allocs_next_proj {R} c (proj : R → list Z) (k : Z → M R) :
  (∀ x, untouched c (k x)) →
  (∀ x, post (k x) (λ r, proj r = [x])) →
  allocs c proj (bind (next_id c) k).
Proof.
  intros Hu Hkey.
  eapply (allocs_bind c _ _ (λ x, [x]) (λ _ _, [])).
  - apply allocs_next.
  - intros x. apply allocs_untouched, Hu.
  - intros x s. simpl. by rewrite Hkey.
Qed.

Lemma allocs_flatMapM {A R} c (key : R → Z) (f : A → M (list R)) xs :
  (∀ x, allocs c (map key) (f x)) →
  allocs c (map key) (flatMapM f xs).
Proof.
  intros Hf. unfold flatMapM.
  apply (allocs_fmap c (map key) (λ gs, concat gs)).
  eapply allocs_ext; [intros gs; symmetry; apply concat_map|].
  by apply allocs_mapM.
Qed.

Lemma post_flatMapM_elem {A B} (f : A → M (list B)) (Q : A → B → Prop) xs :
  (∀ x, post (f x) (Forall (Q x))) →
  post (flatMapM f xs) (Forall (λ y, ∃ x, x ∈ xs ∧ Q x y)).
Proof.
  intros Hf. unfold flatMapM.
  eapply post_bind.
  { apply (post_mapM f (λ x g, Forall (Q x) g)). intros x _. apply Hf. }
  intros groups Hg. apply post_ret.
  induction Hg as [|x g xs gs Hq _ IH]; simpl; [constructor|].
  apply Forall_app. split.
  - eapply Forall_impl; [exact Hq|]. intros y Hy. exists x. split; [left|done].
  - eapply Forall_impl; [exact IH|]. intros y (x' & Hx' & Hy).
    exists x'. split; [by right|done].
Qed.

Lemma allocs_genSubscriberFeatureState cfg sfeat :
  allocs subscriberFeatureStateId
         (map SubscriberFeatureState.subscriberFeatureStateId)
         (genSubscriberFeatureState cfg sfeat).
Proof.
  unfold genSubscriberFeatureState.
  apply (allocs_flatMapM subscriberFeatureStateId
           SubscriberFeatureState.subscriberFeatureStateId).
  intros sf. apply allocs_after; [solve_untouched|intros u].
  destruct (draw_lt u 55 100); [by apply allocs_ret|].
  repeat (apply allocs_after; [solve_untouched|intros ?]).
  apply allocs_next_proj; [intros; solve_untouched|intros; post_triv].
Qed.

(** *** What each phase puts in its rows *)

Lemma post_genSubscribers cfg accounts :
  post (genSubscribers cfg accounts)
       (Forall (λ r, ∃ a, a ∈ accounts ∧
          Subscriber.accountId r.1 = Account.accountId a ∧
          SubscriberProfile.subscriberId r.2 = Subscriber.subscriberId r.1)).
Proof.
  rewrite genSubscribers_nested.
  apply (post_nested_elem _ _ (λ a r,
    Subscriber.accountId r.1 = Account.accountId a ∧
    SubscriberProfile.subscriberId r.2 = Subscriber.subscriberId r.1)).
  intros acct. unfold genSubscriber. post_triv.
Qed.

Lemma post_genDevices subscribers :
  post (genDevices subscribers)
       (Forall2 (λ s d, Device.subscriberId d = Subscriber.subscriberId s)
                subscribers).
Proof.
  unfold genDevices. apply post_mapM. intros s _. post_triv.
Qed.

Lemma post_genOrders cfg accounts :
  post (genOrders cfg accounts)
       (Forall (λ r, ∃ a, a ∈ accounts ∧ order_ok cfg a r)).
Proof.
  rewrite genOrders_nested.
  apply (post_nested_elem _ _ (order_ok cfg)). apply post_genOrder.
Qed.

Lemma post_genSubscriberFeatures features subscribers :
  post (genSubscriberFeatures features subscribers)
       (Forall (λ sf, ∃ s, s ∈ subscribers ∧
          SubscriberFeature.subscriberId sf = Subscriber.subscriberId s ∧
          ∃ f, f ∈ features ∧
               SubscriberFeature.featureId sf = Feature.featureId f)).
Proof.
  unfold genSubscriberFeatures.
  apply (post_flatMapM_elem _ (λ s sf,
    SubscriberFeature.subscriberId sf = Subscriber.subscriberId s ∧
    ∃ f, f ∈ features ∧ SubscriberFeature.featureId sf = Feature.featureId f)).
  intros s.
  eapply post_bind; [apply post_true|intros count _].
  eapply post_bind; [apply post_shuffle|intros sh Hsh].
  apply post_ret. apply Forall_forall. intros sf Hsf.
  apply list_elem_of_fmap in Hsf as (f & -> & Hf). simpl. split; [done|].
  exists f. split; [|done]. simpl in Hsh. rewrite <- Hsh.
  eapply elem_of_sublist; [exact Hf|apply slice0_sublist].
Qed.

Lemma post_genSubscriberFeatureState cfg sfeat :
  post (genSubscriberFeatureState cfg sfeat)
       (Forall (λ st, ∃ sf, sf ∈ sfeat ∧
          SubscriberFeatureState.subscriberId st = SubscriberFeature.subscriberId sf ∧
          SubscriberFeatureState.featureId st = SubscriberFeature.featureId sf)).
Proof.
  unfold genSubscriberFeatureState.
  apply (post_flatMapM_elem _ (λ sf st,
    SubscriberFeatureState.subscriberId st = SubscriberFeature.subscriberId sf ∧
    SubscriberFeatureState.featureId st = SubscriberFeature.featureId sf)).
  intros sf.
  eapply post_bind; [apply post_true|intros u _].
  destruct (draw_lt u 55 100); [by apply post_ret|].
  post_triv; apply post_ret; by repeat constructor.
Qed.

Lemma post_genTickets cfg subscribers :
  post (genTickets cfg TICKET_STATUS subscribers)
       (Forall (λ t, ∃ s, s ∈ subscribers ∧
          Ticket.subscriberId t = Subscriber.subscriberId s ∧
          ∃ c, c ∈ TICKET_STATUS ∧ Ticket.statusCode t = TicketStatusCode.code c)).
Proof.
  rewrite genTickets_nested.
  apply (post_nested_elem _ _ (λ s t,
    Ticket.subscriberId t = Subscriber.subscriberId s ∧
    ∃ c, c ∈ TICKET_STATUS ∧ Ticket.statusCode t = TicketStatusCode.code c)).
  intros s. unfold genTicket.
  eapply post_bind; [apply post_true|intros tid _].
  eapply post_bind.
  { apply post_choice; [simpl; lia|by vm_compute]. }
  intros st Hst. post_triv; apply post_ret; (split; [done|by exists st]).
Qed.

Lemma post_genNotes cfg subscribers orders tickets :
  post (genNotes cfg subscribers orders tickets)
       (Forall (λ n, note_ok subscribers orders tickets
                             (Note.refType n) (Note.refId n))).
Proof.
  unfold genNotes.
  eapply post_bind; [apply post_shuffle|intros sh1 H1].
  eapply post_bind; [apply post_shuffle|intros sh2 H2].
  eapply post_bind; [apply post_shuffle|intros sh3 H3].
  simpl in H1, H2, H3.
  eapply post_weaken.
  { apply (post_mapM _ (λ r n, Note.refType n = NoteRef.refType r ∧
                               Note.refId n = NoteRef.refId r)).
    intros r _. post_triv. }
  intros notes Hn. eapply Forall2_Forall_r; [exact Hn|].
  rewrite !Forall_app. split_and!; apply Forall_forall; intros r Hr n [-> ->];
    apply list_elem_of_fmap in Hr as (x & -> & Hx);
    eapply elem_of_sublist in Hx; try apply slice0_sublist;
    unfold note_ok; simpl.
  - left. split; [done|]. exists x. by rewrite <- H1.
  - right; left. split; [done|]. exists x. by rewrite <- H2.
  - right; right. split; [done|]. exists x. by rewrite <- H3.
Qed.

Lemma post_genDeviceEvents cfg devices :
  post (genDeviceEvents cfg devices)
       (Forall (λ e, ∃ d, d ∈ devices ∧
                          DeviceEvent.deviceId e = Device.deviceId d)).
Proof.
  rewrite genDeviceEvents_nested.
  apply (post_nested_elem _ _ (λ d e,
           DeviceEvent.deviceId e = Device.deviceId d)).
  intros d. unfold genDeviceEvent. post_triv.
Qed.

Lemma post_genUsageRecords cfg subscribers :
  post (genUsageRecords cfg subscribers)
       (Forall (λ r, ∃ s, s ∈ subscribers ∧
          UsageRecord.subscriberId r = Subscriber.subscriberId s ∧
          UsageRecord.usageType r ∈ usageTypes ∧
          UsageRecord.ratedCents r =
            ratedCents (UsageRecord.usageType r) (UsageRecord.units r))).
Proof.
  rewrite genUsageRecords_nested.
  apply (post_nested_elem _ _ (λ s r,
    UsageRecord.subscriberId r = Subscriber.subscriberId s ∧
    UsageRecord.usageType r ∈ usageTypes ∧
    UsageRecord.ratedCents r =
      ratedCents (UsageRecord.usageType r) (UsageRecord.units r))).
  intros s. unfold genUsageRecord.
  eapply post_bind; [apply post_true|intros m _].
  eapply post_bind.
  { apply post_choice; [simpl; lia|by vm_compute]. }
  intros ty Hty. post_triv.
Qed.

Lemma post_genAccounts cfg :
  post (genAccounts cfg)
       (λ accts, length accts = Z.to_nat (Cfg.accounts cfg)).
Proof.
  unfold genAccounts.
  eapply post_weaken; [apply (post_forM _ (λ _, True)); intros; apply post_true|].
  intros accts [_ H]. exact H.
Qed.

(** ** The whole run *)

Lemma untouched_genSubscriberFeatures c features subscribers :
  untouched c (genSubscriberFeatures features subscribers).
Proof. unfold genSubscriberFeatures. solve_untouched. Qed.

Lemma untouched_genSubscriberFeatureState c cfg sfeat :
  c ≠ subscriberFeatureStateId →
  untouched c (genSubscriberFeatureState cfg sfeat).
Proof. intros. unfold genSubscriberFeatureState. untouched_phase. Qed.

Lemma untouched_genTickets c cfg codes subscribers :
  c ≠ ticketId → untouched c (genTickets cfg codes subscribers).
Proof. intros. unfold genTickets, genTicket. untouched_phase. Qed.

Lemma untouched_genNotes c cfg subscribers orders tickets :
  c ≠ noteId → untouched c (genNotes cfg subscribers orders tickets).
Proof. intros. unfold genNotes. untouched_phase. Qed.

Lemma untouched_genDeviceEvents c cfg devices :
  c ≠ deviceEventId → untouched c (genDeviceEvents cfg devices).
Proof.
  intros. unfold genDeviceEvents, genDeviceEvent, genPayload. untouched_phase.
Qed.

Lemma allocs_genPlans : allocs planId (map Plan.planId) genPlans.
Proof.
  unfold genPlans.
  apply (allocs_bind planId _ _ (λ x, [x])
           (λ _ r, tail (map Plan.planId r))).
  - apply allocs_next.
  - intros x. apply allocs_next_proj; [intros; solve_untouched|intros; post_triv].
  - intros x. post_triv.
Qed.

Lemma allocs_genRegions : allocs regionId (map Region.regionId) genRegions.
Proof.
  unfold genRegions. apply allocs_mapM_key. intros code.
  allocs_body regionId Region.regionId.
Qed.

Lemma allocs_genDeviceClasses :
  allocs deviceClassId (map DeviceClass.deviceClassId) genDeviceClasses.
Proof.
  unfold genDeviceClasses.
  apply (allocs_bind deviceClassId _ _ (λ x, [x])
           (λ _ r, tail (map DeviceClass.deviceClassId r))).
  - apply allocs_next.
  - intros x. apply allocs_next_proj; [intros; solve_untouched|intros; post_triv].
  - intros x. post_triv.
Qed.

Lemma post_genPlans : post genPlans (λ l, length l = 2%nat).
Proof. unfold genPlans. post_triv. Qed.

Lemma post_genRegions : post genRegions (λ l, length l = 2%nat).
Proof.
  unfold genRegions. eapply post_weaken; [apply (post_mapM _ (λ _ _, True))|].
  - intros. apply post_true.
  - intros l Hl. by apply Forall2_length in Hl.
Qed.

Lemma post_genDeviceClasses : post genDeviceClasses (λ l, length l = 2%nat).
Proof. unfold genDeviceClasses. post_triv. Qed.

Lemma post_genOrders_length cfg accounts :
  0 ≤ Cfg.ordersPerAccountMin cfg ≤ Cfg.ordersPerAccountMax cfg →
  Cfg.ordersPerAccountMax cfg - Cfg.ordersPerAccountMin cfg + 1 ≤ two21 →
  post (genOrders cfg accounts)
       (λ ords, Cfg.ordersPerAccountMin cfg * Z.of_nat (length accounts)
                  ≤ Z.of_nat (length ords)
                  ≤ Cfg.ordersPerAccountMax cfg * Z.of_nat (length accounts)).
Proof.
  intros H1 H2. rewrite genOrders_nested.
  apply post_nested_length; [lia|]. intros _. apply post_intBetween; lia.
Qed.

Lemma generate_spec cfg s :
  ∃ plans regions deviceClasses accounts subs devices ords sfeat sfstate
    tickets notes events usage,
    (generateCanonical_body cfg s).1 =
      assemble plans regions deviceClasses
        (genRates plans regions deviceClasses) accounts subs.*1 subs.*2
        devices ords.*1 (concat ords.*2) FEATURE_DEFS sfeat sfstate
        TICKET_STATUS tickets notes events usage
    ∧ RunFacts cfg (ids s) plans regions deviceClasses accounts subs devices
        ords sfeat sfstate tickets notes events usage.
Proof.
  unfold generateCanonical_body, bind.
  generalize (allocs_genPlans s) (post_genPlans s)
             (λ c H, untouched_genPlans c H s).
  destruct (genPlans s) as [plans s1]. cbn [fst snd].
  intros [Ha1 _] Hl1 Hf1.
  generalize (allocs_genRegions s1) (post_genRegions s1)
             (λ c H, untouched_genRegions c H s1).
  destruct (genRegions s1) as [regions s2]. cbn [fst snd].
  intros [Ha2 _] Hl2 Hf2.
  generalize (allocs_genDeviceClasses s2) (post_genDeviceClasses s2)
             (λ c H, untouched_genDeviceClasses c H s2).
  destruct (genDeviceClasses s2) as [deviceClasses s3]. cbn [fst snd].
  intros [Ha3 _] Hl3 Hf3.
  generalize (allocs_genAccounts cfg s3) (post_genAccounts cfg s3)
             (λ c H, untouched_genAccounts c cfg H s3).
  destruct (genAccounts cfg s3) as [accounts s4]. cbn [fst snd].
  intros [Ha4 _] Hl4 Hf4.
  generalize (allocs_genSubscribers cfg accounts s4)
             (post_genSubscribers cfg accounts s4)
             (λ c H, untouched_genSubscribers c cfg accounts H s4).
  destruct (genSubscribers cfg accounts s4) as [subs s5]. cbn [fst snd].
  intros [Ha5 _] Hp5 Hf5.
  generalize (allocs_genDevices subs.*1 s5) (post_genDevices subs.*1 s5)
             (λ c H, untouched_genDevices c subs.*1 H s5).
  destruct (genDevices subs.*1 s5) as [devices s6]. cbn [fst snd].
  intros [Ha6 _] Hp6 Hf6.
  generalize (allocs_genOrders_orderId cfg accounts s6)
             (allocs_genOrders_orderItemId cfg accounts s6)
             (post_genOrders cfg accounts s6)
             (λ c H H', untouched_genOrders c cfg accounts H H' s6).
  generalize (λ H1 H2, post_genOrders_length cfg accounts H1 H2 s6).
  destruct (genOrders cfg accounts s6) as [ords s7]. cbn [fst snd].
  intros Hlen7 [Ha7 _] [Ha7' _] Hp7 Hf7.
  generalize (post_genSubscriberFeatures FEATURE_DEFS subs.*1 s7)
             (λ c, untouched_genSubscriberFeatures c FEATURE_DEFS subs.*1 s7).
  destruct (genSubscriberFeatures FEATURE_DEFS subs.*1 s7) as [sfeat s8].
  cbn [fst snd]. intros Hp8 Hf8.
  generalize (allocs_genSubscriberFeatureState cfg sfeat s8)
             (post_genSubscriberFeatureState cfg sfeat s8)
             (λ c H, untouched_genSubscriberFeatureState c cfg sfeat H s8).
  destruct (genSubscriberFeatureState cfg sfeat s8) as [sfstate s9].
  cbn [fst snd]. intros [Ha9 _] Hp9 Hf9.
  generalize (allocs_genTickets cfg TICKET_STATUS subs.*1 s9)
             (post_genTickets cfg subs.*1 s9)
             (λ c H, untouched_genTickets c cfg TICKET_STATUS subs.*1 H s9).
  destruct (genTickets cfg TICKET_STATUS subs.*1 s9) as [tickets s10].
  cbn [fst snd]. intros [Ha10 _] Hp10 Hf10.
  generalize (allocs_genNotes cfg subs.*1 ords.*1 tickets s10)
             (post_genNotes cfg subs.*1 ords.*1 tickets s10)
             (λ c H, untouched_genNotes c cfg subs.*1 ords.*1 tickets H s10).
  destruct (genNotes cfg subs.*1 ords.*1 tickets s10) as [notes s11].
  cbn [fst snd]. intros [Ha11 _] Hp11 Hf11.
  generalize (allocs_genDeviceEvents cfg devices s11)
             (post_genDeviceEvents cfg devices s11)
             (λ c H, untouched_genDeviceEvents c cfg devices H s11).
  destruct (genDeviceEvents cfg devices s11) as [events s12].
  cbn [fst snd]. intros [Ha12 _] Hp12 Hf12.
  generalize (allocs_genUsageRecords cfg subs.*1 s12)
             (post_genUsageRecords cfg subs.*1 s12).
  destruct (genUsageRecords cfg subs.*1 s12) as [usage s13].
  cbn [fst snd]. intros [Ha13 _] Hp13.
  exists plans, regions, deviceClasses, accounts, subs, devices, ords, sfeat,
    sfstate, tickets, notes, events, usage.
  split; [reflexivity|].
  rewrite length_map in Ha1, Ha2, Ha3, Ha4, Ha5, Ha6, Ha7, Ha9, Ha10, Ha11,
    Ha12, Ha13.
  rewrite length_map in Ha7'.
  rewrite Hl1 in Ha1. rewrite Hl2 in Ha2. rewrite Hl3 in Ha3.
  rewrite Hf1 in Ha2 by done.
  rewrite Hf2, Hf1 in Ha3 by done.
  rewrite Hf3, Hf2, Hf1 in Ha4 by done.
  rewrite Hf4, Hf3, Hf2, Hf1 in Ha5 by done.
  rewrite Hf5, Hf4, Hf3, Hf2, Hf1 in Ha6 by done.
  rewrite Hf6, Hf5, Hf4, Hf3, Hf2, Hf1 in Ha7, Ha7' by done.
  rewrite Hf8, Hf7, Hf6, Hf5, Hf4, Hf3, Hf2, Hf1 in Ha9 by done.
  rewrite Hf9, Hf8, Hf7, Hf6, Hf5, Hf4, Hf3, Hf2, Hf1 in Ha10 by done.
  rewrite Hf10, Hf9, Hf8, Hf7, Hf6, Hf5, Hf4, Hf3, Hf2, Hf1 in Ha11 by done.
  rewrite Hf11, Hf10, Hf9, Hf8, Hf7, Hf6, Hf5, Hf4, Hf3, Hf2, Hf1 in Ha12
    by done.
  rewrite Hf12, Hf11, Hf10, Hf9, Hf8, Hf7, Hf6, Hf5, Hf4, Hf3, Hf2, Hf1
    in Ha13 by done.
  rewrite length_fmap in Ha7.
  constructor; try done.
  rewrite <- Ha5. clear. induction subs as [|r subs IH]; simpl; [done|].
  f_equal. exact IH.
Qed.

Lemma dataset_body seed size :
  dataset seed size =
  (generateCanonical_body (presets size) (mkSt (mulberry32 seed) idRanges)).1.
Proof.
  unfold dataset, generateCanonical.
  by destruct (generateCanonical_body _ _).
Qed.

Lemma dataset_spec seed size :
  ∃ plans regions deviceClasses accounts subs devices ords sfeat sfstate
    tickets notes events usage,
    dataset seed size =
      assemble plans regions deviceClasses
        (genRates plans regions deviceClasses) accounts subs.*1 subs.*2
        devices ords.*1 (concat ords.*2) FEATURE_DEFS sfeat sfstate
        TICKET_STATUS tickets notes events usage
    ∧ RunFacts (presets size) idRanges plans regions deviceClasses accounts
        subs devices ords sfeat sfstate tickets notes events usage.
Proof. rewrite dataset_body. apply generate_spec. Qed.

(** ** Usage rating *)

Lemma ceil_div_spec a b :
  0 < b → b * (ceil_div a b - 1) < a ≤ b * ceil_div a b.
Proof.
  intros Hb. unfold ceil_div.
  pose proof (Z.div_mod (- a) b ltac:(lia)).
  pose proof (Z.mod_pos_bound (- a) b Hb). lia.
Qed.

(** C2. Every usage record of a generated dataset is rated by its type:
    voice costs 4 cents per started minute, data 2 cents per started
    1024 KB, sms nothing; the started units are the least [k] with
    [units <= 60 k] (resp. [1024 k]). In particular 90 s of voice cost 8,
    45 s cost 4, 1024 KB of data cost 2. *)
Theorem usage_rating seed size r :
  r ∈ Canonical.usage_records (dataset seed size) →
  (UsageRecord.usageType r = "voice" →
     ∃ k, 60 * (k - 1) < UsageRecord.units r ≤ 60 * k ∧
          UsageRecord.ratedCents r = k * 4) ∧
  (UsageRecord.usageType r = "data" →
     ∃ k, 1024 * (k - 1) < UsageRecord.units r ≤ 1024 * k ∧
          UsageRecord.ratedCents r = k * 2) ∧
  (UsageRecord.usageType r = "sms" → UsageRecord.ratedCents r = 0) ∧
  ratedCents "voice" 90 = 8 ∧ ratedCents "voice" 45 = 4 ∧
  ratedCents "data" 1024 = 2 ∧ (∀ units, ratedCents "sms" units = 0).
Proof.
  intros Hr.
  destruct (dataset_spec seed size) as
    (plans & regions & dcs & accounts & subs & devices & ords & sfeat &
     sfstate & tickets & notes & events & usage & Hd & F).
  rewrite Hd in Hr. simpl in Hr. apply elem_of_jsSort in Hr.
  pose proof (rf_usage _ _ _ _ _ _ _ _ _ _ _ _ _ _ _ F) as Hu.
  rewrite Forall_forall in Hu.
  destruct (Hu r Hr) as (s & _ & _ & _ & Hrated).
  rewrite Hrated. split_and!; try done.
  - intros ->. exists (ceil_div (UsageRecord.units r) 60).
    split; [apply ceil_div_spec; lia|done].
  - intros ->. exists (ceil_div (UsageRecord.units r) 1024).
    split; [apply ceil_div_spec; lia|done].
  - by intros ->.
Qed.

Lemma usage_rating_witness :
  ∃ r, Canonical.usage_records (dataset 42 "S") !! 0%nat = Some r ∧
       UsageRecord.ratedCents r =
         ratedCents (UsageRecord.usageType r) (UsageRecord.units r) ∧
       (UsageRecord.usageType r = "sms" → UsageRecord.ratedCents r = 0).
Proof.
  eexists. split; [vm_compute; reflexivity|]. split; [vm_compute; reflexivity|].
  eapply (usage_rating 42 "S").
  apply list_elem_of_lookup. exists 0%nat. vm_compute. reflexivity.
Defined.

(** ** Referential integrity *)

Lemma resolves_sorted {A B K} (fk : A → K) (pk : B → K) cmpA cmpB
    (children : list A) (parents : list B) :
  Forall (λ x, ∃ y, y ∈ parents ∧ fk x = pk y) children →
  resolves fk pk (jsSort cmpA children) (jsSort cmpB parents).
Proof.
  intros H x Hx. apply elem_of_jsSort in Hx.
  rewrite Forall_forall in H. destruct (H x Hx) as (y & Hy & Heq).
  exists y. by rewrite elem_of_jsSort.
Qed.

Lemma genRates_resolves plans regions deviceClasses r :
  r ∈ genRates plans regions deviceClasses →
  (∃ p, p ∈ plans ∧ Rate.planId r = Plan.planId p) ∧
  (∃ g, g ∈ regions ∧ Rate.regionId r = Region.regionId g) ∧
  (∃ d, d ∈ deviceClasses ∧ Rate.deviceClassId r = DeviceClass.deviceClassId d).
Proof.
  unfold genRates. intros Hr.
  apply list_elem_of_bind in Hr as (p & Hr & Hp).
  apply list_elem_of_bind in Hr as (g & Hr & Hg).
  apply list_elem_of_bind in Hr as (d & Hr & Hd).
  apply list_elem_of_singleton in Hr as ->. simpl. eauto 10.
Qed.

Lemma orgUnits_resolve :
  resolves_earlier OrgUnit.parentOrgUnitId OrgUnit.orgUnitId orgUnits.
Proof.
  intros i x k Hi Hk.
  destruct i as [|[|[|[|[|i]]]]]; simpl in Hi; simplify_eq; simpl in Hk;
    simplify_eq.
  - by exists 0%nat, (OrgUnit.mk 9001 "Network Ops" None); split_and!; try lia.
  - by exists 0%nat, (OrgUnit.mk 9001 "Network Ops" None); split_and!; try lia.
  - by exists 3%nat, (OrgUnit.mk 9004 "Customer Care" None); split_and!; try lia.
Qed.

Lemma resolves_Permutation {A B K} (fk : A → K) (pk : B → K)
    (children children' : list A) (parents parents' : list B) :
  children ≡ₚ children' → parents ≡ₚ parents' →
  Forall (λ x, ∃ y, y ∈ parents' ∧ fk x = pk y) children' →
  resolves fk pk children parents.
Proof.
  intros Hc Hp H x Hx. rewrite Hc in Hx.
  rewrite Forall_forall in H. destruct (H x Hx) as (y & Hy & Heq).
  exists y. by rewrite Hp.
Qed.

Lemma elem_of_concat {A} (x : A) (ls : list (list A)) :
  x ∈ concat ls ↔ ∃ l, x ∈ l ∧ l ∈ ls.
Proof.
  induction ls as [|l ls IH]; simpl.
  - split; [by intros ?%elem_of_nil|by intros (? & _ & ?%elem_of_nil)].
  - rewrite elem_of_app, IH. split.
    + intros [H|(l' & H1 & H2)]; [exists l; split; [done|left]|].
      exists l'. split; [done|by right].
    + intros (l' & H1 & H2). apply elem_of_cons in H2 as [->|H2]; [by left|].
      right. eauto.
Qed.

Lemma Forall_fst_pairs {A B} (P : A → Prop) (Q : A * B → Prop)
    (l : list (A * B)) :
  (∀ r, Q r → P r.1) → Forall Q l → Forall P l.*1.
Proof.
  intros HQP H. induction H as [|r l Hr _ IH]; simpl; constructor; auto.
Qed.

(** C4. In every generated canonical graph each foreign key is the key of
    a row of the table it refers to: a table filled by an earlier phase of
    the generator (for an org unit, an earlier row of the same table). *)
Theorem referential_integrity_holds seed size :
  referential_integrity (dataset seed size).
Proof.
  destruct (dataset_spec seed size) as
    (plans & regions & dcs & accounts & subs & devices & ords & sfeat &
     sfstate & tickets & notes & events & usage & Hd & F).
  rewrite Hd. destruct F. constructor; simpl.
  - eapply resolves_Permutation; try apply jsSort_Permutation.
    eapply Forall_fst_pairs; [|exact rf_subs0].
    intros r (a & Ha & Heq & _). eauto.
  - eapply resolves_Permutation; try apply jsSort_Permutation.
    apply Forall_forall. intros p Hp.
    apply list_elem_of_fmap in Hp as (r & -> & Hr).
    rewrite Forall_forall in rf_subs0.
    destruct (rf_subs0 r Hr) as (_ & _ & _ & Heq).
    exists r.1. split; [by apply list_elem_of_fmap_2|done].
  - eapply resolves_Permutation; try apply jsSort_Permutation.
    apply Forall_forall. intros d Hd'.
    apply list_elem_of_lookup in Hd' as [i Hi].
    destruct (Forall2_lookup_r _ _ _ _ _ rf_devices0 Hi) as (s & Hs & Heq).
    exists s. split; [|done]. apply list_elem_of_lookup. eauto.
  - eapply resolves_Permutation; try apply jsSort_Permutation. done.
  - eapply resolves_Permutation; try apply jsSort_Permutation.
    eapply Forall_fst_pairs; [|exact rf_ords0].
    intros r (a & Ha & Heq & _). eauto.
  - eapply resolves_Permutation; try apply jsSort_Permutation.
    apply Forall_forall. intros it Hit.
    apply elem_of_concat in Hit as (its & Hit & Hits).
    apply list_elem_of_fmap in Hits as (r & -> & Hr).
    rewrite Forall_forall in rf_ords0.
    destruct (rf_ords0 r Hr) as (a & _ & _ & Hitems & _).
    rewrite Forall_forall in Hitems. destruct (Hitems it Hit) as (Heq & _).
    exists r.1. split; [by apply list_elem_of_fmap_2|done].
  - eapply resolves_Permutation; try apply jsSort_Permutation.
    eapply Forall_impl; [exact rf_sfeat0|].
    intros sf (s & Hs & Heq & _). eauto.
  - eapply resolves_Permutation; [apply jsSort_Permutation|reflexivity|].
    eapply Forall_impl; [exact rf_sfeat0|].
    intros sf (s & Hs & _ & f & Hf & Heq). eauto.
  - eapply resolves_Permutation; try apply jsSort_Permutation.
    eapply Forall_impl; [exact rf_sfstate0|].
    intros st (sf & Hsf & -> & ->). eauto.
  - eapply resolves_Permutation; try apply jsSort_Permutation.
    eapply Forall_impl; [exact rf_tickets0|].
    intros t (s & Hs & Heq & _). eauto.
  - eapply resolves_Permutation; [apply jsSort_Permutation|reflexivity|].
    eapply Forall_impl; [exact rf_tickets0|].
    intros t (s & Hs & _ & c & Hc & Heq). eauto.
  - apply Forall_forall. intros n Hn. apply elem_of_jsSort in Hn.
    rewrite Forall_forall in rf_notes0. specialize (rf_notes0 n Hn).
    unfold note_ok in rf_notes0. unfold note_resolves. simpl.
    setoid_rewrite elem_of_jsSort. exact rf_notes0.
  - apply orgUnits_resolve.
  - intros r Hr. by apply genRates_resolves in Hr as (H1 & H2 & H3).
  - intros r Hr. by apply genRates_resolves in Hr as (H1 & H2 & H3).
  - intros r Hr. by apply genRates_resolves in Hr as (H1 & H2 & H3).
  - eapply resolves_Permutation; try apply jsSort_Permutation.
    eapply Forall_impl; [exact rf_usage0|].
    intros r (s & Hs & Heq & _). eauto.
Qed.

(** ** Identifiers *)

Lemma sorted_orders seed size :
  ∃ accounts ords,
    Canonical.orders (dataset seed size) = ords.*1 ∧
    Canonical.order_items (dataset seed size) = concat ords.*2 ∧
    map Order.orderId ords.*1 = seqZ 4001 (Z.of_nat (length ords)) ∧
    map OrderItem.orderItemId (concat ords.*2) =
      seqZ 4101 (Z.of_nat (length (concat ords.*2))) ∧
    Forall (λ r, ∃ a, a ∈ accounts ∧ order_ok (presets size) a r) ords ∧
    length accounts = Z.to_nat (Cfg.accounts (presets size)) ∧
    (0 ≤ Cfg.ordersPerAccountMin (presets size)
       ≤ Cfg.ordersPerAccountMax (presets size) →
     Cfg.ordersPerAccountMax (presets size)
       - Cfg.ordersPerAccountMin (presets size) + 1 ≤ two21 →
     Cfg.ordersPerAccountMin (presets size) * Z.of_nat (length accounts)
       ≤ Z.of_nat (length ords)).
Proof.
  destruct (dataset_spec seed size) as
    (plans & regions & dcs & accounts & subs & devices & ords & sfeat &
     sfstate & tickets & notes & events & usage & Hd & F).
  exists accounts, ords. rewrite Hd. destruct F. simpl.
  split_and!; try done.
  - eapply jsSort_seqZ_keys. rewrite length_fmap. exact rf_ords_ids0.
  - eapply jsSort_seqZ_keys. exact rf_items_ids0.
  - intros H1 H2. by apply rf_ords_len0.
Qed.

Lemma presets_cases size :
  presets size = Cfg.mk 3 2 2 1 2 2 3 0 1 3 6 10 2 true ∨
  presets size = Cfg.mk 25 2 5 1 4 2 5 0 2 20 60 250 7 true ∨
  presets size = Cfg.mk 200 2 6 1 5 2 6 0 2 200 600 2500 30 true.
Proof. unfold presets. repeat case_match; auto. Qed.

(** C3, at the size where it fails. For size L and every seed, the value
    4101 is the identifier of an order and also of an order item: the
    range of order identifiers starts at 4001 and runs past 4101, where the
    range of order item identifiers starts. *)
Theorem orderId_meets_orderItemId seed :
  ∃ o it,
    o ∈ Canonical.orders (dataset seed "L") ∧
    it ∈ Canonical.order_items (dataset seed "L") ∧
    Order.orderId o = 4101 ∧ OrderItem.orderItemId it = 4101.
Proof.
  destruct (sorted_orders seed "L") as
    (accounts & ords & -> & -> & Hoids & Hiids & Hok & Hacc & Hlen).
  change (presets "L") with (Cfg.mk 200 2 6 1 5 2 6 0 2 200 600 2500 30 true)
    in *.
  simpl in Hacc, Hlen.
  specialize (Hlen ltac:(lia) ltac:(unfold two21; lia)).
  assert (4101 ∈ map Order.orderId ords.*1) as Ho.
  { rewrite Hoids. apply elem_of_seqZ. lia. }
  apply list_elem_of_fmap in Ho as (o & Ho & Hin).
  assert (0 < length (concat ords.*2))%nat as Hitems.
  { destruct ords as [|r ords]; [simpl in Hlen; lia|].
    apply Forall_cons in Hok as [(a & _ & _ & _ & _ & _ & Hn) _].
    simpl in Hn. specialize (Hn ltac:(lia) ltac:(lia)).
    simpl. rewrite length_app. lia. }
  assert (4101 ∈ map OrderItem.orderItemId (concat ords.*2)) as Hi.
  { rewrite Hiids. apply elem_of_seqZ. lia. }
  apply list_elem_of_fmap in Hi as (it & Hi & Hin').
  exists o, it. done.
Qed.

(** ** Items of an order *)

Lemma filter_all {A} (P : A → Prop) `{∀ x, Decision (P x)} (l : list A) :
  Forall P l → filter P l = l.
Proof.
  induction 1 as [|x l Hx _ IH]; [done|].
  by rewrite filter_cons_True, IH.
Qed.

Lemma filter_none {A} (P : A → Prop) `{∀ x, Decision (P x)} (l : list A) :
  Forall (λ x, ¬ P x) l → filter P l = [].
Proof.
  induction 1 as [|x l Hx _ IH]; [done|].
  by rewrite filter_cons_False, IH.
Qed.

Lemma filter_concat_group {G V} (kg : G → Z) (kv : V → Z)
    (items : G → list V) (gs : list G) (g : G) :
  NoDup (map kg gs) →
  Forall (λ g, Forall (λ v, kv v = kg g) (items g)) gs →
  g ∈ gs →
  filter (λ v, kv v = kg g) (concat (map items gs)) = items g.
Proof.
  intros Hnd Hall Hg.
  induction gs as [|g0 gs IH]; [by apply elem_of_nil in Hg|].
  simpl in *. apply NoDup_cons in Hnd as [Hnotin Hnd].
  apply Forall_cons in Hall as [H0 Hall].
  rewrite filter_app.
  destruct (decide (kg g0 = kg g)) as [Heq|Hne].
  - assert (filter (λ v, kv v = kg g) (concat (map items gs)) = []) as ->.
    { apply filter_none. apply Forall_forall. intros v Hv Hkv.
      apply elem_of_concat in Hv as (l & Hv & Hl).
      apply list_elem_of_fmap in Hl as (g' & -> & Hg').
      rewrite Forall_forall in Hall. specialize (Hall g' Hg').
      rewrite Forall_forall in Hall. specialize (Hall v Hv).
      apply Hnotin. rewrite Heq, <- Hkv, Hall. by apply list_elem_of_fmap_2. }
    rewrite app_nil_r.
    assert (g = g0) as ->.
    { apply elem_of_cons in Hg as [->|Hg]; [done|].
      exfalso. apply Hnotin. rewrite Heq. by apply list_elem_of_fmap_2. }
    by apply filter_all.
  - apply elem_of_cons in Hg as [->|Hg]; [done|].
    rewrite filter_none.
    + simpl. by apply IH.
    + eapply Forall_impl; [exact H0|]. intros v Hv. simpl in Hv. lia.
Qed.

Lemma items_of_generated seed size o :
  o ∈ Canonical.orders (dataset seed size) →
  ∃ a its, order_ok (presets size) a (o, its) ∧
           items_of (dataset seed size) o = its.
Proof.
  intros Ho. unfold items_of.
  destruct (sorted_orders seed size) as
    (accounts & ords & Hos & His & Hoids & _ & Hok & _).
  rewrite Hos in Ho. rewrite His.
  apply list_elem_of_fmap in Ho as (r & -> & Hr).
  rewrite Forall_forall in Hok. destruct (Hok r Hr) as (a & _ & Hra).
  exists a, r.2. split; [by destruct r|].
  apply (filter_concat_group (λ r, Order.orderId r.1) OrderItem.orderId snd).
  - assert (map (λ r : Order.t * list OrderItem.t, Order.orderId r.1) ords
            = seqZ 4001 (Z.of_nat (length ords))) as ->; [|apply NoDup_seqZ].
    rewrite <- Hoids. clear.
    induction ords as [|? ? IH]; simpl; [done|]. f_equal. exact IH.
  - apply Forall_forall. intros r' Hr'.
    destruct (Hok r' Hr') as (a' & _ & _ & Hits & _).
    eapply Forall_impl; [exact Hits|]. by intros it (? & _).
  - done.
Qed.


(** ** CSV escaping *)

Lemma replace_crlf_cons c s :
  replace_crlf (String c s) =
  match s with
  | String c' s'' =>
      if Ascii.eqb c CR && Ascii.eqb c' LF
      then String LF (replace_crlf s'')
      else String c (replace_crlf s)
  | EmptyString => String c EmptyString
  end.
Proof. by destruct s. Qed.

Lemma replace_crlf_no_cr s : includes CR s = false → replace_crlf s = s.
Proof.
  induction s as [|c s IH]; [done|]. intros H. simpl in H.
  apply orb_false_iff in H as [Hc Hs].
  rewrite replace_crlf_cons, Hc. simpl.
  destruct s as [|c' s']; [done|]. by rewrite IH.
Qed.

Lemma replace_cr_no_cr s : includes CR s = false → replace_cr s = s.
Proof.
  induction s as [|c s IH]; [done|]. simpl. intros H.
  apply orb_false_iff in H as [Hc Hs]. rewrite Hc. by rewrite IH.
Qed.

Lemma normalize_no_cr s : includes CR s = false → normalize_newlines s = s.
Proof.
  intros H. unfold normalize_newlines.
  by rewrite replace_crlf_no_cr, replace_cr_no_cr.
Qed.

Lemma append_cons c (s t : string) : String c s +:+ t = String c (s +:+ t).
Proof. reflexivity. Qed.

Lemma append_nil_l (t : string) : EmptyString +:+ t = t.
Proof. reflexivity. Qed.

Lemma append_assoc (s1 s2 s3 : string) :
  (s1 +:+ s2) +:+ s3 = s1 +:+ (s2 +:+ s3).
Proof.
  induction s1 as [|c s1 IH]; [done|].
  rewrite !append_cons. f_equal. exact IH.
Qed.

Lemma double_quotes_none s : includes DQ s = false → double_quotes s = s.
Proof.
  induction s as [|c s IH]; [done|]. simpl. intros H.
  apply orb_false_iff in H as [Hc Hs]. rewrite Hc. by rewrite IH.
Qed.

Lemma csv_quoted_double_quotes s rest :
  at_field_end rest →
  csv_quoted (double_quotes s +:+ String DQ rest) = Some (s, rest).
Proof.
  intros Hrest. induction s as [|c s IH].
  - simpl double_quotes. rewrite append_nil_l.
    destruct rest as [|c rest]; [done|].
    simpl in Hrest. by destruct Hrest as [-> | ->].
  - cbn [double_quotes].
    destruct (Ascii.eqb c DQ) eqn:Hc.
    + apply Ascii.eqb_eq in Hc as ->. rewrite !append_cons.
      cbn [csv_quoted]. change (Ascii.eqb DQ DQ) with true. cbv iota.
      by rewrite IH.
    + rewrite append_cons. cbn [csv_quoted]. rewrite Hc. by rewrite IH.
Qed.

Lemma csv_bare_plain s rest :
  includes COMMA s = false → includes LF s = false → at_field_end rest →
  csv_bare (s +:+ rest) = (s, rest).
Proof.
  intros Hc Hl Hrest. induction s as [|c s IH]; simpl in Hc, Hl.
  - rewrite append_nil_l. destruct rest as [|c rest]; [done|]. simpl.
    by destruct Hrest as [-> | ->].
  - apply orb_false_iff in Hc as [Hc Hc']. apply orb_false_iff in Hl as [Hl Hl'].
    rewrite append_cons. cbn [csv_bare]. rewrite Hc, Hl. simpl.
    by rewrite IH.
Qed.

Lemma csv_field_escape s rest :
  at_field_end rest →
  csv_field (csvEscape_string s +:+ rest) = Some (normalize_newlines s, rest).
Proof.
  intros Hrest. unfold csvEscape_string. fold (normalize_newlines s).
  set (n := normalize_newlines s).
  destruct (includes DQ n) eqn:Hq.
  - rewrite orb_true_r. cbv iota. rewrite orb_true_l. cbv iota.
    rewrite append_cons, append_assoc, append_cons, append_nil_l.
    unfold csv_field. change (Ascii.eqb DQ DQ) with true. cbv iota.
    by apply csv_quoted_double_quotes.
  - rewrite orb_false_r. cbv iota.
    destruct (includes COMMA n || includes LF n) eqn:Hcl.
    + rewrite append_cons, append_assoc, append_cons, append_nil_l.
      unfold csv_field. change (Ascii.eqb DQ DQ) with true. cbv iota.
      rewrite <- (double_quotes_none n Hq) at 1.
      by apply csv_quoted_double_quotes.
    + apply orb_false_iff in Hcl as [Hc Hl].
      destruct n as [|c n'] eqn:Hn.
      * rewrite append_nil_l. destruct rest as [|c rest]; [done|].
        simpl in Hrest. destruct Hrest as [-> | ->]; done.
      * rewrite append_cons. unfold csv_field.
        simpl in Hq. apply orb_false_iff in Hq as [Hq _]. rewrite Hq.
        rewrite <- append_cons. by rewrite csv_bare_plain.
Qed.

Lemma at_field_end_NL : at_field_end NL.
Proof. by right. Qed.

Lemma csv_record_fields fuel (fs : list string) :
  fs ≠ [] → (length fs ≤ fuel)%nat →
  csv_record fuel (join "," (map csvEscape_string fs) +:+ NL)
  = Some (map normalize_newlines fs, EmptyString).
Proof.
  revert fuel. induction fs as [|f fs IH]; intros fuel Hne Hfuel; [done|].
  destruct fuel as [|fuel]; [simpl in Hfuel; lia|].
  destruct fs as [|f' fs'].
  - cbn [map join csv_record].
    rewrite (csv_field_escape f NL at_field_end_NL). done.
  - change (join "," (map csvEscape_string (f :: f' :: fs')))
      with (csvEscape_string f +:+ "," +:+ join "," (map csvEscape_string (f' :: fs'))).
    rewrite append_assoc, append_assoc.
    change ("," +:+ ?x) with (String COMMA x).
    cbn [csv_record].
    rewrite csv_field_escape by (by left). simpl.
    rewrite IH; [done|done|simpl in *; lia].
Qed.

Lemma length_append (s t : string) :
  String.length (s +:+ t) = (String.length s + String.length t)%nat.
Proof.
  induction s as [|c s IH]; [done|].
  rewrite append_cons. simpl. by rewrite IH.
Qed.

Lemma csv_decode_escape s :
  csv_decode_record (csvEscape (CellStr s) +:+ NL)
  = Some ([normalize_newlines s], EmptyString).
Proof.
  unfold csv_decode_record.
  apply (csv_record_fields _ [s]); [done|]. simpl. lia.
Qed.

(** A data line of [toCsv] reads back as the texts of its cells, line ends
    normalized. *)
Lemma csv_row_decodes (cells : list Cell) :
  cells ≠ [] →
  csv_decode_record (join "," (map csvEscape cells) +:+ NL)
  = Some (map (λ c, normalize_newlines (cell_text c)) cells, EmptyString).
Proof.
  intros Hne. unfold csv_decode_record.
  assert (map csvEscape cells = map csvEscape_string (map cell_text cells)) as ->.
  { rewrite map_map. apply map_ext. by intros []. }
  rewrite csv_record_fields.
  - by rewrite map_map.
  - by destruct cells.
  - rewrite length_append. rewrite !length_map.
    assert (∀ l : list string,
              (length l ≤ S (String.length (join "," l)))%nat) as H.
    { induction l as [|x [|y l] IH]; simpl; [lia|lia|].
      rewrite !length_append. simpl in *. lia. }
    specialize (H (map csvEscape_string (map cell_text cells))).
    rewrite !length_map in H. lia.
Qed.

(** C6 as stated fails on a value whose line break is CR LF: it holds a
    comma, a quote and a line break, and decoding its encoding returns
    another string. *)
Lemma csv_round_trip_crlf_changes :
  includes COMMA crlf_value = true ∧ includes DQ crlf_value = true ∧
  includes LF crlf_value = true ∧
  csv_decode_record (csvEscape (CellStr crlf_value) +:+ NL)
    = Some ([lf_value], EmptyString) ∧
  lf_value ≠ crlf_value.
Proof. split_and!; try (vm_compute; reflexivity). discriminate. Qed.

(** ** Size classes *)

Lemma includes_opt_SIZES v :
  includes_opt SIZES v = true → v = Some "S" ∨ v = Some "M" ∨ v = Some "L".
Proof.
  destruct v as [s|]; [|done]. simpl. rewrite !orb_true_iff.
  intros [H|[H|[H|H]]]; try done; apply String.eqb_eq in H; subst; auto.
Qed.

(** C5. A size class outside the enumeration is refused before any
    generation begins: [parseArgs] returns only sizes of the enumeration,
    and when the command line leaves a size outside it [parseArgs] throws
    the error of the invalid size, so that the run ends with exit code 1
    and that message, whatever the clock and the file system, without
    having written a file; [presets] is reached only after this check.
    For each of the three size classes [presets] returns a fixed
    record. *)
Theorem size_checked_before_generation
    (Number_ : option string → Z + string)
    (path_resolve : option string → Outcome string) (default_out : string)
    (argv : list string) (env : Env.t) :
  (∀ args, parseArgs Number_ path_resolve default_out argv = Ok args →
     Args.size args ∈ SIZES) ∧
  (∀ raw,
     parseArgs_loop Number_ path_resolve (default_args default_out)
                    (drop 2 argv) = Ok raw →
     includes_opt SIZES (RawArgs.size raw) = false →
     parseArgs Number_ path_resolve default_out argv =
       Throw ("Invalid --size " +:+ show_opt (RawArgs.size raw)) ∧
     main Number_ path_resolve default_out argv env =
       Run.mk 1 (Some ("ERROR: Invalid --size " +:+ show_opt (RawArgs.size raw)))
              []) ∧
  presets "S" = preset_S ∧ presets "M" = preset_M ∧ presets "L" = preset_L.
Proof.
  split_and!; try reflexivity.
  - intros args. unfold parseArgs.
    destruct (parseArgs_loop _ _ _ _) as [raw| |]; try done.
    unfold validate.
    destruct (includes_opt SIZES (RawArgs.size raw)) eqn:Hs; [|done]. simpl.
    destruct (includes_opt ONLY_VALUES (RawArgs.only raw)); [|done]. simpl.
    destruct (RawArgs.seed raw); [|done]. intros [= <-]. simpl.
    apply includes_opt_SIZES in Hs as [->|[->| ->]]; simpl; set_solver.
  - intros raw Hraw Hsize. unfold main, parseArgs. rewrite Hraw.
    unfold validate. rewrite Hsize. split; reflexivity.
Qed.

Lemma size_checked_before_generation_witness :
  let Number_ : option string → Z + string := λ _, inl 7 in
  let path_resolve : option string → Outcome string :=
    λ v, Ok (default "seed" v) in
  let argv := ["node"; "generate-dataset.js"; "--size"; "XL"] in
  parseArgs Number_ path_resolve "seed" argv = Throw "Invalid --size XL" ∧
  main Number_ path_resolve "seed" argv (Env.mk 0 false no_error) =
    Run.mk 1 (Some "ERROR: Invalid --size XL") [].
Proof.
  intros Number_ path_resolve argv.
  apply (size_checked_before_generation Number_ path_resolve "seed" argv
           (Env.mk 0 false no_error)
         : _ ∧ (∀ raw, _ → _ → _) ∧ _) with
    (raw := RawArgs.mk (Some "XL") (inl 42) "seed" (Some "all") false);
    reflexivity.
Defined.

(** ** Projections of a canonical graph: what is always there *)

Lemma toMongoOptimized_defined c cfg :
  is_Some (toMongoOptimized c (toMongoNormalized c) cfg).
Proof. by eexists. Qed.

(** ** Runs *)

Lemma perform_files errors calls written :
  perform errors calls = (written, None) → written = files_of calls.
Proof.
  revert errors written. induction calls as [|call calls IH];
    intros errors written; cbn [perform].
  - by intros [= <-].
  - destruct (errors 0%nat); [done|].
    destruct (perform _ calls) as [w e] eqn:Hp.
    destruct call as [dir|file data]; intros [= <- ->];
      cbn [files_of omap list_omap]; [|f_equal]; by apply (IH _ _ Hp).
Qed.

Lemma perform_prefix errors calls :
  (perform errors calls).1 `prefix_of` files_of calls.
Proof.
  revert errors. induction calls as [|call calls IH]; intros errors;
    cbn [perform].
  - done.
  - destruct (errors 0%nat); [apply prefix_nil|].
    specialize (IH (λ k, errors (S k))).
    destruct (perform _ calls) as [w e]. cbn [fst] in IH.
    destruct call as [dir|file data]; cbn [fst files_of omap list_omap];
      [exact IH|by apply prefix_cons].
Qed.

Lemma perform_no_error errors calls :
  (∀ k, errors k = None) → perform errors calls = (files_of calls, None).
Proof.
  revert errors. induction calls as [|call calls IH]; intros errors He;
    cbn [perform].
  - done.
  - rewrite He, IH by (intros k; apply He).
    by destruct call.
Qed.

Lemma files_of_app calls1 calls2 :
  files_of (calls1 ++ calls2) = files_of calls1 ++ files_of calls2.
Proof. unfold files_of. apply omap_app. Qed.

Lemma files_of_writes files :
  files_of (map (λ f, WriteFileSync f.1 f.2) files) = files.
Proof.
  induction files as [|[file data] files IH]; [done|].
  cbn [map files_of omap list_omap fst snd]. f_equal. exact IH.
Qed.

Lemma files_of_safeWrites dir files :
  files_of (concat (map (safeWrite dir) files)) = files.
Proof.
  induction files as [|[file data] files IH]; [done|].
  cbn [map concat safeWrite app files_of omap list_omap fst snd].
  f_equal. exact IH.
Qed.

Lemma files_of_shape_calls (selected : bool) dir files :
  (selected = false → files = []) →
  files_of (shape_calls selected dir files) = files.
Proof.
  intros H. unfold shape_calls. destruct selected.
  - cbn [files_of omap list_omap]. apply files_of_writes.
  - by rewrite H.
Qed.

(** The files of a run in which no call fails. *)
Lemma files_of_write_calls args c norm opt m :
  files_of (write_calls args c norm opt m) =
  shape_files args c norm opt
  ++ [(path_join [Args.out args; "manifest.json"], ManifestJson m)].
Proof.
  unfold write_calls, shape_files.
  rewrite !files_of_app, <- !app_assoc.
  rewrite (files_of_shape_calls _ _ (canonical_files args c)).
  2: { unfold canonical_files. by intros ->. }
  rewrite (files_of_shape_calls _ _ (normalized_files args norm)).
  2: { unfold normalized_files. by intros ->. }
  rewrite (files_of_shape_calls _ _ (optimized_files args opt)).
  2: { unfold optimized_files. by intros ->. }
  do 3 f_equal.
  assert (files_of
            (if only_is args "postgres"
             then MkdirSync (path_join [Args.out args; "postgres"; "data"])
                  :: concat (map (safeWrite
                                    (path_join [Args.out args; "postgres"; "data"]))
                                 (postgres_files args c))
             else []) = postgres_files args c) as ->; [|reflexivity].
  unfold postgres_files at 2. destruct (only_is args "postgres") eqn:E.
  - cbn [files_of omap list_omap]. rewrite (files_of_safeWrites _ _).
    unfold postgres_files. by rewrite E.
  - reflexivity.
Qed.

(** The manifest of a run that succeeds is the one of [dataset], and its
    files are those of the shapes, then the manifest. *)
Lemma generateAll_Ok args env m files :
  generateAll args env = (Ok m, files) →
  m = build_manifest args (presets (Args.size args))
        (dataset (Args.seed args) (Args.size args))
        (toISOString (Env.now env)).
Proof.
  unfold generateAll.
  destruct (Env.fs_error env 0%nat); [done|].
  destruct (Env.manifest_exists env && negb (Args.overwrite args)); [done|].
  destruct (toMongoOptimized _ _ _); [|done].
  destruct (perform _ _) as [w [e|]]; [done|].
  intros H. injection H as H _. symmetry. exact H.
Qed.

Lemma generateAll_files args env m files :
  generateAll args env = (Ok m, files) →
  let c := dataset (Args.seed args) (Args.size args) in
  ∃ opt,
    toMongoOptimized c (toMongoNormalized c) (presets (Args.size args))
      = Some opt ∧
    files = shape_files args c (toMongoNormalized c) opt
            ++ [(path_join [Args.out args; "manifest.json"], ManifestJson m)].
Proof.
  intros H c. pose proof (generateAll_Ok _ _ _ _ H) as Hm.
  unfold generateAll in H.
  destruct (Env.fs_error env 0%nat); [done|].
  destruct (Env.manifest_exists env && negb (Args.overwrite args)); [done|].
  change (generateCanonical (mulberry32 (Args.seed args))
                            (presets (Args.size args))).1 with c in H.
  destruct (toMongoOptimized c (toMongoNormalized c) (presets (Args.size args)))
    as [opt|]; [|done].
  exists opt. split; [done|].
  destruct (perform _ _) as [w [e|]] eqn:Hp; [done|].
  injection H as _ <-. apply perform_files in Hp. rewrite Hp.
  rewrite files_of_write_calls. by rewrite Hm.
Qed.

(** A run succeeds when no manifest is in the way, or overwriting is
    allowed, and no call to the file system fails. *)
Lemma generateAll_succeeds args env :
  Env.manifest_exists env = false ∨ Args.overwrite args = true →
  (∀ k, Env.fs_error env k = None) →
  ∃ m files, generateAll args env = (Ok m, files).
Proof.
  intros H He. unfold generateAll. rewrite He.
  assert (Env.manifest_exists env && negb (Args.overwrite args) = false) as ->.
  { destruct H as [-> | ->]; [done|]. apply andb_false_r. }
  destruct (toMongoOptimized_defined
              (generateCanonical (mulberry32 (Args.seed args))
                                 (presets (Args.size args))).1
              (presets (Args.size args))) as [opt ->].
  rewrite perform_no_error by (intros k; apply He). eauto.
Qed.

(** C9. Size S with seed 42: the dataset has 3 accounts, each with
    exactly 2 subscribers, and the manifest of the run counts 3 accounts
    and 6 subscribers. *)
Theorem small_seed_42_counts out only overwrite env m files :
  generateAll (Args.mk "S" 42 out only overwrite) env = (Ok m, files) →
  length (Canonical.accounts (dataset 42 "S")) = 3%nat ∧
  Forall (λ a, length (subscribers_of (dataset 42 "S") a) = 2%nat)
         (Canonical.accounts (dataset 42 "S")) ∧
  props_get "accounts" (Manifest.counts m) = Some 3 ∧
  props_get "subscribers" (Manifest.counts m) = Some 6.
Proof.
  intros H. apply generateAll_Ok in H. subst m.
  unfold build_manifest, Manifest.counts.
  split_and!.
  - vm_compute. reflexivity.
  - apply (bool_decide_unpack _). vm_compute. reflexivity.
  - vm_compute. reflexivity.
  - vm_compute. reflexivity.
Qed.

Lemma small_seed_42_counts_witness :
  ∃ m files,
    generateAll (Args.mk "S" 42 "seed" "canonical" false)
                (Env.mk 0 false no_error)
      = (Ok m, files) ∧
    props_get "accounts" (Manifest.counts m) = Some 3 ∧
    props_get "subscribers" (Manifest.counts m) = Some 6.
Proof.
  eexists _, _. split; [vm_compute; reflexivity|].
  refine (let H := small_seed_42_counts "seed" "canonical" false
                     (Env.mk 0 false no_error) _ _ _ in
          conj (proj1 (proj2 (proj2 H))) (proj2 (proj2 (proj2 H)))).
  vm_compute. reflexivity.
Defined.

(** ** The Map objects of the optimized projection *)

Lemma map_of_rows_fold {V} (key : V → Z) (rows : list V) (m : gmap Z V) k :
  foldl (λ m v, <[key v := v]> m) m rows !! k =
  match last (filter (λ v, key v = k) rows) with
  | Some v => Some v
  | None => m !! k
  end.
Proof.
  revert m. induction rows as [|v rows IH]; intros m; [done|].
  simpl. rewrite IH. rewrite filter_cons.
  destruct (decide (key v = k)) as [<-|Hne].
  - rewrite last_cons. destruct (last _); [done|].
    by rewrite lookup_insert_eq.
  - destruct (last _); [done|]. by rewrite lookup_insert_ne.
Qed.

(** [m.get(k)] on [new Map(rows.map(r => [key(r), r]))] is the last row
    with that key. *)
Lemma map_of_rows_lookup {V} (key : V → Z) (rows : list V) k :
  map_of_rows key rows !! k = last (filter (λ v, key v = k) rows).
Proof.
  unfold map_of_rows. rewrite map_of_rows_fold.
  destruct (last _); [done|]. apply lookup_empty.
Qed.

Lemma pushed_cons {X V} (g : X → option (Z * V)) k x (l : list X) :
  pushed g k (x :: l) =
  match g x with
  | Some (k', v) => if decide (k' = k) then v :: pushed g k l else pushed g k l
  | None => pushed g k l
  end.
Proof.
  unfold pushed. simpl. destruct (g x) as [[k' v]|]; [|done].
  by destruct (decide (k' = k)).
Qed.

Lemma map_push_fold {X V} (g : X → option (Z * V)) (l : list X)
    (m : gmap Z (list V)) k :
  default [] (foldl (λ m x, match g x with
                            | Some (k', v) => map_push k' v m
                            | None => m
                            end) m l !! k)
  = default [] (m !! k) ++ pushed g k l.
Proof.
  revert m. induction l as [|x l IH]; intros m.
  - simpl. by rewrite app_nil_r.
  - cbn [foldl]. rewrite IH, pushed_cons.
    destruct (g x) as [[k' v]|]; [|done].
    unfold map_push. destruct (decide (k' = k)) as [->|Hne].
    + rewrite lookup_insert_eq. simpl. by rewrite <- app_assoc.
    + by rewrite lookup_insert_ne.
Qed.

Lemma pushed_total {X V} (kf : X → Z) (vf : X → V) k (l : list X) :
  pushed (λ x, Some (kf x, vf x)) k l = map vf (filter (λ x, kf x = k) l).
Proof.
  induction l as [|x l IH]; [done|].
  rewrite pushed_cons, filter_cons.
  destruct (decide (kf x = k)); simpl; by rewrite IH.
Qed.

Lemma itemsByOrderId_lookup (items : list (WithId Z OrderItem.t)) k :
  default [] (itemsByOrderId items !! k)
  = map (λ it, embed_item (doc it))
        (filter (λ it, OrderItem.orderId (doc it) = k) items).
Proof.
  unfold itemsByOrderId.
  rewrite (map_push_fold (λ it, Some (OrderItem.orderId (doc it),
                                      embed_item (doc it))) items ∅ k).
  rewrite lookup_empty. simpl. apply pushed_total.
Qed.

Lemma foldl_pointwise {A B} (f g : A → B → A) (a : A) (l : list B) :
  (∀ a x, f a x = g a x) → foldl f a l = foldl g a l.
Proof.
  intros H. revert a. induction l as [|x l IH]; intros a; [done|].
  simpl. by rewrite H, IH.
Qed.

Lemma featureCodesBySub_lookup c sid code :
  code ∈ default [] (featureCodesBySub c !! sid) ↔ holds_code c sid code.
Proof.
  unfold featureCodesBySub.
  set (g := λ sf : SubscriberFeature.t,
         match map_of_rows Feature.featureId (Canonical.features c)
                 !! SubscriberFeature.featureId sf with
         | Some f => Some (SubscriberFeature.subscriberId sf, Feature.code f)
         | None => None
         end).
  rewrite (foldl_pointwise _
             (λ m x, match g x with
                     | Some (k', v) => map_push k' v m
                     | None => m
                     end)).
  2: { intros m sf. unfold g. by destruct (_ !! _). }
  rewrite map_push_fold, lookup_empty. simpl.
  unfold pushed. rewrite list_elem_of_omap.
  unfold holds_code, g. split.
  - intros (sf & Hsf & H). rewrite map_of_rows_lookup in H.
    destruct (last _) as [f|] eqn:Hf; [|done].
    case_decide; [|done]. simplify_eq. by exists sf, f.
  - intros (sf & f & Hsf & Hsid & Hf & Hcode). exists sf. split; [done|].
    rewrite map_of_rows_lookup, Hf. case_decide; [|done]. by subst.
Qed.

Lemma set_of_array_fold (acc l : list string) :
  NoDup acc →
  NoDup (foldl (λ acc x, if decide (x ∈ acc) then acc else acc ++ [x]) acc l) ∧
  ∀ x, x ∈ foldl (λ acc x, if decide (x ∈ acc) then acc else acc ++ [x]) acc l
       ↔ x ∈ acc ∨ x ∈ l.
Proof.
  revert acc. induction l as [|y l IH]; intros acc Hnd; simpl.
  - split; [done|]. intros x. rewrite elem_of_nil. tauto.
  - destruct (decide (y ∈ acc)) as [Hy|Hy].
    + destruct (IH acc Hnd) as [H1 H2]. split; [done|].
      intros x. rewrite H2, elem_of_cons.
      split; [tauto|]. intros [?|[->|?]]; auto.
    + assert (NoDup (acc ++ [y])) as Hnd'.
      { apply NoDup_app. split_and!; [done| |apply NoDup_singleton].
        intros x Hx ->%list_elem_of_singleton. done. }
      destruct (IH _ Hnd') as [H1 H2]. split; [done|].
      intros x. rewrite H2, elem_of_app, list_elem_of_singleton, elem_of_cons.
      tauto.
Qed.

Lemma set_of_array_spec (codes : list string) :
  NoDup (set_of_array codes) ∧ ∀ x, x ∈ set_of_array codes ↔ x ∈ codes.
Proof.
  destruct (set_of_array_fold [] codes (NoDup_nil_2)) as [H1 H2].
  split; [exact H1|]. intros x. unfold set_of_array. rewrite H2, elem_of_nil.
  tauto.
Qed.

(** ** Projection objects *)

Lemma obj_get_set k k' v o :
  obj_get k (obj_set k' v o) = if String.eqb k k' then Some v else obj_get k o.
Proof.
  induction o as [|[k0 v0] o IH]; simpl.
  - done.
  - destruct (String.eqb_spec k' k0) as [->|Hne]; simpl.
    + by destruct (String.eqb k k0).
    + destruct (String.eqb_spec k k0) as [->|Hne'].
      * apply not_eq_sym, String.eqb_neq in Hne. by rewrite Hne.
      * exact IH.
Qed.

Lemma obj_get_delete k k' o :
  obj_get k (obj_delete k' o) = if String.eqb k k' then None else obj_get k o.
Proof.
  unfold obj_delete. induction o as [|[k0 v0] o IH].
  - simpl. by destruct (String.eqb k k').
  - rewrite filter_cons. cbn [fst].
    destruct (String.eqb_spec k' k0) as [->|Hne].
    + case_decide; [done|]. rewrite IH. cbn [obj_get].
      by destruct (String.eqb k k0).
    + case_decide; [|done]. cbn [obj_get]. rewrite IH.
      destruct (String.eqb_spec k k0) as [->|Hne']; [|done].
      apply not_eq_sym, String.eqb_neq in Hne. by rewrite Hne.
Qed.

Lemma obj_keys_set_present k v o :
  is_Some (obj_get k o) → obj_keys (obj_set k v o) = obj_keys o.
Proof.
  unfold obj_keys. induction o as [|[k0 v0] o IH]; cbn [obj_get obj_set].
  - by intros [? ?].
  - destruct (String.eqb_spec k k0) as [->|Hne]; [done|].
    intros H. rewrite !fmap_cons. f_equal. by apply IH.
Qed.

Lemma obj_keys_delete k o :
  obj_keys (obj_delete k o) = filter (λ k', k' ≠ k) (obj_keys o).
Proof.
  unfold obj_keys, obj_delete. induction o as [|[k0 v0] o IH]; [done|].
  rewrite fmap_cons, !filter_cons. cbn [fst].
  destruct (String.eqb_spec k k0) as [->|Hne].
  - case_decide; [done|]. case_decide; [done|]. exact IH.
  - case_decide; [|done]. case_decide; [|congruence].
    rewrite fmap_cons. cbn [fst]. by rewrite IH.
Qed.

Lemma norm_subscribers c :
  obj_get "subscribers" (toMongoNormalized c)
  = Some (CSubscribers (withId Subscriber.subscriberId (Canonical.subscribers c))).
Proof. reflexivity. Qed.

Lemma norm_orders c :
  obj_get "orders" (toMongoNormalized c)
  = Some (COrders (withId Order.orderId (Canonical.orders c))).
Proof. reflexivity. Qed.

Lemma norm_order_items c :
  obj_get "order_items" (toMongoNormalized c)
  = Some (COrderItems (withId OrderItem.orderItemId (Canonical.order_items c))).
Proof. reflexivity. Qed.

Lemma norm_keys c : obj_keys (toMongoNormalized c) = entityOrder.
Proof. reflexivity. Qed.

(** ** The optimized projection *)

Lemma string_cmp_le a b : string_cmp a b ≤ 0 ↔ String.le a b.
Proof.
  unfold string_cmp, String.le, String.leb.
  destruct (String.compare a b); simpl; split; (done || lia).
Qed.

Lemma Sorted_impl {A} (R1 R2 : A → A → Prop) (l : list A) :
  (∀ a b, R1 a b → R2 a b) → Sorted R1 l → Sorted R2 l.
Proof.
  intros H. induction 1 as [|x l Hs IH Hhd]; constructor; [done|].
  destruct Hhd; constructor. by apply H.
Qed.

Lemma withId_filter_embed k (items : list OrderItem.t) :
  map (λ it, embed_item (doc it))
      (filter (λ it, OrderItem.orderId (doc it) = k)
              (withId OrderItem.orderItemId items))
  = map embed_item (filter (λ it, OrderItem.orderId it = k) items).
Proof.
  unfold withId. induction items as [|it items IH]; [done|].
  simpl map. rewrite !filter_cons. simpl.
  case_decide; simpl; by rewrite IH.
Qed.

Lemma Forall2_map_r {A B} (R : A → B → Prop) (f : A → B) (l : list A) :
  (∀ x, R x (f x)) → Forall2 R l (map f l).
Proof. intros H. induction l; simpl; constructor; auto. Qed.

(** C7. For every canonical graph, the optimized projection of its
    normalized projection (a) carries, for each subscriber, the seven
    fields of its profile other than the key, each with the value the
    profile has, and, when the preset asks for them, the subscriber's
    feature codes without repetitions and sorted; (b) carries, for each
    order, one embedded item per item of the order, sorted by identifier
    and holding the identifier, sku, quantity and price of the item, and
    nothing else; and has no [subscriber_profiles]
    and no [order_items] collection: its collections are the other
    seventeen of the normalized shape, of which all but [subscribers] and
    [orders] are unchanged. *)
Theorem optimized_projection c cfg :
  ∃ opt subs ords,
    toMongoOptimized c (toMongoNormalized c) cfg = Some opt ∧
    obj_get "subscribers" opt = Some (COptSubscribers subs) ∧
    Forall2 (embedded_subscriber c cfg)
            (withId Subscriber.subscriberId (Canonical.subscribers c)) subs ∧
    obj_get "orders" opt = Some (COptOrders ords) ∧
    Forall2 (embedded_order c)
            (withId Order.orderId (Canonical.orders c)) ords ∧
    obj_get "subscriber_profiles" opt = None ∧
    obj_get "order_items" opt = None ∧
    obj_keys opt =
      filter (λ k, k ≠ "subscriber_profiles")
        (filter (λ k, k ≠ "order_items") (obj_keys (toMongoNormalized c))) ∧
    (length (obj_keys opt) < length (obj_keys (toMongoNormalized c)))%nat ∧
    ∀ k, k ≠ "subscribers" → k ≠ "orders" →
         k ≠ "subscriber_profiles" → k ≠ "order_items" →
         obj_get k opt = obj_get k (toMongoNormalized c).
Proof.
  unfold toMongoOptimized, get_subscribers, get_order_items, get_orders.
  rewrite norm_subscribers, norm_order_items, norm_orders.
  cbn [mbind option_bind].
  eexists _, _, _. split; [reflexivity|].
  split; [by rewrite !obj_get_delete, !obj_get_set|].
  split.
  { apply Forall2_map_r. intros s. unfold embedded_subscriber. simpl.
    split; [done|]. split.
    { rewrite map_of_rows_lookup.
      destruct (last (filter _ (Canonical.subscriber_profiles c))) as [p|];
        [|done].
      exists (profile_rest p). split; [done|]. by repeat split. }
    destruct (Cfg.embedFeatureCodes cfg); [|done].
    eexists. split; [reflexivity|].
    destruct (set_of_array_spec
      (default [] (featureCodesBySub c !! Subscriber.subscriberId (doc s))))
      as [Hnd Hin].
    split_and!.
    - by rewrite jsSort_Permutation.
    - eapply Sorted_impl; [|apply jsSort_Sorted, string_cmp_total].
      intros a b. apply string_cmp_le.
    - intros code. rewrite elem_of_jsSort, Hin.
      apply featureCodesBySub_lookup. }
  split; [by rewrite !obj_get_delete, !obj_get_set|].
  split.
  { apply Forall2_map_r. intros o. unfold embedded_order. simpl.
    split; [done|]. split.
    - eapply Sorted_impl; [|apply jsSort_Sorted, by_key_total].
      intros a b. unfold cmp_le, by_key. lia.
    - assert (jsSort (by_key EmbeddedItem.orderItemId)
                (default [] (itemsByOrderId
                               (withId OrderItem.orderItemId
                                       (Canonical.order_items c))
                             !! Order.orderId (doc o)))
              ≡ₚ map embed_item (items_of c (doc o))) as Hperm.
      { rewrite jsSort_Permutation, itemsByOrderId_lookup.
        by rewrite withId_filter_embed. }
      apply Permutation_map_inv in Hperm as (its & -> & Hits).
      exists its. split; [by symmetry|].
      apply Forall2_map_r. intros it. by repeat split. }
  split; [by rewrite !obj_get_delete|].
  split; [by rewrite !obj_get_delete|].
  split.
  { rewrite !obj_keys_delete, !obj_keys_set_present; [done|..].
    - by rewrite norm_subscribers.
    - rewrite obj_get_set. by rewrite norm_orders. }
  split.
  { rewrite !obj_keys_delete, !obj_keys_set_present.
    - rewrite norm_keys. vm_compute. lia.
    - by rewrite norm_subscribers.
    - rewrite obj_get_set. by rewrite norm_orders. }
  intros k H1 H2 H3 H4. rewrite !obj_get_delete, !obj_get_set.
  apply String.eqb_neq in H1, H2, H3, H4. by rewrite H1, H2, H3, H4.
Qed.

(** ** Shape equivalence *)

Lemma optimized_explicit c cfg :
  ∃ opt profile codes,
    toMongoOptimized c (toMongoNormalized c) cfg = Some opt ∧
    obj_get "subscribers" opt =
      Some (COptSubscribers
              (map (λ s, OptSubscriber.mk s (profile s) (codes s))
                   (withId Subscriber.subscriberId (Canonical.subscribers c)))) ∧
    obj_get "orders" opt =
      Some (COptOrders
              (map (λ o, OptOrder.mk o
                      (jsSort (by_key EmbeddedItem.orderItemId)
                              (map embed_item (items_of c (doc o)))))
                   (withId Order.orderId (Canonical.orders c)))).
Proof.
  unfold toMongoOptimized, get_subscribers, get_order_items, get_orders.
  rewrite norm_subscribers, norm_order_items, norm_orders.
  cbn [mbind option_bind].
  eexists _, _, _. split; [reflexivity|]. split.
  - rewrite !obj_get_delete, !obj_get_set. reflexivity.
  - rewrite !obj_get_delete, !obj_get_set.
    repeat match goal with
    | |- context [String.eqb ?a ?b] =>
        let v := eval vm_compute in (String.eqb a b) in
        change (String.eqb a b) with v
    end.
    cbv iota. do 2 f_equal.
    apply map_ext. intros o. f_equal. unfold items_of.
    rewrite <- withId_filter_embed, <- itemsByOrderId_lookup. done.
Qed.

Lemma StronglySorted_filter {A} (R : A → A → Prop) (P : A → Prop)
    `{∀ x, Decision (P x)} (l : list A) :
  StronglySorted R l → StronglySorted R (filter P l).
Proof.
  induction 1 as [|x l Hs IH Hall]; [constructor|].
  rewrite filter_cons. case_decide; [|done].
  constructor; [done|].
  apply Forall_forall. intros y Hy. apply list_elem_of_filter in Hy as [_ Hy].
  rewrite Forall_forall in Hall. auto.
Qed.

Lemma Sorted_map {A B} (R : B → B → Prop) (f : A → B) (l : list A) :
  Sorted (λ a b, R (f a) (f b)) l → Sorted R (map f l).
Proof.
  induction 1 as [|x l Hs IH Hhd]; simpl; constructor; [done|].
  destruct Hhd; simpl; constructor. done.
Qed.

Lemma items_of_sorted c o :
  Sorted (cmp_le (by_key OrderItem.orderItemId)) (Canonical.order_items c) →
  jsSort (by_key EmbeddedItem.orderItemId) (map embed_item (items_of c o))
  = map embed_item (items_of c o).
Proof.
  intros Hs. apply jsSort_sorted. apply Sorted_map.
  apply StronglySorted_Sorted. unfold items_of. apply StronglySorted_filter.
  apply Sorted_StronglySorted; [|exact Hs].
  intros x y z. unfold cmp_le, by_key. lia.
Qed.

Lemma flatten_embed c o :
  map (flatten_item (Order.orderId o)) (map embed_item (items_of c o))
  = items_of c o.
Proof.
  rewrite map_map. rewrite <- (map_id (items_of c o)) at 2.
  apply map_ext_Forall. apply Forall_forall. intros it Hit.
  apply list_elem_of_filter in Hit as [Hoid _].
  destruct it. simpl in *. unfold flatten_item, embed_item. simpl.
  by rewrite Hoid.
Qed.

Lemma dataset_order_items_sorted seed size :
  Sorted (cmp_le (by_key OrderItem.orderItemId))
         (Canonical.order_items (dataset seed size)).
Proof.
  destruct (dataset_spec seed size) as
    (plans & regions & dcs & accounts & subs & devices & ords & sfeat &
     sfstate & tickets & notes & events & usage & Hd & _).
  rewrite Hd. simpl. apply jsSort_Sorted, by_key_total.
Qed.

(** C8. In every generated dataset the subscriber identifiers of the
    canonical, normalized and optimized shapes are the same multiset, and
    for every order the items embedded in the optimized shape, put back as
    rows of that order, are exactly its canonical order items. *)
Theorem shape_equivalence seed size :
  let c := dataset seed size in
  ∃ opt nsubs osubs oords,
    toMongoOptimized c (toMongoNormalized c) (presets size) = Some opt ∧
    obj_get "subscribers" (toMongoNormalized c) = Some (CSubscribers nsubs) ∧
    obj_get "subscribers" opt = Some (COptSubscribers osubs) ∧
    obj_get "orders" opt = Some (COptOrders oords) ∧
    map Subscriber.subscriberId (Canonical.subscribers c)
      ≡ₚ map (λ s, Subscriber.subscriberId (doc s)) nsubs ∧
    map (λ s, Subscriber.subscriberId (doc s)) nsubs
      ≡ₚ map (λ os, Subscriber.subscriberId (doc (OptSubscriber.base os))) osubs ∧
    Forall2 (λ o oo,
        doc (OptOrder.base oo) = o ∧
        map (flatten_item (Order.orderId o)) (OptOrder.items oo) = items_of c o)
      (Canonical.orders c) oords.
Proof.
  intros c.
  destruct (optimized_explicit c (presets size))
    as (opt & profile & codes & Hopt & Hsubs & Hords).
  eexists opt, _, _, _.
  split; [exact Hopt|]. split; [apply norm_subscribers|].
  split; [exact Hsubs|]. split; [exact Hords|].
  split_and!.
  - unfold withId. by rewrite map_map.
  - unfold withId. by rewrite !map_map.
  - unfold withId. rewrite map_map.
    apply Forall2_map_r. intros o. simpl. split; [done|].
    rewrite items_of_sorted by apply dataset_order_items_sorted.
    apply flatten_embed.
Qed.

(** Within each entity type the identifiers of a generated dataset are
    consecutive integers from the start of the type's range, in row
    order: they increase by one from row to row. *)
Lemma generated_ids_consecutive seed size :
  let c := dataset seed size in
  let run {A} (key : A → Z) (start : Z) (rows : list A) :=
    map key rows = seqZ start (Z.of_nat (length rows)) in
  run Account.accountId 1001 (Canonical.accounts c) ∧
  run Subscriber.subscriberId 2001 (Canonical.subscribers c) ∧
  run Device.deviceId 3001 (Canonical.devices c) ∧
  run Order.orderId 4001 (Canonical.orders c) ∧
  run OrderItem.orderItemId 4101 (Canonical.order_items c) ∧
  run Feature.featureId 5001 (Canonical.features c) ∧
  run SubscriberFeatureState.subscriberFeatureStateId 6001
      (Canonical.subscriber_feature_state c) ∧
  run Ticket.ticketId 7001 (Canonical.tickets c) ∧
  run Note.noteId 8001 (Canonical.notes c) ∧
  run OrgUnit.orgUnitId 9001 (Canonical.org_units c) ∧
  run Plan.planId 10001 (Canonical.plans c) ∧
  run Region.regionId 11001 (Canonical.regions c) ∧
  run DeviceClass.deviceClassId 12001 (Canonical.device_classes c) ∧
  run DeviceEvent.deviceEventId 13001 (Canonical.device_events c) ∧
  run UsageRecord.usageRecordId 14001 (Canonical.usage_records c).
Proof.
  intros c run. subst c run.
  destruct (dataset_spec seed size) as
    (plans & regions & dcs & accounts & subs & devices & ords & sfeat &
     sfstate & tickets & notes & events & usage & Hd & F).
  rewrite Hd. destruct F. simpl.
  assert (length plans = 2%nat) as Hl1.
  { rewrite <- (length_map Plan.planId), rf_plans0. done. }
  assert (length regions = 2%nat) as Hl2.
  { rewrite <- (length_map Region.regionId), rf_regions0. done. }
  assert (length dcs = 2%nat) as Hl3.
  { rewrite <- (length_map DeviceClass.deviceClassId), rf_classes0. done. }
  rewrite Hl1, Hl2, Hl3.
  rewrite !length_jsSort.
  rewrite (jsSort_seqZ_keys _ _ _ rf_accounts_ids0).
  rewrite (jsSort_seqZ_keys _ _ _ rf_devices_ids0).
  rewrite (jsSort_seqZ_keys _ _ _ rf_items_ids0).
  rewrite (jsSort_seqZ_keys _ _ _ rf_sfstate_ids0).
  rewrite (jsSort_seqZ_keys _ _ _ rf_tickets_ids0).
  rewrite (jsSort_seqZ_keys _ _ _ rf_notes_ids0).
  rewrite (jsSort_seqZ_keys _ _ _ rf_events_ids0).
  rewrite (jsSort_seqZ_keys _ _ _ rf_usage_ids0).
  rewrite (jsSort_seqZ_keys Subscriber.subscriberId subs.*1 2001)
    by (by rewrite length_fmap).
  rewrite (jsSort_seqZ_keys Order.orderId ords.*1 4001)
    by (by rewrite length_fmap).
  rewrite !length_fmap.
  split_and!; done.
Qed.

(* ===================================================================== *)
(** * Further properties of the generator *)
(* ===================================================================== *)

(** ** The draw and the helpers built on it *)

Lemma round53_pos_upper x :
  0 ≤ x → round53_pos x * two53 ≤ x * (two53 + 1).
Proof.
  intros Hx. unfold round53_pos.
  destruct (Z.max_spec 0 (Z.log2 x - 52)) as [[Hlt ->]|[Hge ->]].
  - assert (0 < x) as Hpos.
    { destruct (decide (x = 0)) as [->|]; [simpl in Hlt; lia|lia]. }
    set (e := Z.log2 x - 52) in *.
    assert (0 < e) as He by lia.
    rewrite !Z.shiftl_mul_pow2, Z.shiftr_div_pow2 by lia.
    rewrite Z.mul_1_l.
    pose proof (Z.log2_spec x Hpos) as [Hlo _].
    assert (2 ^ Z.log2 x = 2 ^ (e - 1) * two53) as Hpow.
    { unfold two53. change 9007199254740992 with (2 ^ 53).
      rewrite <- Z.pow_add_r by lia. f_equal. unfold e. lia. }
    assert (2 ^ e = 2 * 2 ^ (e - 1)) as He2.
    { rewrite <- Z.pow_succ_r by lia. f_equal. lia. }
    assert (0 < 2 ^ (e - 1)) as Hh by (apply Z.pow_pos_nonneg; lia).
    pose proof (Z.div_mod x (2 ^ e) ltac:(lia)) as Hdm.
    pose proof (Z.mod_pos_bound x (2 ^ e) ltac:(lia)) as Hmb.
    set (q := x / 2 ^ e) in *. set (h := 2 ^ (e - 1)) in *.
    assert (x - q * 2 ^ e = x mod 2 ^ e) as Hr by lia.
    rewrite Hr.
    destruct ((0 <? e) && ((h <? x mod 2 ^ e) || ((h =? x mod 2 ^ e) && Z.odd q)))
      eqn:Hup.
    + apply andb_true_iff in Hup as [_ Hup].
      assert (h ≤ x mod 2 ^ e) as Hhalf.
      { apply orb_true_iff in Hup as [Hup|Hup].
        - apply Z.ltb_lt in Hup. lia.
        - apply andb_true_iff in Hup as [Hup _]. apply Z.eqb_eq in Hup. lia. }
      assert ((q + 1) * 2 ^ e ≤ x + h) as Hres by lia.
      assert (h * two53 ≤ x) by lia.
      unfold two53 in *. nia.
    + assert (q * 2 ^ e ≤ x) by lia. unfold two53. nia.
  - change (0 <? 0) with false. cbn [andb].
    rewrite Z.shiftr_0_r, Z.shiftl_0_r. unfold two53. lia.
Qed.

Lemma mulfloor_range u n : 0 ≤ u < two32 → 0 < n → 0 ≤ mulfloor u n < n.
Proof.
  intros Hu Hn. unfold mulfloor.
  assert (0 ≤ u * n) as Hx by nia.
  assert (round53 (u * n) = round53_pos (u * n)) as ->.
  { unfold round53. destruct (Z.ltb_spec (u * n) 0); [lia|done]. }
  pose proof (round53_pos_upper (u * n) Hx) as Hup.
  assert (0 ≤ round53_pos (u * n)) as Hlo.
  { unfold round53_pos.
    assert (0 ≤ Z.shiftr (u * n) (Z.max 0 (Z.log2 (u * n) - 52)))
      by (apply Z.shiftr_nonneg; lia).
    destruct (_ && _); apply Z.shiftl_nonneg; lia. }
  split.
  - apply Z.div_pos; [lia|done].
  - apply Z.div_lt_upper_bound; [done|].
    unfold two32, two53 in *. nia.
Qed.

Lemma rng_result s : 0 ≤ (rng s).1 < two32 ∧ ids (rng s).2 = ids s.
Proof.
  split; [apply post_rng|]. unfold rng. by destruct (mulberry32_step _).
Qed.

Lemma intBetween_range_any lo hi s :
  lo ≤ hi → lo ≤ (intBetween lo hi s).1 ≤ hi.
Proof.
  intros Hle. unfold intBetween, bind, ret.
  pose proof (rng_result s) as [Hu _].
  destruct (rng s) as [u s']. simpl in *.
  pose proof (mulfloor_range u (hi - lo + 1) Hu ltac:(lia)). lia.
Qed.

Lemma choice_range_any `{Inhabited A} (arr : list A) s :
  arr ≠ [] → (choice arr s).1 ∈ arr.
Proof.
  intros Hne. unfold choice, bind, ret.
  pose proof (rng_result s) as [Hu _].
  destruct (rng s) as [u s']. simpl in *.
  assert (0 < Z.of_nat (length arr)) as Hlen by (destruct arr; simpl; [done|lia]).
  pose proof (mulfloor_range u (Z.of_nat (length arr)) Hu Hlen).
  apply list_elem_of_lookup_total_2. lia.
Qed.

(** X1. [intBetween(rng, min, max)] with [min <= max] returns an integer
    of the closed interval from [min] to [max], whatever the span, and
    costs one draw: it leaves the state [rng()] leaves. *)
Theorem intBetween_in_range lo hi s :
  lo ≤ hi →
  lo ≤ (intBetween lo hi s).1 ≤ hi ∧ (intBetween lo hi s).2 = (rng s).2.
Proof.
  intros Hle. split; [by apply intBetween_range_any|].
  unfold intBetween, bind, ret. by destruct (rng s).
Qed.

Lemma intBetween_in_range_witness :
  let s := mkSt (mulberry32 42) idRanges in
  1000000 ≤ 8000000 ∧
  (1000000 ≤ (intBetween 1000000 8000000 s).1 ≤ 8000000 ∧
   (intBetween 1000000 8000000 s).2 = (rng s).2).
Proof.
  intros s. split; [lia|]. apply (intBetween_in_range 1000000 8000000 s). lia.
Defined.

(** X2. [choice(rng, arr)] on a non-empty array returns one of its
    elements (never [undefined]) and costs one draw. *)
Theorem choice_member `{Inhabited A} (arr : list A) s :
  arr ≠ [] →
  (choice arr s).1 ∈ arr ∧ (choice arr s).2 = (rng s).2.
Proof.
  intros Hne. split; [by apply choice_range_any|].
  unfold choice, bind, ret. by destruct (rng s).
Qed.

Lemma choice_member_witness :
  let s := mkSt (mulberry32 42) idRanges in
  REGION_CODES ≠ [] ∧
  ((choice REGION_CODES s).1 ∈ REGION_CODES ∧
   (choice REGION_CODES s).2 = (rng s).2).
Proof.
  intros s. split; [done|]. apply (choice_member REGION_CODES s). done.
Defined.

Lemma rng_after_S n t : rng_after (S n) t = rng_after n (mulberry32_step t).1.
Proof.
  unfold rng_after.
  exact (Nat.iter_succ_r n (λ t, (mulberry32_step t).1) t).
Qed.

Lemma shuffle_loop_state {A} i (a : list A) s :
  ids (shuffle_loop i a s).2 = ids s ∧
  rng_t (shuffle_loop i a s).2 = rng_after i (rng_t s).
Proof.
  revert a s. induction i as [|i IH]; intros a s; [done|].
  rewrite rng_after_S. cbn [shuffle_loop]. unfold bind, rng.
  destruct (mulberry32_step (rng_t s)) as [t u] eqn:Hstep.
  cbn [fst].
  destruct (IH (swap a (S i) (Z.to_nat (mulfloor u (Z.of_nat (S i) + 1))))
               (mkSt t (ids s))) as [H1 H2].
  split; [exact H1|exact H2].
Qed.

(** X3. [shuffle(rng, arr)] returns a rearrangement of [arr]: the same
    elements with the same multiplicities, none lost, none invented. It
    makes one draw for each element but the first (none on an empty
    array) and leaves the identifier counters alone. *)
Theorem shuffle_permutation {A} (arr : list A) s :
  (shuffle arr s).1 ≡ₚ arr ∧
  length (shuffle arr s).1 = length arr ∧
  ids (shuffle arr s).2 = ids s ∧
  rng_t (shuffle arr s).2 = rng_after (length arr - 1) (rng_t s).
Proof.
  pose proof (post_shuffle arr s) as Hp. simpl in Hp.
  destruct (shuffle_loop_state (length arr - 1) arr s) as [H1 H2].
  split_and!; [exact Hp|by rewrite Hp|exact H1|exact H2].
Qed.

Lemma mulberry32_alias seed k : mulberry32 (seed + k * two32) = mulberry32 seed.
Proof. unfold mulberry32, u32, two32. apply Z_mod_plus_full. Qed.

(** X4. Only the low 32 bits of the seed count ([seed >>> 0]): two seeds
    that differ by a multiple of 2^32 give the same dataset, and a
    negative seed gives the dataset of its value modulo 2^32. *)
Theorem seed_low_32_bits seed k size :
  dataset (seed + k * two32) size = dataset seed size ∧
  dataset seed size = dataset (seed mod two32) size.
Proof.
  unfold dataset. rewrite mulberry32_alias. split; [done|].
  unfold mulberry32, u32. by rewrite Z.mod_mod.
Qed.

Lemma mulberry32_step_exact t :
  0 ≤ t → t + 1831565813 < two53 →
  (mulberry32_step t).1 = t + 1831565813 ∧
  (mulberry32_step t).2 = (mulberry32_step (t mod two32)).2.
Proof.
  intros H0 H1. unfold mulberry32_step. cbn [fst snd].
  rewrite round53_small by lia.
  assert (0 ≤ t mod two32 < two32) as Hm by (apply Z.mod_pos_bound; done).
  rewrite (round53_small (t mod two32 + 1831565813))
    by (unfold two32, two53 in *; lia).
  split; [done|].
  assert (u32 (t mod two32 + 1831565813) = u32 (t + 1831565813)) as ->; [|done].
  unfold u32. by rewrite Zplus_mod_idemp_l.
Qed.

(** X5. While the closure variable [t] of [mulberry32] stays below 2^53
    (the first 4.9 million draws or so) no addition is rounded: after [n]
    draws it holds the seed plus [n] times 0x6D2B79F5 exactly, and each
    draw is the function of the low 32 bits of [t] alone. *)
Theorem mulberry32_exact_below_2_53 n t :
  0 ≤ t → t + Z.of_nat (S n) * 1831565813 < two53 →
  rng_after n t = t + Z.of_nat n * 1831565813 ∧
  (mulberry32_step (rng_after n t)).2 =
    (mulberry32_step ((t + Z.of_nat n * 1831565813) mod two32)).2.
Proof.
  revert t. induction n as [|n IH]; intros t H0 H1.
  - change (rng_after 0 t) with t. rewrite Z.add_0_r. split; [done|].
    apply mulberry32_step_exact; lia.
  - rewrite rng_after_S.
    destruct (mulberry32_step_exact t H0 ltac:(lia)) as [Ht _].
    rewrite Ht. destruct (IH (t + 1831565813) ltac:(lia) ltac:(lia)) as [E1 E2].
    rewrite E2, E1.
    replace (t + 1831565813 + Z.of_nat n * 1831565813)
      with (t + Z.of_nat (S n) * 1831565813) by lia.
    done.
Qed.

Lemma mulberry32_exact_below_2_53_witness :
  0 ≤ mulberry32 42 ∧
  mulberry32 42 + Z.of_nat 4 * 1831565813 < two53 ∧
  rng_after 3 (mulberry32 42) = 42 + 3 * 1831565813.
Proof.
  split; [done|]. split; [done|].
  apply (mulberry32_exact_below_2_53 3 (mulberry32 42)); done.
Defined.

(** ** The command line *)

Section cli_facts.
Variable Number_ : option string → Z + string.
Variable path_resolve : option string → Outcome string.
Variable default_out : string.
Variable resolved : string → string.
Hypothesis path_resolve_string : ∀ v, path_resolve (Some v) = Ok (resolved v).

Lemma parseArgs_loop_options args opts rest :
  parseArgs_loop Number_ path_resolve args (options_words opts ++ rest) =
  parseArgs_loop Number_ path_resolve
    (foldl (set_option Number_ resolved) args opts) rest.
Proof.
  revert args. induction opts as [|o opts IH]; intros args; [done|].
  cbn [foldl]. rewrite <- IH.
  unfold options_words.
  destruct o; cbn [map concat option_words app]; cbn [parseArgs_loop];
    cbn [String.eqb Ascii.eqb Bool.eqb]; cbv iota;
    rewrite ?path_resolve_string; done.
Qed.

(** X6. The words of any sequence of options are read as that sequence,
    applied to the defaults from left to right: a value is taken as it
    stands even when it looks like a flag, the last occurrence of an
    option wins, and the first two entries of [argv] are skipped. The
    checks on size, shape selector and seed run once, on the result. *)
Theorem parseArgs_options node script opts :
  parseArgs Number_ path_resolve default_out
            (node :: script :: options_words opts) =
  validate (foldl (set_option Number_ resolved) (default_args default_out) opts).
Proof.
  unfold parseArgs.
  change (drop 2 (node :: script :: options_words opts))
    with (options_words opts).
  rewrite <- (app_nil_r (options_words opts)).
  by rewrite parseArgs_loop_options.
Qed.

(** X7. The first word at an option position that is not an option
    decides the call before any check: [-h] or [--help] ends the process
    with exit code 0, any other word throws [Unknown arg] with that word,
    whatever the options before it hold (an invalid size included) and
    whatever follows. *)
Theorem parseArgs_stray_word node script opts a rest :
  a ∉ ["--size"; "--seed"; "--out"; "--only"; "--overwrite"] →
  parseArgs Number_ path_resolve default_out
            (node :: script :: options_words opts ++ a :: rest) =
  if bool_decide (a = "-h" ∨ a = "--help") then Exit 0
  else Throw ("Unknown arg: " +:+ a).
Proof.
  intros Ha. unfold parseArgs.
  change (drop 2 (node :: script :: ?l)) with l.
  rewrite parseArgs_loop_options. cbn [parseArgs_loop].
  assert (∀ w, w ∈ ["--size"; "--seed"; "--out"; "--only"; "--overwrite"] →
               String.eqb a w = false) as Hne.
  { intros w Hw. apply String.eqb_neq. intros ->. by apply Ha. }
  rewrite (Hne "--size") by (repeat constructor).
  rewrite (Hne "--seed") by (repeat constructor).
  rewrite (Hne "--out") by (repeat constructor).
  rewrite (Hne "--only") by (repeat constructor).
  rewrite (Hne "--overwrite") by (repeat constructor).
  destruct (String.eqb a "-h") eqn:Hh.
  { apply String.eqb_eq in Hh as ->. done. }
  destruct (String.eqb a "--help") eqn:Hhelp.
  { apply String.eqb_eq in Hhelp as ->. done. }
  apply String.eqb_neq in Hh, Hhelp. simpl.
  rewrite bool_decide_eq_false_2; [done|]. intros [?|?]; done.
Qed.

(** X8. A flag that takes a value and comes last, without one, leaves
    [undefined] in its place: [--size] last always ends in [Invalid --size
    undefined], and [--only] last in [Invalid --only undefined] when the
    size given before is a valid one. *)
Theorem parseArgs_flag_without_value node script opts :
  parseArgs Number_ path_resolve default_out
            (node :: script :: options_words opts ++ ["--size"]) =
    Throw "Invalid --size undefined" ∧
  (includes_opt SIZES
     (RawArgs.size (foldl (set_option Number_ resolved)
                          (default_args default_out) opts)) = true →
   parseArgs Number_ path_resolve default_out
             (node :: script :: options_words opts ++ ["--only"]) =
     Throw "Invalid --only undefined").
Proof.
  unfold parseArgs.
  change (drop 2 (node :: script :: ?l)) with l.
  rewrite !parseArgs_loop_options.
  cbn [parseArgs_loop String.eqb Ascii.eqb Bool.eqb]. cbv iota.
  split; [done|]. intros Hsize. unfold validate. cbn [RawArgs.size RawArgs.only].
  rewrite Hsize. done.
Qed.
End cli_facts.

Lemma parseArgs_options_witness :
  let Number_ : option string → Z + string := λ _, inl 7 in
  let path_resolve : option string → Outcome string :=
    λ v, Ok (default "seed" v) in
  (∀ v, path_resolve (Some v) = Ok (id v)) ∧
  parseArgs Number_ path_resolve "seed"
    ["node"; "generate-dataset.js"; "--size"; "--help"; "--size"; "M";
     "--overwrite"] =
  Ok (Args.mk "M" 42 "seed" "all" true).
Proof.
  intros Number_ path_resolve. split; [done|].
  exact (parseArgs_options Number_ path_resolve "seed" id (λ _, eq_refl)
           "node" "generate-dataset.js"
           [OptSize "--help"; OptSize "M"; OptOverwrite]).
Defined.

Lemma parseArgs_stray_word_witness :
  let Number_ : option string → Z + string := λ _, inl 7 in
  let path_resolve : option string → Outcome string :=
    λ v, Ok (default "seed" v) in
  parseArgs Number_ path_resolve "seed"
    ["node"; "generate-dataset.js"; "--size"; "XL"; "--help"; "--bogus"] =
  Exit 0.
Proof.
  intros Number_ path_resolve.
  apply (parseArgs_stray_word Number_ path_resolve "seed" id (λ _, eq_refl)
           "node" "generate-dataset.js" [OptSize "XL"] "--help" ["--bogus"]).
  apply (bool_decide_unpack _). vm_compute. reflexivity.
Defined.

Lemma parseArgs_flag_without_value_witness :
  let Number_ : option string → Z + string := λ _, inl 7 in
  let path_resolve : option string → Outcome string :=
    λ v, Ok (default "seed" v) in
  parseArgs Number_ path_resolve "seed"
    ["node"; "generate-dataset.js"; "--size"; "M"; "--only"] =
  Throw "Invalid --only undefined".
Proof.
  intros Number_ path_resolve.
  apply (parseArgs_flag_without_value Number_ path_resolve "seed" id
           (λ _, eq_refl) "node" "generate-dataset.js" [OptSize "M"]).
  reflexivity.
Defined.

(** ** The CSV writer *)

Lemma includes_replace_crlf c s :
  c ≠ CR → c ≠ LF → includes c (replace_crlf s) = includes c s.
Proof.
  intros H1 H2.
  assert (∀ n s, (String.length s < n)%nat →
                 includes c (replace_crlf s) = includes c s) as H;
    [|apply (H (S (String.length s))); lia].
  clear s. induction n as [|n IH]; intros s Hn; [lia|].
  destruct s as [|a s]; [done|]. rewrite replace_crlf_cons.
  destruct s as [|b s]; [done|].
  destruct (Ascii.eqb a CR && Ascii.eqb b LF) eqn:Hab.
  - apply andb_true_iff in Hab as [Ha Hb].
    apply Ascii.eqb_eq in Ha as ->. apply Ascii.eqb_eq in Hb as ->.
    cbn [includes]. rewrite IH by (simpl in *; lia).
    apply Ascii.eqb_neq in H1, H2. rewrite Ascii.eqb_sym in H1.
    rewrite Ascii.eqb_sym in H2. by rewrite H1, H2.
  - cbn [includes]. rewrite IH by (simpl in *; lia). done.
Qed.

Lemma includes_replace_cr c s :
  c ≠ CR → c ≠ LF → includes c (replace_cr s) = includes c s.
Proof.
  intros H1 H2. induction s as [|a s IH]; [done|]. cbn [replace_cr includes].
  rewrite IH. f_equal. destruct (Ascii.eqb a CR) eqn:Ha; [|done].
  apply Ascii.eqb_eq in Ha as ->.
  apply Ascii.eqb_neq in H1, H2. rewrite Ascii.eqb_sym in H1.
  rewrite Ascii.eqb_sym in H2. by rewrite H1, H2.
Qed.

Lemma includes_normalize c s :
  c ≠ CR → c ≠ LF → includes c (normalize_newlines s) = includes c s.
Proof.
  intros. unfold normalize_newlines.
  by rewrite includes_replace_cr, includes_replace_crlf.
Qed.

Lemma includes_LF_replace_cr s :
  includes LF (replace_cr s) = includes LF s || includes CR s.
Proof.
  induction s as [|a s IH]; [done|]. cbn [replace_cr includes]. rewrite IH.
  destruct (Ascii.eqb a CR) eqn:Ha.
  - apply Ascii.eqb_eq in Ha as ->. simpl. by rewrite orb_true_r.
  - destruct (Ascii.eqb a LF), (includes LF s), (includes CR s); done.
Qed.

Lemma includes_crlf_lines s :
  includes LF (replace_crlf s) || includes CR (replace_crlf s)
  = includes LF s || includes CR s.
Proof.
  assert (∀ n s, (String.length s < n)%nat →
     includes LF (replace_crlf s) || includes CR (replace_crlf s)
     = includes LF s || includes CR s) as H;
    [|apply (H (S (String.length s))); lia].
  clear s. induction n as [|n IH]; intros s Hn; [lia|].
  destruct s as [|a s]; [done|]. rewrite replace_crlf_cons.
  destruct s as [|b s]; [done|].
  destruct (Ascii.eqb a CR && Ascii.eqb b LF) eqn:Hab.
  - apply andb_true_iff in Hab as [Ha Hb].
    apply Ascii.eqb_eq in Ha as ->. apply Ascii.eqb_eq in Hb as ->. done.
  - cbn [includes].
    specialize (IH (String b s) ltac:(simpl in *; lia)).
    cbn [includes] in IH.
    destruct (Ascii.eqb a LF); [done|]. destruct (Ascii.eqb a CR);
      [by rewrite !orb_true_r|].
    rewrite !orb_false_l. exact IH.
Qed.

Lemma includes_LF_normalize s :
  includes LF (normalize_newlines s) = includes LF s || includes CR s.
Proof.
  unfold normalize_newlines. rewrite includes_LF_replace_cr.
  apply includes_crlf_lines.
Qed.

Lemma csvEscape_string_cases s :
  csvEscape_string s =
  if csv_special s
  then String DQ (double_quotes (normalize_newlines s) +:+ String DQ EmptyString)
  else s.
Proof.
  unfold csvEscape_string, csv_special.
  fold (normalize_newlines s).
  rewrite (includes_normalize COMMA), (includes_normalize DQ) by done.
  rewrite includes_LF_normalize.
  rewrite <- !orb_assoc.
  destruct (includes COMMA s || (includes DQ s || (includes LF s || includes CR s)))
    eqn:Hsp.
  - destruct (includes DQ s) eqn:Hq; [done|].
    rewrite double_quotes_none; [done|].
    by rewrite includes_normalize.
  - apply orb_false_iff in Hsp as [_ Hsp]. apply orb_false_iff in Hsp as [Hq Hsp].
    apply orb_false_iff in Hsp as [_ Hcr]. rewrite Hq.
    by rewrite normalize_no_cr.
Qed.

Lemma includes_pretty_N_go c x s :
  (∀ d, pretty_N_char d ≠ c) →
  includes c (pretty_N_go x s) = includes c s.
Proof.
  intros Hc. revert s. induction (N.lt_wf_0 x) as [x _ IH]; intros s.
  assert (x = 0 ∨ 0 < x)%N as [->|Hx] by lia; [done|].
  rewrite pretty_N_go_step by done.
  rewrite IH by (by apply N.div_lt). cbn [includes].
  destruct (Ascii.eqb _ c) eqn:E; [|done].
  apply Ascii.eqb_eq in E. by destruct (Hc (x `mod` 10)%N).
Qed.

Lemma includes_pretty_N c (x : N) :
  (∀ d, pretty_N_char d ≠ c) → includes c (pretty x) = false.
Proof.
  intros Hc. unfold pretty, pretty_N. case_decide.
  - cbn [includes]. destruct (Ascii.eqb "0" c) eqn:E; [|done].
    apply Ascii.eqb_eq in E. by destruct (Hc 0%N).
  - by rewrite includes_pretty_N_go.
Qed.

Lemma not_digit_special c :
  c ∈ [COMMA; DQ; LF; CR] → ∀ d, pretty_N_char d ≠ c.
Proof.
  intros Hc d Hd. subst c. unfold pretty_N_char in Hc.
  apply (bool_decide_pack _) in Hc.
  by repeat case_match.
Qed.

Lemma includes_String_ c n :
  c ∈ [COMMA; DQ; LF; CR] → includes c (String_ n) = false.
Proof.
  intros Hc. pose proof (not_digit_special c Hc) as Hd.
  unfold String_, pretty, pretty_Z. destruct n as [|p|p].
  - cbn [includes]. destruct (Ascii.eqb "0" c) eqn:E; [|done].
    apply Ascii.eqb_eq in E. by destruct (Hd 0%N).
  - apply (includes_pretty_N c (N.pos p) Hd).
  - change ("-" +:+ ?s) with (String "-" s). cbn [includes].
    pose proof (includes_pretty_N c (N.pos p) Hd) as Hp.
    change (includes c (pretty_positive p) = false) in Hp.
    unfold pretty in Hp |- *. rewrite Hp.
    destruct (Ascii.eqb "-" c) eqn:E; [|done].
    apply Ascii.eqb_eq in E. subst c.
    apply (bool_decide_pack _) in Hc. done.
Qed.

(** X9. What [csvEscape] writes for each kind of value. A string without
    comma, quote, CR or LF is written as it stands; any other string is
    written between quotes, its quotes doubled and its line ends turned
    into LF. A number is written as its decimal text, never between
    quotes. [null] is written as the empty field, and so is the empty
    string, which is the only string written like [null]. *)
Theorem csvEscape_cases :
  (∀ s, csvEscape (CellStr s) =
        if csv_special s
        then String DQ (double_quotes (normalize_newlines s)
                        +:+ String DQ EmptyString)
        else s) ∧
  (∀ n, csvEscape (CellNum n) = String_ n) ∧
  csvEscape CellNull = EmptyString ∧
  (∀ s, csvEscape (CellStr s) = csvEscape CellNull ↔ s = EmptyString).
Proof.
  split_and!.
  - intros s. apply csvEscape_string_cases.
  - intros n. cbn [csvEscape]. rewrite csvEscape_string_cases.
    unfold csv_special. by rewrite !includes_String_ by set_solver.
  - done.
  - intros s. cbn [csvEscape]. rewrite csvEscape_string_cases. split.
    + by destruct (csv_special s).
    + by intros ->.
Qed.

Lemma csv_record_line fuel (fs : list string) rest :
  fs ≠ [] → (length fs ≤ fuel)%nat →
  csv_record fuel (join "," (map csvEscape_string fs) +:+ String LF rest)
  = Some (map normalize_newlines fs, rest).
Proof.
  revert fuel. induction fs as [|f fs IH]; intros fuel Hne Hfuel; [done|].
  destruct fuel as [|fuel]; [simpl in Hfuel; lia|].
  destruct fs as [|f' fs'].
  - cbn [map join csv_record].
    rewrite (csv_field_escape f (String LF rest)) by (by right). done.
  - change (join "," (map csvEscape_string (f :: f' :: fs')))
      with (csvEscape_string f +:+ "," +:+ join "," (map csvEscape_string (f' :: fs'))).
    rewrite append_assoc, append_assoc.
    change ("," +:+ ?x) with (String COMMA x).
    cbn [csv_record].
    rewrite csv_field_escape by (by left). simpl.
    rewrite IH; [done|done|simpl in *; lia].
Qed.

Lemma length_join_words (l : list string) :
  (length l ≤ S (String.length (join "," l)))%nat.
Proof.
  induction l as [|x [|y l] IH]; simpl; [lia|lia|].
  rewrite !length_append. simpl in *. lia.
Qed.

Lemma csv_decode_line (fs : list string) rest :
  fs ≠ [] →
  csv_decode_record (join "," (map csvEscape_string fs) +:+ String LF rest)
  = Some (map normalize_newlines fs, rest).
Proof.
  intros Hne. unfold csv_decode_record. apply csv_record_line; [done|].
  rewrite length_append.
  pose proof (length_join_words (map csvEscape_string fs)) as H.
  rewrite length_map in H. lia.
Qed.

(** The lines of a file, each closed by a line end. *)
Lemma join_lines l ls :
  join NL (l :: ls) +:+ NL =
  l +:+ String LF (file_of_lines ls).
Proof.
  destruct ls as [|l' ls]; [done|].
  change (join NL (l :: l' :: ls)) with (l +:+ NL +:+ join NL (l' :: ls)).
  by rewrite !append_assoc.
Qed.

Lemma csv_records_lines fuel (rows : list (list string)) :
  Forall (λ fs, fs ≠ []) rows → (length rows < fuel)%nat →
  csv_records fuel
    (file_of_lines (map (λ fs, join "," (map csvEscape_string fs)) rows))
  = Some (map (map normalize_newlines) rows).
Proof.
  revert fuel. induction rows as [|fs rows IH]; intros fuel Hne Hfuel.
  - destruct fuel; [simpl in Hfuel; lia|done].
  - destruct fuel as [|fuel]; [simpl in Hfuel; lia|].
    apply Forall_cons in Hne as [Hfs Hne].
    cbn [map]. unfold file_of_lines at 1. rewrite join_lines.
    cbn [csv_records].
    destruct (join "," (map csvEscape_string fs) +:+ String LF _) as [|c0 s0] eqn:Hs.
    { destruct (join "," (map csvEscape_string fs)); discriminate. }
    rewrite <- Hs. rewrite csv_decode_line by done. cbn [mbind option_bind].
    rewrite IH; [done|done|simpl in *; lia].
Qed.

Lemma csv_plain_escape (headers : list string) :
  Forall (λ h, csv_special h = false) headers →
  map csvEscape_string headers = headers.
Proof.
  induction 1 as [|h hs Hh _ IH]; [done|]. cbn [map].
  rewrite IH. f_equal.
  by rewrite csvEscape_string_cases, Hh.
Qed.

Lemma csv_plain_normalize (headers : list string) :
  Forall (λ h, csv_special h = false) headers →
  map normalize_newlines headers = headers.
Proof.
  induction 1 as [|h hs Hh _ IH]; [done|]. cbn [map].
  rewrite IH. f_equal. apply normalize_no_cr. unfold csv_special in Hh.
  apply orb_false_iff in Hh as [_ Hh]. exact Hh.
Qed.

(** The file [toCsv] writes, as lines of escaped fields. *)
Lemma toCsv_file (headers : list string) (rows : list Row) :
  Forall (λ h, csv_special h = false) headers →
  toCsv headers rows =
  file_of_lines
    (map (λ fs, join "," (map csvEscape_string fs))
         (headers :: map (λ r, map (λ h, cell_text (row_get h r)) headers) rows)).
Proof.
  intros Hplain. unfold toCsv, file_of_lines. cbn [map].
  rewrite (csv_plain_escape _ Hplain). f_equal. f_equal. f_equal.
  rewrite map_map.
  apply map_ext. intros r. f_equal. rewrite map_map. apply map_ext.
  intros h. by destruct (row_get h r).
Qed.

(** The reader on a file of such lines: enough fuel for every record. *)
Lemma csv_decode_file (recs : list (list string)) :
  Forall (λ fs, fs ≠ []) recs →
  csv_decode
    (file_of_lines (map (λ fs, join "," (map csvEscape_string fs)) recs))
  = Some (map (map normalize_newlines) recs).
Proof.
  intros Hne. unfold csv_decode. apply csv_records_lines; [done|].
  assert (∀ ls : list string,
            (length ls ≤ String.length (file_of_lines ls))%nat) as Hlen.
  { unfold file_of_lines.
    induction ls as [|x [|y ls] IH]; [simpl; lia| |].
    - rewrite length_append. simpl. lia.
    - change (join NL (x :: y :: ls)) with (x +:+ NL +:+ join NL (y :: ls)).
      rewrite !length_append in *. simpl in *. lia. }
  specialize (Hlen (map (λ fs, join "," (map csvEscape_string fs)) recs)).
  rewrite length_map in Hlen. lia.
Qed.

(** X11. A file written by [toCsv] reads back, with a standard CSV
    reader, as its header followed by one record per row, each with one
    field per header: the text of the cell under that header, line ends
    normalized, and nothing for a cell that is [null] or missing from the
    row. The headers are written unescaped, so they must be free of
    commas, quotes and line ends, and there must be at least one. *)
Theorem toCsv_decodes (headers : list string) (rows : list Row) :
  headers ≠ [] →
  Forall (λ h, csv_special h = false) headers →
  csv_decode (toCsv headers rows) =
  Some (headers :: map (λ r, map (λ h, cell_read (row_get h r)) headers) rows).
Proof.
  intros Hne Hplain. rewrite (toCsv_file _ _ Hplain), csv_decode_file.
  - cbn [map]. rewrite (csv_plain_normalize _ Hplain). f_equal. f_equal.
    unfold cell_read. rewrite map_map. apply map_ext. intros r.
    by rewrite map_map.
  - apply Forall_cons. split; [done|]. apply Forall_forall.
    intros fs Hfs. apply list_elem_of_fmap in Hfs as (r & -> & _).
    by destruct headers.
Qed.

Lemma toCsv_decodes_witness :
  let headers := ["id"; "body"; "closed_at"] in
  let rows : list Row :=
    [[("id", CellNum 7); ("body", CellStr crlf_value)]] in
  headers ≠ [] ∧ Forall (λ h, csv_special h = false) headers ∧
  csv_decode (toCsv headers rows) =
  Some [headers; ["7"; lf_value; EmptyString]].
Proof.
  intros headers rows. split; [done|]. split.
  { repeat constructor. }
  apply (toCsv_decodes headers rows); [done|repeat constructor].
Defined.

(** ** NDJSON files *)

Lemma Json_induction (P : Json → Prop) :
  P JNull → (∀ b, P (JBool b)) → (∀ n, P (JNum n)) → (∀ s, P (JStr s)) →
  (∀ xs, Forall P xs → P (JArr xs)) →
  (∀ fields, Forall (λ kv, P kv.2) fields → P (JObj fields)) →
  ∀ v, P v.
Proof.
  intros Hnull Hbool Hnum Hstr Harr Hobj.
  fix IH 1. intros [| b | n | s | xs | fields].
  - exact Hnull.
  - apply Hbool.
  - apply Hnum.
  - apply Hstr.
  - apply Harr. induction xs as [|x xs IHxs]; constructor; [apply IH|exact IHxs].
  - apply Hobj. induction fields as [|[k x] fields IHf]; constructor;
      [apply IH|exact IHf].
Qed.

Lemma includes_append c (s t : string) :
  includes c (s +:+ t) = includes c s || includes c t.
Proof.
  induction s as [|a s IH]; [done|].
  rewrite append_cons. cbn [includes]. rewrite IH. by rewrite orb_assoc.
Qed.

Lemma includes_join c sep (l : list string) :
  includes c sep = false → Forall (λ s, includes c s = false) l →
  includes c (join sep l) = false.
Proof.
  intros Hsep. induction l as [|x [|y l] IH]; intros Hl; [done|..].
  - by apply Forall_cons in Hl as [Hx _].
  - apply Forall_cons in Hl as [Hx Hl].
    change (join sep (x :: y :: l)) with (x +:+ sep +:+ join sep (y :: l)).
    rewrite !includes_append, Hx, Hsep. by rewrite IH.
Qed.

Lemma includes_LF_json_escape_char c : includes LF (json_escape_char c) = false.
Proof. by destruct c as [[] [] [] [] [] [] [] []]. Qed.

Lemma includes_LF_json_str s : includes LF (json_str s) = false.
Proof.
  unfold json_str. cbn [includes]. rewrite includes_append.
  assert (includes LF (json_escape s) = false) as ->; [|done].
  induction s as [|c s IH]; [done|]. cbn [json_escape].
  by rewrite includes_append, includes_LF_json_escape_char, IH.
Qed.

Lemma includes_LF_json_obj (fields : list (string * string)) :
  Forall (λ kv, includes LF kv.2 = false) fields →
  includes LF (json_obj fields) = false.
Proof.
  intros Hf. unfold json_obj. rewrite !includes_append.
  rewrite includes_join; [done|done|].
  apply Forall_fmap. eapply Forall_impl; [exact Hf|].
  intros [k x] Hx. cbn [fst snd compose] in *.
  by rewrite !includes_append, includes_LF_json_str, Hx.
Qed.

Lemma stringify_one_line v : includes LF (stringify v) = false.
Proof.
  induction v as [| b | n | s | xs IH | fields IH] using Json_induction.
  - done.
  - by destruct b.
  - apply includes_String_. set_solver.
  - apply includes_LF_json_str.
  - cbn [stringify]. rewrite !includes_append.
    rewrite includes_join; [done|done|]. by apply Forall_fmap.
  - cbn [stringify]. apply includes_LF_json_obj. apply Forall_fmap.
    eapply Forall_impl; [exact IH|]. by intros [k x].
Qed.

Lemma append_nil_r (s : string) : s +:+ EmptyString = s.
Proof.
  induction s as [|a s IH]; [reflexivity|]. rewrite append_cons. by rewrite IH.
Qed.

Lemma lines_go_line cur s rest :
  includes LF s = false →
  lines_go cur (s +:+ String LF rest) = (cur +:+ s) :: lines_go EmptyString rest.
Proof.
  revert cur. induction s as [|c s IH]; intros cur Hs.
  - rewrite append_nil_l. cbn [lines_go]. change (Ascii.eqb LF LF) with true.
    cbv iota. by rewrite append_nil_r.
  - cbn [includes] in Hs. apply orb_false_iff in Hs as [Hc Hs].
    rewrite append_cons. cbn [lines_go]. rewrite Hc.
    rewrite IH by done. f_equal. by rewrite append_assoc.
Qed.

Lemma lines_file_of_lines (ls : list string) :
  Forall (λ l, includes LF l = false) ls →
  lines (file_of_lines ls) = ls.
Proof.
  unfold lines. induction ls as [|l ls IH]; intros Hls; [done|].
  apply Forall_cons in Hls as [Hl Hls].
  unfold file_of_lines. rewrite join_lines.
  rewrite lines_go_line by done. rewrite append_nil_l. f_equal. by apply IH.
Qed.

Lemma writeNdjson_file_of_lines rows :
  writeNdjson rows = file_of_lines (map stringify rows).
Proof.
  unfold writeNdjson, file_of_lines. destruct rows as [|r rows]; done.
Qed.

(** X12. An NDJSON file holds one line per row and nothing else: read
    line by line, the data [writeNdjson] writes gives back the JSON text
    of each row, in order, since [JSON.stringify] never puts a line end
    inside a document (within a string it writes backslash n). For no
    rows the file is empty. *)
Theorem writeNdjson_lines rows :
  lines (writeNdjson rows) = map stringify rows ∧
  writeNdjson [] = EmptyString.
Proof.
  split; [|done]. rewrite writeNdjson_file_of_lines.
  apply lines_file_of_lines. apply Forall_fmap, Forall_forall.
  intros v _. apply stringify_one_line.
Qed.

(** ** The phases of a run *)

Lemma generate_phases cfg s :
  ∃ plans regions deviceClasses accounts subs devices ords sfeat sfstate
    tickets notes events usage,
    (generateCanonical_body cfg s).1 =
      assemble plans regions deviceClasses
        (genRates plans regions deviceClasses) accounts subs.*1 subs.*2
        devices ords.*1 (concat ords.*2) FEATURE_DEFS sfeat sfstate
        TICKET_STATUS tickets notes events usage
    ∧ RunFacts cfg (ids s) plans regions deviceClasses accounts subs devices
        ords sfeat sfstate tickets notes events usage
    ∧ Phases cfg plans regions deviceClasses accounts subs devices ords sfeat
        sfstate tickets notes events usage.
Proof.
  unfold generateCanonical_body, bind.
  generalize (allocs_genPlans s) (post_genPlans s)
             (λ c H, untouched_genPlans c H s).
  destruct (genPlans s) as [plans s1] eqn:E1. cbn [fst snd].
  intros [Ha1 _] Hl1 Hf1.
  generalize (allocs_genRegions s1) (post_genRegions s1)
             (λ c H, untouched_genRegions c H s1).
  destruct (genRegions s1) as [regions s2] eqn:E2. cbn [fst snd].
  intros [Ha2 _] Hl2 Hf2.
  generalize (allocs_genDeviceClasses s2) (post_genDeviceClasses s2)
             (λ c H, untouched_genDeviceClasses c H s2).
  destruct (genDeviceClasses s2) as [deviceClasses s3] eqn:E3. cbn [fst snd].
  intros [Ha3 _] Hl3 Hf3.
  generalize (allocs_genAccounts cfg s3) (post_genAccounts cfg s3)
             (λ c H, untouched_genAccounts c cfg H s3).
  destruct (genAccounts cfg s3) as [accounts s4] eqn:E4. cbn [fst snd].
  intros [Ha4 _] Hl4 Hf4.
  generalize (allocs_genSubscribers cfg accounts s4)
             (post_genSubscribers cfg accounts s4)
             (λ c H, untouched_genSubscribers c cfg accounts H s4).
  destruct (genSubscribers cfg accounts s4) as [subs s5] eqn:E5. cbn [fst snd].
  intros [Ha5 _] Hp5 Hf5.
  generalize (allocs_genDevices subs.*1 s5) (post_genDevices subs.*1 s5)
             (λ c H, untouched_genDevices c subs.*1 H s5).
  destruct (genDevices subs.*1 s5) as [devices s6] eqn:E6. cbn [fst snd].
  intros [Ha6 _] Hp6 Hf6.
  generalize (allocs_genOrders_orderId cfg accounts s6)
             (allocs_genOrders_orderItemId cfg accounts s6)
             (post_genOrders cfg accounts s6)
             (λ c H H', untouched_genOrders c cfg accounts H H' s6).
  generalize (λ H1 H2, post_genOrders_length cfg accounts H1 H2 s6).
  destruct (genOrders cfg accounts s6) as [ords s7] eqn:E7. cbn [fst snd].
  intros Hlen7 [Ha7 _] [Ha7' _] Hp7 Hf7.
  generalize (post_genSubscriberFeatures FEATURE_DEFS subs.*1 s7)
             (λ c, untouched_genSubscriberFeatures c FEATURE_DEFS subs.*1 s7).
  destruct (genSubscriberFeatures FEATURE_DEFS subs.*1 s7) as [sfeat s8] eqn:E8.
  cbn [fst snd]. intros Hp8 Hf8.
  generalize (allocs_genSubscriberFeatureState cfg sfeat s8)
             (post_genSubscriberFeatureState cfg sfeat s8)
             (λ c H, untouched_genSubscriberFeatureState c cfg sfeat H s8).
  destruct (genSubscriberFeatureState cfg sfeat s8) as [sfstate s9] eqn:E9.
  cbn [fst snd]. intros [Ha9 _] Hp9 Hf9.
  generalize (allocs_genTickets cfg TICKET_STATUS subs.*1 s9)
             (post_genTickets cfg subs.*1 s9)
             (λ c H, untouched_genTickets c cfg TICKET_STATUS subs.*1 H s9).
  destruct (genTickets cfg TICKET_STATUS subs.*1 s9) as [tickets s10] eqn:E10.
  cbn [fst snd]. intros [Ha10 _] Hp10 Hf10.
  generalize (allocs_genNotes cfg subs.*1 ords.*1 tickets s10)
             (post_genNotes cfg subs.*1 ords.*1 tickets s10)
             (λ c H, untouched_genNotes c cfg subs.*1 ords.*1 tickets H s10).
  destruct (genNotes cfg subs.*1 ords.*1 tickets s10) as [notes s11] eqn:E11.
  cbn [fst snd]. intros [Ha11 _] Hp11 Hf11.
  generalize (allocs_genDeviceEvents cfg devices s11)
             (post_genDeviceEvents cfg devices s11)
             (λ c H, untouched_genDeviceEvents c cfg devices H s11).
  destruct (genDeviceEvents cfg devices s11) as [events s12] eqn:E12.
  cbn [fst snd]. intros [Ha12 _] Hp12 Hf12.
  generalize (allocs_genUsageRecords cfg subs.*1 s12)
             (post_genUsageRecords cfg subs.*1 s12).
  destruct (genUsageRecords cfg subs.*1 s12) as [usage s13] eqn:E13.
  cbn [fst snd]. intros [Ha13 _] Hp13.
  exists plans, regions, deviceClasses, accounts, subs, devices, ords, sfeat,
    sfstate, tickets, notes, events, usage.
  split; [reflexivity|].
  split.
  2:{ constructor.
      - exists s. by rewrite E1.
      - exists s1. by rewrite E2.
      - exists s2. by rewrite E3.
      - exists s3. by rewrite E4.
      - exists s4. by rewrite E5.
      - exists s5. by rewrite E6.
      - exists s6. by rewrite E7.
      - exists s7. by rewrite E8.
      - exists s8. by rewrite E9.
      - exists s9. by rewrite E10.
      - exists s10. by rewrite E11.
      - exists s11. by rewrite E12.
      - exists s12. by rewrite E13. }
  clear E1 E2 E3 E4 E5 E6 E7 E8 E9 E10 E11 E12 E13.
  rewrite length_map in Ha1, Ha2, Ha3, Ha4, Ha5, Ha6, Ha7, Ha9, Ha10, Ha11,
    Ha12, Ha13.
  rewrite length_map in Ha7'.
  rewrite Hl1 in Ha1. rewrite Hl2 in Ha2. rewrite Hl3 in Ha3.
  rewrite Hf1 in Ha2 by done.
  rewrite Hf2, Hf1 in Ha3 by done.
  rewrite Hf3, Hf2, Hf1 in Ha4 by done.
  rewrite Hf4, Hf3, Hf2, Hf1 in Ha5 by done.
  rewrite Hf5, Hf4, Hf3, Hf2, Hf1 in Ha6 by done.
  rewrite Hf6, Hf5, Hf4, Hf3, Hf2, Hf1 in Ha7, Ha7' by done.
  rewrite Hf8, Hf7, Hf6, Hf5, Hf4, Hf3, Hf2, Hf1 in Ha9 by done.
  rewrite Hf9, Hf8, Hf7, Hf6, Hf5, Hf4, Hf3, Hf2, Hf1 in Ha10 by done.
  rewrite Hf10, Hf9, Hf8, Hf7, Hf6, Hf5, Hf4, Hf3, Hf2, Hf1 in Ha11 by done.
  rewrite Hf11, Hf10, Hf9, Hf8, Hf7, Hf6, Hf5, Hf4, Hf3, Hf2, Hf1 in Ha12
    by done.
  rewrite Hf12, Hf11, Hf10, Hf9, Hf8, Hf7, Hf6, Hf5, Hf4, Hf3, Hf2, Hf1
    in Ha13 by done.
  rewrite length_fmap in Ha7.
  constructor; try done.
  rewrite <- Ha5. clear. induction subs as [|r subs IH]; simpl; [done|].
  f_equal. exact IH.
Qed.

(** The collections of a generated dataset are the arrays the phases
    filled, in generation order: the final sorts move nothing but the
    bridge rows of each subscriber. *)
Lemma dataset_phases seed size :
  ∃ plans regions deviceClasses accounts subs devices ords sfeat sfstate
    tickets notes events usage,
    dataset seed size =
      Canonical.mk accounts subs.*1 subs.*2 devices events ords.*1
        (concat ords.*2) FEATURE_DEFS
        (jsSort cmp_subscriberFeature sfeat) sfstate TICKET_STATUS tickets
        notes orgUnits plans regions deviceClasses
        (genRates plans regions deviceClasses) usage
    ∧ RunFacts (presets size) idRanges plans regions deviceClasses accounts
        subs devices ords sfeat sfstate tickets notes events usage
    ∧ Phases (presets size) plans regions deviceClasses accounts subs devices
        ords sfeat sfstate tickets notes events usage.
Proof.
  rewrite dataset_body.
  destruct (generate_phases (presets size) (mkSt (mulberry32 seed) idRanges))
    as (plans & regions & dcs & accounts & subs & devices & ords & sfeat &
        sfstate & tickets & notes & events & usage & Hd & F & P).
  exists plans, regions, dcs, accounts, subs, devices, ords, sfeat, sfstate,
    tickets, notes, events, usage.
  split; [|done]. rewrite Hd. unfold assemble.
  destruct F as [_ _ _ _ Haccounts Hsubs Hprof Hdevices _ Hords Hitems _ _ _
                 Hsfstate _ Htickets _ Hnotes _ Hevents _ Husage _].
  simpl in *.
  rewrite (jsSort_seqZ_keys _ _ _ Haccounts).
  rewrite (jsSort_seqZ_keys _ _ _ Hdevices).
  rewrite (jsSort_seqZ_keys _ _ _ Hitems).
  rewrite (jsSort_seqZ_keys _ _ _ Hsfstate).
  rewrite (jsSort_seqZ_keys _ _ _ Htickets).
  rewrite (jsSort_seqZ_keys _ _ _ Hnotes).
  rewrite (jsSort_seqZ_keys _ _ _ Hevents).
  rewrite (jsSort_seqZ_keys _ _ _ Husage).
  rewrite (jsSort_seqZ_keys Subscriber.subscriberId subs.*1 2001)
    by (by rewrite length_fmap).
  rewrite (jsSort_seqZ_keys Order.orderId ords.*1 4001)
    by (by rewrite length_fmap).
  rewrite (jsSort_seqZ_keys SubscriberProfile.subscriberId subs.*2 2001).
  { done. }
  rewrite length_fmap. rewrite <- Hsubs.
  clear -Hprof. induction Hprof as [|r subs (a & _ & _ & Hr) _ IH]; [done|].
  cbn [fmap list_fmap map]. f_equal; [exact Hr|exact IH].
Qed.

(** ** Postconditions that hold for every span *)

Lemma post_and {A} (m : M A) (P Q : A → Prop) :
  post m P → post m Q → post m (λ x, P x ∧ Q x).
Proof. intros HP HQ s. split; [apply HP|apply HQ]. Qed.

Lemma post_intBetween_any lo hi :
  lo ≤ hi → post (intBetween lo hi) (λ n, lo ≤ n ≤ hi).
Proof. intros Hle s. by apply intBetween_range_any. Qed.

Lemma post_choice_any `{Inhabited A} (arr : list A) :
  arr ≠ [] → post (choice arr) (λ x, x ∈ arr).
Proof. intros Hne s. by apply choice_range_any. Qed.

Lemma presets_sane size :
  let cfg := presets size in
  0 < Cfg.accounts cfg ∧
  2 ≤ Cfg.subsPerAccountMin cfg ≤ Cfg.subsPerAccountMax cfg ∧
  Cfg.subsPerAccountMax cfg ≤ 6 ∧ Cfg.accounts cfg ≤ 200 ∧
  1 ≤ Cfg.ordersPerAccountMin cfg ≤ Cfg.ordersPerAccountMax cfg ∧
  Cfg.ordersPerAccountMax cfg ≤ 5 ∧
  2 ≤ Cfg.itemsPerOrderMin cfg ≤ Cfg.itemsPerOrderMax cfg ∧
  Cfg.itemsPerOrderMax cfg ≤ 6 ∧
  0 ≤ Cfg.ticketsPerSubscriberMin cfg ≤ Cfg.ticketsPerSubscriberMax cfg ∧
  Cfg.ticketsPerSubscriberMax cfg ≤ 2 ∧
  3 ≤ Cfg.deviceEventsPerDeviceMin cfg ≤ Cfg.deviceEventsPerDeviceMax cfg ∧
  Cfg.deviceEventsPerDeviceMax cfg ≤ 600 ∧
  10 ≤ Cfg.usageRecordsPerSubscriber cfg ≤ 2500 ∧
  2 ≤ Cfg.days cfg ≤ 30.
Proof.
  destruct (presets_cases size) as [-> | [-> | ->]]; simpl; lia.
Qed.

(** ** Children of a parent row *)

Lemma grouped_filter {X V K} `{EqDecision K} (kx : X → K) (kv : V → K)
    (P : X → list V → Prop) xs (groups : list (list V)) :
  NoDup (map kx xs) →
  Forall2 (λ x g, Forall (λ v, kv v = kx x) g ∧ P x g) xs groups →
  ∀ x, x ∈ xs → P x (filter (λ v, kv v = kx x) (concat groups)).
Proof.
  intros Hnd Hg. induction Hg as [|x0 g0 xs gs [Hk HP] Hg IH]; intros x Hx.
  { by apply elem_of_nil in Hx. }
  cbn [map] in Hnd. apply NoDup_cons in Hnd as [Hnotin Hnd].
  cbn [concat]. rewrite filter_app.
  assert (∀ v, v ∈ concat gs → kv v ∈ map kx xs) as Hkeys.
  { clear -Hg. induction Hg as [|x1 g1 xs gs [Hk _] _ IH]; intros v Hv.
    { by apply elem_of_nil in Hv. }
    cbn [concat] in Hv. apply elem_of_app in Hv as [Hv|Hv].
    - rewrite Forall_forall in Hk. rewrite (Hk v Hv). left.
    - right. by apply IH. }
  destruct (decide (kx x0 = kx x)) as [Heq|Hne].
  - assert (x ∉ xs) as Hx'.
    { intros Hin. apply Hnotin. rewrite Heq. by apply list_elem_of_fmap_2. }
    apply elem_of_cons in Hx as [->|Hx]; [|done].
    rewrite filter_all by done.
    rewrite (filter_none _ (concat gs)).
    + by rewrite app_nil_r.
    + apply Forall_forall. intros v Hv Hkv. apply Hnotin. rewrite <- Hkv.
      by apply Hkeys.
  - apply elem_of_cons in Hx as [->|Hx]; [done|].
    rewrite (filter_none _ g0).
    + by apply IH.
    + eapply Forall_impl; [exact Hk|]. intros v Hv Hkv. apply Hne.
      by rewrite <- Hv, Hkv.
Qed.

Lemma nested_children {A B} (count : A → M Z) (body : A → M B)
    (kx : A → Z) (kv : B → Z) (Pc : Z → Prop) xs :
  (∀ x, post (count x) Pc) →
  (∀ x, post (body x) (λ v, kv v = kx x)) →
  NoDup (map kx xs) →
  post (nested count body xs)
       (λ ys, ∀ x, x ∈ xs →
          ∃ n, Pc n ∧ length (children_of kv (kx x) ys) = Z.to_nat n).
Proof.
  intros Hc Hb Hnd.
  eapply post_weaken.
  { apply (post_nested count body (λ _, Pc) (λ x v, kv v = kx x)); done. }
  intros ys (groups & -> & Hg) x Hx. unfold children_of.
  by apply (grouped_filter kx kv
              (λ _ g, ∃ n, Pc n ∧ length g = Z.to_nat n) xs groups).
Qed.

Lemma mapped_children {A B} (kx : A → Z) (kv : B → Z) (P : A → B → Prop)
    xs (ys : list B) :
  NoDup (map kx xs) →
  Forall2 (λ x y, kv y = kx x ∧ P x y) xs ys →
  ∀ x, x ∈ xs → ∃ y, children_of kv (kx x) ys = [y] ∧ P x y.
Proof.
  intros Hnd H2 x Hx.
  assert (ys = concat (map (λ y, [y]) ys)) as Hys.
  { clear. induction ys as [|y ys IH]; [done|]. simpl. by rewrite <- IH. }
  rewrite Hys. unfold children_of.
  apply (grouped_filter kx kv (λ x g, ∃ y, g = [y] ∧ P x y) xs
           (map (λ y, [y]) ys)); [done| |done].
  clear -H2. induction H2 as [|x y xs ys [Hxy HP] _ IH]; constructor; [|exact IH].
  split; [by repeat constructor|by exists y].
Qed.

Lemma children_of_fst {A B} (fk : A → Z) k (l : list (A * B)) :
  children_of fk k l.*1 = (children_of (λ r, fk r.1) k l).*1.
Proof.
  unfold children_of. induction l as [|r l IH]; [done|].
  cbn [fmap list_fmap]. rewrite !filter_cons. cbn [fst].
  destruct (decide (fk r.1 = k)); cbn [fmap list_fmap]; by rewrite IH.
Qed.

Lemma children_of_snd {A B} (fk : B → Z) k (l : list (A * B)) :
  children_of fk k l.*2 = (children_of (λ r, fk r.2) k l).*2.
Proof.
  unfold children_of. induction l as [|r l IH]; [done|].
  cbn [fmap list_fmap]. rewrite !filter_cons. cbn [snd].
  destruct (decide (fk r.2 = k)); cbn [fmap list_fmap]; by rewrite IH.
Qed.

(** ** What the phases put in their rows, parent by parent *)

Lemma post_genSubscriber_account cfg acct :
  post (genSubscriber cfg acct)
       (λ r, Subscriber.accountId r.1 = Account.accountId acct).
Proof. unfold genSubscriber. post_triv. Qed.

Lemma post_genOrder_account cfg acct :
  post (genOrder cfg acct) (λ r, Order.accountId r.1 = Account.accountId acct).
Proof. unfold genOrder. post_triv. Qed.

Lemma post_genTicket_subscriber cfg codes s :
  post (genTicket cfg codes s)
       (λ t, Ticket.subscriberId t = Subscriber.subscriberId s).
Proof. unfold genTicket. post_triv. Qed.

Lemma post_genDeviceEvent_device cfg d :
  post (genDeviceEvent cfg d) (λ e, DeviceEvent.deviceId e = Device.deviceId d).
Proof. unfold genDeviceEvent. post_triv. Qed.

Lemma post_genUsageRecord_subscriber cfg s :
  post (genUsageRecord cfg s)
       (λ r, UsageRecord.subscriberId r = Subscriber.subscriberId s).
Proof. unfold genUsageRecord. post_triv. Qed.

Lemma post_genDevices_rows subscribers :
  post (genDevices subscribers)
       (Forall2 (λ s d,
          Device.subscriberId d = Subscriber.subscriberId s ∧
          Device.createdAt d = Subscriber.createdAt s + 30 * minuteMs)
          subscribers).
Proof. unfold genDevices. apply post_mapM. intros s _. post_triv. Qed.

Lemma NoDup_FEATURE_DEFS : NoDup (map Feature.featureId FEATURE_DEFS).
Proof. apply (bool_decide_unpack _). vm_compute. reflexivity. Qed.

Lemma post_genSubscriberFeatures_groups subscribers :
  post (genSubscriberFeatures FEATURE_DEFS subscribers)
       (λ sfeat, ∃ groups, sfeat = concat groups ∧
          Forall2 (λ s g,
             Forall (λ sf, SubscriberFeature.subscriberId sf
                           = Subscriber.subscriberId s) g ∧
             (1 ≤ length g ≤ 2)%nat ∧
             NoDup (map SubscriberFeature.featureId g)) subscribers groups).
Proof.
  unfold genSubscriberFeatures.
  eapply post_bind.
  - apply (post_mapM _ (λ s g,
      Forall (λ sf, SubscriberFeature.subscriberId sf
                    = Subscriber.subscriberId s) g ∧
      (1 ≤ length g ≤ 2)%nat ∧
      NoDup (map SubscriberFeature.featureId g))).
    intros s _.
    eapply post_bind; [apply (post_intBetween_any 1 2); lia|intros count Hc].
    eapply post_bind; [apply post_shuffle|intros sh Hsh].
    apply post_ret. cbn beta in Hsh, Hc. split; [|split].
    + apply Forall_fmap, Forall_forall. by intros f _.
    + rewrite length_map, length_slice0; [lia|].
      rewrite Hsh. simpl. lia.
    + rewrite map_map. cbn [SubscriberFeature.featureId].
      apply (sublist_NoDup _ (Feature.featureId <$> sh)).
      * rewrite Hsh. apply NoDup_FEATURE_DEFS.
      * apply (fmap_sublist Feature.featureId). apply slice0_sublist.
  - intros groups Hg. apply post_ret. by exists groups.
Qed.

Lemma NoDup_keys_seqZ {A} (key : A → Z) (l : list A) a n :
  map key l = seqZ a n → NoDup (map key l).
Proof. intros ->. apply NoDup_seqZ. Qed.

(** X13. In every generated dataset each account has a number of
    subscribers within the preset's bounds for subscribers per account,
    and a number of orders within its bounds for orders per account. At
    size S, where both subscriber bounds are 2, every account has exactly
    two subscribers, whatever the seed. *)
Theorem children_per_account seed size a :
  let c := dataset seed size in
  let cfg := presets size in
  let orders_of :=
    children_of Order.accountId (Account.accountId a) (Canonical.orders c) in
  a ∈ Canonical.accounts c →
  Cfg.subsPerAccountMin cfg ≤ Z.of_nat (length (subscribers_of c a))
    ≤ Cfg.subsPerAccountMax cfg ∧
  Cfg.ordersPerAccountMin cfg ≤ Z.of_nat (length orders_of)
    ≤ Cfg.ordersPerAccountMax cfg ∧
  (size = "S" → length (subscribers_of c a) = 2%nat).
Proof.
  intros c cfg orders_of Ha. subst c cfg orders_of.
  destruct (dataset_phases seed size) as
    (plans & regions & dcs & accounts & subs & devices & ords & sfeat &
     sfstate & tickets & notes & events & usage & Hd & F & P).
  rewrite Hd in Ha |- *. unfold subscribers_of. cbn [Canonical.accounts
    Canonical.subscribers Canonical.orders] in *.
  pose proof (presets_sane size) as Hsane. cbn zeta in Hsane.
  assert (NoDup (map Account.accountId accounts)) as Hnd.
  { eapply NoDup_keys_seqZ. apply (rf_accounts_ids _ _ _ _ _ _ _ _ _ _ _ _ _ _ _ F). }
  destruct (ph_subs _ _ _ _ _ _ _ _ _ _ _ _ _ _ P) as [s5 Hs5].
  destruct (ph_ords _ _ _ _ _ _ _ _ _ _ _ _ _ _ P) as [s7 Hs7].
  assert (Cfg.subsPerAccountMin (presets size)
            ≤ Z.of_nat (length (filter (λ s, Subscriber.accountId s
                                             = Account.accountId a) subs.*1))
            ≤ Cfg.subsPerAccountMax (presets size)) as Hsubs.
  { pose proof (nested_children _ (genSubscriber (presets size))
                  Account.accountId (λ r, Subscriber.accountId r.1)
                  (λ n, Cfg.subsPerAccountMin (presets size) ≤ n
                        ≤ Cfg.subsPerAccountMax (presets size)) accounts
                  (λ _, post_intBetween_any
                          (Cfg.subsPerAccountMin (presets size))
                          (Cfg.subsPerAccountMax (presets size)) ltac:(lia))
                  (post_genSubscriber_account (presets size)) Hnd s5) as H.
    rewrite <- genSubscribers_nested, Hs5 in H.
    destruct (H a Ha) as (n & Hn & Hlen).
    change (filter _ subs.*1)
      with (children_of Subscriber.accountId (Account.accountId a) subs.*1).
    rewrite children_of_fst, length_fmap, Hlen. lia. }
  split; [exact Hsubs|]. split.
  - pose proof (nested_children _ (genOrder (presets size))
                  Account.accountId (λ r, Order.accountId r.1)
                  (λ n, Cfg.ordersPerAccountMin (presets size) ≤ n
                        ≤ Cfg.ordersPerAccountMax (presets size)) accounts
                  (λ _, post_intBetween_any
                          (Cfg.ordersPerAccountMin (presets size))
                          (Cfg.ordersPerAccountMax (presets size)) ltac:(lia))
                  (post_genOrder_account (presets size)) Hnd s7) as H.
    rewrite <- genOrders_nested, Hs7 in H.
    destruct (H a Ha) as (n & Hn & Hlen).
    rewrite children_of_fst, length_fmap, Hlen. lia.
  - intros ->. change (presets "S") with preset_S in Hsubs. simpl in Hsubs. lia.
Qed.

Lemma children_per_account_witness :
  let c := dataset 42 "S" in
  let a := Account.mk 1002 "A-1002" "Red River Hardware" "TX-NORTH" "active"
             1768096800000 in
  a ∈ Canonical.accounts c ∧ length (subscribers_of c a) = 2%nat.
Proof.
  intros c a.
  assert (a ∈ Canonical.accounts c) as Ha.
  { apply (list_elem_of_lookup_2 _ 1%nat). vm_compute. reflexivity. }
  split; [exact Ha|].
  apply (children_per_account 42 "S" a Ha). reflexivity.
Defined.

Lemma Forall2_fst_snd {A B} (R : A → B → Prop) (l : list (A * B)) :
  Forall (λ r, R r.1 r.2) l → Forall2 R l.*1 l.*2.
Proof. induction 1; constructor; done. Qed.

Lemma children_of_Permutation {A} (fk : A → Z) k (l1 l2 : list A) :
  l1 ≡ₚ l2 → length (children_of fk k l1) = length (children_of fk k l2).
Proof. intros H. unfold children_of. by rewrite H. Qed.

(** X14. In every generated dataset each subscriber has exactly one
    profile row and exactly one device, created 30 minutes after the
    subscriber; that device has a number of events within the preset's
    bounds; and the subscriber has exactly the preset's number of usage
    records, a number of tickets within the preset's bounds, and one or
    two features. *)
Theorem children_per_subscriber seed size s :
  let c := dataset seed size in
  let cfg := presets size in
  let k := Subscriber.subscriberId s in
  s ∈ Canonical.subscribers c →
  (∃ p, children_of SubscriberProfile.subscriberId k
                    (Canonical.subscriber_profiles c) = [p]) ∧
  (∃ d, children_of Device.subscriberId k (Canonical.devices c) = [d] ∧
        Device.createdAt d = Subscriber.createdAt s + 30 * minuteMs ∧
        Cfg.deviceEventsPerDeviceMin cfg
          ≤ Z.of_nat (length (children_of DeviceEvent.deviceId
                                (Device.deviceId d) (Canonical.device_events c)))
          ≤ Cfg.deviceEventsPerDeviceMax cfg) ∧
  Z.of_nat (length (children_of UsageRecord.subscriberId k
                                (Canonical.usage_records c)))
    = Cfg.usageRecordsPerSubscriber cfg ∧
  Cfg.ticketsPerSubscriberMin cfg
    ≤ Z.of_nat (length (children_of Ticket.subscriberId k (Canonical.tickets c)))
    ≤ Cfg.ticketsPerSubscriberMax cfg ∧
  (1 ≤ length (children_of SubscriberFeature.subscriberId k
                           (Canonical.subscriber_features c)) ≤ 2)%nat.
Proof.
  intros c cfg k Hs. subst c cfg k.
  destruct (dataset_phases seed size) as
    (plans & regions & dcs & accounts & subs & devices & ords & sfeat &
     sfstate & tickets & notes & events & usage & Hd & F & P).
  rewrite Hd in Hs |- *.
  cbn [Canonical.subscribers Canonical.subscriber_profiles Canonical.devices
       Canonical.device_events Canonical.usage_records Canonical.tickets
       Canonical.subscriber_features] in *.
  pose proof (presets_sane size) as Hsane. cbn zeta in Hsane.
  assert (NoDup (map Subscriber.subscriberId subs.*1)) as Hnd.
  { eapply NoDup_keys_seqZ. apply (rf_subs_ids _ _ _ _ _ _ _ _ _ _ _ _ _ _ _ F). }
  assert (NoDup (map Device.deviceId devices)) as Hndd.
  { eapply NoDup_keys_seqZ.
    apply (rf_devices_ids _ _ _ _ _ _ _ _ _ _ _ _ _ _ _ F). }
  destruct (ph_devices _ _ _ _ _ _ _ _ _ _ _ _ _ _ P) as [s6 Hs6].
  destruct (ph_sfeat _ _ _ _ _ _ _ _ _ _ _ _ _ _ P) as [s8 Hs8].
  destruct (ph_tickets _ _ _ _ _ _ _ _ _ _ _ _ _ _ P) as [s10 Hs10].
  destruct (ph_events _ _ _ _ _ _ _ _ _ _ _ _ _ _ P) as [s12 Hs12].
  destruct (ph_usage _ _ _ _ _ _ _ _ _ _ _ _ _ _ P) as [s13 Hs13].
  split; [|split; [|split; [|split]]].
  - destruct (mapped_children Subscriber.subscriberId
                SubscriberProfile.subscriberId (λ _ _, True) subs.*1 subs.*2
                Hnd) with (x := s) as (p & Hp & _); [|done|by exists p].
    apply Forall2_fst_snd.
    eapply Forall_impl; [apply (rf_subs _ _ _ _ _ _ _ _ _ _ _ _ _ _ _ F)|].
    intros r (a & _ & _ & Hr). done.
  - pose proof (post_genDevices_rows subs.*1 s6) as Hdev.
    rewrite Hs6 in Hdev.
    destruct (mapped_children Subscriber.subscriberId Device.subscriberId
                (λ s d, Device.createdAt d = Subscriber.createdAt s + 30 * minuteMs)
                subs.*1 devices Hnd Hdev s Hs) as (d & Hd1 & Hd2).
    exists d. split; [exact Hd1|]. split; [exact Hd2|].
    assert (d ∈ devices) as Hin.
    { assert (d ∈ children_of Device.subscriberId (Subscriber.subscriberId s)
                              devices) as Hd' by (rewrite Hd1; left).
      unfold children_of in Hd'. by apply list_elem_of_filter in Hd' as [_ ?]. }
    pose proof (nested_children _ (genDeviceEvent (presets size))
                  Device.deviceId DeviceEvent.deviceId
                  (λ n, Cfg.deviceEventsPerDeviceMin (presets size) ≤ n
                        ≤ Cfg.deviceEventsPerDeviceMax (presets size)) devices
                  (λ _, post_intBetween_any
                          (Cfg.deviceEventsPerDeviceMin (presets size))
                          (Cfg.deviceEventsPerDeviceMax (presets size))
                          ltac:(lia))
                  (post_genDeviceEvent_device (presets size)) Hndd s12) as H.
    rewrite <- genDeviceEvents_nested, Hs12 in H.
    destruct (H d Hin) as (n & Hn & Hlen). rewrite Hlen. lia.
  - pose proof (nested_children _ (genUsageRecord (presets size))
                  Subscriber.subscriberId UsageRecord.subscriberId
                  (λ n, n = Cfg.usageRecordsPerSubscriber (presets size))
                  subs.*1 (λ _, post_ret _ _ eq_refl)
                  (post_genUsageRecord_subscriber (presets size)) Hnd s13) as H.
    rewrite <- genUsageRecords_nested, Hs13 in H.
    destruct (H s Hs) as (n & -> & Hlen). rewrite Hlen. lia.
  - pose proof (nested_children _ (genTicket (presets size) TICKET_STATUS)
                  Subscriber.subscriberId Ticket.subscriberId
                  (λ n, Cfg.ticketsPerSubscriberMin (presets size) ≤ n
                        ≤ Cfg.ticketsPerSubscriberMax (presets size)) subs.*1
                  (λ _, post_intBetween_any
                          (Cfg.ticketsPerSubscriberMin (presets size))
                          (Cfg.ticketsPerSubscriberMax (presets size))
                          ltac:(lia))
                  (post_genTicket_subscriber (presets size) TICKET_STATUS)
                  Hnd s10) as H.
    rewrite <- genTickets_nested, Hs10 in H.
    destruct (H s Hs) as (n & Hn & Hlen). rewrite Hlen. lia.
  - rewrite (children_of_Permutation _ _ _ sfeat)
      by apply jsSort_Permutation.
    destruct (post_genSubscriberFeatures_groups subs.*1 s8)
      as (groups & Hgr & Hg).
    rewrite Hs8 in Hgr. rewrite Hgr. unfold children_of.
    apply (grouped_filter Subscriber.subscriberId
             SubscriberFeature.subscriberId
             (λ _ g, (1 ≤ length g ≤ 2)%nat) subs.*1 groups); [done| |done].
    eapply Forall2_impl; [exact Hg|]. intros x g (H1 & H2 & _). done.
Qed.

Lemma children_per_subscriber_witness :
  let c := dataset 42 "S" in
  let s := Subscriber.mk 2004 1002 "+12145552004" "active" 1768266000000 in
  s ∈ Canonical.subscribers c ∧
  Z.of_nat (length (children_of UsageRecord.subscriberId 2004
                                (Canonical.usage_records c))) = 10.
Proof.
  intros c s.
  assert (s ∈ Canonical.subscribers c) as Hs.
  { apply (list_elem_of_lookup_2 _ 3%nat). vm_compute. reflexivity. }
  split; [exact Hs|].
  apply (children_per_subscriber 42 "S" s Hs).
Defined.

(** ** Rows, field by field *)

Lemma Forall_nested_elem {A B} (Q : B → Prop) (xs : list A) (ys : list B) :
  Forall (λ y, ∃ x, x ∈ xs ∧ Q y) ys → Forall Q ys.
Proof. intros H. eapply Forall_impl; [exact H|]. by intros y (x & _ & Hy). Qed.

Lemma post_genTicket_ok cfg s :
  post (genTicket cfg TICKET_STATUS s) (ticket_ok cfg).
Proof.
  unfold genTicket.
  eapply post_bind; [apply post_true|intros tid _].
  eapply post_bind; [apply (post_choice_any TICKET_STATUS); done|intros st Hst].
  eapply post_bind; [apply (post_intBetween_any 1 48); lia|intros h Hh].
  cbn beta in Hst, Hh.
  destruct (String.eqb (TicketStatusCode.code st) "RESOLVED") eqn:Hres.
  - apply String.eqb_eq in Hres.
    eapply post_bind.
    { eapply post_bind; [apply (post_intBetween_any 15 180); lia|intros m Hm].
      apply (post_ret _ (λ c, ∃ m, 15 ≤ m ≤ 180 ∧
               c = Some (base - Cfg.days cfg * dayMs + h * hourMs
                         + m * minuteMs))).
      exists m. split; [exact Hm|reflexivity]. }
    intros closed (m & Hm & ->).
    eapply post_bind;
      [apply (post_choice_any TICKET_SUMMARIES); done|intros summary Hsum].
    apply post_ret. unfold ticket_ok. cbn [Ticket.statusCode Ticket.openedAt
      Ticket.closedAt Ticket.summary].
    split; [by exists st|]. split; [unfold hourMs; lia|].
    split; [split; [done|by intros []]|].
    split; [|done]. intros closed [= <-]. unfold minuteMs. lia.
  - apply String.eqb_neq in Hres.
    eapply post_bind; [apply (post_ret _ (λ c, c = None)); done|].
    intros closed ->.
    eapply post_bind;
      [apply (post_choice_any TICKET_SUMMARIES); done|intros summary Hsum].
    apply post_ret. unfold ticket_ok. cbn [Ticket.statusCode Ticket.openedAt
      Ticket.closedAt Ticket.summary].
    split; [by exists st|]. split; [unfold hourMs; lia|].
    split; [done|]. split; [done|done].
Qed.

(** X15. Every ticket of a generated dataset carries a status code of
    the lookup table, was opened between 1 and 48 hours after the start
    of the window of the run, and has a closing time if and only if its
    status is RESOLVED; the closing time then lies between 15 and 180
    minutes after the opening. *)
Theorem tickets_well_formed seed size :
  Forall (ticket_ok (presets size)) (Canonical.tickets (dataset seed size)).
Proof.
  destruct (dataset_phases seed size) as
    (plans & regions & dcs & accounts & subs & devices & ords & sfeat &
     sfstate & tickets & notes & events & usage & Hd & F & P).
  rewrite Hd. cbn [Canonical.tickets].
  destruct (ph_tickets _ _ _ _ _ _ _ _ _ _ _ _ _ _ P) as [s10 <-].
  rewrite genTickets_nested. eapply Forall_nested_elem.
  apply (post_nested_elem _ _ (λ _, ticket_ok (presets size))).
  intros s. apply post_genTicket_ok.
Qed.

Lemma elem_of_list3 {A} (x a b c : A) : x ∈ [a; b; c] → x = a ∨ x = b ∨ x = c.
Proof.
  intros H. repeat (apply elem_of_cons in H as [->|H]; [auto|]).
  by apply elem_of_nil in H.
Qed.

Lemma elem_of_list6 {A} (x a b c d e f : A) :
  x ∈ [a; b; c; d; e; f] →
  x = a ∨ x = b ∨ x = c ∨ x = d ∨ x = e ∨ x = f.
Proof.
  intros H. repeat (apply elem_of_cons in H as [->|H]; [auto 7|]).
  by apply elem_of_nil in H.
Qed.

Lemma in_window_minutes cfg m :
  1 ≤ m ≤ Cfg.days cfg * 24 * 60 →
  in_window cfg (base - Cfg.days cfg * dayMs + m * minuteMs).
Proof.
  intros Hm. unfold in_window, base, dayMs, minuteMs. split; [lia|].
  replace (1768694400000 - Cfg.days cfg * (24 * 60 * 60 * 1000) + m * (60 * 1000))
    with ((29478240 - 1440 * Cfg.days cfg + m) * (60 * 1000)) by lia.
  apply Z_mod_mult.
Qed.

Lemma post_genUsageRecord_ok cfg s :
  1 ≤ Cfg.days cfg → post (genUsageRecord cfg s) (usage_ok cfg).
Proof.
  intros Hdays. unfold genUsageRecord.
  eapply post_bind; [apply (post_intBetween_any 1 (Cfg.days cfg * 24 * 60)); lia|].
  intros m Hm.
  eapply post_bind; [apply (post_choice_any usageTypes); done|intros ty Hty].
  cbn beta in Hm, Hty.
  apply elem_of_list3 in Hty as [-> | [-> | ->]].
  - eapply post_bind; [apply (post_intBetween_any 30 600); lia|intros u Hu].
    post_triv. apply post_ret. split; [by apply in_window_minutes|]. by left.
  - eapply post_bind; [apply (post_intBetween_any 1 5); lia|intros u Hu].
    post_triv. apply post_ret. split; [by apply in_window_minutes|].
    right; by left.
  - eapply post_bind; [apply (post_intBetween_any 256 10240); lia|intros u Hu].
    post_triv. apply post_ret. split; [by apply in_window_minutes|].
    right; by right.
Qed.

Lemma post_genPayload_matches eventType :
  eventType ∈ eventTypes →
  post (genPayload eventType) (payload_matches eventType).
Proof.
  intros Hty.
  apply elem_of_list6 in Hty as [-> | [-> | [-> | [-> | [-> | ->]]]]].
  - change (genPayload "radio_attach") with
      (let* c := intBetween 100 399 in let* r := intBetween 70 100 in
       ret (RadioAttach ("DFW-" +:+ String_ c) (- r))).
    eapply post_bind; [apply (post_intBetween_any 100 399); lia|intros c Hc].
    eapply post_bind; [apply (post_intBetween_any 70 100); lia|intros r Hr].
    apply post_ret. cbn beta in *. split; [done|]. split; [by exists c|lia].
  - change (genPayload "handover") with
      (let* a := intBetween 100 399 in let* b := intBetween 100 399 in
       ret (Handover ("DFW-" +:+ String_ a) ("DFW-" +:+ String_ b))).
    eapply post_bind; [apply (post_intBetween_any 100 399); lia|intros a Ha].
    eapply post_bind; [apply (post_intBetween_any 100 399); lia|intros b Hb].
    apply post_ret. cbn beta in *. split; [done|]. split; [by exists a|by exists b].
  - change (genPayload "data_session_start") with
      (let* a := intBetween 0 255 in let* b := intBetween 0 255 in
       let* c := intBetween 1 254 in
       ret (DataSessionStart "carrierops"
              ("10." +:+ String_ a +:+ "." +:+ String_ b +:+ "." +:+ String_ c))).
    eapply post_bind; [apply (post_intBetween_any 0 255); lia|intros a Ha].
    eapply post_bind; [apply (post_intBetween_any 0 255); lia|intros b Hb].
    eapply post_bind; [apply (post_intBetween_any 1 254); lia|intros c Hc].
    apply post_ret. cbn beta in *. split; [done|]. split; [done|].
    by exists a, b, c.
  - change (genPayload "data_session_end") with
      (let* up := intBetween 1000000 8000000 in
       let* down := intBetween 3000000 30000000 in
       ret (DataSessionEnd up down)).
    eapply post_bind;
      [apply (post_intBetween_any 1000000 8000000); lia|intros up Hup].
    eapply post_bind;
      [apply (post_intBetween_any 3000000 30000000); lia|intros down Hdown].
    apply post_ret. cbn beta in *. done.
  - change (genPayload "latency_probe") with
      (let* a := intBetween 20 80 in let* b := intBetween 100 350 in
       ret (LatencyProbe a b)).
    eapply post_bind; [apply (post_intBetween_any 20 80); lia|intros a Ha].
    eapply post_bind; [apply (post_intBetween_any 100 350); lia|intros b Hb].
    apply post_ret. cbn beta in *. done.
  - change (genPayload "attach_fail") with
      (let* c := choice ["network_congestion"; "auth_reject"; "radio_no_service"] in
       ret (AttachFail c)).
    eapply post_bind; [apply post_choice_any; done|intros c Hc].
    apply post_ret. cbn beta in *. done.
Qed.

Lemma post_genDeviceEvent_ok cfg d :
  1 ≤ Cfg.days cfg → post (genDeviceEvent cfg d) (event_ok cfg).
Proof.
  intros Hdays. unfold genDeviceEvent.
  eapply post_bind; [apply (post_intBetween_any 1 (Cfg.days cfg * 24 * 60)); lia|].
  intros m Hm.
  eapply post_bind; [apply (post_choice_any eventTypes); done|intros ty Hty].
  eapply post_bind; [by apply post_genPayload_matches|intros p Hp].
  post_triv. apply post_ret. split; [by apply in_window_minutes|done].
Qed.

Lemma dataset_usage_ok seed size :
  Forall (usage_ok (presets size)) (Canonical.usage_records (dataset seed size)).
Proof.
  destruct (dataset_phases seed size) as
    (plans & regions & dcs & accounts & subs & devices & ords & sfeat &
     sfstate & tickets & notes & events & usage & Hd & F & P).
  rewrite Hd. cbn [Canonical.usage_records].
  pose proof (presets_sane size) as Hsane. cbn zeta in Hsane.
  destruct (ph_usage _ _ _ _ _ _ _ _ _ _ _ _ _ _ P) as [s13 <-].
  rewrite genUsageRecords_nested. eapply Forall_nested_elem.
  apply (post_nested_elem _ _ (λ _, usage_ok (presets size))).
  intros s. apply post_genUsageRecord_ok. lia.
Qed.

Lemma dataset_events_ok seed size :
  Forall (event_ok (presets size)) (Canonical.device_events (dataset seed size)).
Proof.
  destruct (dataset_phases seed size) as
    (plans & regions & dcs & accounts & subs & devices & ords & sfeat &
     sfstate & tickets & notes & events & usage & Hd & F & P).
  rewrite Hd. cbn [Canonical.device_events].
  pose proof (presets_sane size) as Hsane. cbn zeta in Hsane.
  destruct (ph_events _ _ _ _ _ _ _ _ _ _ _ _ _ _ P) as [s12 <-].
  rewrite genDeviceEvents_nested. eapply Forall_nested_elem.
  apply (post_nested_elem _ _ (λ _, event_ok (presets size))).
  intros d. apply post_genDeviceEvent_ok. lia.
Qed.

(** X16. Every usage record and every device event of a generated
    dataset is stamped inside the window of the run (the preset's number
    of days ending at 2026-01-18T00:00:00Z), on a whole minute. The
    units of a usage record are in the range of its type (30 to 600
    seconds of voice, 1 to 5 messages, 256 to 10240 KB of data). The
    payload of an event is the one of its type, with every field in its
    range; the empty payload of the default branch never occurs. *)
Theorem usage_and_events_well_formed seed size :
  Forall (usage_ok (presets size)) (Canonical.usage_records (dataset seed size)) ∧
  Forall (event_ok (presets size)) (Canonical.device_events (dataset seed size)).
Proof. split; [apply dataset_usage_ok|apply dataset_events_ok]. Qed.

(** ** The bridge between subscribers and features *)

Lemma grouped_NoDup {X V} (kx : X → Z) (kv f : V → Z) xs
    (groups : list (list V)) :
  NoDup (map kx xs) →
  Forall2 (λ x g, Forall (λ v, kv v = kx x) g ∧ NoDup (map f g)) xs groups →
  NoDup (map (λ v, (kv v, f v)) (concat groups)).
Proof.
  intros Hnd Hg. induction Hg as [|x0 g0 xs gs [Hk Hf] Hg IH].
  { constructor. }
  cbn [map] in Hnd. apply NoDup_cons in Hnd as [Hnotin Hnd].
  cbn [concat]. rewrite map_app. apply NoDup_app. split_and!.
  - clear -Hk Hf. induction g0 as [|v g0 IH]; [constructor|].
    apply Forall_cons in Hk as [Hv Hk]. cbn [map] in Hf |- *.
    apply NoDup_cons in Hf as [Hnv Hf]. apply NoDup_cons. split; [|by apply IH].
    intros Hin. apply list_elem_of_fmap in Hin as (v' & [= _ Hfv] & Hv').
    apply Hnv. rewrite Hfv. by apply list_elem_of_fmap_2.
  - intros p Hp Hp'.
    apply list_elem_of_fmap in Hp as (v & -> & Hv).
    apply list_elem_of_fmap in Hp' as (v' & [= Hkv _] & Hv').
    apply Hnotin.
    rewrite Forall_forall in Hk. rewrite <- (Hk v Hv), Hkv.
    clear -Hg Hv'. induction Hg as [|x1 g1 xs gs [Hk1 _] _ IH].
    { by apply elem_of_nil in Hv'. }
    cbn [concat] in Hv'. apply elem_of_app in Hv' as [Hv'|Hv'].
    + rewrite Forall_forall in Hk1. rewrite (Hk1 v' Hv'). left.
    + right. by apply IH.
  - by apply IH.
Qed.

Lemma cmp_subscriberFeature_total a b :
  0 < cmp_subscriberFeature a b → cmp_subscriberFeature b a ≤ 0.
Proof.
  unfold cmp_subscriberFeature.
  destruct (Z.eqb_spec (SubscriberFeature.subscriberId a
                        - SubscriberFeature.subscriberId b) 0),
           (Z.eqb_spec (SubscriberFeature.subscriberId b
                        - SubscriberFeature.subscriberId a) 0); lia.
Qed.

Lemma dataset_bridge_NoDup seed size :
  NoDup (map (λ sf, (SubscriberFeature.subscriberId sf,
                     SubscriberFeature.featureId sf))
             (Canonical.subscriber_features (dataset seed size))).
Proof.
  destruct (dataset_phases seed size) as
    (plans & regions & dcs & accounts & subs & devices & ords & sfeat &
     sfstate & tickets & notes & events & usage & Hd & F & P).
  rewrite Hd. cbn [Canonical.subscriber_features].
  rewrite (jsSort_Permutation cmp_subscriberFeature sfeat).
  destruct (ph_sfeat _ _ _ _ _ _ _ _ _ _ _ _ _ _ P) as [s8 Hs8].
  destruct (post_genSubscriberFeatures_groups subs.*1 s8)
    as (groups & Hgr & Hg).
  rewrite Hs8 in Hgr. rewrite Hgr.
  apply (grouped_NoDup Subscriber.subscriberId
           SubscriberFeature.subscriberId SubscriberFeature.featureId
           subs.*1 groups).
  - eapply NoDup_keys_seqZ.
    apply (rf_subs_ids _ _ _ _ _ _ _ _ _ _ _ _ _ _ _ F).
  - eapply Forall2_impl; [exact Hg|]. intros x g (H1 & _ & H3). done.
Qed.

(** X17. The bridge rows of a generated dataset name each pair of a
    subscriber and a feature at most once (the pair is the primary key of
    the bridge table and of the unique index on it), and they come in the
    order of the subscriber identifier, then of the feature identifier. *)
Theorem bridge_rows_keyed seed size :
  let rows := Canonical.subscriber_features (dataset seed size) in
  NoDup (map (λ sf, (SubscriberFeature.subscriberId sf,
                     SubscriberFeature.featureId sf)) rows) ∧
  Sorted (λ a b,
      SubscriberFeature.subscriberId a < SubscriberFeature.subscriberId b ∨
      (SubscriberFeature.subscriberId a = SubscriberFeature.subscriberId b ∧
       SubscriberFeature.featureId a ≤ SubscriberFeature.featureId b)) rows.
Proof.
  intros rows. subst rows. split; [apply dataset_bridge_NoDup|].
  destruct (dataset_phases seed size) as
    (plans & regions & dcs & accounts & subs & devices & ords & sfeat &
     sfstate & tickets & notes & events & usage & Hd & F & P).
  rewrite Hd. cbn [Canonical.subscriber_features].
  - eapply Sorted_impl;
      [|apply (jsSort_Sorted _ cmp_subscriberFeature_total sfeat)].
    intros a b. unfold cmp_le, cmp_subscriberFeature.
    destruct (Z.eqb_spec (SubscriberFeature.subscriberId a
                          - SubscriberFeature.subscriberId b) 0); lia.
Qed.

Lemma post_genSubscriberFeatureState_groups cfg sfeat :
  post (genSubscriberFeatureState cfg sfeat)
       (λ sfstate, ∃ groups, sfstate = concat groups ∧
          Forall2 (λ sf g, g = [] ∨ ∃ st, g = [st] ∧
             SubscriberFeatureState.subscriberId st
               = SubscriberFeature.subscriberId sf ∧
             SubscriberFeatureState.featureId st
               = SubscriberFeature.featureId sf ∧
             state_ok cfg st) sfeat groups).
Proof.
  unfold genSubscriberFeatureState.
  eapply post_bind.
  - apply (post_mapM _ (λ sf g, g = [] ∨ ∃ st, g = [st] ∧
             SubscriberFeatureState.subscriberId st
               = SubscriberFeature.subscriberId sf ∧
             SubscriberFeatureState.featureId st
               = SubscriberFeature.featureId sf ∧
             state_ok cfg st)).
    intros sf _.
    eapply post_bind; [apply post_true|intros u _].
    destruct (draw_lt u 55 100); [apply post_ret; by left|].
    eapply post_bind; [apply (post_intBetween_any 1 48); lia|intros h Hh].
    eapply post_bind; [apply post_true|intros u1 _].
    eapply post_bind.
    { instantiate (1 := λ p, p ∈ ["pending"; "active"; "failed"]).
      destruct (draw_lt u1 75 100).
      - apply post_ret. right; left.
      - apply post_choice_any. done. }
    intros ps Hps.
    eapply post_bind; [apply post_choice_any; done|intros src Hsrc].
    eapply post_bind; [apply post_true|intros u2 _].
    eapply post_bind; [apply post_true|intros fid _].
    apply post_ret. right. eexists. split; [reflexivity|].
    cbn beta in *. split; [done|]. split; [done|].
    unfold state_ok. cbn [SubscriberFeatureState.effectiveFrom
      SubscriberFeatureState.effectiveTo
      SubscriberFeatureState.provisioningState SubscriberFeatureState.source].
    split; [unfold hourMs; lia|]. split; [|done].
    intros t. destruct (draw_lt u2 15 100); [by intros [= <-]|done].
  - intros groups Hg. apply post_ret. by exists groups.
Qed.

(** X18. A generated dataset holds at most one state row for each bridge
    row, so no pair of a subscriber and a feature has two states. Each
    state takes effect between 1 and 48 hours after the day before the
    window; when it has an end, the end is exactly 3 days later; its
    provisioning state and its source are among the three values of
    each. *)
Theorem feature_states_well_formed seed size :
  let rows := Canonical.subscriber_feature_state (dataset seed size) in
  NoDup (map (λ st, (SubscriberFeatureState.subscriberId st,
                     SubscriberFeatureState.featureId st)) rows) ∧
  Forall (state_ok (presets size)) rows.
Proof.
  intros rows. subst rows.
  destruct (dataset_phases seed size) as
    (plans & regions & dcs & accounts & subs & devices & ords & sfeat &
     sfstate & tickets & notes & events & usage & Hd & F & P).
  rewrite Hd. cbn [Canonical.subscriber_feature_state].
  destruct (ph_sfstate _ _ _ _ _ _ _ _ _ _ _ _ _ _ P) as [s9 Hs9].
  destruct (post_genSubscriberFeatureState_groups (presets size) sfeat s9)
    as (groups & Hgr & Hg).
  rewrite Hs9 in Hgr. rewrite Hgr. clear Hs9 Hgr. split.
  - apply (sublist_NoDup _ (map (λ sf, (SubscriberFeature.subscriberId sf,
                                        SubscriberFeature.featureId sf)) sfeat)).
    + destruct (ph_sfeat _ _ _ _ _ _ _ _ _ _ _ _ _ _ P) as [s8 Hs8].
      destruct (post_genSubscriberFeatures_groups subs.*1 s8)
        as (groups' & Hgr' & Hg').
      rewrite Hs8 in Hgr'. rewrite Hgr'.
      apply (grouped_NoDup Subscriber.subscriberId
               SubscriberFeature.subscriberId SubscriberFeature.featureId
               subs.*1 groups').
      * eapply NoDup_keys_seqZ.
        apply (rf_subs_ids _ _ _ _ _ _ _ _ _ _ _ _ _ _ _ F).
      * eapply Forall2_impl; [exact Hg'|]. intros x g (H1 & _ & H3). done.
    + clear -Hg. induction Hg as [|sf g sfeat gs Hsf _ IH]; [constructor|].
      cbn [concat map]. destruct Hsf as [-> | (st & -> & H1 & H2 & _)].
      * cbn [app]. by apply sublist_cons.
      * cbn [app map]. rewrite H1, H2. by apply sublist_skip.
  - clear -Hg. induction Hg as [|sf g sfeat gs Hsf _ IH]; [constructor|].
    cbn [concat]. apply Forall_app. split; [|exact IH].
    destruct Hsf as [-> | (st & -> & _ & _ & Hok)]; [constructor|].
    constructor; [exact Hok|constructor].
Qed.

(** ** Notes *)

Lemma post_genNotes_rows cfg subscribers orders tickets :
  post (genNotes cfg subscribers orders tickets)
       (λ notes, ∃ sh1 sh2 sh3,
          sh1 ≡ₚ subscribers ∧ sh2 ≡ₚ orders ∧ sh3 ≡ₚ tickets ∧
          Forall2 (λ r n, Note.refType n = NoteRef.refType r ∧
                          Note.refId n = NoteRef.refId r ∧ note_filled cfg n)
            (map (λ s, NoteRef.mk "subscriber" (Subscriber.subscriberId s))
                 (slice0 (Z.min 4 (Z.of_nat (length subscribers))) sh1)
             ++ map (λ o, NoteRef.mk "order" (Order.orderId o))
                    (slice0 (Z.min 3 (Z.of_nat (length orders))) sh2)
             ++ map (λ t, NoteRef.mk "ticket" (Ticket.ticketId t))
                    (slice0 (Z.min 4 (Z.of_nat (length tickets))) sh3))
            notes).
Proof.
  unfold genNotes.
  eapply post_bind; [apply post_shuffle|intros sh1 H1].
  eapply post_bind; [apply post_shuffle|intros sh2 H2].
  eapply post_bind; [apply post_shuffle|intros sh3 H3].
  cbn beta in H1, H2, H3.
  eapply post_weaken.
  { apply (post_mapM _ (λ r n, Note.refType n = NoteRef.refType r ∧
                               Note.refId n = NoteRef.refId r ∧
                               note_filled cfg n)).
    intros r _.
    eapply post_bind; [apply (post_intBetween_any 1 48); lia|intros h Hh].
    eapply post_bind; [apply post_true|intros nid _].
    eapply post_bind; [apply (post_choice_any NOTE_AUTHORS); done|intros au Hau].
    eapply post_bind; [apply (post_choice_any NOTE_BODIES); done|intros w Hw].
    apply post_ret. cbn beta in *. split; [done|]. split; [done|].
    unfold note_filled. cbn [Note.createdAt Note.author Note.body Note.refType
      Note.refId].
    split; [unfold hourMs; lia|]. split; [done|]. by exists w. }
  intros notes Hn. by exists sh1, sh2, sh3.
Qed.

Lemma NoDup_slice0_keys {A} (key : A → Z) n (sh l : list A) :
  sh ≡ₚ l → NoDup (map key l) → NoDup (map key (slice0 n sh)).
Proof.
  intros Hsh Hnd. apply (sublist_NoDup _ (key <$> sh)).
  - by rewrite Hsh.
  - apply (fmap_sublist key). apply slice0_sublist.
Qed.

Lemma NoDup_tagged {A} (tag : string) (key : A → Z) (l : list A) :
  NoDup (map key l) → NoDup (map (λ x, (tag, key x)) l).
Proof.
  induction l as [|x l IH]; [constructor|]. cbn [map]. intros H.
  apply NoDup_cons in H as [Hx H]. apply NoDup_cons. split; [|by apply IH].
  intros Hin. apply list_elem_of_fmap in Hin as (x' & [= Hk] & Hx').
  apply Hx. rewrite Hk. by apply list_elem_of_fmap_2.
Qed.

Lemma dataset_notes_count seed size :
  let c := dataset seed size in
  Z.of_nat (length (Canonical.notes c)) =
    Z.min 4 (Z.of_nat (length (Canonical.subscribers c)))
    + Z.min 3 (Z.of_nat (length (Canonical.orders c)))
    + Z.min 4 (Z.of_nat (length (Canonical.tickets c))).
Proof.
  intros c. subst c.
  destruct (dataset_phases seed size) as
    (plans & regions & dcs & accounts & subs & devices & ords & sfeat &
     sfstate & tickets & notes & events & usage & Hd & F & P).
  rewrite Hd.
  cbn [Canonical.notes Canonical.subscribers Canonical.orders Canonical.tickets].
  destruct (ph_notes _ _ _ _ _ _ _ _ _ _ _ _ _ _ P) as [s11 Hs11].
  destruct (post_genNotes_rows (presets size) subs.*1 ords.*1 tickets s11)
    as (sh1 & sh2 & sh3 & H1 & H2 & H3 & Hn).
  rewrite Hs11 in Hn. clear Hs11.
  apply Forall2_length in Hn. rewrite <- Hn.
  rewrite !length_app, !length_map.
  assert (length sh1 = length subs) as L1 by (by rewrite H1, length_fmap).
  assert (length sh2 = length ords) as L2 by (by rewrite H2, length_fmap).
  assert (length sh3 = length tickets) as L3 by (by rewrite H3).
  rewrite !length_slice0 by lia. lia.
Qed.

(** X19. The notes of a generated dataset: there are as many as the
    smaller of 4 and the number of subscribers, plus the smaller of 3 and
    the number of orders, plus the smaller of 4 and the number of tickets
    (11 at most); no subscriber, order or ticket gets two notes; and each
    note is written between 1 and 48 hours after the start of the window,
    by one of the six authors, with a body that names its target. *)
Theorem notes_well_formed seed size :
  let c := dataset seed size in
  Z.of_nat (length (Canonical.notes c)) =
    Z.min 4 (Z.of_nat (length (Canonical.subscribers c)))
    + Z.min 3 (Z.of_nat (length (Canonical.orders c)))
    + Z.min 4 (Z.of_nat (length (Canonical.tickets c))) ∧
  NoDup (map (λ n, (Note.refType n, Note.refId n)) (Canonical.notes c)) ∧
  Forall (note_filled (presets size)) (Canonical.notes c).
Proof.
  intros c. subst c.
  destruct (dataset_phases seed size) as
    (plans & regions & dcs & accounts & subs & devices & ords & sfeat &
     sfstate & tickets & notes & events & usage & Hd & F & P).
  rewrite Hd.
  cbn [Canonical.notes Canonical.subscribers Canonical.orders Canonical.tickets].
  destruct (ph_notes _ _ _ _ _ _ _ _ _ _ _ _ _ _ P) as [s11 Hs11].
  destruct (post_genNotes_rows (presets size) subs.*1 ords.*1 tickets s11)
    as (sh1 & sh2 & sh3 & H1 & H2 & H3 & Hn).
  rewrite Hs11 in Hn. clear Hs11.
  assert (NoDup (map Subscriber.subscriberId subs.*1)) as Hnd1.
  { eapply NoDup_keys_seqZ. apply (rf_subs_ids _ _ _ _ _ _ _ _ _ _ _ _ _ _ _ F). }
  assert (NoDup (map Order.orderId ords.*1)) as Hnd2.
  { eapply NoDup_keys_seqZ. apply (rf_ords_ids _ _ _ _ _ _ _ _ _ _ _ _ _ _ _ F). }
  assert (NoDup (map Ticket.ticketId tickets)) as Hnd3.
  { eapply NoDup_keys_seqZ.
    apply (rf_tickets_ids _ _ _ _ _ _ _ _ _ _ _ _ _ _ _ F). }
  set (refs := _ ++ _ ++ _) in Hn.
  assert (map (λ n, (Note.refType n, Note.refId n)) notes
          = map (λ r, (NoteRef.refType r, NoteRef.refId r)) refs) as Hkeys.
  { clear -Hn. induction Hn as [|r n refs notes (E1 & E2 & _) _ IH]; [done|].
    cbn [map]. by rewrite E1, E2, IH. }
  split; [|split].
  - pose proof (dataset_notes_count seed size) as Hc. cbn zeta in Hc.
    rewrite Hd in Hc. exact Hc.
  - rewrite Hkeys. unfold refs. rewrite !map_app, !map_map. cbn [NoteRef.refType
      NoteRef.refId].
    apply NoDup_app. split_and!.
    + apply NoDup_tagged. by eapply NoDup_slice0_keys.
    + intros p Hp Hp'. apply list_elem_of_fmap in Hp as (k & -> & _).
      apply elem_of_app in Hp' as [Hp'|Hp'];
        apply list_elem_of_fmap in Hp' as (k' & [=] & _).
    + apply NoDup_app. split_and!.
      * apply NoDup_tagged. by eapply NoDup_slice0_keys.
      * intros p Hp Hp'. apply list_elem_of_fmap in Hp as (k & -> & _).
        apply list_elem_of_fmap in Hp' as (k' & [=] & _).
      * apply NoDup_tagged. by eapply NoDup_slice0_keys.
  - clear -Hn. induction Hn as [|r n refs notes (_ & _ & Hok) _ IH];
      constructor; done.
Qed.

(** ** How many rows *)

Lemma length_concat_bounds {A} (lo hi : Z) (groups : list (list A)) :
  Forall (λ g, lo ≤ Z.of_nat (length g) ≤ hi) groups →
  lo * Z.of_nat (length groups) ≤ Z.of_nat (length (concat groups))
    ≤ hi * Z.of_nat (length groups).
Proof.
  induction 1 as [|g gs Hg _ IH]; simpl; [lia|]. rewrite length_app. lia.
Qed.

Lemma length2 {A} (l : list A) : length l = 2%nat → ∃ a b, l = [a; b].
Proof. destruct l as [|a [|b [|]]]; try done. by exists a, b. Qed.

Lemma dataset_counts seed size :
  let c := dataset seed size in
  let cfg := presets size in
  let n {A} (l : list A) := Z.of_nat (length l) in
  n (Canonical.accounts c) = Cfg.accounts cfg ∧
  Cfg.subsPerAccountMin cfg * n (Canonical.accounts c)
    ≤ n (Canonical.subscribers c)
    ≤ Cfg.subsPerAccountMax cfg * n (Canonical.accounts c) ∧
  n (Canonical.subscriber_profiles c) = n (Canonical.subscribers c) ∧
  n (Canonical.devices c) = n (Canonical.subscribers c) ∧
  Cfg.ordersPerAccountMin cfg * n (Canonical.accounts c)
    ≤ n (Canonical.orders c)
    ≤ Cfg.ordersPerAccountMax cfg * n (Canonical.accounts c) ∧
  Cfg.itemsPerOrderMin cfg * n (Canonical.orders c)
    ≤ n (Canonical.order_items c)
    ≤ Cfg.itemsPerOrderMax cfg * n (Canonical.orders c) ∧
  n (Canonical.subscribers c) ≤ n (Canonical.subscriber_features c)
    ≤ 2 * n (Canonical.subscribers c) ∧
  n (Canonical.subscriber_feature_state c)
    ≤ n (Canonical.subscriber_features c) ∧
  Cfg.ticketsPerSubscriberMin cfg * n (Canonical.subscribers c)
    ≤ n (Canonical.tickets c)
    ≤ Cfg.ticketsPerSubscriberMax cfg * n (Canonical.subscribers c) ∧
  Cfg.deviceEventsPerDeviceMin cfg * n (Canonical.devices c)
    ≤ n (Canonical.device_events c)
    ≤ Cfg.deviceEventsPerDeviceMax cfg * n (Canonical.devices c) ∧
  n (Canonical.usage_records c)
    = Cfg.usageRecordsPerSubscriber cfg * n (Canonical.subscribers c) ∧
  n (Canonical.features c) = 4 ∧ n (Canonical.ticket_status_codes c) = 3 ∧
  n (Canonical.org_units c) = 5 ∧ n (Canonical.plans c) = 2 ∧
  n (Canonical.regions c) = 2 ∧ n (Canonical.device_classes c) = 2 ∧
  n (Canonical.rates c) = 8.
Proof.
  intros c cfg n. subst c cfg n. cbn beta.
  destruct (dataset_phases seed size) as
    (plans & regions & dcs & accounts & subs & devices & ords & sfeat &
     sfstate & tickets & notes & events & usage & Hd & F & P).
  rewrite Hd.
  cbn [Canonical.accounts Canonical.subscribers Canonical.subscriber_profiles
       Canonical.devices Canonical.device_events Canonical.orders
       Canonical.order_items Canonical.features Canonical.subscriber_features
       Canonical.subscriber_feature_state Canonical.ticket_status_codes
       Canonical.tickets Canonical.notes Canonical.org_units Canonical.plans
       Canonical.regions Canonical.device_classes Canonical.rates
       Canonical.usage_records].
  pose proof (presets_sane size) as Hsane. cbn zeta in Hsane.
  destruct (ph_subs _ _ _ _ _ _ _ _ _ _ _ _ _ _ P) as [s5 Hs5].
  destruct (ph_devices _ _ _ _ _ _ _ _ _ _ _ _ _ _ P) as [s6 Hs6].
  destruct (ph_ords _ _ _ _ _ _ _ _ _ _ _ _ _ _ P) as [s7 Hs7].
  destruct (ph_sfeat _ _ _ _ _ _ _ _ _ _ _ _ _ _ P) as [s8 Hs8].
  destruct (ph_sfstate _ _ _ _ _ _ _ _ _ _ _ _ _ _ P) as [s9 Hs9].
  destruct (ph_tickets _ _ _ _ _ _ _ _ _ _ _ _ _ _ P) as [s10 Hs10].
  destruct (ph_events _ _ _ _ _ _ _ _ _ _ _ _ _ _ P) as [s12 Hs12].
  destruct (ph_usage _ _ _ _ _ _ _ _ _ _ _ _ _ _ P) as [s13 Hs13].
  rewrite !length_fmap, length_jsSort.
  assert (Z.of_nat (length accounts) = Cfg.accounts (presets size)) as Hacc.
  { rewrite (rf_accounts_len _ _ _ _ _ _ _ _ _ _ _ _ _ _ _ F). lia. }
  assert (Cfg.subsPerAccountMin (presets size) * Z.of_nat (length accounts)
            ≤ Z.of_nat (length subs)
            ≤ Cfg.subsPerAccountMax (presets size) * Z.of_nat (length accounts))
    as Hsubs.
  { rewrite <- Hs5, genSubscribers_nested.
    apply post_nested_length; [lia|]. intros _. apply post_intBetween_any. lia. }
  assert (length devices = length subs) as Hdev.
  { pose proof (post_genDevices subs.*1 s6) as H. rewrite Hs6 in H.
    apply Forall2_length in H. by rewrite length_fmap in H. }
  assert (Cfg.ordersPerAccountMin (presets size) * Z.of_nat (length accounts)
            ≤ Z.of_nat (length ords)
            ≤ Cfg.ordersPerAccountMax (presets size) * Z.of_nat (length accounts))
    as Hords.
  { rewrite <- Hs7, genOrders_nested.
    apply post_nested_length; [lia|]. intros _. apply post_intBetween_any. lia. }
  assert (Cfg.itemsPerOrderMin (presets size) * Z.of_nat (length ords)
            ≤ Z.of_nat (length (concat ords.*2))
            ≤ Cfg.itemsPerOrderMax (presets size) * Z.of_nat (length ords))
    as Hitems.
  { rewrite <- (length_fmap snd ords). apply length_concat_bounds.
    apply Forall_fmap.
    eapply Forall_impl; [apply (rf_ords _ _ _ _ _ _ _ _ _ _ _ _ _ _ _ F)|].
    intros r (a & _ & _ & _ & _ & _ & Hlen). cbn [compose]. apply Hlen; lia. }
  destruct (post_genSubscriberFeatures_groups subs.*1 s8)
    as (groups & Hgr & Hg).
  rewrite Hs8 in Hgr.
  assert (Z.of_nat (length subs) ≤ Z.of_nat (length sfeat)
            ≤ 2 * Z.of_nat (length subs)) as Hsfeat.
  { rewrite Hgr. pose proof (Forall2_length _ _ _ Hg) as Hlen.
    rewrite length_fmap in Hlen. rewrite Hlen.
    pose proof (length_concat_bounds 1 2 groups) as Hb.
    rewrite Z.mul_1_l in Hb. apply Hb.
    clear -Hg. induction Hg as [|x g xs gs (_ & H & _) _ IH]; constructor;
      [lia|exact IH]. }
  destruct (post_genSubscriberFeatureState_groups (presets size) sfeat s9)
    as (groups' & Hgr' & Hg').
  rewrite Hs9 in Hgr'.
  assert (Z.of_nat (length sfstate) ≤ Z.of_nat (length sfeat)) as Hstate.
  { rewrite Hgr'. pose proof (Forall2_length _ _ _ Hg') as Hlen. rewrite Hlen.
    pose proof (length_concat_bounds 0 1 groups') as Hb.
    rewrite Z.mul_1_l in Hb. apply Hb.
    clear -Hg'. induction Hg' as [|x g xs gs Hx _ IH]; constructor; [|exact IH].
    destruct Hx as [-> | (st & -> & _)]; simpl; lia. }
  assert (Cfg.ticketsPerSubscriberMin (presets size) * Z.of_nat (length subs)
            ≤ Z.of_nat (length tickets)
            ≤ Cfg.ticketsPerSubscriberMax (presets size) * Z.of_nat (length subs))
    as Htickets.
  { rewrite <- Hs10, genTickets_nested, <- (length_fmap fst subs).
    apply post_nested_length; [lia|]. intros _. apply post_intBetween_any. lia. }
  assert (Cfg.deviceEventsPerDeviceMin (presets size) * Z.of_nat (length devices)
            ≤ Z.of_nat (length events)
            ≤ Cfg.deviceEventsPerDeviceMax (presets size)
              * Z.of_nat (length devices)) as Hevents.
  { rewrite <- Hs12, genDeviceEvents_nested.
    apply post_nested_length; [lia|]. intros _. apply post_intBetween_any. lia. }
  assert (Z.of_nat (length usage)
          = Cfg.usageRecordsPerSubscriber (presets size) * Z.of_nat (length subs))
    as Husage.
  { assert (∀ x : Subscriber.t,
              post (ret (Cfg.usageRecordsPerSubscriber (presets size)))
                   (λ n, Cfg.usageRecordsPerSubscriber (presets size) ≤ n
                         ≤ Cfg.usageRecordsPerSubscriber (presets size)))
      as Hret by (intros _; apply post_ret; lia).
    pose proof (post_nested_length
                  (λ _, ret (Cfg.usageRecordsPerSubscriber (presets size)))
                  (genUsageRecord (presets size))
                  (Cfg.usageRecordsPerSubscriber (presets size))
                  (Cfg.usageRecordsPerSubscriber (presets size)) subs.*1
                  ltac:(lia) Hret s13) as H.
    cbn beta in H. rewrite <- genUsageRecords_nested, Hs13, length_fmap in H.
    lia. }
  assert (length plans = 2%nat) as Hl1.
  { rewrite <- (length_map Plan.planId),
      (rf_plans _ _ _ _ _ _ _ _ _ _ _ _ _ _ _ F). done. }
  assert (length regions = 2%nat) as Hl2.
  { rewrite <- (length_map Region.regionId),
      (rf_regions _ _ _ _ _ _ _ _ _ _ _ _ _ _ _ F). done. }
  assert (length dcs = 2%nat) as Hl3.
  { rewrite <- (length_map DeviceClass.deviceClassId),
      (rf_classes _ _ _ _ _ _ _ _ _ _ _ _ _ _ _ F). done. }
  assert (length (genRates plans regions dcs) = 8%nat) as Hrates.
  { apply length2 in Hl1 as (p1 & p2 & ->). apply length2 in Hl2 as (r1 & r2 & ->).
    apply length2 in Hl3 as (d1 & d2 & ->). reflexivity. }
  rewrite Hdev, Hl1, Hl2, Hl3, Hrates.
  repeat (split; [first [done | lia]|]). done.
Qed.

Lemma manifest_counts_lookup c :
  let n {A} (l : list A) := Z.of_nat (length l) in
  manifest_counts c =
  [("accounts", n (Canonical.accounts c));
   ("subscribers", n (Canonical.subscribers c));
   ("subscriber_profiles", n (Canonical.subscriber_profiles c));
   ("devices", n (Canonical.devices c));
   ("device_events", n (Canonical.device_events c));
   ("orders", n (Canonical.orders c));
   ("order_items", n (Canonical.order_items c));
   ("features", n (Canonical.features c));
   ("subscriber_features", n (Canonical.subscriber_features c));
   ("subscriber_feature_state", n (Canonical.subscriber_feature_state c));
   ("ticket_status_codes", n (Canonical.ticket_status_codes c));
   ("tickets", n (Canonical.tickets c));
   ("notes", n (Canonical.notes c));
   ("org_units", n (Canonical.org_units c));
   ("plans", n (Canonical.plans c));
   ("regions", n (Canonical.regions c));
   ("device_classes", n (Canonical.device_classes c));
   ("rates", n (Canonical.rates c));
   ("usage_records", n (Canonical.usage_records c))].
Proof. reflexivity. Qed.

(** X20. The counts of the manifest of a run obey the preset: as many
    accounts as it asks for; subscribers, orders, order items, tickets
    and device events within its bounds times the number of their
    parents; one profile and one device per subscriber; between one and
    two bridge rows per subscriber and at most one state per bridge row;
    exactly the preset's number of usage records per subscriber; and the
    fixed sizes of the vocabulary tables. *)
Theorem manifest_counts_consistent args env m files :
  generateAll args env = (Ok m, files) →
  let n := manifest_count m in
  let cfg := presets (Args.size args) in
  n "accounts" = Cfg.accounts cfg ∧
  Cfg.subsPerAccountMin cfg * n "accounts" ≤ n "subscribers"
    ≤ Cfg.subsPerAccountMax cfg * n "accounts" ∧
  n "subscriber_profiles" = n "subscribers" ∧
  n "devices" = n "subscribers" ∧
  Cfg.ordersPerAccountMin cfg * n "accounts" ≤ n "orders"
    ≤ Cfg.ordersPerAccountMax cfg * n "accounts" ∧
  Cfg.itemsPerOrderMin cfg * n "orders" ≤ n "order_items"
    ≤ Cfg.itemsPerOrderMax cfg * n "orders" ∧
  n "subscribers" ≤ n "subscriber_features" ≤ 2 * n "subscribers" ∧
  n "subscriber_feature_state" ≤ n "subscriber_features" ∧
  Cfg.ticketsPerSubscriberMin cfg * n "subscribers" ≤ n "tickets"
    ≤ Cfg.ticketsPerSubscriberMax cfg * n "subscribers" ∧
  Cfg.deviceEventsPerDeviceMin cfg * n "devices" ≤ n "device_events"
    ≤ Cfg.deviceEventsPerDeviceMax cfg * n "devices" ∧
  n "usage_records" = Cfg.usageRecordsPerSubscriber cfg * n "subscribers" ∧
  n "features" = 4 ∧ n "ticket_status_codes" = 3 ∧ n "org_units" = 5 ∧
  n "plans" = 2 ∧ n "regions" = 2 ∧ n "device_classes" = 2 ∧ n "rates" = 8.
Proof.
  intros H n cfg. subst n cfg. apply generateAll_Ok in H. subst m.
  unfold manifest_count, build_manifest. cbn [Manifest.counts].
  rewrite manifest_counts_lookup. cbn zeta.
  cbn [props_get String.eqb Ascii.eqb Bool.eqb default].
  apply (dataset_counts (Args.seed args) (Args.size args)).
Qed.

Lemma manifest_counts_consistent_witness :
  ∃ m files,
    generateAll (Args.mk "S" 42 "seed" "canonical" false)
                (Env.mk 0 false no_error)
      = (Ok m, files) ∧
    manifest_count m "usage_records" = 10 * manifest_count m "subscribers".
Proof.
  assert (∃ m files,
            generateAll (Args.mk "S" 42 "seed" "canonical" false)
                        (Env.mk 0 false no_error)
            = (Ok m, files)) as (m & files & E).
  { eexists _, _. vm_compute. reflexivity. }
  exists m, files. split; [exact E|].
  apply (manifest_counts_consistent _ _ m files E).
Defined.

(** ** Identifier ranges *)

Lemma ranges_step a n b (l : list Z) :
  0 ≤ n → a + n ≤ b → NoDup l ∧ Forall (λ x, b ≤ x) l →
  NoDup (seqZ a n ++ l) ∧ Forall (λ x, a ≤ x) (seqZ a n ++ l).
Proof.
  intros Hn Hab [Hnd Hlo]. split.
  - apply NoDup_app. split; [apply NoDup_seqZ|]. split; [|done].
    intros x Hx Hx'. apply elem_of_seqZ in Hx.
    rewrite Forall_forall in Hlo. specialize (Hlo x Hx'). lia.
  - apply Forall_app. split.
    + apply Forall_forall. intros x Hx. apply elem_of_seqZ in Hx. lia.
    + eapply Forall_impl; [exact Hlo|]. intros x Hx. cbn beta in Hx. lia.
Qed.

(** X21. At size S, whatever the seed, no identifier is used twice: the
    identifiers of the fifteen entity types that have one of their own
    are pairwise distinct, within a type and across types. *)
Theorem size_S_identifiers_distinct seed :
  NoDup (concat (identifiers (dataset seed "S"))).
Proof.
  pose proof (generated_ids_consecutive seed "S") as Hids. cbn zeta in Hids.
  pose proof (dataset_counts seed "S") as Hc. cbn zeta in Hc.
  pose proof (dataset_notes_count seed "S") as Hn. cbn zeta in Hn.
  change (presets "S") with preset_S in Hc.
  cbn [preset_S Cfg.accounts Cfg.subsPerAccountMin Cfg.subsPerAccountMax
       Cfg.ordersPerAccountMin Cfg.ordersPerAccountMax Cfg.itemsPerOrderMin
       Cfg.itemsPerOrderMax Cfg.ticketsPerSubscriberMin
       Cfg.ticketsPerSubscriberMax Cfg.deviceEventsPerDeviceMin
       Cfg.deviceEventsPerDeviceMax Cfg.usageRecordsPerSubscriber] in Hc.
  destruct Hids as (I1 & I2 & I3 & I4 & I5 & I6 & I7 & I8 & I9 & I10 & I11 &
                    I12 & I13 & I14 & I15).
  destruct Hc as (C1 & C2 & C3 & C4 & C5 & C6 & C7 & C8 & C9 & C10 & C11 &
                  C12 & C13 & C14 & C15 & C16 & C17 & C18).
  unfold identifiers.
  rewrite I1, I2, I3, I4, I5, I6, I7, I8, I9, I10, I11, I12, I13, I14, I15.
  revert Hn.
  cbn [concat].
  generalize dependent (dataset seed "S"). intros c I1 I2 I3 I4 I5 I6 I7 I8 I9
    I10 I11 I12 I13 I14 I15 C1 C2 C3 C4 C5 C6 C7 C8 C9 C10 C11 C12 C13 C14 C15
    C16 C17 C18 Hn.
  clear I1 I2 I3 I4 I5 I6 I7 I8 I9 I10 I11 I12 I13 I14 I15.
  match goal with
  | |- NoDup ?l => apply (proj1 (A := NoDup l) (B := Forall (λ x, 1001 ≤ x) l))
  end.
  repeat match goal with
  | |- NoDup (seqZ ?a ?n ++ seqZ ?b ?m ++ ?l) ∧ _ =>
      apply (ranges_step a n b); [lia|lia|]
  end.
  apply (ranges_step _ _ (14001 + Z.of_nat (length (Canonical.usage_records c))));
    [lia|lia|]. split; constructor.
Qed.

(** X22. At size L, whatever the seed, a device event and a usage record
    share the identifier 14001: the range of device event identifiers
    starts at 13001 and every run at that size makes more than a thousand
    events, so it runs into the range of usage record identifiers, which
    starts at 14001. *)
Theorem size_L_event_meets_usage seed :
  ∃ e r,
    e ∈ Canonical.device_events (dataset seed "L") ∧
    r ∈ Canonical.usage_records (dataset seed "L") ∧
    DeviceEvent.deviceEventId e = 14001 ∧ UsageRecord.usageRecordId r = 14001.
Proof.
  pose proof (generated_ids_consecutive seed "L") as Hids. cbn zeta in Hids.
  pose proof (dataset_counts seed "L") as Hc. cbn zeta in Hc.
  change (presets "L") with preset_L in Hc.
  cbn [preset_L Cfg.accounts Cfg.subsPerAccountMin Cfg.subsPerAccountMax
       Cfg.ordersPerAccountMin Cfg.ordersPerAccountMax Cfg.itemsPerOrderMin
       Cfg.itemsPerOrderMax Cfg.ticketsPerSubscriberMin
       Cfg.ticketsPerSubscriberMax Cfg.deviceEventsPerDeviceMin
       Cfg.deviceEventsPerDeviceMax Cfg.usageRecordsPerSubscriber] in Hc.
  destruct Hids as (_ & _ & _ & _ & _ & _ & _ & _ & _ & _ & _ & _ & _ &
                    I14 & I15).
  destruct Hc as (C1 & C2 & C3 & C4 & C5 & C6 & C7 & C8 & C9 & C10 & C11 & _).
  generalize dependent (dataset seed "L").
  intros c I14 I15 C1 C2 C3 C4 C5 C6 C7 C8 C9 C10 C11.
  assert (14001 ∈ map DeviceEvent.deviceEventId (Canonical.device_events c))
    as He.
  { rewrite I14. apply elem_of_seqZ. lia. }
  assert (14001 ∈ map UsageRecord.usageRecordId (Canonical.usage_records c))
    as Hr.
  { rewrite I15. apply elem_of_seqZ. lia. }
  apply list_elem_of_fmap in He as (e & He & Hin).
  apply list_elem_of_fmap in Hr as (r & Hr & Hin').
  exists e, r. split; [exact Hin|]. split; [exact Hin'|].
  split; [symmetry; exact He|symmetry; exact Hr].
Qed.

(** ** The constraints of the schema *)

Lemma append_inj_r (p a b : string) : p +:+ a = p +:+ b → a = b.
Proof.
  induction p as [|c p IH]; [done|]. rewrite !append_cons. intros [= H].
  by apply IH.
Qed.

Lemma String_pos n : 0 < n → String_ n = pretty (Z.to_N n).
Proof. by destruct n. Qed.

Lemma pretty_N_4_digits (x : N) :
  (1000 ≤ x ≤ 9999)%N → String.length (pretty x) = 4%nat.
Proof.
  intros Hx. unfold pretty, pretty_N.
  destruct (decide (x = 0%N)) as [->|_]; [lia|].
  assert (100 ≤ x / 10 ≤ 999)%N as H1.
  { split; [apply N.div_le_lower_bound; lia|].
    apply N.lt_succ_r. apply N.Div0.div_lt_upper_bound. lia. }
  assert (10 ≤ x / 10 / 10 ≤ 99)%N as H2.
  { split; [apply N.div_le_lower_bound; lia|].
    apply N.lt_succ_r. apply N.Div0.div_lt_upper_bound. lia. }
  assert (1 ≤ x / 10 / 10 / 10 ≤ 9)%N as H3.
  { split; [apply N.div_le_lower_bound; lia|].
    apply N.lt_succ_r. apply N.Div0.div_lt_upper_bound. lia. }
  assert (x / 10 / 10 / 10 / 10 = 0)%N as H4.
  { apply N.div_small. lia. }
  rewrite (pretty_N_go_step x) by lia.
  rewrite (pretty_N_go_step (x / 10)) by lia.
  rewrite (pretty_N_go_step (x / 10 / 10)) by lia.
  rewrite (pretty_N_go_step (x / 10 / 10 / 10)) by lia.
  rewrite H4. reflexivity.
Qed.

Lemma String_length_4 n :
  1000 ≤ n ≤ 9999 → String.length (String_ n) = 4%nat.
Proof. intros H. rewrite String_pos by lia. apply pretty_N_4_digits. lia. Qed.

Lemma padNum_4 n : 1000 ≤ n ≤ 9999 → padNum n 4 = String_ n.
Proof. intros H. unfold padNum, padStart. by rewrite String_length_4. Qed.

Lemma padNum_6 n : 1000 ≤ n ≤ 9999 → padNum n 6 = "00" +:+ String_ n.
Proof. intros H. unfold padNum, padStart. by rewrite String_length_4. Qed.

Lemma String_inj n m : String_ n = String_ m → n = m.
Proof. apply (inj (pretty : Z → string)). Qed.

Lemma NoDup_map_derived {A K} (key : A → Z) (f : A → K) (g : Z → K)
    (l : list A) :
  Forall (λ x, f x = g (key x)) l →
  (∀ x y, x ∈ l → y ∈ l → g (key x) = g (key y) → key x = key y) →
  NoDup (map key l) → NoDup (map f l).
Proof.
  intros Hf Hg. induction l as [|x l IH]; [constructor|].
  cbn [map]. intros Hnd. apply NoDup_cons in Hnd as [Hx Hnd].
  apply Forall_cons in Hf as [Hfx Hf].
  apply NoDup_cons. split.
  - intros Hin. apply list_elem_of_fmap in Hin as (y & Hy & Hyl).
    apply Hx. rewrite Forall_forall in Hf. rewrite Hfx, (Hf y Hyl) in Hy.
    rewrite (Hg x y); [by apply list_elem_of_fmap_2|left|by right|done].
  - apply IH; [done| |done]. intros a b Ha Hb. apply Hg; by right.
Qed.

Lemma keys_in_run {A} (key : A → Z) (l : list A) a :
  map key l = seqZ a (Z.of_nat (length l)) →
  ∀ x, x ∈ l → a ≤ key x < a + Z.of_nat (length l).
Proof.
  intros Hl x Hx.
  assert (key x ∈ seqZ a (Z.of_nat (length l))) as Hk.
  { rewrite <- Hl. by apply list_elem_of_fmap_2. }
  apply elem_of_seqZ in Hk. lia.
Qed.

Lemma Forall2_right {A B} (Q : B → Prop) (xs : list A) (ys : list B) :
  Forall2 (λ _ y, Q y) xs ys → Forall Q ys.
Proof. induction 1; constructor; done. Qed.

Lemma post_genAccounts_number cfg :
  post (genAccounts cfg)
       (Forall (λ a, Account.accountNumber a
                     = "A-" +:+ String_ (Account.accountId a))).
Proof.
  unfold genAccounts. eapply post_weaken.
  { apply (post_forM _ (λ a, Account.accountNumber a
                             = "A-" +:+ String_ (Account.accountId a))).
    intros i. post_triv. }
  intros accts [H _]. exact H.
Qed.

Lemma post_genSubscribers_msisdn cfg accounts :
  post (genSubscribers cfg accounts)
       (Forall (λ r, Subscriber.msisdn r.1
          = "+1214555" +:+ padNum (Z.rem (Subscriber.subscriberId r.1) 10000) 4)).
Proof.
  rewrite genSubscribers_nested. intros s. eapply Forall_nested_elem.
  apply (post_nested_elem _ _ (λ _ r, Subscriber.msisdn r.1
          = "+1214555" +:+ padNum (Z.rem (Subscriber.subscriberId r.1) 10000) 4)).
  intros acct. unfold genSubscriber. post_triv.
Qed.

Lemma post_genDevices_imei subscribers :
  post (genDevices subscribers)
       (Forall (λ d, Device.imei d
                     = "356789012" +:+ padNum (Device.deviceId d) 6)).
Proof.
  unfold genDevices. eapply post_weaken.
  { apply (post_mapM _ (λ _ d, Device.imei d
                     = "356789012" +:+ padNum (Device.deviceId d) 6)).
    intros s _. post_triv. }
  intros ds H. by eapply Forall2_right.
Qed.

Lemma post_genPlans_codes :
  post genPlans (λ l, map Plan.code l = ["PLAN-UNL-5G"; "PLAN-5G-STARTER"] ∧
                      map Plan.name l = ["Unlimited 5G"; "5G Starter"]).
Proof. unfold genPlans. post_triv. Qed.

Lemma post_genRegions_codes : post genRegions (λ l, map Region.code l = REGION_CODES).
Proof.
  unfold genRegions. eapply post_weaken.
  { apply (post_mapM _ (λ code r, Region.code r = code)).
    intros code _. post_triv. }
  intros l H. induction H as [|code r codes l Hr _ IH]; [done|].
  cbn [map]. by rewrite Hr, IH.
Qed.

Lemma post_genDeviceClasses_codes :
  post genDeviceClasses (λ l, map DeviceClass.code l = ["PHONE"; "TABLET"]).
Proof. unfold genDeviceClasses. post_triv. Qed.

Lemma dataset_vocabulary seed size :
  let c := dataset seed size in
  Canonical.plans c = [Plan.mk 10001 "PLAN-UNL-5G" "Unlimited 5G";
                       Plan.mk 10002 "PLAN-5G-STARTER" "5G Starter"] ∧
  Canonical.regions c = [Region.mk 11001 "TX-NORTH";
                         Region.mk 11002 "TX-SOUTH"] ∧
  Canonical.device_classes c = [DeviceClass.mk 12001 "PHONE";
                                DeviceClass.mk 12002 "TABLET"] ∧
  Canonical.rates c = genRates (Canonical.plans c) (Canonical.regions c)
                               (Canonical.device_classes c).
Proof.
  cbn zeta.
  destruct (dataset_phases seed size) as
    (plans & regions & dcs & accounts & subs & devices & ords & sfeat &
     sfstate & tickets & notes & events & usage & Hd & F & P).
  rewrite Hd.
  cbn [Canonical.plans Canonical.regions Canonical.device_classes
       Canonical.rates].
  pose proof (rf_plans _ _ _ _ _ _ _ _ _ _ _ _ _ _ _ F) as Hp.
  pose proof (rf_regions _ _ _ _ _ _ _ _ _ _ _ _ _ _ _ F) as Hr.
  pose proof (rf_classes _ _ _ _ _ _ _ _ _ _ _ _ _ _ _ F) as Hc.
  destruct (ph_plans _ _ _ _ _ _ _ _ _ _ _ _ _ _ P) as [s1 Hs1].
  destruct (ph_regions _ _ _ _ _ _ _ _ _ _ _ _ _ _ P) as [s2 Hs2].
  destruct (ph_classes _ _ _ _ _ _ _ _ _ _ _ _ _ _ P) as [s3 Hs3].
  pose proof (post_genPlans_codes s1) as [Hp1 Hp2]. rewrite Hs1 in Hp1, Hp2.
  pose proof (post_genRegions_codes s2) as Hr1. cbn beta in Hr1. rewrite Hs2 in Hr1.
  pose proof (post_genDeviceClasses_codes s3) as Hc1. cbn beta in Hc1.
  rewrite Hs3 in Hc1.
  clear -Hp Hr Hc Hp1 Hp2 Hr1 Hc1.
  split_and!; [| | |done].
  - destruct plans as [|[] [|[] [|]]]; try done.
    vm_compute in Hp. cbn in Hp1, Hp2. congruence.
  - destruct regions as [|[] [|[] [|]]]; try done.
    vm_compute in Hr. cbn in Hr1. unfold REGION_CODES in Hr1. congruence.
  - destruct dcs as [|[] [|[] [|]]]; try done.
    vm_compute in Hc. cbn in Hc1. congruence.
Qed.

(** X23. The lookup tables of a generated dataset do not depend on the
    seed or on the size: the two plans, two regions and two device classes
    with the first identifiers of their ranges, the eight rates (base price
    of the plan, 200 cents less in TX-SOUTH, 1000 cents less for a tablet),
    the four features, the three ticket status codes and the five org
    units. *)
Theorem vocabulary_fixed seed size :
  let c := dataset seed size in
  Canonical.plans c = [Plan.mk 10001 "PLAN-UNL-5G" "Unlimited 5G";
                       Plan.mk 10002 "PLAN-5G-STARTER" "5G Starter"] ∧
  Canonical.regions c = [Region.mk 11001 "TX-NORTH";
                         Region.mk 11002 "TX-SOUTH"] ∧
  Canonical.device_classes c = [DeviceClass.mk 12001 "PHONE";
                                DeviceClass.mk 12002 "TABLET"] ∧
  Canonical.rates c =
    [Rate.mk 10001 11001 12001 6500; Rate.mk 10001 11001 12002 5500;
     Rate.mk 10001 11002 12001 6300; Rate.mk 10001 11002 12002 5300;
     Rate.mk 10002 11001 12001 4500; Rate.mk 10002 11001 12002 3500;
     Rate.mk 10002 11002 12001 4300; Rate.mk 10002 11002 12002 3300] ∧
  Canonical.features c = FEATURE_DEFS ∧
  Canonical.ticket_status_codes c = TICKET_STATUS ∧
  Canonical.org_units c = orgUnits.
Proof.
  cbn zeta.
  destruct (dataset_vocabulary seed size) as (Hp & Hr & Hc & Hrates).
  rewrite Hrates, Hp, Hr, Hc. split_and!; try reflexivity.
  all: destruct (dataset_phases seed size) as
    (plans & regions & dcs & accounts & subs & devices & ords & sfeat &
     sfstate & tickets & notes & events & usage & Hd & _ & _);
    by rewrite Hd.
Qed.

Lemma dataset_profile_keys seed size :
  let c := dataset seed size in
  map SubscriberProfile.subscriberId (Canonical.subscriber_profiles c)
  = map Subscriber.subscriberId (Canonical.subscribers c).
Proof.
  cbn zeta.
  destruct (dataset_phases seed size) as
    (plans & regions & dcs & accounts & subs & devices & ords & sfeat &
     sfstate & tickets & notes & events & usage & Hd & F & P).
  rewrite Hd. cbn [Canonical.subscriber_profiles Canonical.subscribers].
  pose proof (rf_subs _ _ _ _ _ _ _ _ _ _ _ _ _ _ _ F) as Hprof.
  clear -Hprof. induction Hprof as [|r subs (a & _ & _ & Hr) _ IH]; [done|].
  cbn [fmap list_fmap map]. f_equal; [exact Hr|exact IH].
Qed.

Lemma dataset_account_numbers seed size :
  Forall (λ a, Account.accountNumber a
               = "A-" +:+ String_ (Account.accountId a))
         (Canonical.accounts (dataset seed size)).
Proof.
  destruct (dataset_phases seed size) as
    (plans & regions & dcs & accounts & subs & devices & ords & sfeat &
     sfstate & tickets & notes & events & usage & Hd & F & P).
  rewrite Hd. cbn [Canonical.accounts].
  destruct (ph_accounts _ _ _ _ _ _ _ _ _ _ _ _ _ _ P) as [s <-].
  apply post_genAccounts_number.
Qed.

Lemma dataset_msisdns seed size :
  Forall (λ s, Subscriber.msisdn s
          = "+1214555" +:+ padNum (Z.rem (Subscriber.subscriberId s) 10000) 4)
         (Canonical.subscribers (dataset seed size)).
Proof.
  destruct (dataset_phases seed size) as
    (plans & regions & dcs & accounts & subs & devices & ords & sfeat &
     sfstate & tickets & notes & events & usage & Hd & F & P).
  rewrite Hd. cbn [Canonical.subscribers].
  destruct (ph_subs _ _ _ _ _ _ _ _ _ _ _ _ _ _ P) as [s <-].
  apply Forall_fmap. exact (post_genSubscribers_msisdn _ _ s).
Qed.

Lemma dataset_imeis seed size :
  Forall (λ d, Device.imei d = "356789012" +:+ padNum (Device.deviceId d) 6)
         (Canonical.devices (dataset seed size)).
Proof.
  destruct (dataset_phases seed size) as
    (plans & regions & dcs & accounts & subs & devices & ords & sfeat &
     sfstate & tickets & notes & events & usage & Hd & F & P).
  rewrite Hd. cbn [Canonical.devices].
  destruct (ph_devices _ _ _ _ _ _ _ _ _ _ _ _ _ _ P) as [s <-].
  apply post_genDevices_imei.
Qed.

(** At most 1200 subscribers, and as many devices. *)
Lemma dataset_subscribers_le seed size :
  let c := dataset seed size in
  Z.of_nat (length (Canonical.subscribers c)) ≤ 1200 ∧
  Z.of_nat (length (Canonical.devices c)) ≤ 1200.
Proof.
  cbn zeta.
  pose proof (dataset_counts seed size) as H. cbn zeta beta in H.
  destruct H as (Ha & Hs & _ & Hdev & _).
  pose proof (presets_sane size) as Hp. cbn zeta in Hp.
  rewrite Hdev. split; nia.
Qed.

(** The primary keys that are identifiers of the run or of the
    vocabulary. *)
Lemma dataset_primary_keys seed size :
  let c := dataset seed size in
  NoDup (map Account.accountId (Canonical.accounts c)) ∧
  NoDup (map Subscriber.subscriberId (Canonical.subscribers c)) ∧
  NoDup (map SubscriberProfile.subscriberId (Canonical.subscriber_profiles c)) ∧
  NoDup (map Device.deviceId (Canonical.devices c)) ∧
  NoDup (map DeviceEvent.deviceEventId (Canonical.device_events c)) ∧
  NoDup (map Order.orderId (Canonical.orders c)) ∧
  NoDup (map OrderItem.orderItemId (Canonical.order_items c)) ∧
  NoDup (map Feature.featureId (Canonical.features c)) ∧
  NoDup (map SubscriberFeatureState.subscriberFeatureStateId
             (Canonical.subscriber_feature_state c)) ∧
  NoDup (map TicketStatusCode.code (Canonical.ticket_status_codes c)) ∧
  NoDup (map Ticket.ticketId (Canonical.tickets c)) ∧
  NoDup (map Note.noteId (Canonical.notes c)) ∧
  NoDup (map OrgUnit.orgUnitId (Canonical.org_units c)) ∧
  NoDup (map Plan.planId (Canonical.plans c)) ∧
  NoDup (map Region.regionId (Canonical.regions c)) ∧
  NoDup (map DeviceClass.deviceClassId (Canonical.device_classes c)) ∧
  NoDup (map UsageRecord.usageRecordId (Canonical.usage_records c)).
Proof.
  cbn zeta.
  pose proof (generated_ids_consecutive seed size) as H. cbn zeta beta in H.
  destruct H as (Ha & Hs & Hdv & Ho & Hi & Hf & Hst & Ht & Hn & Hou & Hp & Hr
                 & Hc & He & Hu).
  pose proof (dataset_profile_keys seed size) as Hprof. cbn zeta in Hprof.
  assert (Canonical.ticket_status_codes (dataset seed size) = TICKET_STATUS)
    as Vt.
  { destruct (dataset_phases seed size) as
      (plans & regions & dcs & accounts & subs & devices & ords & sfeat &
       sfstate & tickets & notes & events & usage & Hd & _ & _).
    by rewrite Hd. }
  rewrite Hprof, Ha, Hs, Hdv, Ho, Hi, Hf, Hst, Ht, Hn, Hou, Hp, Hr, Hc, He, Hu,
    Vt.
  split_and!; try apply NoDup_seqZ.
  apply (bool_decide_unpack _); by vm_compute.
Qed.

(** X24. A generated dataset, whatever the seed and the size, meets every
    PRIMARY KEY and UNIQUE constraint of the relational schema and every
    unique index of the two document shapes: no identifier, account
    number, MSISDN, IMEI, code, (subscriber, feature) pair or (plan,
    region, device class) triple occurs twice in its table. *)
Theorem generated_data_meets_keys seed size : schema_keys (dataset seed size).
Proof.
  pose proof (dataset_primary_keys seed size) as H. cbn zeta in H.
  destruct H as (Ka & Ks & Kprof & Kdv & Ke & Ko & Ki & Kf & Kst & Kt & Ktk & Kn
                 & Kou & Kp & Kr & Kc & Ku).
  pose proof (generated_ids_consecutive seed size) as H. cbn zeta beta in H.
  destruct H as (_ & Hs & Hdv & _).
  destruct (dataset_vocabulary seed size) as (Vp & Vr & Vc & Vrates).
  destruct (dataset_subscribers_le seed size) as [Ls Ld].
  pose proof (dataset_bridge_NoDup seed size) as Hbridge.
  pose proof (dataset_account_numbers seed size) as Hnum.
  pose proof (dataset_msisdns seed size) as Hms.
  pose proof (dataset_imeis seed size) as Him.
  assert (Canonical.features (dataset seed size) = FEATURE_DEFS) as Vf.
  { destruct (dataset_phases seed size) as
      (plans & regions & dcs & accounts & subs & devices & ords & sfeat &
       sfstate & tickets & notes & events & usage & Hd & _ & _).
    by rewrite Hd. }
  generalize dependent (dataset seed size). intros c. intros.
  split; try assumption.
  - apply (NoDup_map_derived Account.accountId _
             (λ k, "A-" +:+ String_ k)); [exact Hnum| |exact Ka].
    intros x y _ _ E. apply String_inj. by apply append_inj_r in E.
  - apply (NoDup_map_derived Subscriber.subscriberId _
             (λ k, "+1214555" +:+ padNum (Z.rem k 10000) 4));
      [exact Hms| |exact Ks].
    intros x y Hx Hy E. apply append_inj_r in E.
    pose proof (keys_in_run _ _ _ Hs x Hx) as Bx.
    pose proof (keys_in_run _ _ _ Hs y Hy) as By.
    rewrite !Z.rem_small in E by lia.
    rewrite !padNum_4 in E by lia. by apply String_inj.
  - apply (NoDup_map_derived Device.deviceId _
             (λ k, "356789012" +:+ padNum k 6));
      [exact Him| |exact Kdv].
    intros x y Hx Hy E. apply append_inj_r in E.
    pose proof (keys_in_run _ _ _ Hdv x Hx) as Bx.
    pose proof (keys_in_run _ _ _ Hdv y Hy) as By.
    rewrite !padNum_6 in E by lia. apply append_inj_r in E.
    by apply String_inj.
  - rewrite Vf. apply (bool_decide_unpack _); by vm_compute.
  - rewrite Vp. apply (bool_decide_unpack _); by vm_compute.
  - rewrite Vr. apply (bool_decide_unpack _); by vm_compute.
  - rewrite Vc. apply (bool_decide_unpack _); by vm_compute.
  - rewrite Vrates, Vp, Vr, Vc. apply (bool_decide_unpack _); by vm_compute.
Qed.

Lemma ceil_div_bounds a b k :
  0 < b → 0 ≤ a ≤ k * b → 0 ≤ ceil_div a b ≤ k.
Proof.
  intros Hb Ha. unfold ceil_div.
  pose proof (Z.div_mod (- a) b ltac:(lia)) as E.
  pose proof (Z.mod_pos_bound (- a) b Hb) as B. nia.
Qed.

Lemma dataset_items_ok seed size :
  Forall (λ it, OrderItem.qty it = 1 ∧ item_sku it ∈ ORDER_SKUS)
         (Canonical.order_items (dataset seed size)).
Proof.
  destruct (dataset_phases seed size) as
    (plans & regions & dcs & accounts & subs & devices & ords & sfeat &
     sfstate & tickets & notes & events & usage & Hd & F & P).
  rewrite Hd. cbn [Canonical.order_items].
  pose proof (rf_ords _ _ _ _ _ _ _ _ _ _ _ _ _ _ _ F) as Hords.
  clear -Hords. apply Forall_concat, Forall_fmap.
  eapply Forall_impl; [exact Hords|].
  intros r (a & _ & _ & Hit & _). cbn [compose].
  eapply Forall_impl; [exact Hit|]. intros it (_ & Hq & Hsku). done.
Qed.

Lemma dataset_usage_rated seed size :
  Forall (λ r, UsageRecord.ratedCents r
               = ratedCents (UsageRecord.usageType r) (UsageRecord.units r))
         (Canonical.usage_records (dataset seed size)).
Proof.
  destruct (dataset_phases seed size) as
    (plans & regions & dcs & accounts & subs & devices & ords & sfeat &
     sfstate & tickets & notes & events & usage & Hd & F & P).
  rewrite Hd. cbn [Canonical.usage_records].
  pose proof (rf_usage _ _ _ _ _ _ _ _ _ _ _ _ _ _ _ F) as Hu.
  eapply Forall_impl; [exact Hu|]. intros r (s & _ & _ & _ & Hr). exact Hr.
Qed.

(** X25. A generated dataset, whatever the seed and the size, meets every
    CHECK constraint of the relational schema with values that fit the INT
    columns: every order item has quantity 1 and a price of the catalog,
    every rate is positive, every usage record has between 1 and 10240
    units and is rated between 0 and 40 cents. *)
Theorem generated_data_meets_checks seed size :
  schema_checks (dataset seed size) ∧
  Forall (λ it, OrderItem.qty it = 1 ∧ 0 ≤ OrderItem.priceCents it ≤ 79900)
         (Canonical.order_items (dataset seed size)) ∧
  Forall (λ r, 3300 ≤ Rate.rateCents r ≤ 6500)
         (Canonical.rates (dataset seed size)) ∧
  Forall (λ r, 1 ≤ UsageRecord.units r ≤ 10240 ∧
               0 ≤ UsageRecord.ratedCents r ≤ 40)
         (Canonical.usage_records (dataset seed size)).
Proof.
  assert (Forall (λ it, OrderItem.qty it = 1
                        ∧ 0 ≤ OrderItem.priceCents it ≤ 79900)
                 (Canonical.order_items (dataset seed size))) as Hitems.
  { eapply Forall_impl; [apply dataset_items_ok|].
    intros it [Hq Hsku]. split; [done|].
    unfold item_sku, ORDER_SKUS in Hsku.
    repeat (apply elem_of_cons in Hsku as [[= _ ->]|Hsku]; [lia|]).
    by apply elem_of_nil in Hsku. }
  assert (Forall (λ r, 3300 ≤ Rate.rateCents r ≤ 6500)
                 (Canonical.rates (dataset seed size))) as Hrates.
  { destruct (dataset_vocabulary seed size) as (Vp & Vr & Vc & Vrates).
    rewrite Vrates, Vp, Vr, Vc. vm_compute genRates.
    repeat (constructor; [cbn [Rate.rateCents]; lia|]). constructor. }
  assert (Forall (λ r, 1 ≤ UsageRecord.units r ≤ 10240 ∧
                       0 ≤ UsageRecord.ratedCents r ≤ 40)
                 (Canonical.usage_records (dataset seed size))) as Husage.
  { pose proof (dataset_usage_ok seed size) as H1.
    pose proof (dataset_usage_rated seed size) as H2.
    rewrite Forall_forall in H1, H2. apply Forall_forall. intros r Hr.
    destruct (H1 r Hr) as [_ Hu]. rewrite (H2 r Hr). unfold ratedCents.
    destruct Hu as [[-> Hu]|[[-> Hu]|[-> Hu]]]; cbn -[ceil_div].
    - split; [lia|].
      pose proof (ceil_div_bounds (UsageRecord.units r) 60 10). lia.
    - split; lia.
    - split; [lia|].
      pose proof (ceil_div_bounds (UsageRecord.units r) 1024 10). lia. }
  split; [|done].
  split; unfold int_max.
  - eapply Forall_impl; [exact Hitems|]. intros it [-> _]. lia.
  - eapply Forall_impl; [exact Hitems|]. intros it [_ H]. lia.
  - eapply Forall_impl; [exact Hrates|]. intros r H. cbn beta in H. lia.
  - eapply Forall_impl; [exact Husage|]. intros r [H _]. lia.
  - eapply Forall_impl; [exact Husage|]. intros r [_ H]. lia.
Qed.

(** ** The files of the relational shape *)

Lemma row_get_fresh h k v (r : Row) :
  h ≠ k → row_get h ((k, v) :: r) = row_get h r.
Proof.
  intros Hne. cbn [row_get].
  destruct (String.eqb_spec h k) as [->|_]; done.
Qed.

Lemma row_get_own (r : Row) : NoDup r.*1 → map (λ h, row_get h r) r.*1 = r.*2.
Proof.
  induction r as [|[k v] r IH]; [done|]. cbn [fmap list_fmap map fst snd].
  intros Hnd. apply NoDup_cons in Hnd as [Hk Hnd].
  cbn [row_get]. rewrite String.eqb_refl. f_equal.
  rewrite <- (IH Hnd). apply map_ext_in. intros h Hh.
  apply (row_get_fresh h k v r). intros ->. apply Hk.
  by apply list_elem_of_In.
Qed.

Lemma bundle_decodes {R} filename (cols : list (string * (R → Cell)))
    (rows : list R) :
  cols ≠ [] → NoDup cols.*1 →
  Forall (λ h, csv_special h = false) cols.*1 →
  let b := bundle filename cols rows in
  Forall (λ r : Row, r.*1 = Bundle.headers b) (Bundle.rows b) ∧
  csv_decode (toCsv (Bundle.headers b) (Bundle.rows b)) =
    Some (Bundle.headers b
          :: map (λ r : Row, map cell_read r.*2) (Bundle.rows b)).
Proof.
  intros Hne Hnd Hplain b. subst b. unfold bundle.
  cbn [Bundle.headers Bundle.rows].
  assert (Forall (λ r : Row, r.*1 = cols.*1)
            (map (λ r, map (λ hc, (hc.1, hc.2 r)) cols) rows)) as Hkeys.
  { apply Forall_forall. intros r Hr.
    apply list_elem_of_fmap in Hr as (x & -> & _).
    clear. induction cols as [|[h c] cols IH]; [done|].
    cbn [fmap list_fmap map fst snd] in *. by rewrite IH. }
  split; [exact Hkeys|].
  generalize dependent (map (λ r, map (λ hc, (hc.1, hc.2 r)) cols) rows).
  intros rs Hkeys.
  rewrite (toCsv_file _ _ Hplain), csv_decode_file.
  - cbn [map]. rewrite (csv_plain_normalize _ Hplain). f_equal. f_equal.
    rewrite map_map. apply map_ext_in. intros r Hr.
    rewrite Forall_forall in Hkeys.
    apply list_elem_of_In, Hkeys in Hr.
    rewrite <- Hr. rewrite <- (row_get_own r) by (by rewrite Hr).
    rewrite !map_map. reflexivity.
  - apply Forall_cons. split; [by destruct cols|]. apply Forall_forall.
    intros fs Hfs. apply list_elem_of_fmap in Hfs as (r & -> & _).
    by destruct cols.
Qed.

Lemma bundles_decode (c : Canonical.t) :
  Forall (λ b,
     Forall (λ r : Row, r.*1 = Bundle.headers b) (Bundle.rows b) ∧
     csv_decode (toCsv (Bundle.headers b) (Bundle.rows b)) =
       Some (Bundle.headers b
             :: map (λ r : Row, map cell_read r.*2) (Bundle.rows b)))
    (toPostgresCsvBundles c).
Proof.
  unfold toPostgresCsvBundles.
  repeat (apply Forall_cons; split;
    [apply bundle_decodes;
       [done
       |cbn [fmap list_fmap fst]; apply (bool_decide_unpack _); by vm_compute
       |cbn [fmap list_fmap fst]; repeat constructor]|]).
  by apply Forall_nil.
Qed.

(** X26. Every CSV file of the relational shape, for any canonical
    graph, reads back with a standard CSV reader as its header and one
    record per row, field by field the values the row was written with
    (line ends normalized, nothing for [null]): no value is lost, split or
    merged by a comma, a quote or a line end in the data, and every row
    has exactly the columns of the header, in its order. *)
Theorem postgres_files_decode (c : Canonical.t) :
  Forall (λ b,
     Forall (λ r : Row, r.*1 = Bundle.headers b) (Bundle.rows b) ∧
     csv_decode (toCsv (Bundle.headers b) (Bundle.rows b)) =
       Some (Bundle.headers b
             :: map (λ r : Row, map cell_read r.*2) (Bundle.rows b)))
    (toPostgresCsvBundles c).
Proof. apply bundles_decode. Qed.

(** X27. The relational shape fits the schema and its loader: the
    generator writes one CSV file per table of [tables.sql], named after
    the table, with the columns of the table in their order; [load.sql]
    copies every table once, with that column list, and only after the
    tables its foreign keys point to. *)
Theorem postgres_files_match_schema (c : Canonical.t) :
  map (λ b, (Bundle.filename b, Bundle.headers b)) (toPostgresCsvBundles c)
    = map (λ t, (Table.name t +:+ ".csv", Table.columns t)) tables_sql ∧
  NoDup load_sql.*1 ∧ length load_sql = length tables_sql ∧
  Forall (λ t, props_get (Table.name t) load_sql = Some (Table.columns t))
         tables_sql ∧
  Forall (λ t, Forall (λ p, p = Table.name t ∨ loaded_before p (Table.name t))
                      (Table.references t)) tables_sql.
Proof.
  split_and!.
  - reflexivity.
  - apply (bool_decide_unpack _); by vm_compute.
  - reflexivity.
  - repeat (apply Forall_cons; split; [reflexivity|]). by apply Forall_nil.
  - repeat (apply Forall_cons; split;
      [repeat (apply Forall_cons; split;
         [first [left; reflexivity
                |right; eexists _, _; split_and!;
                   [vm_compute; reflexivity|vm_compute; reflexivity|lia]]|]);
       by apply Forall_nil|]).
    by apply Forall_nil.
Qed.

(** ** The files of a run and its manifest *)

Lemma lines_writeNdjson (rows : list Json) :
  length (lines (writeNdjson rows)) = length rows.
Proof.
  rewrite writeNdjson_file_of_lines, lines_file_of_lines, length_map; [done|].
  apply Forall_fmap, Forall_forall. intros v _. apply stringify_one_line.
Qed.

Ltac entity_cases H :=
  unfold entityOrder in H;
  repeat (apply elem_of_cons in H as [->|H]);
  [..|by apply elem_of_nil in H].

Lemma canonical_rows_count c name :
  name ∈ entityOrder →
  ∃ rows, props_get name (canonical_props c) = Some rows ∧
    Z.of_nat (length (rows_json rows))
    = default 0 (props_get name (manifest_counts c)).
Proof.
  intros H. rewrite manifest_counts_lookup. cbn zeta.
  entity_cases H;
    (eexists; split; [reflexivity|]; cbn [rows_json]; by rewrite length_map).
Qed.

Lemma length_withSeq {R} seq (rows : list R) :
  length (withSeq seq rows).1 = length rows.
Proof. unfold withSeq. cbn [fst]. apply length_imap. Qed.

Lemma normalized_docs_count c name :
  name ∈ entityOrder →
  ∃ docs, obj_get name (toMongoNormalized c) = Some docs ∧
    Z.of_nat (length (collection_json docs))
    = default 0 (props_get name (manifest_counts c)).
Proof.
  intros H. rewrite manifest_counts_lookup. cbn zeta.
  entity_cases H;
    (eexists; split; [reflexivity|]; cbn [collection_json];
     rewrite length_map; unfold withId;
     first [by rewrite length_map | by rewrite length_imap]).
Qed.

Lemma optimized_docs_count c cfg opt name :
  toMongoOptimized c (toMongoNormalized c) cfg = Some opt →
  name ∈ entityOrder →
  name ≠ "subscriber_profiles" → name ≠ "order_items" →
  ∃ docs, obj_get name opt = Some docs ∧
    Z.of_nat (length (collection_json docs))
    = default 0 (props_get name (manifest_counts c)).
Proof.
  unfold toMongoOptimized, get_subscribers, get_order_items, get_orders.
  rewrite norm_subscribers, norm_order_items, norm_orders.
  cbn [mbind option_bind]. intros [= <-] H Hp Hi.
  rewrite manifest_counts_lookup. cbn zeta.
  entity_cases H; try done;
    (eexists; split; [reflexivity|]; cbn [collection_json]; unfold withId;
     by rewrite ?length_map, ?length_imap).
Qed.

Lemma postgres_bundle_count c name :
  name ∈ entityOrder →
  ∃ b, b ∈ toPostgresCsvBundles c ∧ Bundle.filename b = name +:+ ".csv" ∧
    ∃ records,
      csv_decode (toCsv (Bundle.headers b) (Bundle.rows b)) = Some records ∧
      Z.of_nat (length records)
      = 1 + default 0 (props_get name (manifest_counts c)).
Proof.
  intros H. rewrite manifest_counts_lookup. cbn zeta.
  pose proof (bundles_decode c) as Hdec.
  rewrite Forall_forall in Hdec.
  assert (∀ b n, b ∈ toPostgresCsvBundles c →
            Z.of_nat (length (Bundle.rows b)) = n →
            ∃ records,
              csv_decode (toCsv (Bundle.headers b) (Bundle.rows b))
                = Some records ∧
              Z.of_nat (length records) = 1 + n) as Hb.
  { intros b n Hin Hn. destruct (Hdec b Hin) as [_ ->].
    eexists. split; [reflexivity|]. cbn [length]. rewrite length_map. lia. }
  entity_cases H.
  all: match goal with
       | |- ∃ b, _ ∧ Bundle.filename b = ?f ∧ _ =>
           let f' := eval vm_compute in f in
           match eval unfold toPostgresCsvBundles in (toPostgresCsvBundles c) with
           | context [bundle f' ?cols ?rows] =>
               assert (bundle f' cols rows ∈ toPostgresCsvBundles c) as Hin
                 by (unfold toPostgresCsvBundles; repeat constructor);
               exists (bundle f' cols rows);
               split; [exact Hin|]; split; [reflexivity|];
               apply (Hb _ _ Hin); unfold bundle; cbn [Bundle.rows];
               by rewrite length_map
           end
       end.
Qed.

(** X28. The counts of the manifest are the sizes of the files of the
    run, in every shape it writes: for each entity, the NDJSON file of the
    canonical and of the normalized shape has that many lines, so has the
    one of the optimized shape (which has none for subscriber profiles and
    order items), and the CSV file reads back as one header record and that
    many data records. *)
Theorem files_match_manifest args env m files name :
  generateAll args env = (Ok m, files) →
  name ∈ entityOrder →
  let out := Args.out args in
  let ndjson_at (dir : string) :=
    ∃ content,
      (path_join [path_join [out; dir]; name +:+ ".ndjson"], content) ∈ files ∧
      Z.of_nat (length (lines (file_data content))) = manifest_count m name in
  (only_is args "canonical" = true → ndjson_at "canonical") ∧
  (only_is args "mongo_normalized" = true → ndjson_at "mongo_normalized") ∧
  (only_is args "mongo_optimized" = true →
   name ≠ "subscriber_profiles" → name ≠ "order_items" →
   ndjson_at "mongo_optimized") ∧
  (only_is args "postgres" = true →
   ∃ content records,
     (path_join [path_join [out; "postgres"; "data"]; name +:+ ".csv"],
      content) ∈ files ∧
     csv_decode (file_data content) = Some records ∧
     Z.of_nat (length records) = 1 + manifest_count m name).
Proof.
  intros Hrun Hname out ndjson_at. subst out ndjson_at. cbn beta.
  pose proof (generateAll_Ok _ _ _ _ Hrun) as Hm.
  assert (manifest_count m name
          = default 0 (props_get name
              (manifest_counts (dataset (Args.seed args) (Args.size args)))))
    as Hcount by (by subst m).
  clear Hm. apply generateAll_files in Hrun. cbn zeta in Hrun.
  destruct Hrun as (opt & Hopt & ->).
  generalize dependent (dataset (Args.seed args) (Args.size args)).
  intros c Hopt Hcount. rewrite Hcount.
  unfold shape_files, canonical_files, normalized_files, optimized_files,
    postgres_files.
  split_and!.
  - intros ->.
    destruct (canonical_rows_count c name Hname) as (rows & Hrows & Hn).
    exists (NdjsonRows rows). cbn [file_data].
    split; [|by rewrite lines_writeNdjson].
    do 2 (apply elem_of_app; left).
    apply list_elem_of_fmap. exists name. by rewrite Hrows.
  - intros ->.
    destruct (normalized_docs_count c name Hname) as (docs & Hdocs & Hn).
    exists (NdjsonDocs docs). cbn [file_data].
    split; [|by rewrite lines_writeNdjson].
    apply elem_of_app; left. apply elem_of_app; right.
    apply elem_of_app; left.
    apply list_elem_of_fmap. exists name. by rewrite Hdocs.
  - intros -> Hp Hi.
    destruct (optimized_docs_count c _ opt name Hopt Hname Hp Hi)
      as (docs & Hdocs & Hn).
    exists (NdjsonDocs docs). cbn [file_data].
    split; [|by rewrite lines_writeNdjson].
    apply elem_of_app; left. do 2 (apply elem_of_app; right).
    apply elem_of_app; left.
    apply list_elem_of_omap. exists name. by rewrite Hdocs.
  - intros ->.
    destruct (postgres_bundle_count c name Hname)
      as (b & Hb & Hfile & records & Hdec & Hn).
    exists (Text (toCsv (Bundle.headers b) (Bundle.rows b))), records.
    cbn [file_data]. split; [|done].
    apply elem_of_app; left. do 3 (apply elem_of_app; right).
    apply list_elem_of_fmap. exists b. by rewrite Hfile.
Qed.

Lemma files_match_manifest_witness :
  let args := Args.mk "S" 42 "seed" "all" false in
  ∃ m files,
    generateAll args (Env.mk 0 false no_error) = (Ok m, files) ∧
    "tickets" ∈ entityOrder ∧ only_is args "postgres" = true ∧
    ∃ content records,
      ("seed/postgres/data/tickets.csv", content) ∈ files ∧
      csv_decode (file_data content) = Some records ∧
      Z.of_nat (length records) = 1 + manifest_count m "tickets".
Proof.
  intros args.
  assert (∃ m files,
            generateAll args (Env.mk 0 false no_error)
            = (Ok m, files)) as (m & files & E).
  { eexists _, _. vm_compute. reflexivity. }
  assert ("tickets" ∈ entityOrder) as Hname.
  { apply (bool_decide_unpack _). by vm_compute. }
  exists m, files. split; [exact E|]. split; [exact Hname|].
  split; [reflexivity|].
  exact (proj2 (proj2 (proj2
           (files_match_manifest args _ m files "tickets" E Hname))) eq_refl).
Defined.

(** ** Document identifiers *)

Lemma withSeq_ids {R} seq (rows : list R) :
  map _id (withSeq seq rows).1 = seqZ seq (Z.of_nat (length rows)).
Proof.
  unfold withSeq. cbn [fst]. revert seq.
  induction rows as [|r rows IH]; intros seq; [done|].
  rewrite imap_cons. cbn [map length _id].
  rewrite seqZ_cons by lia. f_equal; [lia|].
  replace (Z.pred (Z.of_nat (S (length rows)))) with (Z.of_nat (length rows))
    by lia.
  rewrite <- (IH (Z.succ seq)). f_equal. apply imap_ext.
  intros i x _. cbn [compose]. f_equal. lia.
Qed.

Lemma NoDup_ids_inl {A} (key : A → Z) (l : list A) :
  NoDup (map key l) → NoDup (map (λ r, inl (key r) : Z + string) l).
Proof.
  intros H. rewrite <- (map_map key inl).
  apply (NoDup_fmap_2 inl). exact H.
Qed.

Lemma NoDup_ids_inr {A} (key : A → string) (l : list A) :
  NoDup (map key l) → NoDup (map (λ r, inr (key r) : Z + string) l).
Proof.
  intros H. rewrite <- (map_map key inr).
  apply (NoDup_fmap_2 inr). exact H.
Qed.

(** The object [toMongoNormalized] returns, property by property. *)
Lemma toMongoNormalized_eq c :
  toMongoNormalized c =
  [("accounts", CAccounts (withId Account.accountId (Canonical.accounts c)));
   ("subscribers",
    CSubscribers (withId Subscriber.subscriberId (Canonical.subscribers c)));
   ("subscriber_profiles",
    CSubscriberProfiles (withId SubscriberProfile.subscriberId
                                (Canonical.subscriber_profiles c)));
   ("devices", CDevices (withId Device.deviceId (Canonical.devices c)));
   ("device_events",
    CDeviceEvents (withId DeviceEvent.deviceEventId (Canonical.device_events c)));
   ("orders", COrders (withId Order.orderId (Canonical.orders c)));
   ("order_items",
    COrderItems (withId OrderItem.orderItemId (Canonical.order_items c)));
   ("features", CFeatures (withId Feature.featureId (Canonical.features c)));
   ("subscriber_features",
    CSubscriberFeatures (withSeq 1 (Canonical.subscriber_features c)).1);
   ("subscriber_feature_state",
    CSubscriberFeatureState
      (withId SubscriberFeatureState.subscriberFeatureStateId
              (Canonical.subscriber_feature_state c)));
   ("ticket_status_codes",
    CTicketStatusCodes (map (λ r, mkWithId (TicketStatusCode.code r) r)
                            (Canonical.ticket_status_codes c)));
   ("tickets", CTickets (withId Ticket.ticketId (Canonical.tickets c)));
   ("notes", CNotes (withId Note.noteId (Canonical.notes c)));
   ("org_units", COrgUnits (withId OrgUnit.orgUnitId (Canonical.org_units c)));
   ("plans", CPlans (withId Plan.planId (Canonical.plans c)));
   ("regions", CRegions (withId Region.regionId (Canonical.regions c)));
   ("device_classes",
    CDeviceClasses (withId DeviceClass.deviceClassId
                           (Canonical.device_classes c)));
   ("rates",
    CRates (withSeq (1 + Z.of_nat (length (Canonical.subscriber_features c)))
                    (Canonical.rates c)).1);
   ("usage_records",
    CUsageRecords (withId UsageRecord.usageRecordId
                          (Canonical.usage_records c)))].
Proof. reflexivity. Qed.

Lemma withId_ids {R} (key : R → Z) (rows : list R) :
  map (λ d, inl (_id d) : Z + string) (withId key rows)
  = map (λ r, inl (key r)) rows.
Proof. unfold withId. by rewrite map_map. Qed.

Lemma NoDup_withSeq {R} seq (rows : list R) :
  NoDup (map (λ d, inl (_id d) : Z + string) (withSeq seq rows).1).
Proof.
  apply (NoDup_ids_inl _id). rewrite withSeq_ids. apply NoDup_seqZ.
Qed.

(** The documents of the normalized shape of a generated dataset. *)
Lemma normalized_ids seed size name docs :
  obj_get name (toMongoNormalized (dataset seed size)) = Some docs →
  NoDup (collection_ids docs) ∧
  (∀ l, docs = CSubscriberFeatures l →
        map _id l = seqZ 1 (Z.of_nat (length l))) ∧
  (∀ l, docs = CRates l →
        map _id l =
        seqZ (1 + Z.of_nat (length (Canonical.subscriber_features
                                      (dataset seed size)))) 8).
Proof.
  pose proof (dataset_primary_keys seed size) as H. cbn zeta in H.
  destruct H as (Ka & Ks & Kprof & Kdv & Ke & Ko & Ki & Kf & Kst & Kt & Ktk & Kn
                 & Kou & Kp & Kr & Kc & Ku).
  assert (Z.of_nat (length (Canonical.rates (dataset seed size))) = 8) as Hrates.
  { pose proof (dataset_counts seed size) as H. cbn zeta beta in H. apply H. }
  generalize dependent (dataset seed size). intros c. intros.
  rewrite toMongoNormalized_eq in H. cbn [obj_get] in H.
  repeat match type of H with
    | (if String.eqb name ?k then _ else _) = Some docs =>
        destruct (String.eqb name k)
    end;
    try discriminate H; injection H as <-; cbn [collection_ids];
    (split; [|split; intros l [= <-]]);
    rewrite ?withId_ids;
    first [by apply NoDup_ids_inl
          |by apply NoDup_withSeq
          |idtac].
  - rewrite length_imap. exact (withSeq_ids 1 _).
  - rewrite map_map. cbn [_id]. by apply NoDup_ids_inr.
  - rewrite <- Hrates. exact (withSeq_ids _ _).
Qed.

(** The object [toMongoOptimized] returns, property by property. *)
Lemma toMongoOptimized_get c cfg :
  ∃ opt subs ords,
    toMongoOptimized c (toMongoNormalized c) cfg = Some opt ∧
    map (λ s, _id (OptSubscriber.base s)) subs
      = map Subscriber.subscriberId (Canonical.subscribers c) ∧
    map (λ o, _id (OptOrder.base o)) ords
      = map Order.orderId (Canonical.orders c) ∧
    ∀ name,
      obj_get name opt =
      if String.eqb name "subscriber_profiles" then None
      else if String.eqb name "order_items" then None
      else if String.eqb name "orders" then Some (COptOrders ords)
      else if String.eqb name "subscribers" then Some (COptSubscribers subs)
      else obj_get name (toMongoNormalized c).
Proof.
  unfold toMongoOptimized, get_subscribers, get_order_items, get_orders.
  rewrite norm_subscribers, norm_order_items, norm_orders.
  cbn [mbind option_bind].
  eexists _, _, _. split; [reflexivity|]. split; [|split].
  3: { intros name. rewrite !obj_get_delete, !obj_get_set. reflexivity. }
  - unfold withId. by rewrite !map_map.
  - unfold withId. by rewrite !map_map.
Qed.

(** X29. Within every collection of the normalized and of the optimized
    shape of a generated dataset no [_id] occurs twice, as an import into
    MongoDB requires. The two collections without an identifier of their
    own are numbered by one counter: the subscriber features get 1, 2, ...
    and the eight rates go on from there, so the [_id] of a rate depends on
    how many subscriber features the run has drawn. *)
Theorem document_ids_unique seed size name docs :
  let c := dataset seed size in
  (obj_get name (toMongoNormalized c) = Some docs ∨
   ∃ opt, toMongoOptimized c (toMongoNormalized c) (presets size) = Some opt ∧
          obj_get name opt = Some docs) →
  NoDup (collection_ids docs) ∧
  (∀ l, docs = CSubscriberFeatures l →
        map _id l = seqZ 1 (Z.of_nat (length l))) ∧
  (∀ l, docs = CRates l →
        map _id l =
        seqZ (1 + Z.of_nat (length (Canonical.subscriber_features c))) 8).
Proof.
  intros c [Hnorm|(opt & Hopt & Hget)]; subst c.
  { by apply (normalized_ids seed size name). }
  destruct (toMongoOptimized_get (dataset seed size) (presets size))
    as (opt' & subs & ords & Hopt' & Hsubs & Hords & Hnames).
  rewrite Hopt' in Hopt. injection Hopt as <-.
  rewrite Hnames in Hget.
  destruct (String.eqb name "subscriber_profiles"); [done|].
  destruct (String.eqb name "order_items"); [done|].
  pose proof (dataset_primary_keys seed size) as H. cbn zeta in H.
  destruct H as (_ & Ks & _ & _ & _ & Ko & _).
  destruct (String.eqb name "orders").
  { injection Hget as <-. cbn [collection_ids].
    split; [|split; intros l [=]].
    apply (NoDup_ids_inl (λ o, _id (OptOrder.base o))). by rewrite Hords. }
  destruct (String.eqb name "subscribers").
  { injection Hget as <-. cbn [collection_ids].
    split; [|split; intros l [=]].
    apply (NoDup_ids_inl (λ s, _id (OptSubscriber.base s))). by rewrite Hsubs. }
  by apply (normalized_ids seed size name).
Qed.

Lemma document_ids_unique_witness :
  ∃ docs,
    obj_get "rates" (toMongoNormalized (dataset 42 "S")) = Some docs ∧
    NoDup (collection_ids docs) ∧
    (∀ l, docs = CSubscriberFeatures l →
          map _id l = seqZ 1 (Z.of_nat (length l))) ∧
    (∀ l, docs = CRates l →
          map _id l =
          seqZ (1 + Z.of_nat (length (Canonical.subscriber_features
                                        (dataset 42 "S")))) 8).
Proof.
  assert (∃ docs, obj_get "rates" (toMongoNormalized (dataset 42 "S"))
                  = Some docs) as [docs E].
  { eexists. reflexivity. }
  exists docs. split; [exact E|].
  apply (document_ids_unique 42 "S" "rates" docs). left. exact E.
Defined.

(** ** The escaping rule on values with a comma, a quote and a line break *)

(** C6, for line breaks written LF. A string that holds a comma, a
    quote character and a line break is written as a quoted field with
    every quote doubled, after CR LF and CR are rewritten to LF; this
    field is not the empty field that stands for null; an RFC 4180
    reader returns the string with its line breaks rewritten to LF, and
    so the string itself, unchanged, when it holds no carriage return. *)
Theorem csv_round_trip (s : string) :
  includes COMMA s = true → includes DQ s = true →
  includes LF s || includes CR s = true →
  csvEscape (CellStr s)
    = String DQ (double_quotes (normalize_newlines s) +:+ String DQ EmptyString) ∧
  csvEscape (CellStr s) ≠ csvEscape CellNull ∧
  csv_decode_record (csvEscape (CellStr s) +:+ NL)
    = Some ([normalize_newlines s], EmptyString) ∧
  (includes CR s = false →
   csv_decode_record (csvEscape (CellStr s) +:+ NL) = Some ([s], EmptyString)).
Proof.
  intros Hc Hq Hnl.
  assert (csvEscape (CellStr s)
          = String DQ (double_quotes (normalize_newlines s)
                       +:+ String DQ EmptyString)) as Hesc.
  { cbn [csvEscape]. rewrite csvEscape_string_cases.
    unfold csv_special. by rewrite Hc. }
  split_and!.
  - exact Hesc.
  - rewrite Hesc. discriminate.
  - apply csv_decode_escape.
  - intros Hcr. rewrite csv_decode_escape. by rewrite normalize_no_cr.
Qed.

Lemma csv_round_trip_witness :
  csvEscape (CellStr lf_value) ≠ csvEscape CellNull ∧
  csv_decode_record (csvEscape (CellStr lf_value) +:+ NL)
    = Some ([lf_value], EmptyString).
Proof.
  pose proof (csv_round_trip lf_value eq_refl eq_refl eq_refl)
    as (_ & Hnull & _ & Hback).
  split; [exact Hnull|]. apply Hback. reflexivity.
Defined.

(** ** The files of two runs *)

Lemma path_join_1 (out file : string) :
  path_join [out; file] = out +:+ ("/" +:+ file).
Proof. reflexivity. Qed.

Lemma path_join_2 (out dir file : string) :
  path_join [path_join [out; dir]; file]
  = out +:+ ("/" +:+ dir +:+ "/" +:+ file).
Proof. unfold path_join. cbn [join]. by rewrite append_assoc. Qed.

Lemma path_join_3 (out d1 d2 file : string) :
  path_join [path_join [out; d1; d2]; file]
  = out +:+ ("/" +:+ d1 +:+ "/" +:+ d2 +:+ "/" +:+ file).
Proof. unfold path_join. cbn [join]. by rewrite !append_assoc. Qed.

Lemma append_inj_l (a b t : string) : a +:+ t = b +:+ t → a = b.
Proof.
  revert b. induction a as [|x a IH]; intros [|y b] H.
  - done.
  - apply (f_equal String.length) in H. rewrite !length_append in H.
    cbn [String.length] in H. lia.
  - apply (f_equal String.length) in H. rewrite !length_append in H.
    cbn [String.length] in H. lia.
  - rewrite !append_cons in H. injection H as -> H. f_equal. by apply IH.
Qed.

Lemma bundle_of_filename (c : Canonical.t) b b' :
  b ∈ toPostgresCsvBundles c → b' ∈ toPostgresCsvBundles c →
  Bundle.filename b = Bundle.filename b' → b = b'.
Proof.
  intros Hb Hb' Hf.
  assert (NoDup (map Bundle.filename (toPostgresCsvBundles c))) as Hnd.
  { change (map Bundle.filename (toPostgresCsvBundles c))
      with (map (λ t, Table.name t +:+ ".csv") tables_sql).
    apply (bool_decide_unpack _). by vm_compute. }
  apply list_elem_of_lookup in Hb as [i Hi].
  apply list_elem_of_lookup in Hb' as [j Hj].
  assert (i = j) as ->; [|congruence].
  apply (NoDup_lookup _ _ _ (Bundle.filename b) Hnd).
  - by rewrite list_lookup_fmap, Hi.
  - by rewrite list_lookup_fmap, Hj, Hf.
Qed.

(** A path below the output directory names one content. *)
Lemma shape_content_functional c opt rel d d' :
  shape_content c opt rel d → shape_content c opt rel d' → d = d'.
Proof.
  intros [(n & Hr & Hd)|[(n & Hr & Hd)|[(n & docs & Hr & Ho & Hd)
                                        |(b & Hb & Hr & Hd)]]]
         [(n' & Hr' & Hd')|[(n' & Hr' & Hd')|[(n' & docs' & Hr' & Ho' & Hd')
                                              |(b' & Hb' & Hr' & Hd')]]];
    rewrite Hr in Hr'; try discriminate Hr'.
  - apply (append_inj_r "/canonical/"), append_inj_l in Hr'.
    subst n'. congruence.
  - apply (append_inj_r "/mongo_normalized/"), append_inj_l in Hr'.
    subst n'. congruence.
  - apply (append_inj_r "/mongo_optimized/"), append_inj_l in Hr'.
    subst n'. congruence.
  - apply (append_inj_r "/postgres/data/") in Hr'.
    assert (b = b') by by apply (bundle_of_filename c). congruence.
Qed.

Lemma shape_content_not_manifest c opt d :
  ¬ shape_content c opt "/manifest.json" d.
Proof.
  intros [(n & Hr & _)|[(n & Hr & _)|[(n & docs & Hr & _)|(b & _ & Hr & _)]]];
    discriminate Hr.
Qed.

(** Every file of the shapes lies below the output directory. *)
Lemma shape_files_content args c opt f :
  f ∈ shape_files args c (toMongoNormalized c) opt →
  ∃ rel, f.1 = Args.out args +:+ rel ∧ shape_content c opt rel f.2.
Proof.
  unfold shape_files. rewrite !elem_of_app.
  intros [H|[H|[H|H]]].
  - unfold canonical_files in H. destruct (only_is args "canonical");
      [|by apply elem_of_nil in H].
    apply list_elem_of_fmap in H as (name & -> & _).
    eexists. split; [apply path_join_2|]. left. by exists name.
  - unfold normalized_files in H. destruct (only_is args "mongo_normalized");
      [|by apply elem_of_nil in H].
    apply list_elem_of_fmap in H as (name & -> & _).
    eexists. split; [apply path_join_2|]. right. left. by exists name.
  - unfold optimized_files in H. destruct (only_is args "mongo_optimized");
      [|by apply elem_of_nil in H].
    apply list_elem_of_omap in H as (name & _ & H).
    destruct (obj_get name opt) as [docs|] eqn:Ho; [|done].
    injection H as <-.
    eexists. split; [apply path_join_2|]. right. right. left.
    by exists name, docs.
  - unfold postgres_files in H. destruct (only_is args "postgres");
      [|by apply elem_of_nil in H].
    apply list_elem_of_fmap in H as (b & -> & Hb).
    eexists. split; [apply path_join_3|]. right. right. right.
    by exists b.
Qed.

(** What a run has written when it ends, whatever its end: a prefix of
    the files of the shapes followed by the manifest. *)
Lemma generateAll_written args env r files :
  generateAll args env = (r, files) →
  let c := dataset (Args.seed args) (Args.size args) in
  ∃ opt,
    toMongoOptimized c (toMongoNormalized c) (presets (Args.size args))
      = Some opt ∧
    files `prefix_of`
      shape_files args c (toMongoNormalized c) opt
      ++ [(path_join [Args.out args; "manifest.json"],
           ManifestJson (build_manifest args (presets (Args.size args)) c
                                        (toISOString (Env.now env))))].
Proof.
  intros H c.
  destruct (toMongoOptimized_defined c (presets (Args.size args)))
    as [opt Hopt].
  exists opt. split; [exact Hopt|].
  unfold generateAll in H.
  destruct (Env.fs_error env 0%nat);
    [injection H as _ <-; apply prefix_nil|].
  destruct (Env.manifest_exists env && negb (Args.overwrite args));
    [injection H as _ <-; apply prefix_nil|].
  change (generateCanonical (mulberry32 (Args.seed args))
                            (presets (Args.size args))).1 with c in H.
  rewrite Hopt in H.
  rewrite <- files_of_write_calls.
  pose proof (perform_prefix (λ k, Env.fs_error env (S k))
    (write_calls args c (toMongoNormalized c) opt
       (build_manifest args (presets (Args.size args)) c
                       (toISOString (Env.now env))))) as Hp.
  destruct (perform _ _) as [w [e|]]; injection H as _ <-; exact Hp.
Qed.

Lemma written_content args env r files f :
  generateAll args env = (r, files) → f ∈ files →
  let c := dataset (Args.seed args) (Args.size args) in
  ∃ opt,
    toMongoOptimized c (toMongoNormalized c) (presets (Args.size args))
      = Some opt ∧
    ((∃ rel, f.1 = Args.out args +:+ rel ∧ shape_content c opt rel f.2) ∨
     f.1 = Args.out args +:+ "/manifest.json").
Proof.
  intros H Hf c. destruct (generateAll_written _ _ _ _ H) as (opt & Hopt & Hp).
  exists opt. split; [exact Hopt|].
  apply (elem_of_prefix _ _ _ Hf) in Hp.
  apply elem_of_app in Hp as [Hp|Hp].
  - left. by apply shape_files_content.
  - right. apply list_elem_of_singleton in Hp. by subst f.
Qed.

(** The text of the manifest around its stamp. *)
Lemma manifest_text (m : Manifest.t) :
  ∃ before after, ∀ stamp,
    file_data (ManifestJson (with_stamp stamp m))
    = before +:+ json_str stamp +:+ after.
Proof.
  exists ("{" +:+ NL +:+ "  " +:+ json_str "datasetVersion" +:+ ": "
          +:+ json_str (Manifest.datasetVersion m) +:+ "," +:+ NL
          +:+ "  " +:+ json_str "generatedAt" +:+ ": ").
  eexists. intros stamp.
  unfold file_data, json_manifest, with_stamp.
  cbn [stringify_pretty map join stringify Manifest.datasetVersion
       Manifest.generatedAt Manifest.seed Manifest.size Manifest.presets
       Manifest.equivalenceRules Manifest.counts fst snd].
  rewrite !append_nil_l. rewrite !append_assoc.
  reflexivity.
Qed.

Lemma with_stamp_without_stamp m :
  with_stamp (Manifest.generatedAt m) (without_stamp m) = m.
Proof. by destruct m. Qed.

(** C1. What a run writes depends on the seed and the size alone. Take
    two runs on the same seed and size, whatever their output
    directories, selections of shapes, overwrite flags, clocks and file
    systems, and whether they end well or fail on the way: every file
    that both have written at the same place below their output
    directories, the manifest aside, holds the same bytes. When both
    succeed their manifests are equal but for the stamp, and the two
    manifest files are the same text around the stamp of each run; when
    they also agree on the directory and on the selection, they have
    written the same files in the same order, the manifest last. *)
Theorem generation_deterministic args1 args2 env1 env2 r1 r2 files1 files2 :
  Args.seed args1 = Args.seed args2 →
  Args.size args1 = Args.size args2 →
  generateAll args1 env1 = (r1, files1) →
  generateAll args2 env2 = (r2, files2) →
  (∀ rel d1 d2,
     (Args.out args1 +:+ rel, d1) ∈ files1 →
     (Args.out args2 +:+ rel, d2) ∈ files2 →
     rel ≠ "/manifest.json" →
     file_data d1 = file_data d2) ∧
  (∀ m1 m2, r1 = Ok m1 → r2 = Ok m2 →
     without_stamp m1 = without_stamp m2 ∧
     Manifest.generatedAt m1 = toISOString (Env.now env1) ∧
     Manifest.generatedAt m2 = toISOString (Env.now env2) ∧
     (∃ before after,
        file_data (ManifestJson m1)
          = before +:+ json_str (Manifest.generatedAt m1) +:+ after ∧
        file_data (ManifestJson m2)
          = before +:+ json_str (Manifest.generatedAt m2) +:+ after) ∧
     (Args.out args1 = Args.out args2 → Args.only args1 = Args.only args2 →
      ∃ written,
        files1 = written ++ [(Args.out args1 +:+ "/manifest.json",
                              ManifestJson m1)] ∧
        files2 = written ++ [(Args.out args1 +:+ "/manifest.json",
                              ManifestJson m2)])).
Proof.
  intros Hseed Hsize H1 H2. split.
  - intros rel d1 d2 Hf1 Hf2 Hrel.
    destruct (written_content _ _ _ _ _ H1 Hf1) as (opt1 & Ho1 & [Hc1|Hc1]).
    2: { apply append_inj_r in Hc1. done. }
    destruct (written_content _ _ _ _ _ H2 Hf2) as (opt2 & Ho2 & [Hc2|Hc2]).
    2: { apply append_inj_r in Hc2. done. }
    rewrite <- Hseed, <- Hsize in Ho2, Hc2.
    rewrite Ho1 in Ho2. injection Ho2 as <-.
    destruct Hc1 as (rel1 & Hr1 & Hc1). destruct Hc2 as (rel2 & Hr2 & Hc2).
    apply append_inj_r in Hr1, Hr2. subst rel1 rel2. cbn [snd] in Hc1, Hc2.
    f_equal. exact (shape_content_functional _ _ _ _ _ Hc1 Hc2).
  - intros m1 m2 -> ->.
    pose proof (generateAll_Ok _ _ _ _ H1) as Hm1.
    pose proof (generateAll_Ok _ _ _ _ H2) as Hm2.
    assert (without_stamp m1 = without_stamp m2) as Hw.
    { rewrite Hm1, Hm2. unfold without_stamp, build_manifest.
      cbn. by rewrite Hseed, Hsize. }
    split_and!.
    + exact Hw.
    + by rewrite Hm1.
    + by rewrite Hm2.
    + destruct (manifest_text (without_stamp m1)) as (before & after & Ht).
      exists before, after. split.
      * rewrite <- Ht. by rewrite with_stamp_without_stamp.
      * rewrite <- Ht, Hw. by rewrite with_stamp_without_stamp.
    + intros Hout Honly.
      destruct (generateAll_files _ _ _ _ H1) as (opt1 & Ho1 & ->).
      destruct (generateAll_files _ _ _ _ H2) as (opt2 & Ho2 & ->).
      rewrite <- Hseed, <- Hsize in Ho2. rewrite Ho1 in Ho2.
      injection Ho2 as <-.
      eexists. split; [reflexivity|].
      rewrite <- Hseed, <- Hsize, <- Hout. f_equal.
      unfold shape_files, canonical_files, normalized_files,
        optimized_files, postgres_files, only_is.
      by rewrite <- Hout, <- Honly.
Qed.

Lemma generation_deterministic_witness :
  let args1 := Args.mk "S" 42 "seed" "all" false in
  let args2 := Args.mk "S" 42 "other" "canonical" true in
  let env1 := Env.mk 0 false no_error in
  let env2 := Env.mk 1768694400001 true no_error in
  ∃ m1 files1 m2 files2,
    generateAll args1 env1 = (Ok m1, files1) ∧
    generateAll args2 env2 = (Ok m2, files2) ∧
    without_stamp m1 = without_stamp m2 ∧
    ∃ d1 d2,
      ("seed/canonical/accounts.ndjson", d1) ∈ files1 ∧
      ("other/canonical/accounts.ndjson", d2) ∈ files2 ∧
      file_data d1 = file_data d2.
Proof.
  intros args1 args2 env1 env2.
  assert (∃ m1 files1, generateAll args1 env1 = (Ok m1, files1))
    as (m1 & files1 & E1) by (eexists _, _; vm_compute; reflexivity).
  assert (∃ m2 files2, generateAll args2 env2 = (Ok m2, files2))
    as (m2 & files2 & E2) by (eexists _, _; vm_compute; reflexivity).
  pose proof (generation_deterministic args1 args2 env1 env2 _ _ _ _
                eq_refl eq_refl E1 E2) as [Hfiles Hm].
  exists m1, files1, m2, files2.
  split; [exact E1|]. split; [exact E2|].
  split; [exact (proj1 (Hm m1 m2 eq_refl eq_refl))|].
  destruct (generateAll_files _ _ _ _ E1) as (opt1 & _ & F1).
  destruct (generateAll_files _ _ _ _ E2) as (opt2 & _ & F2).
  eexists _, _.
  assert (∀ P Q R : Prop, P → Q → (P → Q → R) → P ∧ Q ∧ R) as Hand
    by tauto.
  apply Hand.
  - rewrite F1. apply elem_of_app. left. apply list_elem_of_here.
  - rewrite F2. apply elem_of_app. left. apply list_elem_of_here.
  - intros H1 H2.
    apply (Hfiles "/canonical/accounts.ndjson" _ _ H1 H2). discriminate.
Defined.

(** ** Runs that fail on the way *)

Lemma perform_error_before_last errors calls file data written e :
  perform errors (calls ++ [WriteFileSync file data]) = (written, Some e) →
  written `prefix_of` files_of calls.
Proof.
  revert errors written. induction calls as [|call calls IH];
    intros errors written; cbn [app perform].
  - destruct (errors 0%nat); [intros [= <- _]; apply prefix_nil|done].
  - destruct (errors 0%nat); [intros [= <- _]; apply prefix_nil|].
    destruct (perform _ (calls ++ _)) as [w o] eqn:Hp.
    destruct call as [dir|f d]; intros [= <- ->];
      cbn [files_of omap list_omap]; [|apply prefix_cons]; by apply (IH _ _ Hp).
Qed.

Lemma shape_files_not_manifest args c opt :
  Forall (λ f, f.1 ≠ path_join [Args.out args; "manifest.json"])
         (shape_files args c (toMongoNormalized c) opt).
Proof.
  apply Forall_forall. intros f Hf Hpath.
  apply shape_files_content in Hf as (rel & Hrel & Hc).
  rewrite Hrel, path_join_1 in Hpath. apply append_inj_r in Hpath.
  subst rel. by apply shape_content_not_manifest in Hc.
Qed.

(** X10. The manifest is the last file of a run and marks its success.
    A run that succeeds has written the files of the selected shapes,
    none of them at the path of the manifest, and then the manifest it
    returns. A run that throws, whether on the manifest test or on any
    call to the file system, has written no manifest: what it leaves is
    a prefix of the files of the shapes, and [main] ends with exit code
    1 and the message of the error after [ERROR: ]. *)
Theorem manifest_written_last args env r files :
  generateAll args env = (r, files) →
  let c := dataset (Args.seed args) (Args.size args) in
  let manifestPath := path_join [Args.out args; "manifest.json"] in
  ∃ opt,
    toMongoOptimized c (toMongoNormalized c) (presets (Args.size args))
      = Some opt ∧
    match r with
    | Ok m =>
        files = shape_files args c (toMongoNormalized c) opt
                ++ [(manifestPath, ManifestJson m)] ∧
        Forall (λ f, f.1 ≠ manifestPath)
               (shape_files args c (toMongoNormalized c) opt) ∧
        main_with (Ok args) env = Run.mk 0 None files
    | Throw e =>
        files `prefix_of` shape_files args c (toMongoNormalized c) opt ∧
        Forall (λ f, f.1 ≠ manifestPath) files ∧
        main_with (Ok args) env = Run.mk 1 (Some ("ERROR: " +:+ e)) files
    | Exit _ => False
    end.
Proof.
  intros H c manifestPath.
  destruct (toMongoOptimized_defined c (presets (Args.size args)))
    as [opt Hopt].
  exists opt. split; [exact Hopt|].
  assert (main_with (Ok args) env
          = match r with
            | Ok _ => Run.mk 0 None files
            | Throw e => Run.mk 1 (Some ("ERROR: " +:+ e)) files
            | Exit code => Run.mk code None files
            end) as Hmain.
  { unfold main_with. rewrite H. by destruct r. }
  destruct r as [m|e|code].
  - destruct (generateAll_files _ _ _ _ H) as (opt' & Hopt' & Hfiles).
    fold c in Hopt'. rewrite Hopt in Hopt'. injection Hopt' as <-.
    split_and!; [exact Hfiles|apply shape_files_not_manifest|exact Hmain].
  - assert (files `prefix_of` shape_files args c (toMongoNormalized c) opt)
      as Hp.
    { unfold generateAll in H.
      destruct (Env.fs_error env 0%nat);
        [injection H as _ <-; apply prefix_nil|].
      destruct (Env.manifest_exists env && negb (Args.overwrite args));
        [injection H as _ <-; apply prefix_nil|].
      change (generateCanonical (mulberry32 (Args.seed args))
                                (presets (Args.size args))).1 with c in H.
      rewrite Hopt in H.
      destruct (perform _ _) as [w [e'|]] eqn:Hperf; [|done].
      injection H as _ <-.
      unfold write_calls, safeWrite in Hperf. cbn [fst snd] in Hperf.
      rewrite !app_assoc in Hperf.
      change [MkdirSync (Args.out args);
              WriteFileSync (path_join [Args.out args; "manifest.json"])
                (ManifestJson (build_manifest args (presets (Args.size args))
                                 c (toISOString (Env.now env))))]
        with ([MkdirSync (Args.out args)]
              ++ [WriteFileSync (path_join [Args.out args; "manifest.json"])
                    (ManifestJson (build_manifest args
                                     (presets (Args.size args)) c
                                     (toISOString (Env.now env))))])
        in Hperf.
      rewrite app_assoc in Hperf.
      apply perform_error_before_last in Hperf.
      pose proof (files_of_write_calls args c (toMongoNormalized c) opt
                    (build_manifest args (presets (Args.size args)) c
                                    (toISOString (Env.now env)))) as Hall.
      unfold write_calls, safeWrite in Hall. cbn [fst snd] in Hall.
      rewrite !app_assoc in Hall.
      change [MkdirSync (Args.out args);
              WriteFileSync (path_join [Args.out args; "manifest.json"])
                (ManifestJson (build_manifest args (presets (Args.size args))
                                 c (toISOString (Env.now env))))]
        with ([MkdirSync (Args.out args)]
              ++ [WriteFileSync (path_join [Args.out args; "manifest.json"])
                    (ManifestJson (build_manifest args
                                     (presets (Args.size args)) c
                                     (toISOString (Env.now env))))])
        in Hall.
      rewrite app_assoc, (files_of_app _ [WriteFileSync _ _]) in Hall.
      cbn [files_of omap list_omap] in Hall.
      apply app_inj_tail in Hall as [Hall _].
      by rewrite Hall in Hperf. }
    split_and!; [exact Hp| |exact Hmain].
    destruct Hp as [rest Hrest].
    pose proof (shape_files_not_manifest args c opt) as Hn.
    rewrite Hrest in Hn. by apply Forall_app in Hn as [Hn _].
  - unfold generateAll in H.
    destruct (Env.fs_error env 0%nat); [done|].
    destruct (Env.manifest_exists env && negb (Args.overwrite args)); [done|].
    destruct (toMongoOptimized _ _ _); [|done].
    by destruct (perform _ _) as [w [e'|]].
Qed.

Lemma manifest_written_last_witness :
  let args := Args.mk "S" 42 "seed" "canonical" false in
  let env := Env.mk 0 false
               (λ k, if decide (k = 5%nat) then Some "EACCES" else None) in
  (generateAll args env).1 = Throw "EACCES" ∧
  map fst (generateAll args env).2
    = ["seed/canonical/accounts.ndjson"; "seed/canonical/subscribers.ndjson";
       "seed/canonical/subscriber_profiles.ndjson"] ∧
  main_with (Ok args) env
    = Run.mk 1 (Some "ERROR: EACCES") (generateAll args env).2.
Proof.
  intros args env.
  assert ((generateAll args env).1 = Throw "EACCES") as Hr
    by (vm_compute; reflexivity).
  split; [exact Hr|]. split; [vm_compute; reflexivity|].
  destruct (manifest_written_last args env _ _
              (surjective_pairing (generateAll args env)))
    as (opt & _ & H).
  rewrite Hr in H. exact (proj2 (proj2 H)).
Defined.

(** ** The items of an order *)

Lemma rng_t_next f s : rng_t (next_id f s).2 = rng_t s.
Proof. reflexivity. Qed.

Lemma rng_t_rng s : rng_t (rng s).2 = (mulberry32_step (rng_t s)).1.
Proof. unfold rng. by destruct (mulberry32_step (rng_t s)). Qed.

Lemma rng_t_choice `{Inhabited A} (arr : list A) s :
  rng_t (choice arr s).2 = (mulberry32_step (rng_t s)).1.
Proof.
  unfold choice, bind. pose proof (rng_t_rng s) as Hr.
  by destruct (rng s).
Qed.

Lemma rng_t_intBetween lo hi s :
  rng_t (intBetween lo hi s).2 = (mulberry32_step (rng_t s)).1.
Proof.
  unfold intBetween, bind. pose proof (rng_t_rng s) as Hr.
  by destruct (rng s).
Qed.

Lemma prefix_take_length {A} (l k : list A) :
  l `prefix_of` k → l = take (length l) k.
Proof. intros [r ->]. by rewrite take_app_length. Qed.

(** The items [genOrder] makes in the state [s]: one for each of the
    first entries of the catalog as the loop of [shuffle] leaves it on
    the indices drawn after the three draws for the status, the hour and
    the number of items. *)
Lemma genOrder_skus cfg acct s :
  let r := (genOrder cfg acct s).1 in
  map item_sku r.2
  = take (length r.2)
         (shuffle_by 7 (shuffle_draws 7 (rng_after 3 (rng_t s))) ORDER_SKUS).
Proof.
  unfold genOrder, bind.
  pose proof (rng_t_next orderId s) as E1.
  destruct (next_id orderId s) as [oid s1]. cbn [snd] in E1.
  pose proof (rng_t_choice ["submitted"; "fulfilled"; "canceled"] s1) as E2.
  destruct (choice _ s1) as [status s2]. cbn [snd] in E2.
  pose proof (rng_t_intBetween 1 36 s2) as E3.
  destruct (intBetween 1 36 s2) as [h s3]. cbn [snd] in E3.
  pose proof (rng_t_intBetween (Cfg.itemsPerOrderMin cfg)
                               (Cfg.itemsPerOrderMax cfg) s3) as E4.
  destruct (intBetween _ _ s3) as [itemsCount s4]. cbn [snd] in E4.
  pose proof (shuffle_loop_by 7 ORDER_SKUS s4) as E5.
  change (shuffle_loop 7 ORDER_SKUS s4) with (shuffle ORDER_SKUS s4) in E5.
  destruct (shuffle ORDER_SKUS s4) as [sh s5]. cbn [fst] in E5.
  pose proof (post_mapM
    (λ sk, let* iid := next_id orderItemId in
           ret (OrderItem.mk iid oid (Sku.sku sk) 1 (Sku.priceCents sk)))
    (λ sk it, item_sku it = sk) (slice0 itemsCount sh)) as E6.
  specialize (E6 ltac:(intros sk _ s'; by destruct sk) s5).
  destruct (mapM _ _ s5) as [items s6]. unfold ret. cbn [fst snd] in *.
  cbn zeta.
  assert (map item_sku items = slice0 itemsCount sh) as Hskus.
  { clear -E6. induction E6 as [|sk it ss its Hs _ IH]; simpl; [done|].
    by rewrite Hs, IH. }
  rewrite Hskus, <- (length_map item_sku items), Hskus.
  assert (rng_t s4 = rng_after 3 (rng_t s)) as <-.
  { rewrite E4, E3, E2, E1. reflexivity. }
  rewrite <- E5. apply prefix_take_length, prefix_slice0.
Qed.

(** C10. In every generated dataset the items of an order number between
    the preset's minimum and maximum, carry pairwise distinct SKUs, have
    quantity 1 and the catalog price of their SKU. The order and its
    items are what [genOrder] returns in some state, and in every state
    the SKUs of the items [genOrder] returns are the first entries of the
    eight-entry catalog as the loop of [shuffle] leaves it: for i = 7
    down to 1 it swaps the entries i and j, where j is
    [Math.floor(rng() * (i + 1))] on the draws that follow the three
    draws for the status, the hour and the number of items. The shuffle
    is unbiased in that every arrangement of the catalog comes from
    exactly one choice of the indices, and the index j of i + 1 is taken
    exactly when the draw lies between j / (i + 1) and (j + 1) / (i + 1). *)
Theorem order_items_from_catalog seed size o :
  o ∈ Canonical.orders (dataset seed size) →
  let its := items_of (dataset seed size) o in
  Cfg.itemsPerOrderMin (presets size) ≤ Z.of_nat (length its)
    ≤ Cfg.itemsPerOrderMax (presets size) ∧
  NoDup (map OrderItem.sku its) ∧
  (∃ a s, (genOrder (presets size) a s).1 = (o, its) ∧
          map item_sku its
          = take (length its)
                 (shuffle_by 7 (shuffle_draws 7 (rng_after 3 (rng_t s)))
                             ORDER_SKUS)) ∧
  (∀ cfg a s,
     let r := (genOrder cfg a s).1 in
     let js := shuffle_draws 7 (rng_after 3 (rng_t s)) in
     indices_ok 7 js ∧
     map item_sku r.2 = take (length r.2) (shuffle_by 7 js ORDER_SKUS)) ∧
  (∀ p, p ≡ₚ ORDER_SKUS →
        ∃ js, indices_ok 7 js ∧ shuffle_by 7 js ORDER_SKUS = p ∧
              ∀ js', indices_ok 7 js' → shuffle_by 7 js' ORDER_SKUS = p →
                     js' = js) ∧
  (∀ u n j, 0 ≤ u < two32 → 0 < n ≤ 8 →
            mulfloor u n = j ↔ j * two32 ≤ u * n < (j + 1) * two32) ∧
  Forall (λ it, OrderItem.qty it = 1 ∧
            ∃ e, e ∈ ORDER_SKUS ∧ Sku.sku e = OrderItem.sku it ∧
                 Sku.priceCents e = OrderItem.priceCents it) its.
Proof.
  intros Ho. destruct (items_of_generated seed size o Ho)
    as (a & its & (_ & Hits & Hnd & Hgen & Hlen) & ->).
  assert (NoDup ORDER_SKUS) as Hcat.
  { apply (NoDup_fmap_1 Sku.sku). apply NoDup_ORDER_SKUS. }
  cbn [fst snd] in *. cbn zeta.
  split; [|split; [|split; [|split; [|split; [|split]]]]].
  - apply Hlen; destruct (presets_cases size) as [->|[->| ->]]; simpl; lia.
  - done.
  - destruct Hgen as [s Hs]. exists a, s. split; [done|].
    pose proof (genOrder_skus (presets size) a s) as Hsk.
    cbn zeta in Hsk. by rewrite <- Hs in Hsk.
  - intros cfg a' s. split.
    + apply shuffle_draws_ok. unfold two21. simpl. lia.
    + apply genOrder_skus.
  - intros p Hp.
    destruct (shuffle_by_surj 7 ORDER_SKUS p Hcat) as (js & Hjs & E).
    + simpl. lia.
    + done.
    + assert (length p = 8%nat) as Hl by (by rewrite Hp).
      change (drop 8 ORDER_SKUS) with (@nil Sku.t).
      apply drop_ge. lia.
    + exists js. split; [done|]. split; [done|].
      intros js' Hjs' E'. apply (shuffle_by_inj 7 ORDER_SKUS); try done.
      * simpl. lia.
      * by rewrite E, E'.
  - intros u n j Hu Hn. apply mulfloor_index; [done|]. unfold two21. lia.
  - eapply Forall_impl; [exact Hits|].
    intros it (_ & Hq & Hcat'). split; [done|]. by exists (item_sku it).
Qed.

Lemma order_items_from_catalog_witness :
  ∃ o, Canonical.orders (dataset 42 "S") !! 0%nat = Some o ∧
       NoDup (map OrderItem.sku (items_of (dataset 42 "S") o)) ∧
       length (items_of (dataset 42 "S") o) = 3%nat.
Proof.
  eexists. split; [vm_compute; reflexivity|]. split.
  - eapply (order_items_from_catalog 42 "S").
    apply list_elem_of_lookup. exists 0%nat. vm_compute. reflexivity.
  - vm_compute. reflexivity.
Defined.
